(** * IAMF tools: bit reader, trim validation, parameter definitions,
      renderer input, wav writer, OBU sequencer

    A shallow embedding of
      - [iamf/common/read_bit_buffer.cc] (module [ReadBitBuffer]),
      - [iamf/cli/cli_util.cc]           (module [CliUtil]),
      - [iamf/cli/renderer/audio_element_renderer_base.cc]
        (module [AudioElementRenderer]),
      - [iamf/cli/wav_writer.cc]         (module [WavWriter]),
      - the OBU sequencer exercised by [iamf/cli/tests/obu_sequencer_test.cc]
        (module [ObuSequencer]),
    followed by the properties proved about them.  The first half of the file
    holds the definitions, the second half the lemmas and theorems. *)

From stdpp Require Import base option list strings gmap sorting.
From Stdlib Require Import ZArith Lia Strings.Byte.

Open Scope Z_scope.

(** ** Status codes ([absl::Status]) *)

Inductive StatusCode : Set :=
| kOk
| kInvalidArgument
| kOutOfRange
| kResourceExhausted
| kFailedPrecondition
| kUnknown.

#[global] Instance StatusCode_eq_dec : EqDecision StatusCode.
Proof. solve_decision. Defined.

Definition is_ok (s : StatusCode) : bool :=
  match s with kOk => true | _ => false end.

(** ** Fixed-width integers

    C++ integers are carried as [Z]; a conversion to a narrower or unsigned
    type is written out where the source performs one. *)

Definition to_uint8 (z : Z) : Z := z mod 2 ^ 8.
Definition to_uint32 (z : Z) : Z := z mod 2 ^ 32.
Definition to_uint64 (z : Z) : Z := z mod 2 ^ 64.

(** Conversion to [int] (two's complement, 32 bits). *)
Definition to_int32 (z : Z) : Z := (z + 2 ^ 31) mod 2 ^ 32 - 2 ^ 31.

(** Conversion to [int16_t] (two's complement, 16 bits). *)
Definition to_int16 (z : Z) : Z := (z + 2 ^ 15) mod 2 ^ 16 - 2 ^ 15.

Definition byte_to_Z (b : byte) : Z := Z.of_N (Byte.to_N b).

Definition byte_of_Z (z : Z) : byte :=
  match Byte.of_N (Z.to_N (to_uint8 z)) with
  | Some b => b
  | None => x00
  end.

(** [std::vector<uint8_t>::size()]. *)
Definition vsize (v : list byte) : Z := Z.of_nat (length v).

(** [std::vector<uint8_t>::at(i)], read as a [uint8_t].  Every caller below
    guards the index with [i < size()], so the out-of-range exception of
    [at] is never raised; the default only makes the function total. *)
Definition vbyte (v : list byte) (i : Z) : byte := nth (Z.to_nat i) v x00.

Definition vat (v : list byte) (i : Z) : Z := byte_to_Z (vbyte v i).

(** [v.resize(n, 0)]. *)
Definition vresize (v : list byte) (n : Z) : list byte :=
  take (Z.to_nat n) v ++ replicate (Z.to_nat n - length v)%nat x00.

(** [v[i] = b] on an index inside the vector. *)
Definition vset (v : list byte) (i : Z) (b : Z) : list byte :=
  <[Z.to_nat i := byte_of_Z b]> v.

Module ReadBitBuffer.

(** *** The reader's state ([class ReadBitBuffer])

    [source_] is the vector behind the pointer member; [capacity] is
    [bit_buffer_.capacity()], fixed by [reserve] in the constructor: the
    loading loop never grows [bit_buffer_] beyond it. *)
Record t : Type := mk {
  source_ : list byte;
  source_bit_offset_ : Z;
  bit_buffer_ : list byte;
  capacity : Z;
  buffer_bit_offset_ : Z;
  buffer_size_ : Z;
}.

(** [ReadBitBuffer::ReadBitBuffer(capacity, source)]. *)
Definition create (capacity : Z) (source : list byte) : t :=
  mk source 0 [] capacity 0 0.

(** Modelled from the spec: [kMaxLeb128Size] of [iamf/obu/types.h], which is
    not among the sources; a ULEB128 has at most 8 bytes. *)
Definition kMaxLeb128Size : Z := 8.

(** [ShouldRead]: the quotient is an [int64_t] compared with a [size_t]. *)
Definition ShouldRead (source_offset : Z) (source : list byte)
    (remaining_bits_to_read : Z) : bool :=
  let valid_bit_offset := to_uint64 (Z.quot source_offset 8) <? vsize source in
  let bits_to_read := 0 <? remaining_bits_to_read in
  valid_bit_offset && bits_to_read.

Definition CanReadByteAligned (buffer_bit_offset num_bits : Z) : bool :=
  let buffer_bit_offset_is_aligned := Z.rem buffer_bit_offset 8 =? 0 in
  let num_bits_to_read_is_aligned := Z.rem num_bits 8 =? 0 in
  buffer_bit_offset_is_aligned && num_bits_to_read_is_aligned.

(** [GetUpperBit]: bit [offset] of the data, most significant bit first. *)
Definition GetUpperBit (offset : Z) (source_data : list byte) : Z :=
  let byteIndex := Z.quot offset 8 in
  let bitIndex := to_uint8 (7 - Z.rem offset 8) in
  Z.land (Z.shiftr (vat source_data byteIndex) bitIndex) 1.

(** [ReadUnsignedLiteralBits]: the [while] loop, one iteration per unit of
    fuel; every iteration decrements [remaining_bits_to_read], so
    [Z.to_nat remaining_bits_to_read] iterations exhaust it. *)
Fixpoint ReadUnsignedLiteralBits_loop (fuel : nat) (buffer_bit_offset : Z)
    (bit_buffer : list byte) (buffer_size : Z) (remaining_bits_to_read : Z)
    (output : Z) : Z * Z * Z :=
  match fuel with
  | O => (buffer_bit_offset, remaining_bits_to_read, output)
  | S fuel' =>
      if (to_uint64 (Z.quot buffer_bit_offset 8) <? vsize bit_buffer)
         && (0 <? remaining_bits_to_read)
         && (buffer_bit_offset <? buffer_size)
      then
        let upper_bit := GetUpperBit buffer_bit_offset bit_buffer in
        let output :=
          Z.lor output
            (to_uint64 (Z.shiftl upper_bit (remaining_bits_to_read - 1))) in
        ReadUnsignedLiteralBits_loop fuel' (buffer_bit_offset + 1) bit_buffer
          buffer_size (remaining_bits_to_read - 1) output
      else (buffer_bit_offset, remaining_bits_to_read, output)
  end.

Definition ReadUnsignedLiteralBits (buffer_bit_offset : Z)
    (bit_buffer : list byte) (buffer_size : Z) (remaining_bits_to_read : Z)
    (output : Z) : Z * Z * Z :=
  ReadUnsignedLiteralBits_loop (Z.to_nat remaining_bits_to_read)
    buffer_bit_offset bit_buffer buffer_size remaining_bits_to_read output.

(** [ReadUnsignedLiteralBytes]: eight bits per iteration. *)
Fixpoint ReadUnsignedLiteralBytes_loop (fuel : nat) (buffer_bit_offset : Z)
    (bit_buffer : list byte) (remaining_bits_to_read : Z) (output : Z)
    : Z * Z * Z :=
  match fuel with
  | O => (buffer_bit_offset, remaining_bits_to_read, output)
  | S fuel' =>
      if (to_uint64 (Z.quot buffer_bit_offset 8) <? vsize bit_buffer)
         && (0 <? remaining_bits_to_read)
      then
        let output := to_uint64 (Z.shiftl output 8) in
        let output := Z.lor output (vat bit_buffer (Z.quot buffer_bit_offset 8)) in
        ReadUnsignedLiteralBytes_loop fuel' (buffer_bit_offset + 8) bit_buffer
          (remaining_bits_to_read - 8) output
      else (buffer_bit_offset, remaining_bits_to_read, output)
  end.

Definition ReadUnsignedLiteralBytes (buffer_bit_offset : Z)
    (bit_buffer : list byte) (remaining_bits_to_read : Z) (output : Z)
    : Z * Z * Z :=
  ReadUnsignedLiteralBytes_loop (Z.to_nat remaining_bits_to_read)
    buffer_bit_offset bit_buffer remaining_bits_to_read output.

(** Modelled from the spec: [CanWriteBits] and [WriteBit] of
    [iamf/common/bit_buffer_util.h], which is not among the sources.  With
    [allow_resizing] the vector is grown with zero bytes until it holds bit
    [bit_offset + num_bits - 1]; without it a short vector is refused. *)
Definition CanWriteBits (allow_resizing : bool) (num_bits bit_offset : Z)
    (bit_buffer : list byte) : StatusCode * list byte :=
  if bit_offset + num_bits <=? vsize bit_buffer * 8 then (kOk, bit_buffer)
  else if negb allow_resizing then (kResourceExhausted, bit_buffer)
  else
    let required_bytes :=
      Z.quot (bit_offset + num_bits) 8
      + (if Z.rem (bit_offset + num_bits) 8 =? 0 then 0 else 1) in
    (kOk, vresize bit_buffer required_bytes).

(** [WriteBit] sets or clears bit [bit_offset] (most significant bit first)
    and advances the offset. *)
Definition WriteBit (bit : Z) (bit_offset : Z) (bit_buffer : list byte)
    : StatusCode * Z * list byte :=
  if bit_offset <? 0 then (kInvalidArgument, bit_offset, bit_buffer)
  else
    let bit_mask := to_uint8 (Z.shiftl 1 (7 - Z.rem bit_offset 8)) in
    let index := Z.quot bit_offset 8 in
    let old := vat bit_buffer index in
    let new :=
      if bit =? 0 then Z.land old (to_uint8 (Z.lnot bit_mask))
      else Z.lor old bit_mask in
    (kOk, bit_offset + 1, vset bit_buffer index new).

(** [ReadBitBuffer::DiscardAllBits]. *)
Definition DiscardAllBits (rb : t) : t :=
  mk (source_ rb) (source_bit_offset_ rb) [] (capacity rb) 0 0.

(** The state of the loading loop of [LoadBits]: the reader, [bits_loaded]
    and [bit_buffer_write_offset]. *)
Record LoadState : Type := mkLoad {
  ld_rb : t;
  ld_bits_loaded : Z;
  ld_write_offset : Z;
}.

(** The [while] loop of [LoadBits].  Every iteration loads at least one bit,
    so [Z.to_nat num_bits_to_load] iterations reach the exit condition.  A
    status other than [kOk] is the early [RETURN_IF_NOT_OK]. *)
Fixpoint LoadBits_loop (fuel : nat) (num_bits_to_load : Z) (s : LoadState)
    : StatusCode * LoadState :=
  match fuel with
  | O => (kOk, s)
  | S fuel' =>
      let rb := ld_rb s in
      let bits_loaded := ld_bits_loaded s in
      let bit_buffer_write_offset := ld_write_offset s in
      if ShouldRead (source_bit_offset_ rb) (source_ rb)
           (num_bits_to_load - bits_loaded)
         && negb (vsize (bit_buffer_ rb) =? capacity rb)
      then
        if negb (Z.rem (num_bits_to_load - bits_loaded) 8 =? 0)
           || negb (Z.rem (source_bit_offset_ rb) 8 =? 0)
           || negb (Z.rem bit_buffer_write_offset 8 =? 0)
        then
          (* Load bit by bit *)
          let loaded_bit := GetUpperBit (source_bit_offset_ rb) (source_ rb) in
          let '(st1, buf1) :=
            CanWriteBits true 1 bit_buffer_write_offset (bit_buffer_ rb) in
          if negb (is_ok st1) then
            (st1, mkLoad (mk (source_ rb) (source_bit_offset_ rb) buf1
                            (capacity rb) (buffer_bit_offset_ rb)
                            (buffer_size_ rb))
                    bits_loaded bit_buffer_write_offset)
          else
            let '(st2, off2, buf2) :=
              WriteBit loaded_bit bit_buffer_write_offset buf1 in
            if negb (is_ok st2) then
              (st2, mkLoad (mk (source_ rb) (source_bit_offset_ rb) buf2
                              (capacity rb) (buffer_bit_offset_ rb)
                              (buffer_size_ rb))
                      bits_loaded off2)
            else
              LoadBits_loop fuel' num_bits_to_load
                (mkLoad (mk (source_ rb) (source_bit_offset_ rb + 1) buf2
                           (capacity rb) (buffer_bit_offset_ rb)
                           (buffer_size_ rb + 1))
                   (bits_loaded + 1) off2)
        else
          (* Load byte by byte *)
          let pushed :=
            bit_buffer_ rb
            ++ [vbyte (source_ rb) (Z.quot (source_bit_offset_ rb) 8)] in
          LoadBits_loop fuel' num_bits_to_load
            (mkLoad (mk (source_ rb) (source_bit_offset_ rb + 8) pushed
                       (capacity rb) (buffer_bit_offset_ rb)
                       (buffer_size_ rb + 8))
               (bits_loaded + 8) bit_buffer_write_offset)
      else (kOk, s)
  end.

(** [ReadBitBuffer::LoadBits].  [bit_capacity] and [original_source_offset]
    are [int] locals: the conversions are written out. *)
Definition LoadBits (required_num_bits : Z) (fill_to_capacity : bool) (rb : t)
    : StatusCode * t :=
  let rb := DiscardAllBits rb in
  let bit_capacity := to_int32 (to_uint64 (capacity rb * 8)) in
  if fill_to_capacity && (bit_capacity <? required_num_bits) then
    (kInvalidArgument, rb)
  else
    let num_bits_to_load :=
      if fill_to_capacity then bit_capacity else required_num_bits in
    let original_source_offset := to_int32 (source_bit_offset_ rb) in
    let '(st, s) :=
      LoadBits_loop (Z.to_nat num_bits_to_load) num_bits_to_load
        (mkLoad rb 0 0) in
    if negb (is_ok st) then (st, ld_rb s)
    else if ld_bits_loaded s <? required_num_bits then
      (kResourceExhausted,
       DiscardAllBits
         (mk (source_ (ld_rb s)) original_source_offset (bit_buffer_ (ld_rb s))
            (capacity (ld_rb s)) (buffer_bit_offset_ (ld_rb s))
            (buffer_size_ (ld_rb s))))
    else (kOk, ld_rb s).

Section Reading.

(** The default argument of [fill_to_capacity] in the declaration of
    [LoadBits] ([read_bit_buffer.h], not among the sources) is taken as a
    parameter of everything that calls [LoadBits] without it. *)
Variable fill_to_capacity_default : bool.

(** The branch repeated twice in [ReadUnsignedLiteralInternal]; note that the
    test is on [num_bits], not on the bits that remain. *)
Definition read_literal_step (num_bits : Z) (rb : t)
    (remaining_bits_to_read output : Z) : t * Z * Z :=
  if CanReadByteAligned (buffer_bit_offset_ rb) num_bits then
    let '(off, remaining, output) :=
      ReadUnsignedLiteralBytes (buffer_bit_offset_ rb) (bit_buffer_ rb)
        remaining_bits_to_read output in
    (mk (source_ rb) (source_bit_offset_ rb) (bit_buffer_ rb) (capacity rb)
       off (buffer_size_ rb), remaining, output)
  else
    let '(off, remaining, output) :=
      ReadUnsignedLiteralBits (buffer_bit_offset_ rb) (bit_buffer_ rb)
        (buffer_size_ rb) remaining_bits_to_read output in
    (mk (source_ rb) (source_bit_offset_ rb) (bit_buffer_ rb) (capacity rb)
       off (buffer_size_ rb), remaining, output).

(** [ReadBitBuffer::ReadUnsignedLiteralInternal]; [output] is the reference
    parameter, returned next to the status and the reader. *)
Definition ReadUnsignedLiteralInternal (num_bits max_num_bits : Z)
    (output : Z) (rb : t) : StatusCode * Z * t :=
  if max_num_bits <? num_bits then (kInvalidArgument, output, rb)
  else if buffer_bit_offset_ rb <? 0 then (kUnknown, output, rb)
  else
    let output := 0 in
    let remaining_bits_to_read := num_bits in
    let '(rb, remaining_bits_to_read, output) :=
      read_literal_step num_bits rb remaining_bits_to_read output in
    if negb (remaining_bits_to_read =? 0) then
      let '(st, rb) :=
        LoadBits remaining_bits_to_read fill_to_capacity_default rb in
      if negb (is_ok st) then (st, output, rb)
      else
        let '(rb, _, output) :=
          read_literal_step num_bits rb remaining_bits_to_read output in
        (kOk, output, rb)
    else (kOk, output, rb).

(** The four overloads of [ReadBitBuffer::ReadUnsignedLiteral]. *)
Definition ReadUnsignedLiteral_uint64 (num_bits : Z) (output : Z) (rb : t)
    : StatusCode * Z * t :=
  ReadUnsignedLiteralInternal num_bits 64 output rb.

Definition ReadUnsignedLiteral_uint32 (num_bits : Z) (output : Z) (rb : t)
    : StatusCode * Z * t :=
  let '(st, value, rb') := ReadUnsignedLiteralInternal num_bits 32 0 rb in
  if negb (is_ok st) then (st, output, rb')
  else (kOk, to_uint32 value, rb').

Definition ReadUnsignedLiteral_uint16 (num_bits : Z) (output : Z) (rb : t)
    : StatusCode * Z * t :=
  let '(st, value, rb') := ReadUnsignedLiteralInternal num_bits 16 0 rb in
  if negb (is_ok st) then (st, output, rb')
  else (kOk, value mod 2 ^ 16, rb').

Definition ReadUnsignedLiteral_uint8 (num_bits : Z) (output : Z) (rb : t)
    : StatusCode * Z * t :=
  let '(st, value, rb') := ReadUnsignedLiteralInternal num_bits 8 0 rb in
  if negb (is_ok st) then (st, output, rb')
  else (kOk, to_uint8 value, rb').

(** [ByteAccumulator]: (byte, index, accumulated value) to the new
    accumulated value, all [uint64_t]. *)
Definition ByteAccumulator : Type := Z -> Z -> Z -> Z.

Definition little_endian_accumulator : ByteAccumulator :=
  fun byte index accumulated_value =>
    Z.lor accumulated_value
      (to_uint64 (Z.shiftl (Z.land byte 0x7f) (7 * index))).

Definition big_endian_accumulator : ByteAccumulator :=
  fun byte _ accumulated_value =>
    Z.lor (to_uint64 (Z.shiftl accumulated_value 7)) (Z.land byte 0x7f).

(** [AccumulateUleb128Byte]: status, [is_terminal_block], [accumulated_value]. *)
Definition AccumulateUleb128Byte (accumulator : ByteAccumulator)
    (max_output : Z) (byte : Z) (index : Z) (accumulated_value : Z)
    : StatusCode * bool * Z :=
  let accumulated_value := accumulator byte index accumulated_value in
  let is_terminal_block := Z.land byte 0x80 =? 0 in
  if (index =? kMaxLeb128Size - 1) && negb is_terminal_block then
    (kInvalidArgument, is_terminal_block, accumulated_value)
  else if max_output <? accumulated_value then
    (kInvalidArgument, is_terminal_block, accumulated_value)
  else (kOk, is_terminal_block, accumulated_value).

(** What [AccumulateUleb128OrIso14496_1Internal] and its loop leave behind. *)
Record Accumulated : Type := mkAcc {
  acc_status : StatusCode;
  acc_rb : t;
  acc_value : Z;
  acc_encoded_size : Z;
}.

(** The [for] loop of [AccumulateUleb128OrIso14496_1Internal], [iters]
    iterations from index [i] on. *)
Fixpoint Accumulate_loop (iters : nat) (i : Z) (accumulator : ByteAccumulator)
    (max_output : Z) (rb : t) (accumulated_value byte encoded_size : Z)
    : Accumulated :=
  match iters with
  | O => mkAcc kOk rb accumulated_value encoded_size
  | S iters' =>
      let '(st, byte, rb) := ReadUnsignedLiteral_uint64 8 byte rb in
      if negb (is_ok st) then mkAcc st rb accumulated_value encoded_size
      else
        let encoded_size := encoded_size + 1 in
        let '(st, terminal_block, accumulated_value) :=
          AccumulateUleb128Byte accumulator max_output byte i
            accumulated_value in
        if negb (is_ok st) then mkAcc st rb accumulated_value encoded_size
        else if terminal_block then
          mkAcc kOk rb accumulated_value encoded_size
        else
          Accumulate_loop iters' (i + 1) accumulator max_output rb
            accumulated_value byte encoded_size
  end.

(** [AccumulateUleb128OrIso14496_1Internal]: [acc_value] is [output], which
    keeps the caller's value unless the status is [kOk]. *)
Definition AccumulateUleb128OrIso14496_1Internal
    (accumulator : ByteAccumulator) (max_output : Z) (rb : t) (output : Z)
    : Accumulated :=
  let r :=
    Accumulate_loop (Z.to_nat kMaxLeb128Size) 0 accumulator max_output rb 0 0 0 in
  if negb (is_ok (acc_status r)) then
    mkAcc (acc_status r) (acc_rb r) output (acc_encoded_size r)
  else mkAcc kOk (acc_rb r) (to_uint32 (acc_value r)) (acc_encoded_size r).

(** [ReadBitBuffer::ReadULeb128(uleb128, encoded_uleb128_size)]. *)
Definition ReadULeb128 (rb : t) (uleb128 : Z) : Accumulated :=
  let kMaxUleb128 := 2 ^ 32 - 1 in
  AccumulateUleb128OrIso14496_1Internal little_endian_accumulator kMaxUleb128
    rb uleb128.

(** [ReadBitBuffer::ReadIso14496_1Expanded]. *)
Definition ReadIso14496_1Expanded (max_class_size : Z) (rb : t)
    (size_of_instance : Z) : Accumulated :=
  AccumulateUleb128OrIso14496_1Internal big_endian_accumulator max_class_size
    rb size_of_instance.

End Reading.

(** The overloads of [ReadUnsignedLiteral], selected by the type of the
    output argument. *)
Inductive OutputType : Set := Uint8 | Uint16 | Uint32 | Uint64.

Definition width (ty : OutputType) : Z :=
  match ty with Uint8 => 8 | Uint16 => 16 | Uint32 => 32 | Uint64 => 64 end.

Definition ReadUnsignedLiteral (fill_to_capacity_default : bool)
    (ty : OutputType) (num_bits : Z) (output : Z) (rb : t)
    : StatusCode * Z * t :=
  match ty with
  | Uint8 => ReadUnsignedLiteral_uint8 fill_to_capacity_default num_bits output rb
  | Uint16 => ReadUnsignedLiteral_uint16 fill_to_capacity_default num_bits output rb
  | Uint32 => ReadUnsignedLiteral_uint32 fill_to_capacity_default num_bits output rb
  | Uint64 => ReadUnsignedLiteral_uint64 fill_to_capacity_default num_bits output rb
  end.

(** [ReadBitBuffer::IsDataAvailable]. *)
Definition IsDataAvailable (rb : t) : bool :=
  let valid_data_in_buffer :=
    (0 <=? buffer_bit_offset_ rb) && (buffer_bit_offset_ rb <? buffer_size_ rb) in
  let valid_data_in_source :=
    (0 <=? source_bit_offset_ rb)
    && (to_uint64 (Z.quot (source_bit_offset_ rb) 8) <? vsize (source_ rb)) in
  valid_data_in_buffer || valid_data_in_source.

(** *** Vocabulary of the statements about the reader *)

(** The bits of the source that the reader has not loaded yet. *)
Definition source_bits_left (rb : t) : Z :=
  8 * vsize (source_ rb) - source_bit_offset_ rb.

(** The source offset lies inside the source, and the source is short enough
    for a bit offset into it to fit an [int] (under 256 MiB). *)
Definition source_in_int_range (rb : t) : Prop :=
  0 <= source_bit_offset_ rb <= 8 * vsize (source_ rb)
  /\ 8 * vsize (source_ rb) < 2 ^ 31.

(** [bit_capacity] of [LoadBits]. *)
Definition bit_capacity (rb : t) : Z := to_int32 (to_uint64 (capacity rb * 8)).

(** The bytes a byte-aligned reader has yet to deliver: the unread part of the
    bit buffer, then the part of the source not loaded yet. *)
Definition pending (rb : t) : list byte :=
  drop (Z.to_nat (buffer_bit_offset_ rb / 8)) (bit_buffer_ rb)
  ++ drop (Z.to_nat (source_bit_offset_ rb / 8)) (source_ rb).

(** The continuation bit of a ULEB128 byte. *)
Definition continues (b : byte) : bool :=
  negb (Z.land (byte_to_Z b) 0x80 =? 0).

(** The 7-bit groups of the bytes, least significant group first. *)
Fixpoint little_endian_value (bs : list byte) : Z :=
  match bs with
  | [] => 0
  | b :: rest => Z.land (byte_to_Z b) 0x7f + 128 * little_endian_value rest
  end.

Definition kMaxUleb128 : Z := 2 ^ 32 - 1.

(** A reader that stands on a byte boundary, in the source and in its
    buffer, with a buffer that holds whole bytes within its capacity. *)
Definition byte_aligned (rb : t) : Prop :=
  0 <= source_bit_offset_ rb <= 8 * vsize (source_ rb)
  /\ source_bit_offset_ rb mod 8 = 0
  /\ 0 <= buffer_bit_offset_ rb <= buffer_size_ rb
  /\ buffer_bit_offset_ rb mod 8 = 0
  /\ buffer_size_ rb = 8 * vsize (bit_buffer_ rb)
  /\ vsize (bit_buffer_ rb) <= capacity rb.

(** The loop of [AccumulateUleb128OrIso14496_1Internal] run on a list of
    bytes: status, accumulated value, bytes consumed and bytes left. *)
Fixpoint decode_groups (iters : nat) (i : Z) (accumulator : ByteAccumulator)
    (max_output : Z) (bs : list byte) (accumulated_value count : Z)
    : StatusCode * Z * Z * list byte :=
  match iters with
  | O => (kOk, accumulated_value, count, bs)
  | S iters' =>
      match bs with
      | [] => (kResourceExhausted, accumulated_value, count, [])
      | b :: rest =>
          let '(st, terminal_block, accumulated_value) :=
            AccumulateUleb128Byte accumulator max_output (byte_to_Z b) i
              accumulated_value in
          if negb (is_ok st) then (st, accumulated_value, count + 1, rest)
          else if terminal_block then
            (kOk, accumulated_value, count + 1, rest)
          else
            decode_groups iters' (i + 1) accumulator max_output rest
              accumulated_value (count + 1)
      end
  end.

(** The continuation bit is still set in the eighth byte. *)
Definition uleb128_overlong (bs : list byte) : Prop :=
  (8 <= length bs)%nat /\ Forall (fun b => continues b = true) (take 8 bs).

(** The groups accumulated up to some byte, reached through continuation
    bits, exceed [2^32 - 1]. *)
Definition uleb128_overflow (bs : list byte) : Prop :=
  exists n : nat,
    (n <= 8)%nat /\ (n <= length bs)%nat
    /\ Forall (fun b => continues b = true) (take (n - 1) bs)
    /\ kMaxUleb128 < little_endian_value (take n bs).

(** The stream ends before a byte without continuation bit is found. *)
Definition uleb128_truncated (bs : list byte) : Prop :=
  (length bs < 8)%nat
  /\ Forall (fun b => continues b = true) bs
  /\ little_endian_value bs <= kMaxUleb128.

(** The first [n] bytes are a complete encoding of [v]. *)
Definition uleb128_decodes (bs : list byte) (v : Z) (n : nat) : Prop :=
  (1 <= n <= 8)%nat
  /\ Forall (fun b => continues b = true) (take (n - 1) bs)
  /\ (exists b, bs !! (n - 1)%nat = Some b /\ continues b = false)
  /\ v = little_endian_value (take n bs)
  /\ v <= kMaxUleb128.

(** *** The readers built on [ReadUnsignedLiteral] *)

(** Modelled from the spec: [kIamfMaxStringSize] of [iamf/obu/types.h], which
    is not among the sources; a string has up to 128 bytes, the terminator
    included. *)
Definition kIamfMaxStringSize : Z := 128.

Section Readers.

(** The default argument of [fill_to_capacity], as in the section above. *)
Variable fill_to_capacity_default : bool.

(** [ReadBitBuffer::ReadSigned16].  [static_cast<int16_t>(value) & 0xffff]
    is an [int]; the assignment narrows it to [int16_t] again. *)
Definition ReadSigned16 (output : Z) (rb : t) : StatusCode * Z * t :=
  let '(st, value, rb') :=
    ReadUnsignedLiteral_uint64 fill_to_capacity_default 16 0 rb in
  if negb (is_ok st) then (st, output, rb')
  else (kOk, to_int16 (Z.land (to_int16 value) 0xffff), rb').

(** The [for] loop of [ReadString], [iters] iterations; [output] is the string
    read so far. *)
Fixpoint ReadString_loop (iters : nat) (output : list byte) (rb : t)
    : StatusCode * list byte * t :=
  match iters with
  | O => (kInvalidArgument, output, rb)
  | S iters' =>
      let '(st, byte, rb') :=
        ReadUnsignedLiteral_uint8 fill_to_capacity_default 8 0 rb in
      if negb (is_ok st) then (st, output, rb')
      else if byte =? 0 then (kOk, output, rb')
      else ReadString_loop iters' (output ++ [byte_of_Z byte]) rb'
  end.

(** [ReadBitBuffer::ReadString]: what [output] held is overridden. *)
Definition ReadString (output : list byte) (rb : t)
    : StatusCode * list byte * t :=
  ReadString_loop (Z.to_nat kIamfMaxStringSize) [] rb.

(** [ReadBitBuffer::ReadUint8Span]: the elements of the span are assigned in
    turn; the elements behind a failed read keep their values. *)
Fixpoint ReadUint8Span (output : list Z) (rb : t)
    : StatusCode * list Z * t :=
  match output with
  | [] => (kOk, [], rb)
  | byte :: rest =>
      let '(st, byte', rb') :=
        ReadUnsignedLiteral_uint8 fill_to_capacity_default 8 byte rb in
      if negb (is_ok st) then (st, byte' :: rest, rb')
      else
        let '(st, rest', rb'') := ReadUint8Span rest rb' in
        (st, byte' :: rest', rb'')
  end.

(** [ReadBitBuffer::ReadBoolean]. *)
Definition ReadBoolean (output : bool) (rb : t) : StatusCode * bool * t :=
  let '(st, bit, rb') :=
    ReadUnsignedLiteral_uint64 fill_to_capacity_default 1 0 rb in
  if negb (is_ok st) then (st, output, rb')
  else (kOk, negb (bit =? 0), rb').

End Readers.

(** *** Vocabulary of the statements about the readers *)

(** A byte-aligned reader within the ranges of the [int] locals of
    [LoadBits]: a buffer of 1 byte to under 2^28 bytes, a source under 2^28
    bytes. *)
Definition aligned_in_range (rb : t) : Prop :=
  byte_aligned rb /\ 1 <= capacity rb < 2 ^ 28 /\ vsize (source_ rb) < 2 ^ 28.

(** The 7-bit groups of the bytes, most significant group first. *)
Definition big_endian_value (bs : list byte) : Z :=
  foldl (fun acc b => 128 * acc + Z.land (byte_to_Z b) 0x7f) 0 bs.

(** The groups accumulated up to some byte, reached through continuation
    bits, exceed the ceiling. *)
Definition expanded_overflow (max_class_size : Z) (bs : list byte) : Prop :=
  exists n : nat,
    (n <= 8)%nat /\ (n <= length bs)%nat
    /\ Forall (fun b => continues b = true) (take (n - 1) bs)
    /\ max_class_size < big_endian_value (take n bs).

(** The stream ends before a byte without continuation bit is found. *)
Definition expanded_truncated (max_class_size : Z) (bs : list byte) : Prop :=
  (length bs < 8)%nat
  /\ Forall (fun b => continues b = true) bs
  /\ big_endian_value bs <= max_class_size.

(** The first [n] bytes are a complete expanded encoding of [v]. *)
Definition expanded_decodes (max_class_size : Z) (bs : list byte) (v : Z)
    (n : nat) : Prop :=
  (1 <= n <= 8)%nat
  /\ Forall (fun b => continues b = true) (take (n - 1) bs)
  /\ (exists b, bs !! (n - 1)%nat = Some b /\ continues b = false)
  /\ v = big_endian_value (take n bs)
  /\ v <= max_class_size.

(** The bits of a byte, most significant first. *)
Definition bits_of_byte (b : byte) : list bool :=
  (fun i : nat => Z.testbit (byte_to_Z b) (7 - Z.of_nat i)) <$> seq 0 8.

Definition bits_of (bs : list byte) : list bool :=
  flat_map bits_of_byte bs.

(** One more bit, one more byte at the low end of a number. *)
Definition bit_step (acc : Z) (bit : bool) : Z := 2 * acc + Z.b2z bit.

Definition byte_step (acc : Z) (b : byte) : Z :=
  Z.lor (to_uint64 (Z.shiftl acc 8)) (byte_to_Z b).

(** The number a list of bits spells, most significant bit first. *)
Definition bits_value (bits : list bool) : Z := foldl bit_step 0 bits.

(** The bits a reader has yet to deliver: the unread bits of the bit buffer,
    then the bits of the source not loaded yet. *)
Definition pending_bits (rb : t) : list bool :=
  drop (Z.to_nat (buffer_bit_offset_ rb))
    (take (Z.to_nat (buffer_size_ rb)) (bits_of (bit_buffer_ rb)))
  ++ drop (Z.to_nat (source_bit_offset_ rb)) (bits_of (source_ rb)).

(** A reader whose buffer was loaded by whole bytes from a byte boundary of
    the source; the offset into the buffer is any bit of it. *)
Definition whole_bytes (rb : t) : Prop :=
  0 <= source_bit_offset_ rb <= 8 * vsize (source_ rb)
  /\ source_bit_offset_ rb mod 8 = 0
  /\ 0 <= buffer_bit_offset_ rb <= buffer_size_ rb
  /\ buffer_size_ rb = 8 * vsize (bit_buffer_ rb)
  /\ vsize (bit_buffer_ rb) <= capacity rb.

Definition whole_bytes_in_range (rb : t) : Prop :=
  whole_bytes rb /\ 1 <= capacity rb < 2 ^ 28 /\ vsize (source_ rb) < 2 ^ 28.

(** A read of whole bytes that starts inside a byte of the buffer and needs
    more bits than the buffer still holds. *)
Definition straddles (num_bits : Z) (rb : t) : Prop :=
  num_bits mod 8 = 0
  /\ buffer_bit_offset_ rb mod 8 <> 0
  /\ buffer_size_ rb - buffer_bit_offset_ rb < num_bits.

End ReadBitBuffer.

(** ** The OBU data model ([iamf/obu/*.h], [iamf/cli/*_with_data.h])

    The headers are not among the sources; the records keep the members the
    modelled functions read, under the names the sources give them.
    [DecodedUleb128] is [uint32_t]. *)

Module Obu.

(** [ObuHeader]: the trim counters are the members read here. *)
Record ObuHeader : Type := mkObuHeader {
  num_samples_to_trim_at_end : Z;
  num_samples_to_trim_at_start : Z;
}.

(** [ParamDefinition] and its subclasses, flattened: the fields common to all
    definitions and the one the subclass adds. *)
Inductive ParamDefinitionDerived : Type :=
| BaseParamDefinition
| DemixingParamDefinition (default_dmixp_mode : Z)
| ReconGainParamDefinition (audio_element_id_ : Z)
| MixGainParamDefinition (default_mix_gain_ : Z).

Record ParamDefinition : Type := mkParamDefinition {
  parameter_id_ : Z;
  parameter_rate_ : Z;
  param_definition_mode_ : Z;
  reserved_ : Z;
  duration_ : Z;
  constant_subblock_duration_ : Z;
  subblock_durations_ : list Z;
  derived_ : ParamDefinitionDerived;
}.

#[global] Instance ParamDefinitionDerived_eq_dec :
  EqDecision ParamDefinitionDerived.
Proof. solve_decision. Defined.

#[global] Instance ParamDefinition_eq_dec : EqDecision ParamDefinition.
Proof. solve_decision. Defined.

(** [ParamDefinition::ParameterDefinitionType]; any other wire value is
    [kParameterDefinitionReserved]. *)
Inductive ParameterDefinitionType : Type :=
| kParameterDefinitionMixGain
| kParameterDefinitionDemixing
| kParameterDefinitionReconGain
| kParameterDefinitionReserved (code : Z).

Record AudioElementParam : Type := mkAudioElementParam {
  param_definition_type : ParameterDefinitionType;
  param_definition : ParamDefinition;
}.

Record CodecConfigObu : Type := mkCodecConfigObu {
  codec_config_id : Z;
  num_samples_per_frame : Z;
}.

Definition GetNumSamplesPerFrame (o : CodecConfigObu) : Z :=
  num_samples_per_frame o.

Record AudioElementObu : Type := mkAudioElementObu {
  audio_element_id : Z;
  audio_element_params_ : list AudioElementParam;
}.

Definition GetAudioElementId (o : AudioElementObu) : Z := audio_element_id o.

(** [AudioElementWithData]; [codec_config] is a pointer, [None] when null. *)
Record AudioElementWithData : Type := mkAudioElementWithData {
  ae_obu : AudioElementObu;
  codec_config : option CodecConfigObu;
}.

Record AudioFrameObu : Type := mkAudioFrameObu {
  header_ : ObuHeader;
  audio_substream_id_ : Z;
}.

Definition GetSubstreamId (o : AudioFrameObu) : Z := audio_substream_id_ o.

(** [AudioFrameWithData]; [audio_element_with_data] is a pointer. *)
Record AudioFrameWithData : Type := mkAudioFrameWithData {
  af_obu : AudioFrameObu;
  af_start_timestamp : Z;
  af_end_timestamp : Z;
  audio_element_with_data : option AudioElementWithData;
}.

Record SubMixAudioElement : Type := mkSubMixAudioElement {
  sm_audio_element_id : Z;
  element_mix_gain : ParamDefinition;
}.

Record MixPresentationSubMix : Type := mkMixPresentationSubMix {
  audio_elements : list SubMixAudioElement;
  output_mix_gain : ParamDefinition;
}.

Record MixPresentationObu : Type := mkMixPresentationObu {
  mix_presentation_id : Z;
  sub_mixes_ : list MixPresentationSubMix;
}.

Definition GetMixPresentationId (o : MixPresentationObu) : Z :=
  mix_presentation_id o.

Record IASequenceHeaderObu : Type := mkIASequenceHeaderObu {
  ia_code : Z;
  primary_profile : Z;
  additional_profile : Z;
}.

Record ParameterBlockObu : Type := mkParameterBlockObu {
  pb_parameter_id_ : Z;
}.

Record ParameterBlockWithData : Type := mkParameterBlockWithData {
  pb_obu : ParameterBlockObu;
  pb_start_timestamp : Z;
  pb_end_timestamp : Z;
}.

Record TemporalDelimiterObu : Type := mkTemporalDelimiterObu {}.

(** [ArbitraryObu::InsertionHook]. *)
Inductive InsertionHook : Set :=
| kInsertionHookAfterIaSequenceHeader
| kInsertionHookAfterCodecConfigs
| kInsertionHookAfterAudioElements
| kInsertionHookAfterMixPresentations
| kInsertionHookAfterDescriptors
| kInsertionHookBeforeParameterBlocksAtTick
| kInsertionHookAfterParameterBlocksAtTick
| kInsertionHookAfterAudioFramesAtTick.

#[global] Instance InsertionHook_eq_dec : EqDecision InsertionHook.
Proof. solve_decision. Defined.

Record ArbitraryObu : Type := mkArbitraryObu {
  obu_type_ : Z;
  payload_ : list byte;
  insertion_hook_ : InsertionHook;
  insertion_tick_ : option Z;
  invalidates_bitstream_ : bool;
}.

End Obu.

Import Obu.

(** ** [iamf/cli/cli_util.cc] *)

Module CliUtil.

(** *** [ValidateAndGetCommonTrim] *)

(** The local [struct TrimState]; both counters are [uint32_t]. *)
Record TrimState : Type := mkTrimState {
  done_trimming_from_start : bool;
  cumulative_num_samples_to_trim_at_start : Z;
  cumulative_num_samples_to_trim_at_end : Z;
}.

Definition TrimState_init : TrimState := mkTrimState false 0 0.

(** The checks of the loop body on one frame, given the state of its
    substream; [None] is the [InvalidArgumentError] return.  The sum of the two
    [uint32_t] trims is formed in 32 bits before it is widened to
    [uint64_t]. *)
Definition trim_frame (common_samples_per_frame : Z) (trim_state : TrimState)
    (audio_frame : AudioFrameWithData) : option TrimState :=
  if 0 <? cumulative_num_samples_to_trim_at_end trim_state then None
  else
    let obu_trim_at_end :=
      num_samples_to_trim_at_end (header_ (af_obu audio_frame)) in
    let obu_trim_at_start :=
      num_samples_to_trim_at_start (header_ (af_obu audio_frame)) in
    if done_trimming_from_start trim_state && (0 <? obu_trim_at_start) then
      None
    else
      let total_samples_to_trim_in_this_frame :=
        to_uint32 (obu_trim_at_end + obu_trim_at_start) in
      if common_samples_per_frame <? total_samples_to_trim_in_this_frame then
        None
      else
        let remaining_samples :=
          to_uint64
            (common_samples_per_frame - total_samples_to_trim_in_this_frame) in
        if (remaining_samples =? 0) && (0 <? obu_trim_at_end) then None
        else
          Some
            (mkTrimState
               (if obu_trim_at_start <? common_samples_per_frame then true
                else done_trimming_from_start trim_state)
               (to_uint32
                  (cumulative_num_samples_to_trim_at_start trim_state
                   + obu_trim_at_start))
               (to_uint32
                  (cumulative_num_samples_to_trim_at_end trim_state
                   + obu_trim_at_end))).

(** The first loop: [operator[]] creates the entry of a new substream before
    the checks run. *)
Fixpoint trim_loop (common_samples_per_frame : Z)
    (audio_frames : list AudioFrameWithData)
    (substream_id_to_trim_state : gmap Z TrimState)
    : StatusCode * gmap Z TrimState :=
  match audio_frames with
  | [] => (kOk, substream_id_to_trim_state)
  | audio_frame :: rest =>
      let id := GetSubstreamId (af_obu audio_frame) in
      let trim_state :=
        default TrimState_init (substream_id_to_trim_state !! id) in
      match trim_frame common_samples_per_frame trim_state audio_frame with
      | None =>
          (kInvalidArgument, <[id := trim_state]> substream_id_to_trim_state)
      | Some trim_state' =>
          trim_loop common_samples_per_frame rest
            (<[id := trim_state']> substream_id_to_trim_state)
      end
  end.

(** Modelled from the spec: [ValidateEqual] of
    [iamf/common/utils/validation_utils.h], which is not among the sources;
    trim counters that differ are an [InvalidArgument]. *)
Definition ValidateEqual (lhs rhs : Z) : StatusCode :=
  if lhs =? rhs then kOk else kInvalidArgument.

(** The last loop, over the entries of the map. *)
Fixpoint trim_compare (common_samples_to_trim_at_end
    common_samples_to_trim_at_start : Z) (entries : list (Z * TrimState))
    : StatusCode :=
  match entries with
  | [] => kOk
  | (_, trim_state) :: rest =>
      if negb (is_ok (ValidateEqual common_samples_to_trim_at_end
                        (cumulative_num_samples_to_trim_at_end trim_state)))
      then kInvalidArgument
      else if negb (is_ok (ValidateEqual common_samples_to_trim_at_start
                             (cumulative_num_samples_to_trim_at_start
                                trim_state)))
      then kInvalidArgument
      else trim_compare common_samples_to_trim_at_end
             common_samples_to_trim_at_start rest
  end.

(** [ValidateAndGetCommonTrim].  The second component is
    [(common_samples_to_trim_at_end, common_samples_to_trim_at_start)] once
    the function has written them, [None] before.  The order in which a
    [flat_hash_map] is traversed is unspecified; the model traverses
    [map_to_list], and [begin()] is its head. *)
Definition ValidateAndGetCommonTrim (common_samples_per_frame : Z)
    (audio_frames : list AudioFrameWithData) : StatusCode * option (Z * Z) :=
  let '(st, substream_id_to_trim_state) :=
    trim_loop common_samples_per_frame audio_frames ∅ in
  if negb (is_ok st) then (st, None)
  else
    match map_to_list substream_id_to_trim_state with
    | [] => (kOk, Some (0, 0))
    | ((_, first) :: _) as entries =>
        let common_samples_to_trim_at_end :=
          cumulative_num_samples_to_trim_at_end first in
        let common_samples_to_trim_at_start :=
          cumulative_num_samples_to_trim_at_start first in
        (trim_compare common_samples_to_trim_at_end
           common_samples_to_trim_at_start entries,
         Some (common_samples_to_trim_at_end, common_samples_to_trim_at_start))
    end.

(** *** [GetCommonSamplesPerFrame]

    The entries of the map are given in traversal order; the result is the
    status and the value left in [common_samples_per_frame]. *)
Fixpoint GetCommonSamplesPerFrame_loop (first : bool)
    (common_samples_per_frame : Z) (codec_config_obus : list (Z * CodecConfigObu))
    : StatusCode * Z :=
  match codec_config_obus with
  | [] => (kOk, common_samples_per_frame)
  | (_, codec_config_obu) :: rest =>
      if first then
        GetCommonSamplesPerFrame_loop false
          (GetNumSamplesPerFrame codec_config_obu) rest
      else if negb (common_samples_per_frame
                    =? GetNumSamplesPerFrame codec_config_obu)
      then (kUnknown, common_samples_per_frame)
      else GetCommonSamplesPerFrame_loop false common_samples_per_frame rest
  end.

Definition GetCommonSamplesPerFrame
    (codec_config_obus : list (Z * CodecConfigObu))
    (common_samples_per_frame : Z) : StatusCode * Z :=
  GetCommonSamplesPerFrame_loop true common_samples_per_frame codec_config_obus.

(** *** [CollectAndValidateParamDefinitions] *)

Section ParamDefinitions.

(** [operator!=] of [ParamDefinition] ([iamf/obu/param_definitions.h], not
    among the sources) is a parameter. *)
Variable param_definition_neq : ParamDefinition -> ParamDefinition -> bool.

(** The lambda [insert_and_check_equivalence]: [insert] keeps the definition
    already stored under the id. *)
Definition insert_and_check_equivalence
    (param_definitions : gmap Z ParamDefinition)
    (param_definition : ParamDefinition)
    : StatusCode * gmap Z ParamDefinition :=
  let parameter_id := parameter_id_ param_definition in
  match param_definitions !! parameter_id with
  | None => (kOk, <[parameter_id := param_definition]> param_definitions)
  | Some stored =>
      if param_definition_neq stored param_definition then
        (kInvalidArgument, param_definitions)
      else (kOk, param_definitions)
  end.

(** The loop over [audio_element.obu.audio_element_params_]. *)
Fixpoint collect_audio_element_params (params : list AudioElementParam)
    (param_definitions : gmap Z ParamDefinition)
    : StatusCode * gmap Z ParamDefinition :=
  match params with
  | [] => (kOk, param_definitions)
  | audio_element_param :: rest =>
      match param_definition_type audio_element_param with
      | kParameterDefinitionDemixing
      | kParameterDefinitionReconGain =>
          let '(st, param_definitions') :=
            insert_and_check_equivalence param_definitions
              (param_definition audio_element_param) in
          if negb (is_ok st) then (st, param_definitions')
          else collect_audio_element_params rest param_definitions'
      | kParameterDefinitionMixGain => (kInvalidArgument, param_definitions)
      | kParameterDefinitionReserved _ =>
          collect_audio_element_params rest param_definitions
      end
  end.

(** The loop over the audio elements, in the traversal order of the map. *)
Fixpoint collect_audio_elements
    (audio_elements : list (Z * AudioElementWithData))
    (param_definitions : gmap Z ParamDefinition)
    : StatusCode * gmap Z ParamDefinition :=
  match audio_elements with
  | [] => (kOk, param_definitions)
  | (_, audio_element) :: rest =>
      let '(st, param_definitions') :=
        collect_audio_element_params
          (audio_element_params_ (ae_obu audio_element)) param_definitions in
      if negb (is_ok st) then (st, param_definitions')
      else collect_audio_elements rest param_definitions'
  end.

(** The loop over [sub_mix.audio_elements]. *)
Fixpoint collect_element_mix_gains (elements : list SubMixAudioElement)
    (param_definitions : gmap Z ParamDefinition)
    : StatusCode * gmap Z ParamDefinition :=
  match elements with
  | [] => (kOk, param_definitions)
  | audio_element :: rest =>
      let '(st, param_definitions') :=
        insert_and_check_equivalence param_definitions
          (element_mix_gain audio_element) in
      if negb (is_ok st) then (st, param_definitions')
      else collect_element_mix_gains rest param_definitions'
  end.

(** The loop over [mix_presentation_obu.sub_mixes_]. *)
Fixpoint collect_sub_mixes (sub_mixes : list MixPresentationSubMix)
    (param_definitions : gmap Z ParamDefinition)
    : StatusCode * gmap Z ParamDefinition :=
  match sub_mixes with
  | [] => (kOk, param_definitions)
  | sub_mix :: rest =>
      let '(st, param_definitions1) :=
        collect_element_mix_gains (audio_elements sub_mix) param_definitions in
      if negb (is_ok st) then (st, param_definitions1)
      else
        let '(st, param_definitions2) :=
          insert_and_check_equivalence param_definitions1
            (output_mix_gain sub_mix) in
        if negb (is_ok st) then (st, param_definitions2)
        else collect_sub_mixes rest param_definitions2
  end.

(** The loop over [mix_presentation_obus]. *)
Fixpoint collect_mix_presentations
    (mix_presentation_obus : list MixPresentationObu)
    (param_definitions : gmap Z ParamDefinition)
    : StatusCode * gmap Z ParamDefinition :=
  match mix_presentation_obus with
  | [] => (kOk, param_definitions)
  | mix_presentation_obu :: rest =>
      let '(st, param_definitions') :=
        collect_sub_mixes (sub_mixes_ mix_presentation_obu) param_definitions in
      if negb (is_ok st) then (st, param_definitions')
      else collect_mix_presentations rest param_definitions'
  end.

(** [CollectAndValidateParamDefinitions]; [param_definitions] is the output
    map, passed in as the caller holds it. *)
Definition CollectAndValidateParamDefinitions
    (audio_elements : list (Z * AudioElementWithData))
    (mix_presentation_obus : list MixPresentationObu)
    (param_definitions : gmap Z ParamDefinition)
    : StatusCode * gmap Z ParamDefinition :=
  let '(st, param_definitions') :=
    collect_audio_elements audio_elements param_definitions in
  if negb (is_ok st) then (st, param_definitions')
  else collect_mix_presentations mix_presentation_obus param_definitions'.

(** The lambda applied to a list of definitions in turn. *)
Fixpoint insert_all (definitions : list ParamDefinition)
    (param_definitions : gmap Z ParamDefinition)
    : StatusCode * gmap Z ParamDefinition :=
  match definitions with
  | [] => (kOk, param_definitions)
  | param_definition :: rest =>
      let '(st, param_definitions') :=
        insert_and_check_equivalence param_definitions param_definition in
      if negb (is_ok st) then (st, param_definitions')
      else insert_all rest param_definitions'
  end.

(** Definitions that share a [parameter_id] are equal under [operator==]. *)
Definition pairwise_equivalent (definitions : list ParamDefinition) : Prop :=
  forall p q,
    p ∈ definitions -> q ∈ definitions ->
    parameter_id_ p = parameter_id_ q ->
    param_definition_neq p q = false.

End ParamDefinitions.

(** *** Vocabulary of the statements about [CollectAndValidateParamDefinitions] *)

(** An instance of [operator!=]: the inequality that compares every field
    of two definitions. *)
Definition structural_neq (p q : ParamDefinition) : bool :=
  negb (bool_decide (p = q)).

(** The parameters of an audio element that the function collects. *)
Definition is_collected (audio_element_param : AudioElementParam) : bool :=
  match param_definition_type audio_element_param with
  | kParameterDefinitionDemixing | kParameterDefinitionReconGain => true
  | _ => false
  end.

Definition is_mix_gain (audio_element_param : AudioElementParam) : bool :=
  match param_definition_type audio_element_param with
  | kParameterDefinitionMixGain => true
  | _ => false
  end.

Definition collected_from_params (params : list AudioElementParam)
    : list ParamDefinition :=
  param_definition <$> filter (fun p => is_collected p = true) params.

Definition collected_from_audio_elements
    (audio_elements : list (Z * AudioElementWithData)) : list ParamDefinition :=
  flat_map
    (fun e => collected_from_params (audio_element_params_ (ae_obu e.2)))
    audio_elements.

Definition collected_from_sub_mix (sub_mix : MixPresentationSubMix)
    : list ParamDefinition :=
  (element_mix_gain <$> audio_elements sub_mix) ++ [output_mix_gain sub_mix].

Definition collected_from_mix_presentations
    (mix_presentation_obus : list MixPresentationObu) : list ParamDefinition :=
  flat_map (fun m => flat_map collected_from_sub_mix (sub_mixes_ m))
    mix_presentation_obus.

(** Every definition the function looks at, in the order it does. *)
Definition collected_definitions
    (audio_elements : list (Z * AudioElementWithData))
    (mix_presentation_obus : list MixPresentationObu) : list ParamDefinition :=
  collected_from_audio_elements audio_elements
  ++ collected_from_mix_presentations mix_presentation_obus.

(** Some audio element carries a mix gain parameter. *)
Definition has_mix_gain_param
    (audio_elements : list (Z * AudioElementWithData)) : Prop :=
  Exists
    (fun e =>
       Exists (fun p => is_mix_gain p = true)
         (audio_element_params_ (ae_obu e.2)))
    audio_elements.

(** *** Vocabulary of the statements about [ValidateAndGetCommonTrim] *)

Definition trim_at_end (f : AudioFrameWithData) : Z :=
  num_samples_to_trim_at_end (header_ (af_obu f)).

Definition trim_at_start (f : AudioFrameWithData) : Z :=
  num_samples_to_trim_at_start (header_ (af_obu f)).

(** The frames of one substream, in the order of the list. *)
Definition frames_of_substream (id : Z) (frames : list AudioFrameWithData)
    : list AudioFrameWithData :=
  filter (fun f => GetSubstreamId (af_obu f) = id) frames.

(** The trims are [uint32_t] values whose sum also fits 32 bits. *)
Definition trims_in_range (frames : list AudioFrameWithData) : Prop :=
  Forall
    (fun f =>
       0 <= trim_at_start f /\ 0 <= trim_at_end f
       /\ trim_at_start f + trim_at_end f < 2 ^ 32)
    frames.

(** A frame that trims samples at the end is followed by another frame. *)
Definition end_trim_followed (fs : list AudioFrameWithData) : Prop :=
  exists pre f post, fs = pre ++ f :: post /\ post <> [] /\ 0 < trim_at_end f.

(** A frame trims samples at the start although an earlier frame was not
    trimmed in full from the start. *)
Definition start_trim_after_prefix (common_samples_per_frame : Z)
    (fs : list AudioFrameWithData) : Prop :=
  exists pre g post,
    fs = pre ++ g :: post /\ 0 < trim_at_start g
    /\ Exists (fun f => trim_at_start f < common_samples_per_frame) pre.

(** A frame trims more samples than a frame holds. *)
Definition over_trimmed (common_samples_per_frame : Z)
    (fs : list AudioFrameWithData) : Prop :=
  Exists
    (fun f => common_samples_per_frame < trim_at_start f + trim_at_end f) fs.

(** A frame that trims at the end has no sample left. *)
Definition fully_trimmed_from_end (common_samples_per_frame : Z)
    (fs : list AudioFrameWithData) : Prop :=
  Exists
    (fun f =>
       0 < trim_at_end f
       /\ trim_at_start f + trim_at_end f = common_samples_per_frame)
    fs.

Definition substream_trim_violation (common_samples_per_frame : Z)
    (fs : list AudioFrameWithData) : Prop :=
  end_trim_followed fs
  \/ start_trim_after_prefix common_samples_per_frame fs
  \/ over_trimmed common_samples_per_frame fs
  \/ fully_trimmed_from_end common_samples_per_frame fs.

Fixpoint total_trim_at_end (fs : list AudioFrameWithData) : Z :=
  match fs with
  | [] => 0
  | f :: rest => trim_at_end f + total_trim_at_end rest
  end.

Fixpoint total_trim_at_start (fs : list AudioFrameWithData) : Z :=
  match fs with
  | [] => 0
  | f :: rest => trim_at_start f + total_trim_at_start rest
  end.

(** The cumulative trims of a substream, as the 32-bit counters hold them:
    at the end, at the start. *)
Definition cumulative_trim (fs : list AudioFrameWithData) : Z * Z :=
  (to_uint32 (total_trim_at_end fs), to_uint32 (total_trim_at_start fs)).

(** Two substreams of the list differ in their cumulative trims. *)
Definition substreams_disagree (frames : list AudioFrameWithData) : Prop :=
  exists id1 id2,
    frames_of_substream id1 frames <> []
    /\ frames_of_substream id2 frames <> []
    /\ cumulative_trim (frames_of_substream id1 frames)
       <> cumulative_trim (frames_of_substream id2 frames).

(** The state the map holds for a substream, a fresh one when it has none. *)
Definition state_of (m : gmap Z TrimState) (id : Z) : TrimState :=
  default TrimState_init (m !! id).

(** The checks of the first loop along the frames of one substream. *)
Fixpoint check_substream (common_samples_per_frame : Z)
    (trim_state : TrimState) (fs : list AudioFrameWithData)
    : option TrimState :=
  match fs with
  | [] => Some trim_state
  | f :: rest =>
      match trim_frame common_samples_per_frame trim_state f with
      | None => None
      | Some trim_state' =>
          check_substream common_samples_per_frame trim_state' rest
      end
  end.

(** *** Sample inputs *)

(** A frame of a substream with the given trims. *)
Definition trimmed_frame (substream_id trim_start trim_end : Z)
    : AudioFrameWithData :=
  mkAudioFrameWithData
    (mkAudioFrameObu (mkObuHeader trim_end trim_start) substream_id) 0 8 None.

(** Two substreams, one frame each, the first trimmed by one sample at the
    start. *)
Definition disagreeing_frames : list AudioFrameWithData :=
  [trimmed_frame 1 1 0; trimmed_frame 2 0 0].

Definition mix_gain_definition : ParamDefinition :=
  mkParamDefinition 999 48000 1 0 0 0 [] (MixGainParamDefinition 0).

(** One audio element whose only parameter is a mix gain. *)
Definition mix_gain_audio_elements : list (Z * AudioElementWithData) :=
  [(1, mkAudioElementWithData
         (mkAudioElementObu 1
            [mkAudioElementParam kParameterDefinitionMixGain
               mix_gain_definition])
         None)].

(** *** [GetCommonSampleRateAndBitDepth] *)

(** What [GetCommonSampleRateAndBitDepth] leaves in its three output
    parameters. *)
Record CommonFormat : Type := mkCommonFormat {
  common_sample_rate : Z;
  common_bit_depth : Z;
  requires_resampling : bool;
}.

(** [GetCommonSampleRateAndBitDepth]; [out] holds the output parameters as the
    caller passes them.  A set with [size() == 1] has one element, which
    [*begin()] yields. *)
Definition GetCommonSampleRateAndBitDepth (sample_rates bit_depths : gset Z)
    (out : CommonFormat) : StatusCode * CommonFormat :=
  let out :=
    mkCommonFormat (common_sample_rate out) (common_bit_depth out) false in
  if bool_decide (sample_rates = ∅) || bool_decide (bit_depths = ∅) then
    (kInvalidArgument, out)
  else
    let out :=
      match elements sample_rates with
      | [rate] =>
          mkCommonFormat rate (common_bit_depth out) (requires_resampling out)
      | _ => mkCommonFormat 48000 (common_bit_depth out) true
      end in
    let out :=
      match elements bit_depths with
      | [depth] =>
          mkCommonFormat (common_sample_rate out) depth (requires_resampling out)
      | _ => mkCommonFormat (common_sample_rate out) 16 true
      end in
    (kOk, out).

(** *** More vocabulary and sample inputs *)

(** The first definition of a list under a parameter id. *)
Definition first_definition (id : Z) (definitions : list ParamDefinition)
    : option ParamDefinition :=
  head (filter (fun p => parameter_id_ p = id) definitions).

(** Three frames of one substream: one trimmed in full from the start, one
    untrimmed, one that loses three samples at the end. *)
Definition one_substream_frames : list AudioFrameWithData :=
  [trimmed_frame 7 8 0; trimmed_frame 7 0 0; trimmed_frame 7 0 3].

Definition demixing_definition : ParamDefinition :=
  mkParamDefinition 100 48000 1 0 0 0 [] (DemixingParamDefinition 0).

Definition other_mix_gain_definition : ParamDefinition :=
  mkParamDefinition 998 48000 1 0 0 0 [] (MixGainParamDefinition 0).

(** One audio element with a demixing parameter. *)
Definition demixing_audio_elements : list (Z * AudioElementWithData) :=
  [(1, mkAudioElementWithData
         (mkAudioElementObu 1
            [mkAudioElementParam kParameterDefinitionDemixing
               demixing_definition])
         None)].

(** One mix presentation that uses the same mix gain definition twice. *)
Definition shared_mix_gain_presentations : list MixPresentationObu :=
  [mkMixPresentationObu 42
     [mkMixPresentationSubMix
        [mkSubMixAudioElement 1 mix_gain_definition;
         mkSubMixAudioElement 2 other_mix_gain_definition]
        mix_gain_definition]].

End CliUtil.

(** ** [iamf/cli/renderer/audio_element_renderer_base.cc] *)

Module AudioElementRenderer.

(** [LabeledFrame] ([iamf/cli/demixing_module.h], not among the sources): the
    members the renderer reads.  Samples are [int32_t]. *)
Record LabeledFrame : Type := mkLabeledFrame {
  samples_to_trim_at_end : Z;
  samples_to_trim_at_start : Z;
  label_to_samples : gmap string (list Z);
}.

Definition kUnknownNumTimeTicks : Z := -1.

(** The loop of [GetCommonNumTrimmedTimeTicks]; [num_raw_time_ticks] is an
    [int], compared with a [size_t]. *)
Fixpoint num_raw_time_ticks_loop (labeled_frame : LabeledFrame)
    (ordered_labels : list string) (num_raw_time_ticks : Z)
    : StatusCode * Z :=
  match ordered_labels with
  | [] => (kOk, num_raw_time_ticks)
  | label :: rest =>
      if decide (label = ""%string) then
        num_raw_time_ticks_loop labeled_frame rest num_raw_time_ticks
      else
        match label_to_samples labeled_frame !! label with
        | None => (kInvalidArgument, num_raw_time_ticks)
        | Some samples =>
            if num_raw_time_ticks =? kUnknownNumTimeTicks then
              num_raw_time_ticks_loop labeled_frame rest
                (to_int32 (Z.of_nat (length samples)))
            else if negb (to_uint64 num_raw_time_ticks
                          =? Z.of_nat (length samples)) then
              (kInvalidArgument, num_raw_time_ticks)
            else
              num_raw_time_ticks_loop labeled_frame rest num_raw_time_ticks
        end
  end.

(** [GetCommonNumTrimmedTimeTicks]: an [absl::StatusOr<int>]. *)
Definition GetCommonNumTrimmedTimeTicks (labeled_frame : LabeledFrame)
    (ordered_labels : list string) : StatusCode * Z :=
  let '(st, num_raw_time_ticks) :=
    num_raw_time_ticks_loop labeled_frame ordered_labels kUnknownNumTimeTicks in
  if negb (is_ok st) then (st, 0)
  else
    let num_trimmed_time_ticks :=
      to_int32 (num_raw_time_ticks - samples_to_trim_at_start labeled_frame
                - samples_to_trim_at_end labeled_frame) in
    if num_trimmed_time_ticks <? 0 then (kInvalidArgument, 0)
    else (kOk, num_trimmed_time_ticks).

(** [samples_to_render[time][channel] = value]. *)
Definition set_sample (samples_to_render : list (list Z)) (time channel : nat)
    (value : Z) : list (list Z) :=
  alter (fun tick => <[channel := value]> tick) time samples_to_render.

(** [channel_samples[i]]; the index is inside the vector whenever the trims
    are not negative, the default only makes the function total. *)
Definition sample_at (channel_samples : list Z) (i : Z) : Z :=
  nth (Z.to_nat i) channel_samples 0.

(** The loop over the channels of [ArrangeSamplesToRender], from [channel]
    on; the inner loop runs over the time ticks. *)
Fixpoint arrange_channels (labeled_frame : LabeledFrame)
    (ordered_labels : list string) (channel : nat)
    (num_trimmed_time_ticks : nat) (samples_to_render : list (list Z))
    : list (list Z) :=
  match ordered_labels with
  | [] => samples_to_render
  | channel_label :: rest =>
      if decide (channel_label = ""%string) then
        arrange_channels labeled_frame rest (S channel) num_trimmed_time_ticks
          samples_to_render
      else
        let channel_samples :=
          default [] (label_to_samples labeled_frame !! channel_label) in
        arrange_channels labeled_frame rest (S channel) num_trimmed_time_ticks
          (foldl
             (fun samples_to_render time =>
                set_sample samples_to_render time channel
                  (sample_at channel_samples
                     (Z.of_nat time + samples_to_trim_at_start labeled_frame)))
             samples_to_render (seq 0 num_trimmed_time_ticks))
  end.

(** [AudioElementRendererBase::ArrangeSamplesToRender]; the output vector is
    cleared first, whatever it held. *)
Definition ArrangeSamplesToRender (labeled_frame : LabeledFrame)
    (ordered_labels : list string) (samples_to_render : list (list Z))
    : StatusCode * list (list Z) :=
  let samples_to_render : list (list Z) := [] in
  match ordered_labels with
  | [] => (kOk, samples_to_render)
  | _ =>
      let '(st, num_trimmed_time_ticks) :=
        GetCommonNumTrimmedTimeTicks labeled_frame ordered_labels in
      if negb (is_ok st) then (st, samples_to_render)
      else
        let num_channels := length ordered_labels in
        let samples_to_render :=
          replicate (Z.to_nat num_trimmed_time_ticks)
            (replicate num_channels 0) in
        (kOk,
         arrange_channels labeled_frame ordered_labels 0
           (Z.to_nat num_trimmed_time_ticks) samples_to_render)
  end.

(** *** Vocabulary of the statements about the renderer *)

(** Every label that names a channel has [num_ticks] samples in the frame,
    and there is such a label. *)
Definition common_num_ticks (labeled_frame : LabeledFrame)
    (ordered_labels : list string) (num_ticks : Z) : Prop :=
  Exists (fun label => label <> ""%string) ordered_labels
  /\ Forall
       (fun label =>
          label <> ""%string ->
          exists samples,
            label_to_samples labeled_frame !! label = Some samples
            /\ Z.of_nat (length samples) = num_ticks)
       ordered_labels.

(** The sample of a channel at a tick of the rendered frame: zero for a
    missing channel. *)
Definition arranged_sample (labeled_frame : LabeledFrame) (time : nat)
    (label : string) : Z :=
  if decide (label = ""%string) then 0
  else
    default 0
      (default [] (label_to_samples labeled_frame !! label)
       !! (time + Z.to_nat (samples_to_trim_at_start labeled_frame))%nat).

Definition arranged (labeled_frame : LabeledFrame)
    (ordered_labels : list string) (num_ticks : nat) : list (list Z) :=
  (fun time => arranged_sample labeled_frame time <$> ordered_labels)
  <$> seq 0 num_ticks.

(** The members of the frame are within the range of an [int]. *)
Definition frame_in_range (labeled_frame : LabeledFrame) : Prop :=
  0 <= samples_to_trim_at_start labeled_frame < 2 ^ 30
  /\ 0 <= samples_to_trim_at_end labeled_frame < 2 ^ 30
  /\ map_Forall (fun _ samples => Z.of_nat (length samples) < 2 ^ 31)
       (label_to_samples labeled_frame).

(** *** Sample input *)

(** A stereo frame of four ticks that loses one tick at either end. *)
Definition stereo_frame : LabeledFrame :=
  mkLabeledFrame 1 1
    (<["L2"%string := [1; 2; 3; 4]]> (<["R2"%string := [5; 6; 7; 8]]> ∅)).

End AudioElementRenderer.

(** ** [iamf/cli/wav_writer.cc] *)

Module WavWriter.

(** The functions of [src/dsp/write_wav_file.h] return 1 on success and 0 on
    failure. *)
Definition kAudioToTactileResultFailure : Z := 0.
Definition kAudioToTactileResultSuccess : Z := 1.

(** How a call ends: it returns a status, it stops the program in
    [LOG(FATAL)], or it divides by zero. *)
Inductive Outcome : Type :=
| Returns (status : StatusCode)
| Fatal
| DivisionByZero.

(** The three ways a sample is put together from the bytes at [i]; the
    operands are promoted to [int], the result is narrowed to the element
    type of [samples]. *)
Definition sample_16 (buffer : list byte) (i : Z) : Z :=
  to_int16
    (Z.lor (to_int32 (Z.shiftl (vat buffer (i + 1)) 8)) (vat buffer i)).

Definition sample_24 (buffer : list byte) (i : Z) : Z :=
  Z.lor
    (Z.lor (to_int32 (Z.shiftl (vat buffer (i + 2)) 24))
       (to_int32 (Z.shiftl (vat buffer (i + 1)) 16)))
    (to_int32 (Z.shiftl (vat buffer i) 8)).

Definition sample_32 (buffer : list byte) (i : Z) : Z :=
  Z.lor
    (Z.lor
       (Z.lor (to_int32 (Z.shiftl (vat buffer (i + 3)) 24))
          (to_int32 (Z.shiftl (vat buffer (i + 2)) 16)))
       (to_int32 (Z.shiftl (vat buffer (i + 1)) 8)))
    (vat buffer i).

(** The loop [for (int i = 0; i < num_total_samples * bytes_per_sample;
    i += bytes_per_sample) samples[i / bytes_per_sample] = ...], from [i] on;
    [i] is an [int], the bound a [size_t]. *)
Fixpoint arrange_samples (fuel : nat) (sample : Z -> Z)
    (bytes_per_sample bound : Z) (i : Z) (samples : list Z) : list Z :=
  match fuel with
  | O => samples
  | S fuel' =>
      if to_uint64 i <? bound then
        arrange_samples fuel' sample bytes_per_sample bound
          (to_int32 (i + bytes_per_sample))
          (<[Z.to_nat (Z.quot i bytes_per_sample) := sample i]> samples)
      else samples
  end.

Section Library.

(** The state of the stream behind a [FILE*], and the three functions of
    [src/dsp/write_wav_file.h] that write samples to it. *)
Variable File : Type.
Variable WriteWavSamples : File -> list Z -> Z * File.
Variable WriteWavSamples24Bit : File -> list Z -> Z * File.
Variable WriteWavSamples32Bit : File -> list Z -> Z * File.

(** [WriteSamplesInternal], which [WavWriter::WritePcmSamples] and
    [WavWriter::PushFrame] call on the members of the writer: the outcome, the
    stream and [total_samples_accumulator] after the call.  The bytes a loop
    indexes are inside the buffer whenever the size check has passed and the
    product with [num_channels] has not wrapped. *)
Definition WriteSamplesInternal (file : option File)
    (num_channels bit_depth : Z) (buffer : list byte)
    (total_samples_accumulator : Z) : Outcome * option File * Z :=
  match file with
  | None => (Returns kFailedPrecondition, file, total_samples_accumulator)
  | Some stream =>
      let buffer_size := vsize buffer in
      if buffer_size =? 0 then (Returns kOk, file, total_samples_accumulator)
      else
        let bytes_per_frame :=
          to_uint64 (to_uint64 bit_depth * num_channels) / 8 in
        if bytes_per_frame =? 0 then
          (DivisionByZero, file, total_samples_accumulator)
        else if negb (buffer_size mod bytes_per_frame =? 0) then
          (Returns kInvalidArgument, file, total_samples_accumulator)
        else
          let bytes_per_sample := Z.quot bit_depth 8 in
          if to_uint64 bytes_per_sample =? 0 then
            (DivisionByZero, file, total_samples_accumulator)
          else
            let num_total_samples :=
              buffer_size / to_uint64 bytes_per_sample in
            let arranged sample :=
              arrange_samples (length buffer) sample bytes_per_sample
                (to_uint64 (num_total_samples * to_uint64 bytes_per_sample)) 0
                (replicate (Z.to_nat num_total_samples) 0) in
            let written :=
              if bit_depth =? 16 then
                Some (WriteWavSamples stream (arranged (sample_16 buffer)))
              else if bit_depth =? 24 then
                Some (WriteWavSamples24Bit stream (arranged (sample_24 buffer)))
              else if bit_depth =? 32 then
                Some (WriteWavSamples32Bit stream (arranged (sample_32 buffer)))
              else None in
            match written with
            | None => (Fatal, file, total_samples_accumulator)
            | Some (write_sample_result, stream') =>
                if write_sample_result =? kAudioToTactileResultSuccess then
                  (Returns kOk, Some stream',
                   to_uint64 (total_samples_accumulator + num_total_samples))
                else (Returns kUnknown, Some stream', total_samples_accumulator)
            end
  end.

(** The library function [WriteSamplesInternal] calls for a bit depth. *)
Definition library_write (bit_depth : Z) : File -> list Z -> Z * File :=
  if bit_depth =? 16 then WriteWavSamples
  else if bit_depth =? 24 then WriteWavSamples24Bit
  else WriteWavSamples32Bit.

End Library.

(** *** Vocabulary of the statements about the writer *)

(** The number a group of bytes spells, least significant byte first, and
    the same in two's complement. *)
Definition little_endian_unsigned (bs : list byte) : Z :=
  foldr (fun b acc => byte_to_Z b + 256 * acc) 0 bs.

Definition little_endian_signed (bs : list byte) : Z :=
  let u := little_endian_unsigned bs in
  let bits := 8 * Z.of_nat (length bs) in
  if u <? 2 ^ (bits - 1) then u else u - 2 ^ bits.

(** The samples a buffer of little-endian PCM holds, as the library
    functions take them: a 24-bit sample in the upper three bytes of an
    [int32_t]. *)
Definition pcm_samples (bit_depth : Z) (buffer : list byte) : list Z :=
  let bytes := Z.to_nat (bit_depth / 8) in
  (fun k =>
     (if bit_depth =? 24 then 256 else 1)
     * little_endian_signed (take bytes (drop (k * bytes) buffer)))
  <$> seq 0 (length buffer / bytes).

Definition supported_bit_depth (bit_depth : Z) : Prop :=
  bit_depth = 16 \/ bit_depth = 24 \/ bit_depth = 32.

(** *** Sample input: a stream that records the samples written to it *)

Definition recording_write (stream : list Z) (samples : list Z)
    : Z * list Z :=
  (kAudioToTactileResultSuccess, stream ++ samples).

End WavWriter.

(** ** The OBU sequencer

    [iamf/cli/obu_sequencer.cc] is not among the sources: its functions are
    modelled from the specification (sections 4.4 and 4.5) and from the
    expectations of [iamf/cli/tests/obu_sequencer_test.cc]. *)

Module ObuSequencer.

(** The bytes held by a [WriteBitBuffer] ([bit_buffer()]). *)
Definition WriteBitBuffer : Type := list byte.

(** Modelled from the spec: the serializers of the OBU classes
    ([ObuBase::ValidateAndWriteObu], [iamf/obu/*.cc]) are not among the
    sources.  An OBU validates and serializes itself (4.2): the interface
    gives the status and the bytes (header, size, payload) of one OBU. *)
Class ObuBase (A : Type) : Type :=
  ValidateAndWritePayload : A -> StatusCode * list byte.

(** The bytes an OBU contributes to the stream. *)
Definition obu_bytes {A : Type} `{ObuBase A} (obu : A) : list byte :=
  (ValidateAndWritePayload obu).2.

(** A step that writes to the buffer and may fail. *)
Definition Writer : Type := WriteBitBuffer -> StatusCode * WriteBitBuffer.

Definition ok_writer : Writer := fun wb => (kOk, wb).

(** [RETURN_IF_NOT_OK(a); b]. *)
Definition and_then (a b : Writer) : Writer :=
  fun wb =>
    let '(st, wb') := a wb in
    if is_ok st then b wb' else (st, wb').

Notation "a ;;; b" := (and_then a b) (at level 65, right associativity).

(** Modelled from the spec: [ObuBase::ValidateAndWriteObu(wb)]; a valid OBU
    appends its bytes, an invalid one stops the write. *)
Definition ValidateAndWriteObu {A : Type} `{ObuBase A} (obu : A) : Writer :=
  fun wb =>
    let '(st, bytes) := ValidateAndWritePayload obu in
    if is_ok st then (kOk, wb ++ bytes) else (st, wb).

(** One write per element of a list, in list order. *)
Fixpoint write_each {A : Type} (w : A -> Writer) (l : list A) : Writer :=
  match l with
  | [] => ok_writer
  | x :: rest => w x ;;; write_each w rest
  end.

(** Modelled from the spec: [ArbitraryObu::WriteObusWithHook]
    ([iamf/obu/arbitrary_obu.cc], not among the sources) writes, in list
    order, the arbitrary OBUs whose hook is the given one. *)
Definition WriteObusWithHook `{ObuBase ArbitraryObu}
    (insertion_hook : InsertionHook) (arbitrary_obus : list ArbitraryObu)
    : Writer :=
  write_each
    (fun arbitrary_obu =>
       if decide (insertion_hook_ arbitrary_obu = insertion_hook) then
         ValidateAndWriteObu arbitrary_obu
       else ok_writer)
    arbitrary_obus.

(** The bytes of the arbitrary OBUs of a list that carry a given hook, in
    list order. *)
Definition hook_bytes `{ObuBase ArbitraryObu} (insertion_hook : InsertionHook)
    (arbitrary_obus : list ArbitraryObu) : list byte :=
  concat
    (obu_bytes
       <$> filter (fun o => insertion_hook_ o = insertion_hook) arbitrary_obus).

(** The hooks that are bound to a tick of the audio time axis. *)
Definition is_tick_bound (insertion_hook : InsertionHook) : bool :=
  match insertion_hook with
  | kInsertionHookBeforeParameterBlocksAtTick
  | kInsertionHookAfterParameterBlocksAtTick
  | kInsertionHookAfterAudioFramesAtTick => true
  | _ => false
  end.

(** [struct TemporalUnit]. *)
Record TemporalUnit : Type := mkTemporalUnit {
  audio_frames : list AudioFrameWithData;
  parameter_blocks : list ParameterBlockWithData;
  arbitrary_obus : list ArbitraryObu;
}.

Definition TemporalUnit_empty : TemporalUnit := mkTemporalUnit [] [] [].

(** The audio element id of a frame, read through its pointer; the sequencer
    is handed frames whose pointer is set, and 0 only makes the key total. *)
Definition frame_audio_element_id (f : AudioFrameWithData) : Z :=
  match audio_element_with_data f with
  | Some e => GetAudioElementId (ae_obu e)
  | None => 0
  end.

(** The order of audio frames inside a temporal unit: audio element id
    first, substream id second. *)
Definition audio_frame_le (a b : AudioFrameWithData) : Prop :=
  frame_audio_element_id a < frame_audio_element_id b
  \/ (frame_audio_element_id a = frame_audio_element_id b
      /\ GetSubstreamId (af_obu a) <= GetSubstreamId (af_obu b)).

#[global] Instance audio_frame_le_dec a b : Decision (audio_frame_le a b).
Proof. unfold audio_frame_le. apply _. Defined.

(** The order of parameter blocks inside a temporal unit. *)
Definition parameter_block_le (a b : ParameterBlockWithData) : Prop :=
  pb_parameter_id_ (pb_obu a) <= pb_parameter_id_ (pb_obu b).

#[global] Instance parameter_block_le_dec a b :
  Decision (parameter_block_le a b).
Proof. unfold parameter_block_le. apply _. Defined.

(** [temporal_unit_map[t]....push_back(x)] for each of the three lists. *)
Definition unit_at (m : gmap Z TemporalUnit) (t : Z) : TemporalUnit :=
  default TemporalUnit_empty (m !! t).

Definition push_audio_frame (m : gmap Z TemporalUnit) (f : AudioFrameWithData)
    : gmap Z TemporalUnit :=
  let t := af_start_timestamp f in
  let u := unit_at m t in
  <[t := mkTemporalUnit (audio_frames u ++ [f]) (parameter_blocks u)
           (arbitrary_obus u)]> m.

Definition push_parameter_block (m : gmap Z TemporalUnit)
    (p : ParameterBlockWithData) : gmap Z TemporalUnit :=
  let t := pb_start_timestamp p in
  let u := unit_at m t in
  <[t := mkTemporalUnit (audio_frames u) (parameter_blocks u ++ [p])
           (arbitrary_obus u)]> m.

(** An arbitrary OBU goes to the unit of its insertion tick when it has one,
    whatever its hook: the test
    [GenerateTemporalUnitMap.CreatesTemporalUnitsForEachInsertionTick] counts
    two OBUs at tick 99, one of them hooked after the IA sequence header, and
    [OmitsArbitraryObusWithNoInsertionTick] expects an OBU without a tick to
    be left out. *)
Definition push_arbitrary_obu (m : gmap Z TemporalUnit) (o : ArbitraryObu)
    : gmap Z TemporalUnit :=
  match insertion_tick_ o with
  | None => m
  | Some t =>
      let u := unit_at m t in
      <[t := mkTemporalUnit (audio_frames u) (parameter_blocks u)
               (arbitrary_obus u ++ [o])]> m
  end.

Definition sort_temporal_unit (u : TemporalUnit) : TemporalUnit :=
  mkTemporalUnit (merge_sort audio_frame_le (audio_frames u))
    (merge_sort parameter_block_le (parameter_blocks u)) (arbitrary_obus u).

(** Modelled from the spec: [ObuSequencerBase::GenerateTemporalUnitMap]
    (4.4): frames and parameter blocks are put in the unit of their start
    timestamp, arbitrary OBUs in the unit of their insertion tick, and every
    unit is sorted. *)
Definition GenerateTemporalUnitMap (audio_frames : list AudioFrameWithData)
    (parameter_blocks : list ParameterBlockWithData)
    (arbitrary_obus : list ArbitraryObu) : StatusCode * gmap Z TemporalUnit :=
  let m := foldl push_audio_frame ∅ audio_frames in
  let m := foldl push_parameter_block m parameter_blocks in
  let m := foldl push_arbitrary_obu m arbitrary_obus in
  (kOk, sort_temporal_unit <$> m).

(** The untrimmed samples of the frames of a unit, added to [num_samples];
    a frame without audio element or codec config is an error. *)
Fixpoint count_samples (frames : list AudioFrameWithData) (num_samples : Z)
    : StatusCode * Z :=
  match frames with
  | [] => (kOk, num_samples)
  | f :: rest =>
      match audio_element_with_data f with
      | Some e =>
          match codec_config e with
          | Some c =>
              count_samples rest
                (num_samples
                 + (GetNumSamplesPerFrame c
                    - num_samples_to_trim_at_start (header_ (af_obu f))
                    - num_samples_to_trim_at_end (header_ (af_obu f))))
          | None => (kFailedPrecondition, num_samples)
          end
      | None => (kFailedPrecondition, num_samples)
      end
  end.

(** The descriptors of one kind in ascending order of their id. *)
Definition mix_presentation_le (a b : MixPresentationObu) : Prop :=
  GetMixPresentationId a <= GetMixPresentationId b.

#[global] Instance mix_presentation_le_dec a b :
  Decision (mix_presentation_le a b).
Proof. unfold mix_presentation_le. apply _. Defined.

Definition id_le {A : Type} (a b : Z * A) : Prop := a.1 <= b.1.

#[global] Instance id_le_dec {A : Type} (a b : Z * A) : Decision (id_le a b).
Proof. unfold id_le. apply _. Defined.

(** The entries of a map keyed by id, in ascending order of the id. *)
Definition ascending_by_id {A : Type} (m : gmap Z A) : list (Z * A) :=
  merge_sort id_le (map_to_list m).

Section Sequencer.

Context `{ObuBase IASequenceHeaderObu} `{ObuBase CodecConfigObu}
  `{ObuBase AudioElementObu} `{ObuBase MixPresentationObu}
  `{ObuBase ArbitraryObu} `{ObuBase ParameterBlockObu}
  `{ObuBase AudioFrameObu} `{ObuBase TemporalDelimiterObu}.

(** Modelled from the spec: [ObuSequencerBase::WriteTemporalUnit] (4.5,
    per-temporal-unit order), with the running count of untrimmed samples. *)
Definition WriteTemporalUnit (include_temporal_delimiters : bool)
    (temporal_unit : TemporalUnit) (wb : WriteBitBuffer) (num_samples : Z)
    : StatusCode * WriteBitBuffer * Z :=
  let '(st, num_samples') :=
    count_samples (audio_frames temporal_unit) num_samples in
  if negb (is_ok st) then (st, wb, num_samples)
  else
    let '(st, wb') :=
      ((if include_temporal_delimiters then
          ValidateAndWriteObu mkTemporalDelimiterObu
        else ok_writer) ;;;
       WriteObusWithHook kInsertionHookBeforeParameterBlocksAtTick
         (arbitrary_obus temporal_unit) ;;;
       write_each (fun p => ValidateAndWriteObu (pb_obu p))
         (parameter_blocks temporal_unit) ;;;
       WriteObusWithHook kInsertionHookAfterParameterBlocksAtTick
         (arbitrary_obus temporal_unit) ;;;
       write_each (fun f => ValidateAndWriteObu (af_obu f))
         (audio_frames temporal_unit) ;;;
       WriteObusWithHook kInsertionHookAfterAudioFramesAtTick
         (arbitrary_obus temporal_unit)) wb in
    if negb (is_ok st) then (st, wb', num_samples)
    else (kOk, wb', num_samples').

(** The validation of the prologue (4.5): the profile check is a parameter
    ([iamf/obu/ia_sequence_header.cc] and the profile filter are not among the
    sources), the other two are the functions of [cli_util.cc]. *)
Variable ValidateProfiles :
  IASequenceHeaderObu -> gmap Z AudioElementWithData ->
  list MixPresentationObu -> StatusCode.
Variable param_definition_neq : ParamDefinition -> ParamDefinition -> bool.

Definition ValidateDescriptors (ia_sequence_header_obu : IASequenceHeaderObu)
    (codec_config_obus : gmap Z CodecConfigObu)
    (audio_elements : gmap Z AudioElementWithData)
    (mix_presentation_obus : list MixPresentationObu) : StatusCode :=
  let st :=
    ValidateProfiles ia_sequence_header_obu audio_elements
      mix_presentation_obus in
  if negb (is_ok st) then st
  else
    let st :=
      (CliUtil.CollectAndValidateParamDefinitions param_definition_neq
         (map_to_list audio_elements) mix_presentation_obus ∅).1 in
    if negb (is_ok st) then st
    else (CliUtil.GetCommonSamplesPerFrame (map_to_list codec_config_obus) 0).1.

(** Modelled from the spec: [ObuSequencerBase::WriteDescriptorObus] (4.5,
    descriptor prologue order). *)
Definition WriteDescriptorObus (ia_sequence_header_obu : IASequenceHeaderObu)
    (codec_config_obus : gmap Z CodecConfigObu)
    (audio_elements : gmap Z AudioElementWithData)
    (mix_presentation_obus : list MixPresentationObu)
    (arbitrary_obus : list ArbitraryObu) : Writer :=
  fun wb =>
    let st :=
      ValidateDescriptors ia_sequence_header_obu codec_config_obus
        audio_elements mix_presentation_obus in
    if negb (is_ok st) then (st, wb)
    else
      (ValidateAndWriteObu ia_sequence_header_obu ;;;
       WriteObusWithHook kInsertionHookAfterIaSequenceHeader arbitrary_obus ;;;
       write_each (fun c => ValidateAndWriteObu c.2)
         (ascending_by_id codec_config_obus) ;;;
       WriteObusWithHook kInsertionHookAfterCodecConfigs arbitrary_obus ;;;
       write_each (fun e => ValidateAndWriteObu (ae_obu e.2))
         (ascending_by_id audio_elements) ;;;
       WriteObusWithHook kInsertionHookAfterAudioElements arbitrary_obus ;;;
       write_each ValidateAndWriteObu
         (merge_sort mix_presentation_le mix_presentation_obus) ;;;
       WriteObusWithHook kInsertionHookAfterMixPresentations arbitrary_obus)
        wb.

(** [class ObuSequencerIamf]: the output path (empty: no file) and the
    temporal delimiter switch. *)
Record ObuSequencerIamf : Type := mkObuSequencerIamf {
  iamf_filename_ : string;
  include_temporal_delimiters_ : bool;
}.

(** The files on disk: path to contents. *)
Definition FileSystem : Type := gmap string (list byte).

(** The temporal units of a map in ascending order of their timestamp. *)
Definition units_in_order (m : gmap Z TemporalUnit) : list TemporalUnit :=
  (ascending_by_id m).*2.

(** The loop over the temporal units of [PickAndPlace]: each unit is written
    to the buffer and flushed to the file; a unit that fails removes the
    file. *)
Fixpoint write_temporal_units (sequencer : ObuSequencerIamf)
    (units : list TemporalUnit) (num_samples : Z) (fs : FileSystem)
    : StatusCode * FileSystem :=
  match units with
  | [] => (kOk, fs)
  | temporal_unit :: rest =>
      let '(st, wb, num_samples') :=
        WriteTemporalUnit (include_temporal_delimiters_ sequencer)
          temporal_unit [] num_samples in
      if negb (is_ok st) then
        (st, if decide (iamf_filename_ sequencer = ""%string) then fs
             else delete (iamf_filename_ sequencer) fs)
      else
        write_temporal_units sequencer rest num_samples'
          (if decide (iamf_filename_ sequencer = ""%string) then fs
           else
             <[iamf_filename_ sequencer :=
                 default [] (fs !! iamf_filename_ sequencer) ++ wb]> fs)
  end.

(** Modelled from the spec: [ObuSequencerIamf::PickAndPlace] (4.5, output
    concrete types; 7, user-visible failure): the descriptors are written to
    a buffer and validated before the file is opened; the temporal units
    follow. *)
Definition PickAndPlace (sequencer : ObuSequencerIamf)
    (ia_sequence_header_obu : IASequenceHeaderObu)
    (codec_config_obus : gmap Z CodecConfigObu)
    (audio_elements : gmap Z AudioElementWithData)
    (mix_presentation_obus : list MixPresentationObu)
    (audio_frames : list AudioFrameWithData)
    (parameter_blocks : list ParameterBlockWithData)
    (arbitrary_obus : list ArbitraryObu) (fs : FileSystem)
    : StatusCode * FileSystem :=
  let '(st, wb) :=
    WriteDescriptorObus ia_sequence_header_obu codec_config_obus
      audio_elements mix_presentation_obus arbitrary_obus [] in
  if negb (is_ok st) then (st, fs)
  else
    let fs :=
      if decide (iamf_filename_ sequencer = ""%string) then fs
      else <[iamf_filename_ sequencer := wb]> fs in
    let '(st, temporal_unit_map) :=
      GenerateTemporalUnitMap audio_frames parameter_blocks arbitrary_obus in
    if negb (is_ok st) then
      (st, if decide (iamf_filename_ sequencer = ""%string) then fs
           else delete (iamf_filename_ sequencer) fs)
    else
      write_temporal_units sequencer (units_in_order temporal_unit_map) 0 fs.

End Sequencer.

End ObuSequencer.

Import ObuSequencer.

(** ** Sample serializers and inputs

    Serializers that tag each OBU, and descriptors and data in the manner
    of the sequencer's tests. *)

Module Fixture.

Definition kIaCode : Z := 0x69616d66.

#[export] Instance ia_writer : ObuBase IASequenceHeaderObu :=
  fun o =>
    if ia_code o =? kIaCode then
      (kOk, [byte_of_Z 0xf8; byte_of_Z (primary_profile o);
             byte_of_Z (additional_profile o)])
    else (kInvalidArgument, []).

#[export] Instance codec_config_writer : ObuBase CodecConfigObu :=
  fun o => (kOk, [byte_of_Z 0x00; byte_of_Z (codec_config_id o)]).

#[export] Instance audio_element_writer : ObuBase AudioElementObu :=
  fun o => (kOk, [byte_of_Z 0x08; byte_of_Z (audio_element_id o)]).

#[export] Instance mix_presentation_writer : ObuBase MixPresentationObu :=
  fun o => (kOk, [byte_of_Z 0x10; byte_of_Z (mix_presentation_id o)]).

#[export] Instance parameter_block_writer : ObuBase ParameterBlockObu :=
  fun o => (kOk, [byte_of_Z 0x18; byte_of_Z (pb_parameter_id_ o)]).

#[export] Instance temporal_delimiter_writer : ObuBase TemporalDelimiterObu :=
  fun _ => (kOk, [byte_of_Z 0x20]).

#[export] Instance audio_frame_writer : ObuBase AudioFrameObu :=
  fun o => (kOk, [byte_of_Z 0x28; byte_of_Z (audio_substream_id_ o)]).

#[export] Instance arbitrary_writer : ObuBase ArbitraryObu :=
  fun o =>
    if invalidates_bitstream_ o then (kInvalidArgument, [])
    else (kOk, byte_of_Z (obu_type_ o) :: payload_ o).

Definition no_profile_check (_ : IASequenceHeaderObu)
    (_ : gmap Z AudioElementWithData) (_ : list MixPresentationObu)
    : StatusCode := kOk.

Definition test_codec_config (id : Z) : CodecConfigObu := mkCodecConfigObu id 8.

Definition test_audio_element (id : Z) : AudioElementWithData :=
  mkAudioElementWithData (mkAudioElementObu id []) (Some (test_codec_config 1)).

Definition test_mix_gain (id : Z) : ParamDefinition :=
  mkParamDefinition id 48000 1 0 0 0 [] (MixGainParamDefinition 0).

Definition test_mix_presentation (id : Z) : MixPresentationObu :=
  mkMixPresentationObu id
    [mkMixPresentationSubMix [mkSubMixAudioElement 1 (test_mix_gain 999)]
       (test_mix_gain 999)].

Definition test_frame (audio_element_id substream_id start : Z)
    : AudioFrameWithData :=
  mkAudioFrameWithData (mkAudioFrameObu (mkObuHeader 0 0) substream_id) start
    (start + 16) (Some (test_audio_element audio_element_id)).

Definition test_block (parameter_id start : Z) : ParameterBlockWithData :=
  mkParameterBlockWithData (mkParameterBlockObu parameter_id) start (start + 16).

Definition test_arbitrary (hook : InsertionHook) (tick : option Z)
    (invalidates : bool) : ArbitraryObu :=
  mkArbitraryObu 25 [] hook tick invalidates.

Definition test_ia_sequence_header : IASequenceHeaderObu :=
  mkIASequenceHeaderObu kIaCode 0 0.

Definition test_codec_configs : gmap Z CodecConfigObu :=
  <[101 := test_codec_config 101]> (<[1 := test_codec_config 1]> ∅).

Definition test_audio_elements : gmap Z AudioElementWithData :=
  <[1 := test_audio_element 1]> ∅.

Definition test_mix_presentations : list MixPresentationObu :=
  [test_mix_presentation 100; test_mix_presentation 99].

Definition test_descriptor_arbitrary_obus : list ArbitraryObu :=
  [test_arbitrary kInsertionHookAfterDescriptors None false;
   test_arbitrary kInsertionHookAfterCodecConfigs None false].

Definition test_sequencer : ObuSequencerIamf :=
  mkObuSequencerIamf "out.iamf" false.

(** Two arbitrary OBUs at tick 99, one of them hooked after the IA sequence
    header, and one at tick 1999
    ([GenerateTemporalUnitMap.CreatesTemporalUnitsForEachInsertionTick]). *)
Definition tick_arbitrary_obus : list ArbitraryObu :=
  [test_arbitrary kInsertionHookAfterParameterBlocksAtTick (Some 99) false;
   test_arbitrary kInsertionHookAfterIaSequenceHeader (Some 99) false;
   test_arbitrary kInsertionHookAfterParameterBlocksAtTick (Some 1999) false].

Definition test_temporal_unit : TemporalUnit :=
  mkTemporalUnit [test_frame 1 1 0] [test_block 998 0]
    [test_arbitrary kInsertionHookAfterParameterBlocksAtTick (Some 0) false].

End Fixture.

(** * Properties *)

(** ** The bit reader *)

Module ReadBitBufferFacts.
Import ReadBitBuffer.

(** *** Integer conversions *)

Lemma to_uint64_small z : 0 <= z < 2 ^ 64 -> to_uint64 z = z.
Proof. intros. unfold to_uint64. apply Z.mod_small. lia. Qed.

Lemma to_int32_small z : - 2 ^ 31 <= z < 2 ^ 31 -> to_int32 z = z.
Proof. intros. unfold to_int32. rewrite Z.mod_small; lia. Qed.

Lemma quot8_nonneg z : 0 <= z -> Z.quot z 8 = z / 8.
Proof. intros. apply Z.quot_div_nonneg; lia. Qed.

Lemma rem8_nonneg z : 0 <= z -> Z.rem z 8 = z mod 8.
Proof. intros. apply Z.rem_mod_nonneg; lia. Qed.

Lemma ShouldRead_true off src r :
  0 <= off < 2 ^ 63 ->
  ShouldRead off src r = true <-> off / 8 < vsize src /\ 0 < r.
Proof.
  intros Hoff. unfold ShouldRead.
  rewrite quot8_nonneg by lia.
  rewrite to_uint64_small.
  - rewrite andb_true_iff, !Z.ltb_lt. tauto.
  - split; [apply Z.div_pos; lia|].
    apply Z.div_lt_upper_bound; lia.
Qed.

(** *** The loading loop *)

Lemma CanWriteBits_resizing_ok n off buf :
  (CanWriteBits true n off buf).1 = kOk.
Proof. unfold CanWriteBits. destruct (_ <=? _); reflexivity. Qed.

Lemma WriteBit_ok bit off buf :
  0 <= off -> exists buf', WriteBit bit off buf = (kOk, off + 1, buf').
Proof.
  intros. unfold WriteBit.
  destruct (off <? 0) eqn:E; [apply Z.ltb_lt in E; lia|]. eauto.
Qed.

(** The loop never fails, leaves source and capacity alone, and advances the
    source offset by the bits it loaded, without leaving the source. *)
Lemma LoadBits_loop_spec fuel : forall n s st s',
  0 <= source_bit_offset_ (ld_rb s) <= 8 * vsize (source_ (ld_rb s)) ->
  8 * vsize (source_ (ld_rb s)) < 2 ^ 63 ->
  0 <= ld_write_offset s ->
  LoadBits_loop fuel n s = (st, s') ->
  st = kOk
  /\ source_ (ld_rb s') = source_ (ld_rb s)
  /\ capacity (ld_rb s') = capacity (ld_rb s)
  /\ source_bit_offset_ (ld_rb s') - source_bit_offset_ (ld_rb s)
     = ld_bits_loaded s' - ld_bits_loaded s
  /\ source_bit_offset_ (ld_rb s) <= source_bit_offset_ (ld_rb s')
     <= 8 * vsize (source_ (ld_rb s)).
Proof.
  induction fuel as [|fuel IH]; intros n s st s' Hoff Hsz Hw Hrun; simpl in Hrun.
  - inversion Hrun; subst. repeat split; lia.
  - destruct (ShouldRead _ _ _ && _) eqn:Hguard.
    2:{ inversion Hrun; subst. repeat split; lia. }
    apply andb_true_iff in Hguard as [Hread _].
    apply ShouldRead_true in Hread as [Hlt _]; [|lia].
    destruct (negb _ || negb _ || negb _) eqn:Hmode.
    + pose proof (CanWriteBits_resizing_ok 1 (ld_write_offset s)
                    (bit_buffer_ (ld_rb s))) as Hcw.
      destruct (CanWriteBits true 1 _ _) as [st1 buf1]. simpl in Hcw. subst st1.
      simpl in Hrun.
      destruct (WriteBit_ok (GetUpperBit (source_bit_offset_ (ld_rb s))
                               (source_ (ld_rb s))) (ld_write_offset s) buf1 Hw)
        as [buf2 Hwb].
      rewrite Hwb in Hrun. simpl in Hrun.
      apply IH in Hrun; simpl in *.
      * destruct Hrun as (-> & -> & -> & Hd & Hle). repeat split; lia.
      * assert (source_bit_offset_ (ld_rb s) < 8 * vsize (source_ (ld_rb s))).
        { pose proof (Z.div_mod (source_bit_offset_ (ld_rb s)) 8).
          pose proof (Z.mod_pos_bound (source_bit_offset_ (ld_rb s)) 8). lia. }
        lia.
      * lia.
      * lia.
    + apply orb_false_iff in Hmode as [Hmode _].
      apply orb_false_iff in Hmode as [_ Hal].
      apply negb_false_iff, Z.eqb_eq in Hal.
      rewrite rem8_nonneg in Hal by lia.
      apply IH in Hrun; simpl in *.
      * destruct Hrun as (-> & -> & -> & Hd & Hle). repeat split; lia.
      * pose proof (Z.div_mod (source_bit_offset_ (ld_rb s)) 8). lia.
      * lia.
      * lia.
Qed.

(** Every call of [LoadBits] that does not return [kOk] leaves the reader
    with its source offset restored and its bit buffer empty; the status is
    [kResourceExhausted], or [kInvalidArgument] from the capacity guard. *)
Lemma LoadBits_failure rb n fill st rb' :
  source_in_int_range rb ->
  LoadBits n fill rb = (st, rb') ->
  st <> kOk ->
  rb' = DiscardAllBits rb
  /\ (st = kResourceExhausted
      \/ (st = kInvalidArgument /\ fill = true /\ bit_capacity rb < n)).
Proof.
  intros [Hoff Hsz] Hrun Hst. unfold LoadBits in Hrun. simpl in Hrun.
  fold (bit_capacity rb) in Hrun.
  destruct (fill && (bit_capacity rb <? n)) eqn:Hguard.
  { inversion Hrun; subst. split; [reflexivity|]. right.
    apply andb_true_iff in Hguard as [-> Hlt]. apply Z.ltb_lt in Hlt. auto. }
  destruct (LoadBits_loop _ _ _) as [st1 s1] eqn:Hloop.
  apply LoadBits_loop_spec in Hloop; simpl in *; try lia.
  destruct Hloop as (-> & Hsrc & Hcap & Hd & Hle). simpl in Hrun.
  destruct (ld_bits_loaded s1 <? n).
  - inversion Hrun; subst. split; [|auto].
    unfold DiscardAllBits; simpl. rewrite Hsrc, Hcap.
    rewrite to_int32_small by lia. reflexivity.
  - inversion Hrun; subst. congruence.
Qed.

(** When the source holds fewer bits than required, the call fails. *)
Lemma LoadBits_short_source rb n fill :
  source_in_int_range rb ->
  source_bits_left rb < n ->
  (LoadBits n fill rb).1 <> kOk.
Proof.
  intros [Hoff Hsz] Hleft. unfold LoadBits. simpl.
  destruct (fill && _); [simpl; congruence|].
  destruct (LoadBits_loop _ _ _) as [st1 s1] eqn:Hloop.
  apply LoadBits_loop_spec in Hloop; simpl in *; try lia.
  destruct Hloop as (-> & Hsrc & Hcap & Hd & Hle). simpl.
  unfold source_bits_left in Hleft.
  destruct (ld_bits_loaded s1 <? n) eqn:E; [simpl; congruence|].
  apply Z.ltb_ge in E. lia.
Qed.

(** C10 (as amended).  A call of [LoadBits] that the source cannot serve
    (fewer than [required_num_bits] bits are left in it) leaves the reader as
    [DiscardAllBits] would: the source bit offset keeps its value and the bit
    buffer is empty.  It returns [kResourceExhausted], except that a request
    with [fill_to_capacity] for more bits than the buffer's capacity is
    turned down with [kInvalidArgument] before the source is looked at. *)
Theorem LoadBits_exhausted_source_consumes_nothing rb n fill :
  source_in_int_range rb ->
  source_bits_left rb < n ->
  LoadBits n fill rb
  = (if fill && (bit_capacity rb <? n) then kInvalidArgument
     else kResourceExhausted,
     DiscardAllBits rb).
Proof.
  intros Hwf Hleft.
  pose proof (LoadBits_short_source rb n fill Hwf Hleft) as Hno.
  destruct (LoadBits n fill rb) as [st rb'] eqn:Hrun. simpl in Hno.
  destruct (LoadBits_failure rb n fill st rb' Hwf Hrun Hno) as [-> Hst].
  f_equal.
  destruct Hst as [-> | (-> & -> & Hlt)].
  - destruct (fill && _) eqn:Hguard; [|reflexivity].
    unfold LoadBits in Hrun. simpl in Hrun. fold (bit_capacity rb) in Hrun.
    rewrite Hguard in Hrun. inversion Hrun.
  - apply Z.ltb_lt in Hlt. rewrite Hlt. reflexivity.
Qed.

(** A reader of capacity 2 at the end of a one-byte source, asked for 4 bits
    without filling. *)
Lemma LoadBits_exhausted_source_witness :
  LoadBits 4 false (mk ["a"%byte] 8 ["a"%byte] 2 8 8)
  = (kResourceExhausted, mk ["a"%byte] 8 [] 2 0 0).
Proof.
  apply (LoadBits_exhausted_source_consumes_nothing
           (mk ["a"%byte] 8 ["a"%byte] 2 8 8) 4 false).
  - unfold source_in_int_range, vsize; simpl; lia.
  - unfold source_bits_left, vsize; simpl; lia.
Defined.

(** C10 (as stated) fails: a one-byte buffer asked to fill up with 16 bits
    from an empty source cannot obtain them, and the status is
    [kInvalidArgument], not [kResourceExhausted]. *)
Lemma LoadBits_capacity_guard_counterexample :
  source_bits_left (create 1 []) < 16
  /\ (LoadBits 16 true (create 1 [])).1 = kInvalidArgument
  /\ (LoadBits 16 true (create 1 [])).1 <> kResourceExhausted.
Proof. vm_compute. repeat split; congruence. Qed.

(** *** Requests wider than the output *)

(** C7 (as amended).  A call of [ReadUnsignedLiteral] for more bits than its
    8-, 16-, 32- or 64-bit output holds fails with [kInvalidArgument]; the
    output and the reader are left as they were. *)
Theorem ReadUnsignedLiteral_rejects_wide_request fill ty num_bits output rb :
  width ty < num_bits ->
  ReadUnsignedLiteral fill ty num_bits output rb
  = (kInvalidArgument, output, rb).
Proof.
  intros Hw. apply Z.ltb_lt in Hw.
  destruct ty; simpl in Hw; unfold ReadUnsignedLiteral,
    ReadUnsignedLiteral_uint8, ReadUnsignedLiteral_uint16,
    ReadUnsignedLiteral_uint32, ReadUnsignedLiteral_uint64,
    ReadUnsignedLiteralInternal; rewrite Hw; reflexivity.
Qed.

Lemma ReadUnsignedLiteral_rejects_wide_request_witness :
  ReadUnsignedLiteral true Uint16 17 5 (create 4 ["a"%byte; "b"%byte; "c"%byte])
  = (kInvalidArgument, 5, create 4 ["a"%byte; "b"%byte; "c"%byte]).
Proof.
  apply (ReadUnsignedLiteral_rejects_wide_request true Uint16 17 5).
  simpl. lia.
Defined.

(** C7 (as stated) fails: nine bits into a [uint8_t] are refused with
    [kInvalidArgument], not with [kOutOfRange]. *)
Lemma ReadUnsignedLiteral_wide_request_counterexample :
  width Uint8 < 9
  /\ (ReadUnsignedLiteral true Uint8 9 0 (create 4 ["a"%byte; "b"%byte])).1.1
     <> kOutOfRange.
Proof. vm_compute. split; [reflexivity | congruence]. Qed.

(** *** Byte-aligned reading *)

Lemma LoadBits_loop_bytes fuel : forall N s st s',
  0 <= source_bit_offset_ (ld_rb s) ->
  source_bit_offset_ (ld_rb s) mod 8 = 0 ->
  source_bit_offset_ (ld_rb s) + 8 * Z.of_nat fuel < 2 ^ 63 ->
  ld_write_offset s = 0 ->
  0 <= N - ld_bits_loaded s ->
  (N - ld_bits_loaded s) mod 8 = 0 ->
  LoadBits_loop fuel N s = (st, s') ->
  exists m : nat,
    st = kOk
    /\ ld_rb s'
       = mk (source_ (ld_rb s))
           (source_bit_offset_ (ld_rb s) + 8 * Z.of_nat m)
           (bit_buffer_ (ld_rb s)
            ++ take m (drop (Z.to_nat (source_bit_offset_ (ld_rb s) / 8))
                         (source_ (ld_rb s))))
           (capacity (ld_rb s)) (buffer_bit_offset_ (ld_rb s))
           (buffer_size_ (ld_rb s) + 8 * Z.of_nat m)
    /\ ld_bits_loaded s' = ld_bits_loaded s + 8 * Z.of_nat m
    /\ (Z.to_nat (source_bit_offset_ (ld_rb s) / 8) + m
        <= length (source_ (ld_rb s))
        \/ m = 0)%nat
    /\ (vsize (bit_buffer_ (ld_rb s)) <= capacity (ld_rb s) ->
        vsize (bit_buffer_ (ld_rb s)) + Z.of_nat m <= capacity (ld_rb s))
    /\ (fuel <> 0%nat ->
        source_bit_offset_ (ld_rb s) / 8 < vsize (source_ (ld_rb s)) ->
        0 < N - ld_bits_loaded s ->
        vsize (bit_buffer_ (ld_rb s)) <> capacity (ld_rb s) ->
        (1 <= m)%nat).
Proof.
  induction fuel as [|fuel IH];
    intros N s st s' Hoff Hal Hbound Hw HN HNal Hrun; simpl in Hrun.
  - injection Hrun as <- <-. exists 0%nat. destruct s as [[] ? ?]; simpl in *.
    rewrite take_0, app_nil_r, !Z.add_0_r.
    repeat split; auto; try lia.
  - destruct (ShouldRead _ _ _ && _) eqn:Hguard.
    2:{ injection Hrun as <- <-. exists 0%nat. destruct s as [[] ? ?]; simpl in *.
        rewrite take_0, app_nil_r, !Z.add_0_r.
        repeat split; auto; try lia.
        intros _ Hlt Hpos Hcap. exfalso.
        apply andb_false_iff in Hguard as [Hg|Hg].
        - assert (ShouldRead source_bit_offset_0 source_0 (N - ld_bits_loaded0) = true)
            as Ht by (apply ShouldRead_true; lia).
          congruence.
        - apply negb_false_iff, Z.eqb_eq in Hg. congruence. }
    apply andb_true_iff in Hguard as [Hread Hcapne].
    apply ShouldRead_true in Hread as [Hlt Hpos]; [|lia].
    apply negb_true_iff, Z.eqb_neq in Hcapne.
    assert (Hmode :
      negb (Z.rem (N - ld_bits_loaded s) 8 =? 0)
      || negb (Z.rem (source_bit_offset_ (ld_rb s)) 8 =? 0)
      || negb (Z.rem (ld_write_offset s) 8 =? 0) = false).
    { rewrite !rem8_nonneg by lia. rewrite HNal, Hal, Hw. reflexivity. }
    rewrite Hmode in Hrun.
    assert (Hk : (Z.to_nat (source_bit_offset_ (ld_rb s) / 8)
                  < length (source_ (ld_rb s)))%nat).
    { unfold vsize in Hlt. pose proof (Z.div_pos (source_bit_offset_ (ld_rb s)) 8).
      lia. }
    destruct (lookup_lt_is_Some_2 _ _ Hk) as [b Hb].
    assert (Hal' : (source_bit_offset_ (ld_rb s) + 8) mod 8 = 0).
    { rewrite <- Z.add_mod_idemp_l by lia. rewrite Hal. reflexivity. }
    assert (HNal' : (N - (ld_bits_loaded s + 8)) mod 8 = 0).
    { replace (N - (ld_bits_loaded s + 8))
        with (N - ld_bits_loaded s + (-1) * 8) by lia.
      rewrite Z.mod_add by lia. assumption. }
    assert (HN' : 0 <= N - (ld_bits_loaded s + 8)).
    { pose proof (Z.div_mod (N - ld_bits_loaded s) 8). lia. }
    apply IH in Hrun; simpl; try assumption; try lia.
    simpl in Hrun.
    destruct Hrun as (m & -> & Hrb & Hbits & Hlen & Hcap & _).
    exists (S m). split; [reflexivity|].
    assert (Hdiv : (source_bit_offset_ (ld_rb s) + 8) / 8
                   = source_bit_offset_ (ld_rb s) / 8 + 1).
    { replace (source_bit_offset_ (ld_rb s) + 8)
        with (source_bit_offset_ (ld_rb s) + 1 * 8) by lia.
      apply Z.div_add; lia. }
    rewrite Hdiv in *.
    assert (Hnat : Z.to_nat (source_bit_offset_ (ld_rb s) / 8 + 1)
                   = S (Z.to_nat (source_bit_offset_ (ld_rb s) / 8))).
    { pose proof (Z.div_pos (source_bit_offset_ (ld_rb s)) 8). lia. }
    rewrite Hnat in *.
    split.
    { rewrite Hrb. f_equal; try lia.
      rewrite <- app_assoc. f_equal.
      rewrite (drop_S _ _ _ Hb). simpl. f_equal.
      rewrite quot8_nonneg by lia.
      unfold vbyte. rewrite nth_lookup, Hb. reflexivity. }
    split; [lia|].
    split; [left; destruct Hlen; lia|].
    split.
    { intros Hc. unfold vsize in *. rewrite length_app in Hcap. simpl in Hcap. lia. }
    intros; lia.
Qed.

Lemma bit_capacity_small rb :
  1 <= capacity rb < 2 ^ 28 -> bit_capacity rb = 8 * capacity rb.
Proof.
  intros. unfold bit_capacity.
  rewrite to_uint64_small by lia. rewrite to_int32_small by lia. lia.
Qed.

Lemma drop_cons_lt {A} (l : list A) k b rest :
  drop k l = b :: rest -> (k < length l)%nat /\ l !! k = Some b.
Proof.
  intros Hd.
  assert (k < length l)%nat.
  { destruct (decide (k < length l)%nat); [assumption|].
    rewrite drop_ge in Hd by lia. discriminate. }
  split; [assumption|].
  destruct (lookup_lt_is_Some_2 _ _ H) as [x Hx].
  rewrite (drop_S _ _ _ Hx) in Hd. congruence.
Qed.

Lemma LoadBits_aligned_ok fill rb b rest :
  byte_aligned rb ->
  1 <= capacity rb < 2 ^ 28 ->
  source_bit_offset_ rb < 2 ^ 62 ->
  drop (Z.to_nat (source_bit_offset_ rb / 8)) (source_ rb) = b :: rest ->
  exists rb',
    LoadBits 8 fill rb = (kOk, rb')
    /\ byte_aligned rb'
    /\ capacity rb' = capacity rb
    /\ buffer_bit_offset_ rb' = 0
    /\ bit_buffer_ rb' <> []
    /\ pending rb' = b :: rest
    /\ source_bit_offset_ rb' <= source_bit_offset_ rb + 8 * capacity rb.
Proof.
  intros (Hoff & Hal & Hboff & Hbal & Hbsz & Hbcap) Hcap Hbound Hdrop.
  destruct (drop_cons_lt _ _ _ _ Hdrop) as [Hk Hb].
  unfold LoadBits. simpl. fold (bit_capacity rb).
  rewrite (bit_capacity_small rb Hcap).
  set (N := if fill then 8 * capacity rb else 8).
  assert (HN : 8 <= N < 2 ^ 31) by (subst N; destruct fill; lia).
  assert (HNal : N mod 8 = 0).
  { subst N; destruct fill; [|reflexivity].
    rewrite Z.mul_comm. apply Z.mod_mul. lia. }
  replace (fill && (8 * capacity rb <? 8)) with false.
  2:{ destruct fill; [|reflexivity]. simpl. symmetry. apply Z.ltb_ge. lia. }
  destruct (LoadBits_loop (Z.to_nat N) N (mkLoad (DiscardAllBits rb) 0 0))
    as [st s'] eqn:Hloop.
  apply LoadBits_loop_bytes in Hloop; simpl; try lia.
  2:{ rewrite Z.sub_0_r. assumption. }
  simpl in Hloop.
  destruct Hloop as (m & -> & Hrb & Hbits & Hlen & Hmcap & Hm).
  assert (1 <= m)%nat as Hm1.
  { apply Hm; unfold vsize; simpl; lia. }
  assert (Hlen' : (Z.to_nat (source_bit_offset_ rb / 8) + m
                   <= length (source_ rb))%nat) by (destruct Hlen; lia).
  clear Hm Hlen. simpl.
  replace (ld_bits_loaded s' <? 8) with false
    by (symmetry; apply Z.ltb_ge; lia).
  exists (ld_rb s'). split; [reflexivity|]. rewrite Hrb. simpl.
  assert (Hlt : length (take m (drop (Z.to_nat (source_bit_offset_ rb / 8))
                                  (source_ rb))) = m).
  { rewrite length_take, length_drop. lia. }
  assert (Hdiv : (source_bit_offset_ rb + 8 * Z.of_nat m) / 8
                 = source_bit_offset_ rb / 8 + Z.of_nat m).
  { rewrite (Z.mul_comm 8). apply Z.div_add. lia. }
  split.
  { unfold byte_aligned, vsize; simpl. rewrite Hlt.
    unfold vsize in *. repeat split; try lia.
    - pose proof (Z.div_mod (source_bit_offset_ rb) 8).
      pose proof (Z.div_pos (source_bit_offset_ rb) 8). lia.
    - rewrite <- Z.add_mod_idemp_l by lia. rewrite Hal.
      rewrite Z.add_0_l, Z.mul_comm. apply Z.mod_mul. lia.
    - specialize (Hmcap ltac:(simpl; lia)). simpl in Hmcap. lia. }
  split; [reflexivity|]. split; [reflexivity|].
  split.
  { intros Hnil. rewrite Hnil in Hlt. simpl in Hlt. lia. }
  split.
  { unfold pending; simpl. rewrite Hdiv.
    replace (Z.to_nat (source_bit_offset_ rb / 8 + Z.of_nat m))
      with (Z.to_nat (source_bit_offset_ rb / 8) + m)%nat
      by (pose proof (Z.div_pos (source_bit_offset_ rb) 8); lia).
    change (Z.to_nat (0 / 8)) with 0%nat. rewrite drop_0.
    rewrite <- drop_drop, take_drop. assumption. }
  specialize (Hmcap ltac:(unfold vsize; simpl; lia)).
  unfold vsize in Hmcap; simpl in Hmcap. lia.
Qed.

Lemma LoadBits_aligned_empty fill rb :
  byte_aligned rb ->
  1 <= capacity rb < 2 ^ 28 ->
  source_bit_offset_ rb < 2 ^ 62 ->
  drop (Z.to_nat (source_bit_offset_ rb / 8)) (source_ rb) = [] ->
  (LoadBits 8 fill rb).1 = kResourceExhausted.
Proof.
  intros (Hoff & Hal & Hboff & Hbal & Hbsz & Hbcap) Hcap Hbound Hdrop.
  unfold LoadBits. simpl. fold (bit_capacity rb).
  rewrite (bit_capacity_small rb Hcap).
  replace (fill && (8 * capacity rb <? 8)) with false.
  2:{ destruct fill; [|reflexivity]. simpl. symmetry. apply Z.ltb_ge. lia. }
  set (N := if fill then 8 * capacity rb else 8).
  assert (HN : 8 <= N) by (subst N; destruct fill; lia).
  destruct (Z.to_nat N) as [|fuel] eqn:Hfuel; [lia|].
  simpl.
  replace (ShouldRead (source_bit_offset_ rb) (source_ rb) (N - 0)) with false.
  { reflexivity. }
  symmetry. apply not_true_is_false. intros Ht.
  apply ShouldRead_true in Ht as [Hlt _]; [|lia].
  assert (length (drop (Z.to_nat (source_bit_offset_ rb / 8)) (source_ rb)) = 0%nat)
    as Hl by (rewrite Hdrop; reflexivity).
  rewrite length_drop in Hl. unfold vsize in Hlt.
  pose proof (Z.div_pos (source_bit_offset_ rb) 8). lia.
Qed.

Lemma ReadUnsignedLiteralBytes_loop_done fuel off buf rem out :
  rem <= 0 -> ReadUnsignedLiteralBytes_loop fuel off buf rem out = (off, rem, out).
Proof.
  intros. destruct fuel; [reflexivity|]. simpl.
  replace (0 <? rem) with false by (symmetry; apply Z.ltb_ge; lia).
  rewrite andb_false_r. reflexivity.
Qed.

Lemma ReadUnsignedLiteralBytes_loop_S fuel off buf rem out :
  ReadUnsignedLiteralBytes_loop (S fuel) off buf rem out
  = if (to_uint64 (Z.quot off 8) <? vsize buf) && (0 <? rem) then
      ReadUnsignedLiteralBytes_loop fuel (off + 8) buf (rem - 8)
        (Z.lor (to_uint64 (Z.shiftl out 8)) (vat buf (Z.quot off 8)))
    else (off, rem, out).
Proof. reflexivity. Qed.

Lemma ReadUnsignedLiteralBytes_one boff buf :
  0 <= boff < 2 ^ 63 -> boff / 8 < vsize buf ->
  ReadUnsignedLiteralBytes boff buf 8 0 = (boff + 8, 0, vat buf (boff / 8)).
Proof.
  intros Hb Hlt. unfold ReadUnsignedLiteralBytes.
  change (Z.to_nat 8) with 8%nat.
  rewrite ReadUnsignedLiteralBytes_loop_S.
  rewrite quot8_nonneg by lia.
  rewrite to_uint64_small
    by (split; [apply Z.div_pos; lia | apply Z.div_lt_upper_bound; lia]).
  replace (boff / 8 <? vsize buf) with true by (symmetry; apply Z.ltb_lt; lia).
  change (0 <? 8) with true. cbn [andb].
  rewrite ReadUnsignedLiteralBytes_loop_done by lia.
  rewrite Z.shiftl_0_l. change (to_uint64 0) with 0. rewrite Z.lor_0_l.
  reflexivity.
Qed.

Lemma ReadUnsignedLiteralBytes_none boff buf :
  0 <= boff < 2 ^ 63 -> vsize buf <= boff / 8 ->
  ReadUnsignedLiteralBytes boff buf 8 0 = (boff, 8, 0).
Proof.
  intros Hb Hge. unfold ReadUnsignedLiteralBytes.
  change (Z.to_nat 8) with 8%nat.
  rewrite ReadUnsignedLiteralBytes_loop_S.
  rewrite quot8_nonneg by lia.
  rewrite to_uint64_small
    by (split; [apply Z.div_pos; lia | apply Z.div_lt_upper_bound; lia]).
  replace (boff / 8 <? vsize buf) with false by (symmetry; apply Z.ltb_ge; lia).
  reflexivity.
Qed.

Lemma CanReadByteAligned_8 boff :
  0 <= boff -> boff mod 8 = 0 -> CanReadByteAligned boff 8 = true.
Proof.
  intros. unfold CanReadByteAligned. rewrite rem8_nonneg by lia.
  rewrite H0. reflexivity.
Qed.

(** A byte-aligned reader with an unread byte in its buffer hands it out. *)
Lemma read_literal_step_buffered rb b rest :
  byte_aligned rb ->
  capacity rb < 2 ^ 28 ->
  buffer_bit_offset_ rb / 8 < vsize (bit_buffer_ rb) ->
  pending rb = b :: rest ->
  exists rb',
    read_literal_step 8 rb 8 0 = (rb', 0, byte_to_Z b)
    /\ byte_aligned rb'
    /\ capacity rb' = capacity rb
    /\ source_bit_offset_ rb' = source_bit_offset_ rb
    /\ pending rb' = rest.
Proof.
  intros (Hoff & Hal & Hboff & Hbal & Hbsz & Hbcap) Hcap Hlt Hpend.
  unfold read_literal_step.
  rewrite CanReadByteAligned_8 by lia.
  rewrite ReadUnsignedLiteralBytes_one by lia.
  exists (mk (source_ rb) (source_bit_offset_ rb) (bit_buffer_ rb) (capacity rb)
            (buffer_bit_offset_ rb + 8) (buffer_size_ rb)).
  split; [|split; [|split; [|split]]]; cycle 2.
  - reflexivity.
  - reflexivity.
  - unfold pending in *. simpl.
    assert (Hj : (Z.to_nat (buffer_bit_offset_ rb / 8)
                  < length (bit_buffer_ rb))%nat).
    { unfold vsize in Hlt. pose proof (Z.div_pos (buffer_bit_offset_ rb) 8). lia. }
    destruct (lookup_lt_is_Some_2 _ _ Hj) as [x Hx].
    rewrite (drop_S _ _ _ Hx) in Hpend. simpl in Hpend.
    injection Hpend as -> <-.
    replace (Z.to_nat ((buffer_bit_offset_ rb + 8) / 8))
      with (S (Z.to_nat (buffer_bit_offset_ rb / 8))).
    + reflexivity.
    + replace (buffer_bit_offset_ rb + 8) with (buffer_bit_offset_ rb + 1 * 8)
        by lia.
      rewrite Z.div_add by lia.
      pose proof (Z.div_pos (buffer_bit_offset_ rb) 8). lia.
  - f_equal. f_equal. unfold vat, vbyte.
    assert (Hj : (Z.to_nat (buffer_bit_offset_ rb / 8)
                  < length (bit_buffer_ rb))%nat).
    { unfold vsize in Hlt. pose proof (Z.div_pos (buffer_bit_offset_ rb) 8). lia. }
    destruct (lookup_lt_is_Some_2 _ _ Hj) as [x Hx].
    unfold pending in Hpend. rewrite (drop_S _ _ _ Hx) in Hpend.
    simpl in Hpend. injection Hpend as -> _.
    rewrite nth_lookup, Hx. reflexivity.
  - unfold byte_aligned; simpl. repeat split; try lia.
    + pose proof (Z.div_mod (buffer_bit_offset_ rb) 8). lia.
    + rewrite <- Z.add_mod_idemp_l by lia. rewrite Hbal. reflexivity.
Qed.

(** One byte read from a byte-aligned reader that still has one. *)
Lemma read_byte_ok fill rb out b rest :
  byte_aligned rb ->
  1 <= capacity rb < 2 ^ 28 ->
  source_bit_offset_ rb < 2 ^ 62 ->
  pending rb = b :: rest ->
  exists rb',
    ReadUnsignedLiteral_uint64 fill 8 out rb = (kOk, byte_to_Z b, rb')
    /\ byte_aligned rb'
    /\ capacity rb' = capacity rb
    /\ pending rb' = rest
    /\ source_bit_offset_ rb' <= source_bit_offset_ rb + 8 * capacity rb.
Proof.
  intros Hal Hcap Hbound Hpend.
  pose proof Hal as (Hoff & Hsal & Hboff & Hbal & Hbsz & Hbcap).
  unfold ReadUnsignedLiteral_uint64, ReadUnsignedLiteralInternal.
  change (64 <? 8) with false. cbv iota.
  replace (buffer_bit_offset_ rb <? 0) with false
    by (symmetry; apply Z.ltb_ge; lia).
  destruct (Z_lt_dec (buffer_bit_offset_ rb / 8) (vsize (bit_buffer_ rb)))
    as [Hlt|Hge].
  - destruct (read_literal_step_buffered rb b rest Hal ltac:(lia) Hlt Hpend)
      as (rb' & Hstep & Hal' & Hcap' & Hsrc' & Hpend').
    rewrite Hstep. simpl. exists rb'.
    split; [reflexivity|]. split; [assumption|]. split; [assumption|].
    split; [assumption|]. lia.
  - assert (Hstep : read_literal_step 8 rb 8 0 = (rb, 8, 0)).
    { unfold read_literal_step. rewrite CanReadByteAligned_8 by lia.
      rewrite ReadUnsignedLiteralBytes_none by lia. destruct rb; reflexivity. }
    rewrite Hstep. simpl.
    assert (Hdrop : drop (Z.to_nat (source_bit_offset_ rb / 8)) (source_ rb)
                    = b :: rest).
    { unfold pending in Hpend. rewrite drop_ge in Hpend; [assumption|].
      unfold vsize in *. lia. }
    destruct (LoadBits_aligned_ok fill rb b rest Hal Hcap Hbound Hdrop)
      as (rb1 & Hload & Hal1 & Hcap1 & Hb0 & Hne & Hpend1 & Hsrc1).
    rewrite Hload. simpl.
    assert (Hlt1 : buffer_bit_offset_ rb1 / 8 < vsize (bit_buffer_ rb1)).
    { rewrite Hb0. change (0 / 8) with 0. unfold vsize.
      destruct (bit_buffer_ rb1); [congruence|simpl; lia]. }
    destruct (read_literal_step_buffered rb1 b rest Hal1 ltac:(lia) Hlt1 Hpend1)
      as (rb' & Hstep' & Hal' & Hcap' & Hsrc' & Hpend').
    rewrite Hstep'. exists rb'.
    split; [reflexivity|]. split; [assumption|]. split; [lia|].
    split; [assumption|]. lia.
Qed.

(** A byte-aligned reader with nothing left reports the source exhausted. *)
Lemma read_byte_empty fill rb out :
  byte_aligned rb ->
  1 <= capacity rb < 2 ^ 28 ->
  source_bit_offset_ rb < 2 ^ 62 ->
  pending rb = [] ->
  (ReadUnsignedLiteral_uint64 fill 8 out rb).1.1 = kResourceExhausted.
Proof.
  intros Hal Hcap Hbound Hpend.
  pose proof Hal as (Hoff & Hsal & Hboff & Hbal & Hbsz & Hbcap).
  unfold ReadUnsignedLiteral_uint64, ReadUnsignedLiteralInternal.
  change (64 <? 8) with false. cbv iota.
  replace (buffer_bit_offset_ rb <? 0) with false
    by (symmetry; apply Z.ltb_ge; lia).
  unfold pending in Hpend. apply app_eq_nil in Hpend as [Hbuf Hsrc].
  assert (Hge : vsize (bit_buffer_ rb) <= buffer_bit_offset_ rb / 8).
  { assert (length (drop (Z.to_nat (buffer_bit_offset_ rb / 8)) (bit_buffer_ rb))
            = 0%nat) as Hl by (rewrite Hbuf; reflexivity).
    rewrite length_drop in Hl. unfold vsize.
    pose proof (Z.div_pos (buffer_bit_offset_ rb) 8). lia. }
  assert (Hstep : read_literal_step 8 rb 8 0 = (rb, 8, 0)).
  { unfold read_literal_step. rewrite CanReadByteAligned_8 by lia.
    rewrite ReadUnsignedLiteralBytes_none by lia. destruct rb; reflexivity. }
  rewrite Hstep. simpl.
  pose proof (LoadBits_aligned_empty fill rb Hal Hcap Hbound Hsrc) as Hload.
  destruct (LoadBits 8 fill rb) as [st rb1]. simpl in Hload. subst st.
  reflexivity.
Qed.

(** The decoding loop on a byte-aligned reader is the loop on the bytes it
    has yet to deliver. *)
Lemma Accumulate_loop_decode fill accr max_out iters :
  forall i rb acc byte cnt,
    byte_aligned rb ->
    1 <= capacity rb < 2 ^ 28 ->
    source_bit_offset_ rb + 8 * capacity rb * Z.of_nat iters < 2 ^ 62 ->
    forall st v n rest,
      decode_groups iters i accr max_out (pending rb) acc cnt
      = (st, v, n, rest) ->
      let r := Accumulate_loop fill iters i accr max_out rb acc byte cnt in
      acc_status r = st /\ acc_value r = v /\ acc_encoded_size r = n
      /\ (st <> kResourceExhausted ->
          pending (acc_rb r) = rest /\ byte_aligned (acc_rb r)).
Proof.
  induction iters as [|iters IH];
    intros i rb acc byte cnt Hal Hcap Hbound st v n rest Hdec; simpl in *.
  - injection Hdec as <- <- <- <-.
    split; [reflexivity|]. split; [reflexivity|]. split; [reflexivity|].
    intros _. split; [reflexivity | assumption].
  - destruct (pending rb) as [|b bs] eqn:Hpend.
    + injection Hdec as <- <- <- <-.
      pose proof (read_byte_empty fill rb byte Hal Hcap ltac:(nia) Hpend) as He.
      destruct (ReadUnsignedLiteral_uint64 fill 8 byte rb) as [[st1 b1] rb1].
      simpl in He. subst st1. simpl.
      split; [reflexivity|]. split; [reflexivity|]. split; [reflexivity|].
      congruence.
    + destruct (read_byte_ok fill rb byte b bs Hal Hcap ltac:(nia) Hpend)
        as (rb1 & Hread & Hal1 & Hcap1 & Hpend1 & Hsrc1).
      rewrite Hread. simpl.
      destruct (AccumulateUleb128Byte accr max_out (byte_to_Z b) i acc)
        as [[st1 term] acc1].
      destruct (is_ok st1) eqn:Hok; simpl in *.
      * destruct term.
        -- injection Hdec as <- <- <- <-. simpl.
           split; [reflexivity|]. split; [reflexivity|]. split; [reflexivity|].
           intros _. split; assumption.
        -- rewrite <- Hpend1 in Hdec.
           apply (IH (i + 1) rb1 acc1 (byte_to_Z b) (cnt + 1)) in Hdec;
             [assumption | assumption | lia | nia].
      * injection Hdec as <- <- <- <-. simpl.
        split; [reflexivity|]. split; [reflexivity|]. split; [reflexivity|].
        intros _. split; assumption.
Qed.

Lemma land_7f_bounds x : 0 <= Z.land x 0x7f < 128.
Proof.
  change 0x7f with (Z.ones 7). rewrite Z.land_ones by lia.
  apply Z.mod_pos_bound. lia.
Qed.

Lemma little_endian_value_bounds bs :
  0 <= little_endian_value bs < 2 ^ (7 * Z.of_nat (length bs)).
Proof.
  induction bs as [|b bs IH]; simpl length; [simpl; lia|].
  cbn [little_endian_value].
  pose proof (land_7f_bounds (byte_to_Z b)).
  replace (7 * Z.of_nat (S (length bs))) with (7 + 7 * Z.of_nat (length bs)) by lia.
  rewrite Z.pow_add_r by lia. change (2 ^ 7) with 128. lia.
Qed.

Lemma little_endian_value_app pre b :
  little_endian_value (pre ++ [b])
  = little_endian_value pre
    + Z.land (byte_to_Z b) 0x7f * 2 ^ (7 * Z.of_nat (length pre)).
Proof.
  induction pre as [|x pre IH]; cbn [little_endian_value app length].
  - change (7 * Z.of_nat 0) with 0. lia.
  - rewrite IH.
    replace (7 * Z.of_nat (S (length pre))) with (7 + 7 * Z.of_nat (length pre))
      by lia.
    rewrite Z.pow_add_r by lia. change (2 ^ 7) with 128. lia.
Qed.

Lemma little_endian_value_take_le n bs :
  little_endian_value (take n bs) <= little_endian_value bs.
Proof.
  revert n. induction bs as [|b bs IH]; intros [|n]; cbn [take little_endian_value].
  - lia.
  - lia.
  - pose proof (little_endian_value_bounds bs).
    pose proof (land_7f_bounds (byte_to_Z b)). lia.
  - specialize (IH n). lia.
Qed.

Lemma lor_shiftl_add a g k :
  0 <= k -> 0 <= a < 2 ^ k -> Z.lor a (Z.shiftl g k) = a + g * 2 ^ k.
Proof.
  intros Hk Ha. rewrite Z.shiftl_mul_pow2 by lia.
  symmetry. apply Z.add_nocarry_lor.
  apply Z.bits_inj'. intros n Hn. rewrite Z.land_spec, Z.bits_0.
  destruct (Z_lt_dec n k).
  - rewrite Z.mul_pow2_bits_low by lia. apply andb_false_r.
  - rewrite <- (Z.mod_small a (2 ^ k)) by lia.
    rewrite Z.mod_pow2_bits_high by lia. reflexivity.
Qed.

(** One step of the little-endian accumulator extends the value by the next
    group. *)
Lemma little_endian_accumulator_step pre b :
  (length pre <= 7)%nat ->
  little_endian_accumulator (byte_to_Z b) (Z.of_nat (length pre))
    (little_endian_value pre)
  = little_endian_value (pre ++ [b]).
Proof.
  intros Hlen. unfold little_endian_accumulator.
  pose proof (land_7f_bounds (byte_to_Z b)) as Hg.
  pose proof (little_endian_value_bounds pre) as Hv.
  assert (Hp : 0 < 2 ^ (7 * Z.of_nat (length pre)) <= 2 ^ 49).
  { split; [apply Z.pow_pos_nonneg; lia|]. apply Z.pow_le_mono_r; lia. }
  rewrite Z.shiftl_mul_pow2 by lia.
  rewrite to_uint64_small by nia.
  rewrite <- Z.shiftl_mul_pow2 by lia.
  rewrite lor_shiftl_add by lia.
  rewrite little_endian_value_app. reflexivity.
Qed.

Lemma take_S_app_cons {A} (pre : list A) b bs :
  take (S (length pre)) (pre ++ b :: bs) = pre ++ [b].
Proof.
  rewrite (cons_middle b pre bs), app_assoc.
  replace (S (length pre)) with (length (pre ++ [b]))
    by (rewrite length_app; simpl; lia).
  apply take_app_length.
Qed.

(** What the decoding loop returns after the bytes [pre], all with their
    continuation bit set and within range, says about the whole stream. *)
Lemma decode_groups_le iters : forall pre bs,
  Forall (fun b => continues b = true) pre ->
  (length pre + iters = 8)%nat ->
  little_endian_value pre <= kMaxUleb128 ->
  match decode_groups iters (Z.of_nat (length pre)) little_endian_accumulator
          kMaxUleb128 bs (little_endian_value pre) (Z.of_nat (length pre)) with
  | (kOk, v, n, rest) =>
      iters <> 0%nat ->
      exists k : nat,
        n = Z.of_nat k /\ uleb128_decodes (pre ++ bs) v k
        /\ rest = drop k (pre ++ bs)
  | (kInvalidArgument, _, _, _) =>
      uleb128_overlong (pre ++ bs) \/ uleb128_overflow (pre ++ bs)
  | (kResourceExhausted, _, _, _) => uleb128_truncated (pre ++ bs)
  | _ => False
  end.
Proof.
  induction iters as [|iters IH]; intros pre bs Hcont Hlen Hval.
  - simpl. congruence.
  - cbn [decode_groups]. destruct bs as [|b bs].
    + rewrite app_nil_r. unfold uleb128_truncated. repeat split; [lia|assumption..].
    + unfold AccumulateUleb128Byte.
      rewrite little_endian_accumulator_step by lia.
      change (kMaxLeb128Size - 1) with 7.
      assert (Hterm : (Z.land (byte_to_Z b) 128 =? 0) = negb (continues b)).
      { unfold continues. rewrite negb_involutive. reflexivity. }
      rewrite Hterm, negb_involutive.
      destruct ((Z.of_nat (length pre) =? 7) && continues b) eqn:Hover.
      { cbn [is_ok negb]. cbv iota.
        apply andb_true_iff in Hover as [H7 Hc]. apply Z.eqb_eq in H7.
        left. unfold uleb128_overlong. split.
        - rewrite length_app. simpl. lia.
        - replace 8%nat with (S (length pre)) by lia.
          rewrite take_S_app_cons. apply Forall_app. split; [assumption|].
          constructor; [assumption|constructor]. }
      destruct (kMaxUleb128 <? little_endian_value (pre ++ [b])) eqn:Hmax.
      { cbn [is_ok negb]. cbv iota. apply Z.ltb_lt in Hmax.
        right. exists (S (length pre)). split; [lia|]. split.
        - rewrite length_app. simpl. lia.
        - split.
          + replace (S (length pre) - 1)%nat with (length pre) by lia.
            rewrite take_app_length. assumption.
          + rewrite take_S_app_cons. assumption. }
      apply Z.ltb_ge in Hmax.
      cbn [is_ok negb]. cbv iota.
      destruct (continues b) eqn:Hc; cbn [negb].
      * assert (Hn7 : Z.of_nat (length pre) <> 7).
        { rewrite andb_true_r in Hover. apply Z.eqb_neq in Hover. assumption. }
        specialize (IH (pre ++ [b]) bs).
        rewrite length_app in IH. simpl length in IH.
        replace (Z.of_nat (length pre + 1)) with (Z.of_nat (length pre) + 1)
          in IH by lia.
        rewrite <- app_assoc in IH. simpl app in IH.
        specialize (IH ltac:(apply Forall_app; split;
                               [assumption | constructor; [assumption|constructor]])
                      ltac:(lia) Hmax).
        destruct (decode_groups iters _ _ _ _ _ _) as [[[st v] n] rest].
        destruct st; try assumption.
        intros _. apply IH. lia.
      * intros _. exists (S (length pre)).
        split; [lia|]. split.
        -- unfold uleb128_decodes.
           replace (S (length pre) - 1)%nat with (length pre) by lia.
           rewrite take_app_length, take_S_app_cons.
           split; [lia|]. split; [assumption|]. split.
           ++ exists b. split; [|assumption].
              rewrite lookup_app_r by lia. rewrite Nat.sub_diag. reflexivity.
           ++ split; [reflexivity | assumption].
        -- rewrite (cons_middle b pre bs), app_assoc.
           replace (S (length pre)) with (length (pre ++ [b]))
             by (rewrite length_app; simpl; lia).
           rewrite drop_app_length. reflexivity.
Qed.

(** The four outcomes exclude one another. *)
Lemma decodes_not_overlong bs v n :
  uleb128_decodes bs v n -> ~ uleb128_overlong bs.
Proof.
  intros (Hn & _ & (b & Hb & Hc) & _) [_ Hall].
  rewrite Forall_lookup in Hall.
  specialize (Hall (n - 1)%nat b). rewrite lookup_take_lt in Hall by lia.
  rewrite (Hall Hb) in Hc. discriminate.
Qed.

Lemma decodes_not_overflow bs v n :
  uleb128_decodes bs v n -> ~ uleb128_overflow bs.
Proof.
  intros (Hn & Hpre & (b & Hb & Hc) & -> & Hv) (m & Hm8 & Hml & Hall & Hov).
  destruct (decide (m <= n)%nat) as [Hle|Hgt].
  - pose proof (little_endian_value_take_le m (take n bs)) as Hmono.
    rewrite take_take in Hmono. rewrite Nat.min_l in Hmono by lia. lia.
  - rewrite Forall_lookup in Hall.
    specialize (Hall (n - 1)%nat b). rewrite lookup_take_lt in Hall by lia.
    rewrite (Hall Hb) in Hc. discriminate.
Qed.

Lemma decodes_not_truncated bs v n :
  uleb128_decodes bs v n -> ~ uleb128_truncated bs.
Proof.
  intros (Hn & _ & (b & Hb & Hc) & _) (_ & Hall & _).
  rewrite Forall_lookup in Hall. rewrite (Hall _ _ Hb) in Hc. discriminate.
Qed.

Lemma truncated_not_overlong bs :
  uleb128_truncated bs -> ~ uleb128_overlong bs.
Proof. intros (Hlen & _) (Hlen' & _). lia. Qed.

Lemma truncated_not_overflow bs :
  uleb128_truncated bs -> ~ uleb128_overflow bs.
Proof.
  intros (_ & _ & Hv) (m & _ & _ & _ & Hov).
  pose proof (little_endian_value_take_le m bs). lia.
Qed.

Lemma decodes_unique bs v n v' n' :
  uleb128_decodes bs v n -> uleb128_decodes bs v' n' -> v = v' /\ n = n'.
Proof.
  intros (Hn & Hpre & (b & Hb & Hc) & -> & Hv)
         (Hn' & Hpre' & (b' & Hb' & Hc') & -> & Hv').
  assert (n = n') as ->; [|auto].
  destruct (lt_eq_lt_dec n n') as [[Hlt|Heq]|Hgt]; [|assumption|]; exfalso.
  - rewrite Forall_lookup in Hpre'.
    specialize (Hpre' (n - 1)%nat b). rewrite lookup_take_lt in Hpre' by lia.
    rewrite (Hpre' Hb) in Hc. discriminate.
  - rewrite Forall_lookup in Hpre.
    specialize (Hpre (n' - 1)%nat b'). rewrite lookup_take_lt in Hpre by lia.
    rewrite (Hpre Hb') in Hc'. discriminate.
Qed.

Lemma byte_aligned_create cap bs : 0 <= cap -> byte_aligned (create cap bs).
Proof.
  intros. unfold byte_aligned, create, vsize; simpl. repeat split; lia.
Qed.

(** The outcome of [ReadULeb128] on a fresh reader, by cases on its status. *)
Lemma ReadULeb128_cases fill cap bs out :
  1 <= cap < 2 ^ 28 ->
  let r := ReadULeb128 fill (create cap bs) out in
  match acc_status r with
  | kOk =>
      exists k : nat,
        acc_encoded_size r = Z.of_nat k
        /\ uleb128_decodes bs (acc_value r) k
        /\ pending (acc_rb r) = drop k bs
  | kInvalidArgument => uleb128_overlong bs \/ uleb128_overflow bs
  | kResourceExhausted => uleb128_truncated bs
  | _ => False
  end.
Proof.
  intros Hcap. unfold ReadULeb128, AccumulateUleb128OrIso14496_1Internal.
  change (Z.to_nat kMaxLeb128Size) with 8%nat.
  pose proof (decode_groups_le 8 [] bs ltac:(constructor) ltac:(reflexivity)
                ltac:(unfold kMaxUleb128; simpl; lia)) as Hdec.
  cbn [length little_endian_value app] in Hdec.
  change (Z.of_nat 0) with 0 in Hdec.
  destruct (decode_groups 8 0 little_endian_accumulator kMaxUleb128 bs 0 0)
    as [[[st v] n] rest] eqn:Hgroups.
  pose proof (Accumulate_loop_decode fill little_endian_accumulator kMaxUleb128
                8 0 (create cap bs) 0 0 0
                (byte_aligned_create cap bs ltac:(lia))
                ltac:(simpl; lia) ltac:(simpl; lia) st v n rest Hgroups)
    as (Hst & Hv & Hn & Hrest).
  change (2 ^ 32 - 1) with kMaxUleb128.
  destruct (Accumulate_loop fill 8 0 little_endian_accumulator kMaxUleb128
              (create cap bs) 0 0 0) as [st' rb' v' n'].
  simpl in Hst, Hv, Hn, Hrest. subst st' v' n'.
  destruct st; simpl; try assumption.
  destruct (Hdec ltac:(lia)) as (k & -> & Hk & ->).
  exists k. split; [reflexivity|]. split.
  - destruct Hk as (? & ? & ? & Hveq & Hle).
    pose proof (little_endian_value_bounds (take k bs)).
    unfold to_uint32. rewrite Z.mod_small by (unfold kMaxUleb128 in Hle; lia).
    unfold uleb128_decodes. auto.
  - apply Hrest. congruence.
Qed.

(** C4 (as amended).  On the bytes of a stream, [ReadULeb128] accumulates
    7-bit groups little-endian.  It fails with [kInvalidArgument] in exactly
    two cases: the continuation bit is still set in the eighth byte, or the
    value accumulated exceeds [2^32 - 1].  It fails with [kResourceExhausted]
    exactly when the stream ends before a byte without continuation bit.
    Otherwise it returns the decoded value and the number of bytes consumed,
    and the reader stands behind those bytes. *)
Theorem ReadULeb128_outcome fill cap bs out :
  1 <= cap < 2 ^ 28 ->
  let r := ReadULeb128 fill (create cap bs) out in
  (acc_status r = kInvalidArgument
   <-> uleb128_overlong bs \/ uleb128_overflow bs)
  /\ (acc_status r = kResourceExhausted <-> uleb128_truncated bs)
  /\ (forall v n,
        acc_status r = kOk /\ acc_value r = v
        /\ acc_encoded_size r = Z.of_nat n
        <-> uleb128_decodes bs v n)
  /\ (acc_status r = kOk ->
      pending (acc_rb r) = drop (Z.to_nat (acc_encoded_size r)) bs).
Proof.
  intros Hcap r. pose proof (ReadULeb128_cases fill cap bs out Hcap) as Hc.
  fold r in Hc. cbv zeta in Hc.
  split; [|split; [|split]].
  - split.
    + intros Hst. rewrite Hst in Hc. assumption.
    + intros Hbad. destruct (acc_status r); try contradiction; try reflexivity.
      * destruct Hc as (k & _ & Hk & _). destruct Hbad as [Hb|Hb].
        -- exfalso. exact (decodes_not_overlong _ _ _ Hk Hb).
        -- exfalso. exact (decodes_not_overflow _ _ _ Hk Hb).
      * destruct Hbad as [Hb|Hb].
        -- exfalso. exact (truncated_not_overlong _ Hc Hb).
        -- exfalso. exact (truncated_not_overflow _ Hc Hb).
  - split.
    + intros Hst. rewrite Hst in Hc. assumption.
    + intros Ht. destruct (acc_status r); try contradiction; try reflexivity.
      * destruct Hc as (k & _ & Hk & _).
        exfalso. exact (decodes_not_truncated _ _ _ Hk Ht).
      * destruct Hc as [Hb|Hb].
        -- exfalso. exact (truncated_not_overlong _ Ht Hb).
        -- exfalso. exact (truncated_not_overflow _ Ht Hb).
  - intros v n. split.
    + intros (Hst & Hv & Hn). rewrite Hst in Hc.
      destruct Hc as (k & Hk & Hdec & _).
      assert (k = n) as -> by lia. rewrite <- Hv. assumption.
    + intros Hdec. destruct (acc_status r); try contradiction.
      * destruct Hc as (k & Hk & Hdec' & _).
        destruct (decodes_unique _ _ _ _ _ Hdec Hdec') as [-> ->].
        auto.
      * destruct Hc as [Hb|Hb].
        -- exfalso. exact (decodes_not_overlong _ _ _ Hdec Hb).
        -- exfalso. exact (decodes_not_overflow _ _ _ Hdec Hb).
      * exfalso. exact (decodes_not_truncated _ _ _ Hdec Hc).
  - intros Hst. rewrite Hst in Hc. destruct Hc as (k & -> & _ & Hp).
    rewrite Nat2Z.id. assumption.
Qed.

(** The two-byte encoding of 129 read by a reader with a four-byte buffer. *)
Lemma ReadULeb128_outcome_witness :
  uleb128_decodes ["129"%byte; "001"%byte; "005"%byte] 129 2.
Proof.
  apply (ReadULeb128_outcome true 4 ["129"%byte; "001"%byte; "005"%byte] 0).
  - lia.
  - vm_compute. repeat split.
Defined.

(** C4 (as stated) fails: on the empty stream neither of the two cases
    holds, and [ReadULeb128] returns no value; it fails with
    [kResourceExhausted]. *)
Lemma ReadULeb128_empty_stream_counterexample :
  ~ uleb128_overlong [] /\ ~ uleb128_overflow []
  /\ acc_status (ReadULeb128 true (create 4 []) 0) = kResourceExhausted
  /\ acc_status (ReadULeb128 true (create 4 []) 0) <> kOk.
Proof.
  split; [|split; [|split]].
  - intros [Hlen _]. simpl in Hlen. lia.
  - intros (n & _ & _ & _ & Hov). rewrite take_nil in Hov.
    unfold kMaxUleb128 in Hov. simpl in Hov. lia.
  - vm_compute. reflexivity.
  - vm_compute. congruence.
Qed.

(** *** Every read leaves the source and the capacity alone *)

Lemma LoadBits_loop_frame fuel : forall N s,
  source_ (ld_rb (LoadBits_loop fuel N s).2) = source_ (ld_rb s)
  /\ capacity (ld_rb (LoadBits_loop fuel N s).2) = capacity (ld_rb s).
Proof.
  induction fuel as [|fuel IH]; intros N s; simpl; [auto|].
  destruct (ShouldRead _ _ _ && _); [|auto].
  destruct (negb _ || negb _ || negb _).
  - destruct (CanWriteBits true 1 _ _) as [st1 buf1].
    destruct (negb (is_ok st1)); [simpl; auto|].
    destruct (WriteBit _ _ _) as [[st2 off2] buf2].
    destruct (negb (is_ok st2)); [simpl; auto|].
    destruct (IH N (mkLoad (mk (source_ (ld_rb s)) (source_bit_offset_ (ld_rb s) + 1)
                 buf2 (capacity (ld_rb s)) (buffer_bit_offset_ (ld_rb s))
                 (buffer_size_ (ld_rb s) + 1)) (ld_bits_loaded s + 1) off2)) as [H1 H2].
    simpl in *. auto.
  - destruct (IH N (mkLoad (mk (source_ (ld_rb s)) (source_bit_offset_ (ld_rb s) + 8)
                 (bit_buffer_ (ld_rb s) ++ [vbyte (source_ (ld_rb s)) (Z.quot (source_bit_offset_ (ld_rb s)) 8)])
                 (capacity (ld_rb s)) (buffer_bit_offset_ (ld_rb s))
                 (buffer_size_ (ld_rb s) + 8)) (ld_bits_loaded s + 8) (ld_write_offset s))) as [H1 H2].
    simpl in *. auto.
Qed.

Lemma LoadBits_frame n fill rb :
  source_ (LoadBits n fill rb).2 = source_ rb
  /\ capacity (LoadBits n fill rb).2 = capacity rb.
Proof.
  unfold LoadBits. simpl.
  destruct (fill && _); [simpl; auto|].
  match goal with |- context [LoadBits_loop ?f ?N ?s] =>
    pose proof (LoadBits_loop_frame f N s) as [H1 H2];
    destruct (LoadBits_loop f N s) as [st s'] end.
  simpl in *. destruct (negb (is_ok st)); [simpl; auto|].
  destruct (_ <? _); simpl; auto.
Qed.

Lemma read_literal_step_frame n rb r o :
  source_ (read_literal_step n rb r o).1.1 = source_ rb
  /\ capacity (read_literal_step n rb r o).1.1 = capacity rb.
Proof.
  unfold read_literal_step. destruct (CanReadByteAligned _ _).
  - destruct (ReadUnsignedLiteralBytes _ _ _ _) as [[? ?] ?]. simpl. auto.
  - destruct (ReadUnsignedLiteralBits _ _ _ _ _) as [[? ?] ?]. simpl. auto.
Qed.

Lemma ReadUnsignedLiteralInternal_frame fill n mx out rb :
  source_ (ReadUnsignedLiteralInternal fill n mx out rb).2 = source_ rb
  /\ capacity (ReadUnsignedLiteralInternal fill n mx out rb).2 = capacity rb.
Proof.
  unfold ReadUnsignedLiteralInternal.
  destruct (mx <? n); [simpl; auto|].
  destruct (_ <? 0); [simpl; auto|].
  pose proof (read_literal_step_frame n rb n 0) as [H1 H2].
  destruct (read_literal_step n rb n 0) as [[rb1 r1] o1]. simpl in H1, H2.
  destruct (negb (r1 =? 0)); [|simpl; auto].
  pose proof (LoadBits_frame r1 fill rb1) as [H3 H4].
  destruct (LoadBits r1 fill rb1) as [st rb2]. simpl in H3, H4.
  destruct (negb (is_ok st)); [simpl; split; congruence|].
  pose proof (read_literal_step_frame n rb2 r1 o1) as [H5 H6].
  destruct (read_literal_step n rb2 r1 o1) as [[rb3 r3] o3]. simpl in *.
  split; congruence.
Qed.

(** *** Bytes from a byte-aligned reader *)

Lemma byte_to_Z_bounds b : 0 <= byte_to_Z b < 256.
Proof.
  unfold byte_to_Z. pose proof (Byte.to_N_bounded b). lia.
Qed.

Lemma byte_of_to_Z b : byte_of_Z (byte_to_Z b) = b.
Proof.
  unfold byte_of_Z. pose proof (byte_to_Z_bounds b).
  unfold to_uint8. rewrite Z.mod_small by lia.
  unfold byte_to_Z. rewrite N2Z.id, Byte.of_to_N. reflexivity.
Qed.

Lemma Internal_8_width fill out rb :
  ReadUnsignedLiteralInternal fill 8 8 out rb
  = ReadUnsignedLiteralInternal fill 8 64 out rb.
Proof. reflexivity. Qed.

(** One byte through the [uint8_t] overload. *)
Lemma read_uint8_ok fill rb out b rest :
  aligned_in_range rb ->
  pending rb = b :: rest ->
  exists rb',
    ReadUnsignedLiteral_uint8 fill 8 out rb = (kOk, byte_to_Z b, rb')
    /\ aligned_in_range rb'
    /\ pending rb' = rest.
Proof.
  intros (Hal & Hcap & Hsz) Hpend.
  pose proof Hal as (Hoff & _).
  destruct (read_byte_ok fill rb 0 b rest Hal Hcap ltac:(lia) Hpend)
    as (rb' & Hread & Hal' & Hcap' & Hpend' & _).
  pose proof (ReadUnsignedLiteralInternal_frame fill 8 64 0 rb) as [Hsrc _].
  unfold ReadUnsignedLiteral_uint64 in Hread. rewrite Hread in Hsrc. simpl in Hsrc.
  exists rb'. split.
  - unfold ReadUnsignedLiteral_uint8. rewrite Internal_8_width, Hread. simpl.
    pose proof (byte_to_Z_bounds b). unfold to_uint8.
    rewrite Z.mod_small by lia. reflexivity.
  - split; [|assumption]. unfold aligned_in_range. rewrite Hsrc, Hcap'. auto.
Qed.

Lemma read_uint8_empty fill rb out :
  aligned_in_range rb ->
  pending rb = [] ->
  exists rb',
    ReadUnsignedLiteral_uint8 fill 8 out rb = (kResourceExhausted, out, rb').
Proof.
  intros (Hal & Hcap & Hsz) Hpend.
  pose proof Hal as (Hoff & _).
  pose proof (read_byte_empty fill rb 0 Hal Hcap ltac:(lia) Hpend) as Hread.
  unfold ReadUnsignedLiteral_uint8. rewrite Internal_8_width.
  unfold ReadUnsignedLiteral_uint64 in Hread.
  destruct (ReadUnsignedLiteralInternal fill 8 64 0 rb) as [[st v] rb1].
  simpl in Hread. subst st. simpl. eauto.
Qed.

(** Concrete readers are within the ranges by computation. *)
Ltac reader_in_range :=
  unfold aligned_in_range, whole_bytes_in_range, byte_aligned, whole_bytes,
    create, vsize;
  simpl; repeat split; lia.

(** A concrete byte list holds a complete encoding. *)
Ltac complete_encoding :=
  split; [lia|]; split; [repeat constructor|];
  split; [eexists; split; reflexivity|];
  split; [reflexivity | vm_compute; discriminate].

(** *** [ReadUint8Span] *)

Lemma ReadUint8Span_ok fill : forall output rb,
  aligned_in_range rb ->
  (length output <= length (pending rb))%nat ->
  exists rb',
    ReadUint8Span fill output rb
    = (kOk, byte_to_Z <$> take (length output) (pending rb), rb')
    /\ aligned_in_range rb'
    /\ pending rb' = drop (length output) (pending rb).
Proof.
  induction output as [|o output IH]; intros rb Hin Hlen.
  - exists rb. simpl. auto.
  - destruct (pending rb) as [|b rest] eqn:Hpend; [simpl in Hlen; lia|].
    destruct (read_uint8_ok fill rb o b rest Hin Hpend) as (rb1 & Hread & Hin1 & Hpend1).
    destruct (IH rb1 Hin1) as (rb' & Hspan & Hin' & Hpend').
    { rewrite Hpend1. simpl in Hlen. lia. }
    exists rb'. cbn [ReadUint8Span]. rewrite Hread. cbn [is_ok negb]. cbv iota.
    rewrite Hspan. rewrite Hpend1 in *. simpl. auto.
Qed.

Lemma ReadUint8Span_short fill : forall output rb,
  aligned_in_range rb ->
  (length (pending rb) < length output)%nat ->
  exists rb',
    ReadUint8Span fill output rb
    = (kResourceExhausted,
       (byte_to_Z <$> pending rb) ++ drop (length (pending rb)) output, rb').
Proof.
  induction output as [|o output IH]; intros rb Hin Hlen; [simpl in Hlen; lia|].
  destruct (pending rb) as [|b rest] eqn:Hpend.
  - destruct (read_uint8_empty fill rb o Hin Hpend) as (rb' & Hread).
    exists rb'. cbn [ReadUint8Span]. rewrite Hread. reflexivity.
  - destruct (read_uint8_ok fill rb o b rest Hin Hpend) as (rb1 & Hread & Hin1 & Hpend1).
    destruct (IH rb1 Hin1) as (rb' & Hspan).
    { rewrite Hpend1. simpl in Hlen. lia. }
    exists rb'. cbn [ReadUint8Span]. rewrite Hread. cbn [is_ok negb]. cbv iota.
    rewrite Hspan. rewrite Hpend1. reflexivity.
Qed.

(** X7.  [ReadUint8Span] on a byte-aligned reader fills the span with the next
    bytes of the stream, in order, and leaves the reader behind them.  When
    the stream holds fewer bytes than the span, it fails with
    [kResourceExhausted]; the front of the span holds the bytes that were
    there, the rest of it is as it was. *)
Theorem ReadUint8Span_fills_span fill output rb :
  aligned_in_range rb ->
  let n := length output in
  let r := ReadUint8Span fill output rb in
  ((n <= length (pending rb))%nat ->
   r.1 = (kOk, byte_to_Z <$> take n (pending rb))
   /\ aligned_in_range r.2
   /\ pending r.2 = drop n (pending rb))
  /\ ((length (pending rb) < n)%nat ->
      r.1 = (kResourceExhausted,
             (byte_to_Z <$> pending rb) ++ drop (length (pending rb)) output)).
Proof.
  intros Hin n r. split; intros Hlen.
  - destruct (ReadUint8Span_ok fill output rb Hin Hlen) as (rb' & Hr & ? & ?).
    subst r. rewrite Hr. auto.
  - destruct (ReadUint8Span_short fill output rb Hin Hlen) as (rb' & Hr).
    subst r. rewrite Hr. reflexivity.
Qed.

(** A span of two bytes filled from a stream of three. *)
Lemma ReadUint8Span_fills_span_witness :
  (ReadUint8Span true [0; 0] (create 4 ["a"%byte; "b"%byte; "c"%byte])).1
  = (kOk, [97; 98]).
Proof.
  pose proof (ReadUint8Span_fills_span true [0; 0]
                (create 4 ["a"%byte; "b"%byte; "c"%byte])
                ltac:(reader_in_range)) as [Hok _].
  destruct Hok as (Hv & _); [simpl; lia|].
  rewrite Hv. reflexivity.
Defined.

(** *** [ReadString] *)

Lemma ReadString_loop_terminated fill : forall s iters acc rb rest,
  aligned_in_range rb ->
  pending rb = s ++ x00 :: rest ->
  x00 ∉ s ->
  (length s < iters)%nat ->
  exists rb',
    ReadString_loop fill iters acc rb = (kOk, acc ++ s, rb')
    /\ aligned_in_range rb' /\ pending rb' = rest.
Proof.
  induction s as [|c s IH]; intros iters acc rb rest Hin Hpend Hnz Hlen;
    (destruct iters as [|iters]; [simpl in Hlen; lia|]); cbn [ReadString_loop].
  - destruct (read_uint8_ok fill rb 0 x00 rest Hin Hpend) as (rb' & Hread & Hin' & Hpend').
    rewrite Hread. simpl. rewrite app_nil_r. eauto.
  - destruct (read_uint8_ok fill rb 0 c (s ++ x00 :: rest) Hin Hpend)
      as (rb1 & Hread & Hin1 & Hpend1).
    rewrite Hread. cbn [is_ok negb]. cbv iota.
    apply not_elem_of_cons in Hnz as [Hc Hnz].
    assert ((byte_to_Z c =? 0) = false) as ->.
    { apply Z.eqb_neq. intros Hz. apply Hc.
      rewrite <- (byte_of_to_Z c), Hz. reflexivity. }
    destruct (IH iters (acc ++ [byte_of_Z (byte_to_Z c)]) rb1 rest Hin1 Hpend1 Hnz
                ltac:(simpl in Hlen; lia)) as (rb' & Hrun & Hin' & Hpend').
    exists rb'. rewrite Hrun, byte_of_to_Z, <- app_assoc. auto.
Qed.

Lemma ReadString_loop_unterminated fill : forall s iters acc rb rest,
  aligned_in_range rb ->
  pending rb = s ++ rest ->
  x00 ∉ s ->
  length s = iters ->
  exists rb',
    ReadString_loop fill iters acc rb = (kInvalidArgument, acc ++ s, rb')
    /\ aligned_in_range rb' /\ pending rb' = rest.
Proof.
  induction s as [|c s IH]; intros iters acc rb rest Hin Hpend Hnz Hlen;
    subst iters; cbn [length ReadString_loop].
  - exists rb. rewrite app_nil_r. auto.
  - destruct (read_uint8_ok fill rb 0 c (s ++ rest) Hin Hpend)
      as (rb1 & Hread & Hin1 & Hpend1).
    rewrite Hread. cbn [is_ok negb]. cbv iota.
    apply not_elem_of_cons in Hnz as [Hc Hnz].
    assert ((byte_to_Z c =? 0) = false) as ->.
    { apply Z.eqb_neq. intros Hz. apply Hc.
      rewrite <- (byte_of_to_Z c), Hz. reflexivity. }
    destruct (IH (length s) (acc ++ [byte_of_Z (byte_to_Z c)]) rb1 rest Hin1 Hpend1 Hnz
                eq_refl) as (rb' & Hrun & Hin' & Hpend').
    exists rb'. rewrite Hrun, byte_of_to_Z, <- app_assoc. auto.
Qed.

Lemma ReadString_loop_truncated fill : forall s iters acc rb,
  aligned_in_range rb ->
  pending rb = s ->
  x00 ∉ s ->
  (length s < iters)%nat ->
  exists rb',
    ReadString_loop fill iters acc rb = (kResourceExhausted, acc ++ s, rb').
Proof.
  induction s as [|c s IH]; intros iters acc rb Hin Hpend Hnz Hlen;
    (destruct iters as [|iters]; [simpl in Hlen; lia|]); cbn [ReadString_loop].
  - destruct (read_uint8_empty fill rb 0 Hin Hpend) as (rb' & Hread).
    rewrite Hread. simpl. rewrite app_nil_r. eauto.
  - destruct (read_uint8_ok fill rb 0 c s Hin Hpend)
      as (rb1 & Hread & Hin1 & Hpend1).
    rewrite Hread. cbn [is_ok negb]. cbv iota.
    apply not_elem_of_cons in Hnz as [Hc Hnz].
    assert ((byte_to_Z c =? 0) = false) as ->.
    { apply Z.eqb_neq. intros Hz. apply Hc.
      rewrite <- (byte_of_to_Z c), Hz. reflexivity. }
    destruct (IH iters (acc ++ [byte_of_Z (byte_to_Z c)]) rb1 Hin1 Hpend1 Hnz
                ltac:(simpl in Hlen; lia)) as (rb' & Hrun).
    exists rb'. rewrite Hrun, byte_of_to_Z, <- app_assoc. auto.
Qed.

(** X8.  [ReadString] on a byte-aligned reader, for a string [s] without a
    zero byte at the head of the stream.  When a zero byte follows [s] within
    the first 128 bytes, the string is [s] and the reader stands behind the
    terminator.  When [s] fills 128 bytes, the call fails with
    [kInvalidArgument], having consumed them.  When the stream ends with [s]
    before 128 bytes, it fails with [kResourceExhausted].  What the output
    held before does not matter. *)
Theorem ReadString_outcome fill out rb s :
  aligned_in_range rb ->
  x00 ∉ s ->
  let r := ReadString fill out rb in
  (forall rest, pending rb = s ++ x00 :: rest -> (length s < 128)%nat ->
     r.1 = (kOk, s) /\ aligned_in_range r.2 /\ pending r.2 = rest)
  /\ (forall rest, pending rb = s ++ rest -> length s = 128%nat ->
        r.1 = (kInvalidArgument, s) /\ pending r.2 = rest)
  /\ (pending rb = s -> (length s < 128)%nat -> r.1 = (kResourceExhausted, s)).
Proof.
  intros Hin Hnz r. subst r. unfold ReadString.
  change (Z.to_nat kIamfMaxStringSize) with 128%nat.
  split; [|split].
  - intros rest Hpend Hlen.
    destruct (ReadString_loop_terminated fill s 128 [] rb rest Hin Hpend Hnz Hlen)
      as (rb' & -> & ? & ?). auto.
  - intros rest Hpend Hlen.
    destruct (ReadString_loop_unterminated fill s 128 [] rb rest Hin Hpend Hnz Hlen)
      as (rb' & -> & ? & ?). auto.
  - intros Hpend Hlen.
    destruct (ReadString_loop_truncated fill s 128 [] rb Hin Hpend Hnz Hlen)
      as (rb' & ->). auto.
Qed.

(** The string "hi", its terminator and one more byte. *)
Lemma ReadString_outcome_witness :
  (ReadString true ["z"%byte]
     (create 4 ["h"%byte; "i"%byte; x00; "!"%byte])).1
  = (kOk, ["h"%byte; "i"%byte]).
Proof.
  pose proof (ReadString_outcome true ["z"%byte]
                (create 4 ["h"%byte; "i"%byte; x00; "!"%byte])
                ["h"%byte; "i"%byte] ltac:(reader_in_range)) as Hs.
  destruct Hs as [Hok _].
  - intros Hin. apply elem_of_cons in Hin as [Hin|Hin]; [discriminate|].
    apply elem_of_cons in Hin as [Hin|Hin]; [discriminate|].
    apply elem_of_nil in Hin. contradiction.
  - destruct (Hok ["!"%byte] eq_refl ltac:(simpl; lia)) as (Hv & _).
    exact Hv.
Defined.

(** *** The expanded size of ISO 14496-1 *)

Lemma Accumulate_loop_frame fill accr mx iters : forall i rb acc byte cnt,
  source_ (acc_rb (Accumulate_loop fill iters i accr mx rb acc byte cnt))
  = source_ rb
  /\ capacity (acc_rb (Accumulate_loop fill iters i accr mx rb acc byte cnt))
     = capacity rb.
Proof.
  induction iters as [|iters IH]; intros i rb acc byte cnt; simpl; [auto|].
  pose proof (ReadUnsignedLiteralInternal_frame fill 8 64 byte rb) as [H1 H2].
  unfold ReadUnsignedLiteral_uint64.
  destruct (ReadUnsignedLiteralInternal fill 8 64 byte rb) as [[st b] rb1].
  simpl in H1, H2.
  destruct (negb (is_ok st)); [simpl; auto|].
  destruct (AccumulateUleb128Byte accr mx b i acc) as [[st1 term] acc1].
  destruct (negb (is_ok st1)); [simpl; auto|].
  destruct term; [simpl; auto|].
  destruct (IH (i + 1) rb1 acc1 b (cnt + 1)) as [H3 H4].
  split; congruence.
Qed.

Lemma big_endian_value_snoc pre b :
  big_endian_value (pre ++ [b])
  = 128 * big_endian_value pre + Z.land (byte_to_Z b) 0x7f.
Proof. unfold big_endian_value. rewrite foldl_app. reflexivity. Qed.

Lemma big_endian_value_bounds bs :
  0 <= big_endian_value bs < 2 ^ (7 * Z.of_nat (length bs)).
Proof.
  induction bs as [|b bs IH] using rev_ind; [unfold big_endian_value; simpl; lia|].
  rewrite big_endian_value_snoc, length_app. simpl length.
  pose proof (land_7f_bounds (byte_to_Z b)).
  replace (7 * Z.of_nat (length bs + 1)) with (7 * Z.of_nat (length bs) + 7) by lia.
  rewrite Z.pow_add_r by lia. change (2 ^ 7) with 128. lia.
Qed.

Lemma big_endian_value_take_le n bs :
  big_endian_value (take n bs) <= big_endian_value bs.
Proof.
  induction bs as [|b bs IH] using rev_ind; [rewrite take_nil; lia|].
  destruct (decide (n <= length bs)%nat) as [Hle|Hgt].
  - rewrite take_app_le by lia. rewrite big_endian_value_snoc.
    pose proof (land_7f_bounds (byte_to_Z b)).
    pose proof (big_endian_value_bounds bs). lia.
  - rewrite take_ge; [lia|]. rewrite length_app. simpl. lia.
Qed.

Lemma big_endian_accumulator_step pre b i :
  (length pre <= 7)%nat ->
  big_endian_accumulator (byte_to_Z b) i (big_endian_value pre)
  = big_endian_value (pre ++ [b]).
Proof.
  intros Hlen. unfold big_endian_accumulator.
  pose proof (land_7f_bounds (byte_to_Z b)) as Hg.
  pose proof (big_endian_value_bounds pre) as Hv.
  assert (Hp : 0 < 2 ^ (7 * Z.of_nat (length pre)) <= 2 ^ 49).
  { split; [apply Z.pow_pos_nonneg; lia|]. apply Z.pow_le_mono_r; lia. }
  rewrite Z.shiftl_mul_pow2 by lia.
  rewrite to_uint64_small by lia.
  rewrite <- Z.shiftl_mul_pow2 by lia.
  rewrite Z.lor_comm, lor_shiftl_add by (change (2 ^ 7) with 128; lia).
  rewrite big_endian_value_snoc. lia.
Qed.

Lemma decode_groups_be mx iters : forall pre bs,
  Forall (fun b => continues b = true) pre ->
  (length pre + iters = 8)%nat ->
  big_endian_value pre <= mx ->
  match decode_groups iters (Z.of_nat (length pre)) big_endian_accumulator
          mx bs (big_endian_value pre) (Z.of_nat (length pre)) with
  | (kOk, v, n, rest) =>
      iters <> 0%nat ->
      exists k : nat,
        n = Z.of_nat k /\ expanded_decodes mx (pre ++ bs) v k
        /\ rest = drop k (pre ++ bs)
  | (kInvalidArgument, _, _, _) =>
      uleb128_overlong (pre ++ bs) \/ expanded_overflow mx (pre ++ bs)
  | (kResourceExhausted, _, _, _) => expanded_truncated mx (pre ++ bs)
  | _ => False
  end.
Proof.
  induction iters as [|iters IH]; intros pre bs Hcont Hlen Hval.
  - simpl. congruence.
  - cbn [decode_groups]. destruct bs as [|b bs].
    + rewrite app_nil_r. unfold expanded_truncated. repeat split; [lia|assumption..].
    + unfold AccumulateUleb128Byte.
      rewrite big_endian_accumulator_step by lia.
      change (kMaxLeb128Size - 1) with 7.
      assert (Hterm : (Z.land (byte_to_Z b) 128 =? 0) = negb (continues b)).
      { unfold continues. rewrite negb_involutive. reflexivity. }
      rewrite Hterm, negb_involutive.
      destruct ((Z.of_nat (length pre) =? 7) && continues b) eqn:Hover.
      { cbn [is_ok negb]. cbv iota.
        apply andb_true_iff in Hover as [H7 Hc]. apply Z.eqb_eq in H7.
        left. unfold uleb128_overlong. split.
        - rewrite length_app. simpl. lia.
        - replace 8%nat with (S (length pre)) by lia.
          rewrite take_S_app_cons. apply Forall_app. split; [assumption|].
          constructor; [assumption|constructor]. }
      destruct (mx <? big_endian_value (pre ++ [b])) eqn:Hmax.
      { cbn [is_ok negb]. cbv iota. apply Z.ltb_lt in Hmax.
        right. exists (S (length pre)). split; [lia|]. split.
        - rewrite length_app. simpl. lia.
        - split.
          + replace (S (length pre) - 1)%nat with (length pre) by lia.
            rewrite take_app_length. assumption.
          + rewrite take_S_app_cons. assumption. }
      apply Z.ltb_ge in Hmax.
      cbn [is_ok negb]. cbv iota.
      destruct (continues b) eqn:Hc; cbn [negb].
      * assert (Hn7 : Z.of_nat (length pre) <> 7).
        { rewrite andb_true_r in Hover. apply Z.eqb_neq in Hover. assumption. }
        specialize (IH (pre ++ [b]) bs).
        rewrite length_app in IH. simpl length in IH.
        replace (Z.of_nat (length pre + 1)) with (Z.of_nat (length pre) + 1)
          in IH by lia.
        rewrite <- app_assoc in IH. simpl app in IH.
        specialize (IH ltac:(apply Forall_app; split;
                               [assumption | constructor; [assumption|constructor]])
                      ltac:(lia) Hmax).
        destruct (decode_groups iters _ _ _ _ _ _) as [[[st v] n] rest].
        destruct st; try assumption.
        intros _. apply IH. lia.
      * intros _. exists (S (length pre)).
        split; [lia|]. split.
        -- unfold expanded_decodes.
           replace (S (length pre) - 1)%nat with (length pre) by lia.
           rewrite take_app_length, take_S_app_cons.
           split; [lia|]. split; [assumption|]. split.
           ++ exists b. split; [|assumption].
              rewrite lookup_app_r by lia. rewrite Nat.sub_diag. reflexivity.
           ++ split; [reflexivity | assumption].
        -- rewrite (cons_middle b pre bs), app_assoc.
           replace (S (length pre)) with (length (pre ++ [b]))
             by (rewrite length_app; simpl; lia).
           rewrite drop_app_length. reflexivity.
Qed.

Lemma expanded_decodes_not_overlong mx bs v n :
  expanded_decodes mx bs v n -> ~ uleb128_overlong bs.
Proof.
  intros (Hn & _ & (b & Hb & Hc) & _) [_ Hall].
  rewrite Forall_lookup in Hall.
  specialize (Hall (n - 1)%nat b). rewrite lookup_take_lt in Hall by lia.
  rewrite (Hall Hb) in Hc. discriminate.
Qed.

Lemma expanded_decodes_not_overflow mx bs v n :
  expanded_decodes mx bs v n -> ~ expanded_overflow mx bs.
Proof.
  intros (Hn & Hpre & (b & Hb & Hc) & -> & Hv) (m & Hm8 & Hml & Hall & Hov).
  destruct (decide (m <= n)%nat) as [Hle|Hgt].
  - pose proof (big_endian_value_take_le m (take n bs)) as Hmono.
    rewrite take_take in Hmono. rewrite Nat.min_l in Hmono by lia. lia.
  - rewrite Forall_lookup in Hall.
    specialize (Hall (n - 1)%nat b). rewrite lookup_take_lt in Hall by lia.
    rewrite (Hall Hb) in Hc. discriminate.
Qed.

Lemma expanded_decodes_not_truncated mx bs v n :
  expanded_decodes mx bs v n -> ~ expanded_truncated mx bs.
Proof.
  intros (Hn & _ & (b & Hb & Hc) & _) (_ & Hall & _).
  rewrite Forall_lookup in Hall. rewrite (Hall _ _ Hb) in Hc. discriminate.
Qed.

Lemma expanded_truncated_not_overlong mx bs :
  expanded_truncated mx bs -> ~ uleb128_overlong bs.
Proof. intros (Hlen & _) (Hlen' & _). lia. Qed.

Lemma expanded_truncated_not_overflow mx bs :
  expanded_truncated mx bs -> ~ expanded_overflow mx bs.
Proof.
  intros (_ & _ & Hv) (m & _ & _ & _ & Hov).
  pose proof (big_endian_value_take_le m bs). lia.
Qed.

Lemma expanded_decodes_unique mx bs v n v' n' :
  expanded_decodes mx bs v n -> expanded_decodes mx bs v' n' -> v = v' /\ n = n'.
Proof.
  intros (Hn & Hpre & (b & Hb & Hc) & -> & Hv)
         (Hn' & Hpre' & (b' & Hb' & Hc') & -> & Hv').
  assert (n = n') as ->; [|auto].
  destruct (lt_eq_lt_dec n n') as [[Hlt|Heq]|Hgt]; [|assumption|]; exfalso.
  - rewrite Forall_lookup in Hpre'.
    specialize (Hpre' (n - 1)%nat b). rewrite lookup_take_lt in Hpre' by lia.
    rewrite (Hpre' Hb) in Hc. discriminate.
  - rewrite Forall_lookup in Hpre.
    specialize (Hpre (n' - 1)%nat b'). rewrite lookup_take_lt in Hpre by lia.
    rewrite (Hpre Hb') in Hc'. discriminate.
Qed.

(** The outcome of the accumulation on a byte-aligned reader, by cases. *)
Lemma ReadIso14496_1Expanded_cases fill mx rb out :
  aligned_in_range rb -> 0 <= mx < 2 ^ 32 ->
  let r := ReadIso14496_1Expanded fill mx rb out in
  match acc_status r with
  | kOk =>
      exists k : nat,
        expanded_decodes mx (pending rb) (acc_value r) k
        /\ pending (acc_rb r) = drop k (pending rb)
        /\ aligned_in_range (acc_rb r)
  | kInvalidArgument =>
      (uleb128_overlong (pending rb) \/ expanded_overflow mx (pending rb))
      /\ acc_value r = out
  | kResourceExhausted => expanded_truncated mx (pending rb) /\ acc_value r = out
  | _ => False
  end.
Proof.
  intros (Hal & Hcap & Hsz) Hmx.
  unfold ReadIso14496_1Expanded, AccumulateUleb128OrIso14496_1Internal.
  change (Z.to_nat kMaxLeb128Size) with 8%nat.
  pose proof (decode_groups_be mx 8 [] (pending rb) ltac:(constructor)
                ltac:(reflexivity) ltac:(unfold big_endian_value; simpl; lia)) as Hdec.
  cbn [length app] in Hdec. change (big_endian_value []) with 0 in Hdec.
  change (Z.of_nat 0) with 0 in Hdec.
  destruct (decode_groups 8 0 big_endian_accumulator mx (pending rb) 0 0)
    as [[[st v] n] rest] eqn:Hgroups.
  pose proof Hal as (Hoff & _).
  pose proof (Accumulate_loop_decode fill big_endian_accumulator mx
                8 0 rb 0 0 0 Hal Hcap
                ltac:(change (Z.of_nat 8) with 8; lia) st v n rest Hgroups)
    as (Hst & Hv & Hn & Hrest).
  pose proof (Accumulate_loop_frame fill big_endian_accumulator mx 8 0 rb 0 0 0)
    as [Hsrc Hcp].
  destruct (Accumulate_loop fill 8 0 big_endian_accumulator mx rb 0 0 0)
    as [st' rb' v' n'].
  simpl in Hst, Hv, Hn, Hrest, Hsrc, Hcp. subst st' v' n'.
  destruct st; simpl; try assumption; try (split; [assumption|reflexivity]).
  destruct (Hdec ltac:(lia)) as (k & -> & Hk & ->).
  destruct (Hrest ltac:(congruence)) as [Hp Hal'].
  exists k. split; [|split; [assumption|]].
  - destruct Hk as (? & ? & ? & Hveq & Hle).
    pose proof (big_endian_value_bounds (take k (pending rb))).
    unfold to_uint32. rewrite Z.mod_small by lia.
    unfold expanded_decodes. auto.
  - unfold aligned_in_range. rewrite Hsrc, Hcp. auto.
Qed.

(** X10.  [ReadIso14496_1Expanded] on a byte-aligned reader accumulates 7-bit
    groups, the most significant first.  It fails with [kInvalidArgument]
    exactly when the continuation bit is still set in the eighth byte or the
    value accumulated exceeds [max_class_size], and with [kResourceExhausted]
    exactly when the stream ends before a byte without continuation bit.  A
    complete encoding is decoded, and the reader stands behind it.  A failed
    call leaves [size_of_instance] as it was. *)
Theorem ReadIso14496_1Expanded_outcome fill max_class_size rb out :
  aligned_in_range rb -> 0 <= max_class_size < 2 ^ 32 ->
  let r := ReadIso14496_1Expanded fill max_class_size rb out in
  (acc_status r = kInvalidArgument
   <-> uleb128_overlong (pending rb)
       \/ expanded_overflow max_class_size (pending rb))
  /\ (acc_status r = kResourceExhausted
      <-> expanded_truncated max_class_size (pending rb))
  /\ (forall v n,
        expanded_decodes max_class_size (pending rb) v n ->
        acc_status r = kOk /\ acc_value r = v
        /\ aligned_in_range (acc_rb r)
        /\ pending (acc_rb r) = drop n (pending rb))
  /\ (acc_status r <> kOk -> acc_value r = out).
Proof.
  intros Hin Hmx r.
  pose proof (ReadIso14496_1Expanded_cases fill max_class_size rb out Hin Hmx) as Hc.
  fold r in Hc. cbv zeta in Hc.
  split; [|split; [|split]].
  - split.
    + intros Hst. rewrite Hst in Hc. tauto.
    + intros Hbad. destruct (acc_status r); try reflexivity; try contradiction.
      * destruct Hc as (k & Hk & _). exfalso. destruct Hbad as [Hb|Hb].
        -- exact (expanded_decodes_not_overlong _ _ _ _ Hk Hb).
        -- exact (expanded_decodes_not_overflow _ _ _ _ Hk Hb).
      * exfalso. destruct Hc as [Hc _]. destruct Hbad as [Hb|Hb].
        -- exact (expanded_truncated_not_overlong _ _ Hc Hb).
        -- exact (expanded_truncated_not_overflow _ _ Hc Hb).
  - split.
    + intros Hst. rewrite Hst in Hc. tauto.
    + intros Ht. destruct (acc_status r); try reflexivity; try contradiction.
      * destruct Hc as (k & Hk & _). exfalso.
        exact (expanded_decodes_not_truncated _ _ _ _ Hk Ht).
      * exfalso. destruct Hc as [[Hb|Hb] _].
        -- exact (expanded_truncated_not_overlong _ _ Ht Hb).
        -- exact (expanded_truncated_not_overflow _ _ Ht Hb).
  - intros v n Hd. destruct (acc_status r); try contradiction.
    + destruct Hc as (k & Hk & Hp & Hin').
      destruct (expanded_decodes_unique _ _ _ _ _ _ Hd Hk) as [-> ->]. auto.
    + exfalso. destruct Hc as [[Hb|Hb] _].
      * exact (expanded_decodes_not_overlong _ _ _ _ Hd Hb).
      * exact (expanded_decodes_not_overflow _ _ _ _ Hd Hb).
    + exfalso. destruct Hc as [Hc _].
      exact (expanded_decodes_not_truncated _ _ _ _ Hd Hc).
  - intros Hne. destruct (acc_status r); try contradiction; tauto.
Qed.

(** The two-byte encoding of 129, under a ceiling of 1000. *)
Lemma ReadIso14496_1Expanded_outcome_witness :
  acc_status
    (ReadIso14496_1Expanded true 1000
       (create 4 ["129"%byte; "001"%byte; "005"%byte]) 0) = kOk
  /\ acc_value
       (ReadIso14496_1Expanded true 1000
          (create 4 ["129"%byte; "001"%byte; "005"%byte]) 0) = 129.
Proof.
  pose proof (ReadIso14496_1Expanded_outcome true 1000
                (create 4 ["129"%byte; "001"%byte; "005"%byte]) 0
                ltac:(reader_in_range) ltac:(lia)) as (_ & _ & Hdec & _).
  destruct (Hdec 129 2%nat) as (Hst & Hv & _); [|auto].
  complete_encoding.
Defined.

(** *** ULEB128 in mid-stream *)

(** The outcome of [ReadULeb128] on a byte-aligned reader, by cases. *)
Lemma ReadULeb128_aligned_cases fill rb out :
  aligned_in_range rb ->
  let r := ReadULeb128 fill rb out in
  match acc_status r with
  | kOk =>
      exists k : nat,
        acc_encoded_size r = Z.of_nat k
        /\ uleb128_decodes (pending rb) (acc_value r) k
        /\ pending (acc_rb r) = drop k (pending rb)
        /\ aligned_in_range (acc_rb r)
  | kInvalidArgument =>
      (uleb128_overlong (pending rb) \/ uleb128_overflow (pending rb))
      /\ acc_value r = out
  | kResourceExhausted => uleb128_truncated (pending rb) /\ acc_value r = out
  | _ => False
  end.
Proof.
  intros (Hal & Hcap & Hsz).
  unfold ReadULeb128, AccumulateUleb128OrIso14496_1Internal.
  change (Z.to_nat kMaxLeb128Size) with 8%nat.
  pose proof (decode_groups_le 8 [] (pending rb) ltac:(constructor)
                ltac:(reflexivity) ltac:(unfold kMaxUleb128; simpl; lia)) as Hdec.
  cbn [length little_endian_value app] in Hdec.
  change (Z.of_nat 0) with 0 in Hdec.
  destruct (decode_groups 8 0 little_endian_accumulator kMaxUleb128 (pending rb) 0 0)
    as [[[st v] n] rest] eqn:Hgroups.
  pose proof Hal as (Hoff & _).
  pose proof (Accumulate_loop_decode fill little_endian_accumulator kMaxUleb128
                8 0 rb 0 0 0 Hal Hcap
                ltac:(change (Z.of_nat 8) with 8; lia) st v n rest Hgroups)
    as (Hst & Hv & Hn & Hrest).
  pose proof (Accumulate_loop_frame fill little_endian_accumulator kMaxUleb128
                8 0 rb 0 0 0) as [Hsrc Hcp].
  change (2 ^ 32 - 1) with kMaxUleb128.
  destruct (Accumulate_loop fill 8 0 little_endian_accumulator kMaxUleb128
              rb 0 0 0) as [st' rb' v' n'].
  simpl in Hst, Hv, Hn, Hrest, Hsrc, Hcp. subst st' v' n'.
  destruct st; simpl; try assumption; try (split; [assumption|reflexivity]).
  destruct (Hdec ltac:(lia)) as (k & -> & Hk & ->).
  destruct (Hrest ltac:(congruence)) as [Hp Hal'].
  exists k. split; [reflexivity|]. split; [|split; [assumption|]].
  - destruct Hk as (? & ? & ? & Hveq & Hle).
    pose proof (little_endian_value_bounds (take k (pending rb))).
    unfold to_uint32. rewrite Z.mod_small by (unfold kMaxUleb128 in Hle; lia).
    unfold uleb128_decodes. auto.
  - unfold aligned_in_range. rewrite Hsrc, Hcp. auto.
Qed.

(** X9.  [ReadULeb128] at any byte-aligned position of a stream decodes the
    encoding that starts there and leaves the reader byte-aligned behind it,
    so that consecutive fields are read one after the other.  It fails with
    [kInvalidArgument] exactly on an overlong or overflowing encoding, with
    [kResourceExhausted] exactly on a truncated one, and a failed call leaves
    the output value as it was. *)
Theorem ReadULeb128_in_sequence fill rb out :
  aligned_in_range rb ->
  let r := ReadULeb128 fill rb out in
  (forall v n,
     uleb128_decodes (pending rb) v n ->
     acc_status r = kOk /\ acc_value r = v
     /\ acc_encoded_size r = Z.of_nat n
     /\ aligned_in_range (acc_rb r)
     /\ pending (acc_rb r) = drop n (pending rb))
  /\ (acc_status r = kInvalidArgument
      <-> uleb128_overlong (pending rb) \/ uleb128_overflow (pending rb))
  /\ (acc_status r = kResourceExhausted <-> uleb128_truncated (pending rb))
  /\ (acc_status r <> kOk -> acc_value r = out).
Proof.
  intros Hin r.
  pose proof (ReadULeb128_aligned_cases fill rb out Hin) as Hc.
  fold r in Hc. cbv zeta in Hc.
  split; [|split; [|split]].
  - intros v n Hd. destruct (acc_status r); try contradiction.
    + destruct Hc as (k & Hsz & Hk & Hp & Hin').
      destruct (decodes_unique _ _ _ _ _ Hd Hk) as [-> ->]. auto.
    + exfalso. destruct Hc as [[Hb|Hb] _].
      * exact (decodes_not_overlong _ _ _ Hd Hb).
      * exact (decodes_not_overflow _ _ _ Hd Hb).
    + exfalso. destruct Hc as [Hc _].
      exact (decodes_not_truncated _ _ _ Hd Hc).
  - split.
    + intros Hst. rewrite Hst in Hc. tauto.
    + intros Hbad. destruct (acc_status r); try reflexivity; try contradiction.
      * destruct Hc as (k & _ & Hk & _). exfalso. destruct Hbad as [Hb|Hb].
        -- exact (decodes_not_overlong _ _ _ Hk Hb).
        -- exact (decodes_not_overflow _ _ _ Hk Hb).
      * exfalso. destruct Hc as [Hc _]. destruct Hbad as [Hb|Hb].
        -- exact (truncated_not_overlong _ Hc Hb).
        -- exact (truncated_not_overflow _ Hc Hb).
  - split.
    + intros Hst. rewrite Hst in Hc. tauto.
    + intros Ht. destruct (acc_status r); try reflexivity; try contradiction.
      * destruct Hc as (k & _ & Hk & _). exfalso.
        exact (decodes_not_truncated _ _ _ Hk Ht).
      * exfalso. destruct Hc as [[Hb|Hb] _].
        -- exact (truncated_not_overlong _ Ht Hb).
        -- exact (truncated_not_overflow _ Ht Hb).
  - intros Hne. destruct (acc_status r); try contradiction; tauto.
Qed.

(** A reader that has consumed one byte of its buffer stands before the
    two-byte encoding of 129. *)
Lemma ReadULeb128_in_sequence_witness :
  acc_value
    (ReadULeb128 true
       (mk ["007"%byte; "129"%byte; "001"%byte; "005"%byte] 32
          ["007"%byte; "129"%byte; "001"%byte; "005"%byte] 4 8 32) 0) = 129
  /\ pending
       (acc_rb
          (ReadULeb128 true
             (mk ["007"%byte; "129"%byte; "001"%byte; "005"%byte] 32
                ["007"%byte; "129"%byte; "001"%byte; "005"%byte] 4 8 32) 0))
     = ["005"%byte].
Proof.
  pose proof (ReadULeb128_in_sequence true
                (mk ["007"%byte; "129"%byte; "001"%byte; "005"%byte] 32
                   ["007"%byte; "129"%byte; "001"%byte; "005"%byte] 4 8 32) 0
                ltac:(reader_in_range)) as (Hdec & _).
  destruct (Hdec 129 2%nat) as (_ & Hv & _ & _ & Hp); [|auto].
  complete_encoding.
Defined.


(** *** The bits of a stream *)

Lemma length_bits_of_byte b : length (bits_of_byte b) = 8%nat.
Proof. reflexivity. Qed.

Lemma length_bits_of bs : length (bits_of bs) = (8 * length bs)%nat.
Proof.
  induction bs as [|b bs IH]; [reflexivity|].
  cbn [bits_of flat_map]. rewrite length_app, length_bits_of_byte.
  fold (bits_of bs). rewrite IH. simpl. lia.
Qed.

Lemma bits_of_app l1 l2 : bits_of (l1 ++ l2) = bits_of l1 ++ bits_of l2.
Proof. apply flat_map_app. Qed.

Lemma bits_of_take j bs : bits_of (take j bs) = take (8 * j) (bits_of bs).
Proof.
  revert j. induction bs as [|b bs IH]; intros j.
  - rewrite take_nil. change (bits_of []) with (@nil bool).
    rewrite take_nil. reflexivity.
  - destruct j as [|j]; [reflexivity|].
    cbn [take bits_of flat_map]. fold (bits_of (take j bs)) (bits_of bs).
    rewrite IH.
    replace (8 * S j)%nat with (length (bits_of_byte b) + 8 * j)%nat
      by (rewrite length_bits_of_byte; lia).
    rewrite take_app_add. reflexivity.
Qed.

Lemma bits_of_drop j bs : bits_of (drop j bs) = drop (8 * j) (bits_of bs).
Proof.
  revert j. induction bs as [|b bs IH]; intros j.
  - rewrite drop_nil. change (bits_of []) with (@nil bool).
    rewrite drop_nil. reflexivity.
  - destruct j as [|j]; [reflexivity|].
    cbn [drop bits_of flat_map]. fold (bits_of bs).
    rewrite IH.
    replace (8 * S j)%nat with (length (bits_of_byte b) + 8 * j)%nat
      by (rewrite length_bits_of_byte; lia).
    rewrite drop_app_add. reflexivity.
Qed.

Lemma bits_of_lookup bs (i : nat) b :
  bs !! (i / 8)%nat = Some b ->
  bits_of bs !! i = Some (Z.testbit (byte_to_Z b) (7 - Z.of_nat (i mod 8))).
Proof.
  intros Hb.
  pose proof (Nat.div_mod_eq i 8) as Hi.
  pose proof (Nat.mod_upper_bound i 8 ltac:(lia)) as Hr.
  rewrite <- (take_drop_middle _ _ _ Hb), bits_of_app.
  cbn [bits_of flat_map]. fold (bits_of (drop (S (i / 8)) bs)).
  assert (Hlen : length (bits_of (take (i / 8) bs)) = (8 * (i / 8))%nat).
  { rewrite length_bits_of, length_take.
    apply lookup_lt_Some in Hb. lia. }
  rewrite lookup_app_r by lia. rewrite Hlen.
  replace (i - 8 * (i / 8))%nat with (i mod 8)%nat by lia.
  rewrite lookup_app_l by (rewrite length_bits_of_byte; lia).
  unfold bits_of_byte. rewrite list_lookup_fmap.
  rewrite lookup_seq_lt by lia. reflexivity.
Qed.

Lemma land_shiftr_bit x k :
  0 <= k -> Z.land (Z.shiftr x k) 1 = Z.b2z (Z.testbit x k).
Proof.
  intros Hk. change 1 with (Z.ones 1). rewrite Z.land_ones by lia.
  change (2 ^ 1) with 2. rewrite <- Z.bit0_mod, Z.shiftr_spec by lia.
  reflexivity.
Qed.

Lemma GetUpperBit_bit buf off bit :
  0 <= off ->
  bits_of buf !! Z.to_nat off = Some bit ->
  GetUpperBit off buf = Z.b2z bit.
Proof.
  intros Hoff Hbit. unfold GetUpperBit.
  rewrite quot8_nonneg, rem8_nonneg by lia.
  pose proof (Z.mod_pos_bound off 8 ltac:(lia)) as Hm.
  unfold to_uint8. rewrite (Z.mod_small (7 - off mod 8)) by lia.
  rewrite land_shiftr_bit by lia. f_equal.
  assert (Hlt : (Z.to_nat off < length (bits_of buf))%nat)
    by (apply lookup_lt_Some in Hbit; assumption).
  rewrite length_bits_of in Hlt.
  assert (Hk : (Z.to_nat off / 8 < length buf)%nat).
  { apply Nat.Div0.div_lt_upper_bound; lia. }
  destruct (lookup_lt_is_Some_2 _ _ Hk) as [b Hb].
  rewrite (bits_of_lookup _ _ _ Hb) in Hbit.
  apply (inj Some) in Hbit. rewrite <- Hbit.
  unfold vat, vbyte.
  assert (Z.to_nat (off / 8) = (Z.to_nat off / 8)%nat) as ->.
  { rewrite Z2Nat.inj_div by lia. reflexivity. }
  rewrite nth_lookup, Hb. cbn [default from_option]. unfold id. f_equal. f_equal.
  rewrite Nat2Z.inj_mod, Z2Nat.id by lia. reflexivity.
Qed.

Lemma bits_value_snoc l (b : bool) :
  bits_value (l ++ [b]) = 2 * bits_value l + Z.b2z b.
Proof. unfold bits_value. rewrite foldl_app. reflexivity. Qed.

Lemma foldl_bit_step v l :
  foldl bit_step v l = v * 2 ^ Z.of_nat (length l) + bits_value l.
Proof.
  induction l as [|b l IH] using rev_ind.
  - simpl. unfold bits_value. simpl. lia.
  - rewrite foldl_app, bits_value_snoc, length_app. cbn [foldl length].
    rewrite IH. unfold bit_step at 1.
    rewrite Nat2Z.inj_add, Z.pow_add_r by lia.
    change (2 ^ Z.of_nat 1) with 2. lia.
Qed.

Lemma bits_value_app l1 l2 :
  bits_value (l1 ++ l2)
  = bits_value l1 * 2 ^ Z.of_nat (length l2) + bits_value l2.
Proof.
  unfold bits_value at 1. rewrite foldl_app. fold (bits_value l1).
  apply foldl_bit_step.
Qed.

Lemma bits_value_bounds l : 0 <= bits_value l < 2 ^ Z.of_nat (length l).
Proof.
  induction l as [|b l IH] using rev_ind.
  - unfold bits_value. simpl. lia.
  - rewrite bits_value_snoc, length_app. cbn [length].
    rewrite Nat2Z.inj_add, Z.pow_add_r by lia. change (2 ^ Z.of_nat 1) with 2.
    destruct b; simpl Z.b2z; lia.
Qed.

Lemma bits_value_byte b : bits_value (bits_of_byte b) = byte_to_Z b.
Proof. destruct b; reflexivity. Qed.

Lemma bits_value_cons_byte b bs :
  bits_value (bits_of (b :: bs))
  = byte_to_Z b * 2 ^ Z.of_nat (length (bits_of bs)) + bits_value (bits_of bs).
Proof.
  cbn [bits_of flat_map]. fold (bits_of bs).
  rewrite bits_value_app, bits_value_byte. reflexivity.
Qed.
(** *** The two reading loops *)

Lemma ReadUnsignedLiteralBits_loop_S fuel boff buf bsize rem out :
  ReadUnsignedLiteralBits_loop (S fuel) boff buf bsize rem out
  = if (to_uint64 (Z.quot boff 8) <? vsize buf) && (0 <? rem) && (boff <? bsize)
    then
      ReadUnsignedLiteralBits_loop fuel (boff + 1) buf bsize (rem - 1)
        (Z.lor out (to_uint64 (Z.shiftl (GetUpperBit boff buf) (rem - 1))))
    else (boff, rem, out).
Proof. reflexivity. Qed.

Lemma ReadUnsignedLiteralBits_loop_0 boff buf bsize rem out :
  ReadUnsignedLiteralBits_loop 0 boff buf bsize rem out = (boff, rem, out).
Proof. reflexivity. Qed.

Lemma ReadUnsignedLiteralBits_loop_spec buf bsize fuel : forall boff rem v,
  0 <= boff <= bsize -> bsize <= 8 * vsize buf -> bsize < 2 ^ 62 ->
  0 <= rem <= 64 -> rem <= Z.of_nat fuel -> 0 <= v < 2 ^ (64 - rem) ->
  let k := Z.to_nat (Z.min rem (bsize - boff)) in
  ReadUnsignedLiteralBits_loop fuel boff buf bsize rem (v * 2 ^ rem)
  = (boff + Z.of_nat k, rem - Z.of_nat k,
     foldl bit_step v (take k (drop (Z.to_nat boff) (bits_of buf)))
     * 2 ^ (rem - Z.of_nat k)).
Proof.
  induction fuel as [|fuel IH]; intros boff rem v Hboff Hbs Hbound Hrem Hfuel Hv k.
  - assert (rem = 0) by lia. subst rem. subst k.
    rewrite ReadUnsignedLiteralBits_loop_0.
    replace (Z.to_nat (Z.min 0 (bsize - boff))) with 0%nat by lia.
    rewrite take_0. simpl. f_equal. f_equal. lia.
  - rewrite ReadUnsignedLiteralBits_loop_S.
    destruct (Z.eq_dec (Z.min rem (bsize - boff)) 0) as [Hz|Hnz].
    + subst k. rewrite Hz. change (Z.to_nat 0) with 0%nat. rewrite take_0.
      replace ((to_uint64 (Z.quot boff 8) <? vsize buf) && (0 <? rem)
               && (boff <? bsize)) with false.
      { simpl. rewrite Z.sub_0_r. f_equal. f_equal. lia. }
      symmetry. apply andb_false_iff.
      destruct (Z.eq_dec rem 0).
      * left. apply andb_false_iff. right. apply Z.ltb_ge. lia.
      * right. apply Z.ltb_ge. lia.
    + assert (Hlt : boff < bsize) by lia.
      assert (Hpos : 0 < rem) by lia.
      assert (Hq : boff / 8 < vsize buf).
      { apply Z.div_lt_upper_bound; lia. }
      rewrite quot8_nonneg by lia.
      rewrite to_uint64_small
        by (split; [apply Z.div_pos; lia | apply Z.div_lt_upper_bound; lia]).
      replace ((boff / 8 <? vsize buf) && (0 <? rem) && (boff <? bsize)) with true.
      2:{ symmetry. rewrite !andb_true_iff, !Z.ltb_lt. auto. }
      assert (Hi : (Z.to_nat boff < length (bits_of buf))%nat).
      { rewrite length_bits_of. unfold vsize in *. lia. }
      destruct (lookup_lt_is_Some_2 _ _ Hi) as [bit Hbit].
      rewrite (GetUpperBit_bit buf boff bit ltac:(lia) Hbit).
      assert (Hp : 2 ^ rem = 2 * 2 ^ (rem - 1)).
      { replace rem with (1 + (rem - 1)) at 1 by lia.
        rewrite Z.pow_add_r by lia. reflexivity. }
      assert (Hq2 : 2 ^ (64 - (rem - 1)) = 2 * 2 ^ (64 - rem)).
      { replace (64 - (rem - 1)) with (1 + (64 - rem)) by lia.
        rewrite Z.pow_add_r by lia. reflexivity. }
      assert (H64 : 2 ^ (rem - 1) * 2 ^ (64 - (rem - 1)) = 2 ^ 64).
      { rewrite <- Z.pow_add_r by lia. f_equal. lia. }
      assert (Hpp : 0 < 2 ^ (rem - 1)) by (apply Z.pow_pos_nonneg; lia).
      assert (Hqq : 0 < 2 ^ (64 - rem)) by (apply Z.pow_pos_nonneg; lia).
      assert (Hb01 : 0 <= Z.b2z bit <= 1) by (destruct bit; simpl; lia).
      assert (Hout : Z.lor (v * 2 ^ rem)
                       (to_uint64 (Z.shiftl (Z.b2z bit) (rem - 1)))
                     = bit_step v bit * 2 ^ (rem - 1)).
      { rewrite Z.shiftl_mul_pow2 by lia.
        rewrite to_uint64_small by nia.
        rewrite Z.lor_comm.
        rewrite <- (Z.shiftl_mul_pow2 v rem) by lia.
        rewrite lor_shiftl_add by nia.
        unfold bit_step. rewrite Hp. lia. }
      rewrite Hout.
      specialize (IH (boff + 1) (rem - 1) (bit_step v bit)
                    ltac:(lia) Hbs Hbound ltac:(lia) ltac:(lia)).
      rewrite IH by (unfold bit_step; rewrite Hq2; lia).
      subst k.
      replace (Z.to_nat (Z.min rem (bsize - boff)))
        with (S (Z.to_nat (Z.min (rem - 1) (bsize - (boff + 1))))) by lia.
      set (k' := Z.to_nat (Z.min (rem - 1) (bsize - (boff + 1)))).
      rewrite (drop_S _ _ _ Hbit). cbn [take foldl].
      replace (Z.to_nat (boff + 1)) with (S (Z.to_nat boff)) by lia.
      f_equal; [f_equal; lia|]. f_equal. f_equal. lia.
Qed.

Lemma ReadUnsignedLiteralBytes_loop_spec buf fuel : forall boff rem out,
  0 <= boff -> boff mod 8 = 0 -> boff <= 8 * vsize buf -> vsize buf < 2 ^ 59 ->
  0 <= rem -> rem <= Z.of_nat fuel ->
  let j := Z.to_nat (Z.min ((rem + 7) / 8) (vsize buf - boff / 8)) in
  ReadUnsignedLiteralBytes_loop fuel boff buf rem out
  = (boff + 8 * Z.of_nat j, rem - 8 * Z.of_nat j,
     foldl byte_step out (take j (drop (Z.to_nat (boff / 8)) buf))).
Proof.
  induction fuel as [|fuel IH]; intros boff rem out Hboff Hal Hle Hsz Hrem Hfuel j.
  - assert (rem = 0) by lia. subst rem. subst j. simpl.
    change ((0 + 7) / 8) with 0.
    replace (Z.to_nat (Z.min 0 (vsize buf - boff / 8))) with 0%nat by lia.
    rewrite take_0. simpl. f_equal. f_equal; lia.
  - rewrite ReadUnsignedLiteralBytes_loop_S.
    rewrite quot8_nonneg by lia.
    assert (Hd : boff = 8 * (boff / 8)).
    { pose proof (Z.div_mod boff 8). lia. }
    assert (Hd0 : 0 <= boff / 8) by (apply Z.div_pos; lia).
    rewrite to_uint64_small by lia.
    assert (Hc : 0 <= (rem + 7) / 8) by (apply Z.div_pos; lia).
    destruct (Z.eq_dec (Z.min ((rem + 7) / 8) (vsize buf - boff / 8)) 0) as [Hz|Hnz].
    + subst j. rewrite Hz. change (Z.to_nat 0) with 0%nat. rewrite take_0.
      replace ((boff / 8 <? vsize buf) && (0 <? rem)) with false.
      { simpl. f_equal. f_equal; lia. }
      symmetry. apply andb_false_iff.
      destruct (Z.eq_dec rem 0).
      * right. apply Z.ltb_ge. lia.
      * left. apply Z.ltb_ge.
        assert (1 <= (rem + 7) / 8) by (apply Z.div_le_lower_bound; lia). lia.
    + assert (Hpos : 0 < rem).
      { destruct (Z.eq_dec rem 0); [subst; change ((0 + 7) / 8) with 0 in Hnz; lia|lia]. }
      assert (Hlt : boff / 8 < vsize buf) by lia.
      replace ((boff / 8 <? vsize buf) && (0 <? rem)) with true.
      2:{ symmetry. rewrite andb_true_iff, !Z.ltb_lt. auto. }
      assert (Hi : (Z.to_nat (boff / 8) < length buf)%nat)
        by (unfold vsize in *; lia).
      destruct (lookup_lt_is_Some_2 _ _ Hi) as [b Hb].
      assert (Hdiv : (boff + 8) / 8 = boff / 8 + 1).
      { replace (boff + 8) with (boff + 1 * 8) by lia. apply Z.div_add. lia. }
      assert (Hceil : (rem - 8 + 7) / 8 = (rem + 7) / 8 - 1).
      { replace (rem - 8 + 7) with (rem + 7 + (-1) * 8) by lia.
        rewrite Z.div_add by lia. lia. }
      destruct (Z_le_dec rem 8) as [Hsmall|Hbig].
      * (* last iteration *)
        rewrite ReadUnsignedLiteralBytes_loop_done by lia.
        assert (Hone : (rem + 7) / 8 = 1).
        { apply Z.le_antisymm.
          - apply Z.lt_succ_r. apply Z.div_lt_upper_bound; lia.
          - apply Z.div_le_lower_bound; lia. }
        subst j. rewrite Hone.
        replace (Z.to_nat (Z.min 1 (vsize buf - boff / 8))) with 1%nat by lia.
        rewrite (drop_S _ _ _ Hb). cbn [take foldl].
        rewrite take_0. cbn [foldl].
        unfold byte_step, vat, vbyte. rewrite nth_lookup, Hb.
        cbn [default from_option]. unfold id. reflexivity.
      * specialize (IH (boff + 8) (rem - 8)
                      (Z.lor (to_uint64 (Z.shiftl out 8)) (vat buf (boff / 8)))
                      ltac:(lia)).
        rewrite IH; try lia.
        2:{ rewrite <- Z.add_mod_idemp_l by lia. rewrite Hal. reflexivity. }
        subst j. rewrite Hdiv, Hceil.
        replace (Z.to_nat (Z.min ((rem + 7) / 8) (vsize buf - boff / 8)))
          with (S (Z.to_nat (Z.min ((rem + 7) / 8 - 1)
                                   (vsize buf - (boff / 8 + 1))))) by lia.
        set (j' := Z.to_nat (Z.min ((rem + 7) / 8 - 1) (vsize buf - (boff / 8 + 1)))).
        rewrite (drop_S _ _ _ Hb). cbn [take foldl].
        replace (Z.to_nat (boff / 8 + 1)) with (S (Z.to_nat (boff / 8))) by lia.
        unfold byte_step at 2. unfold vat, vbyte. rewrite nth_lookup, Hb.
        cbn [default from_option]. unfold id.
        f_equal. f_equal; lia.
Qed.

Lemma foldl_byte_step l : forall out,
  0 <= out < 2 ^ (64 - 8 * Z.of_nat (length l)) ->
  8 * Z.of_nat (length l) <= 64 ->
  foldl byte_step out l
  = out * 2 ^ (8 * Z.of_nat (length l)) + bits_value (bits_of l).
Proof.
  induction l as [|b l IH]; intros out Hout Hlen.
  - simpl. unfold bits_value. simpl. lia.
  - cbn [foldl]. cbn [length] in *.
    pose proof (byte_to_Z_bounds b) as Hb.
    assert (Hp : 2 ^ (64 - 8 * Z.of_nat (length l))
                 = 256 * 2 ^ (64 - 8 * Z.of_nat (S (length l)))).
    { replace (64 - 8 * Z.of_nat (length l))
        with (8 + (64 - 8 * Z.of_nat (S (length l)))) by lia.
      rewrite Z.pow_add_r by lia. reflexivity. }
    assert (Hq : 0 < 2 ^ (64 - 8 * Z.of_nat (S (length l))))
      by (apply Z.pow_pos_nonneg; lia).
    assert (Hle : 2 ^ (64 - 8 * Z.of_nat (length l)) <= 2 ^ 64)
      by (apply Z.pow_le_mono_r; lia).
    assert (Hstep : byte_step out b = out * 256 + byte_to_Z b).
    { unfold byte_step. rewrite Z.shiftl_mul_pow2 by lia.
      change (2 ^ 8) with 256.
      assert (0 <= out * 256 < 2 ^ 64) as Hr.
      { revert Hout Hp Hq Hle.
        generalize (2 ^ (64 - 8 * Z.of_nat (S (length l)))).
        generalize (2 ^ (64 - 8 * Z.of_nat (length l))). intros. lia. }
      rewrite to_uint64_small by exact Hr.
      rewrite Z.lor_comm.
      replace (out * 256) with (Z.shiftl out 8)
        by (rewrite Z.shiftl_mul_pow2 by lia; reflexivity).
      rewrite lor_shiftl_add by (change (2 ^ 8) with 256; lia).
      rewrite Z.shiftl_mul_pow2 by lia. lia. }
    assert (Hnext : 0 <= out * 256 + byte_to_Z b
                    < 2 ^ (64 - 8 * Z.of_nat (length l))).
    { revert Hout Hp Hq Hle.
      generalize (2 ^ (64 - 8 * Z.of_nat (S (length l)))).
      generalize (2 ^ (64 - 8 * Z.of_nat (length l))). intros. lia. }
    rewrite Hstep, IH by (assumption || lia).
    rewrite bits_value_cons_byte, length_bits_of.
    replace (8 * Z.of_nat (S (length l))) with (8 + 8 * Z.of_nat (length l)) by lia.
    rewrite Z.pow_add_r by lia. change (2 ^ 8) with 256.
    replace (Z.of_nat (8 * length l)) with (8 * Z.of_nat (length l)) by lia.
    lia.
Qed.

(** *** Refilling by whole bytes *)

Lemma LoadBits_loop_bytes_exact fuel : forall N src soff buf cap boff bsize loaded,
  0 <= soff -> soff mod 8 = 0 -> soff <= 8 * vsize src -> vsize src < 2 ^ 59 ->
  0 <= N - loaded -> (N - loaded) mod 8 = 0 ->
  vsize buf <= cap -> N - loaded <= 8 * Z.of_nat fuel ->
  let m := Z.to_nat (Z.min ((N - loaded) / 8)
                       (Z.min (vsize src - soff / 8) (cap - vsize buf))) in
  LoadBits_loop fuel N (mkLoad (mk src soff buf cap boff bsize) loaded 0)
  = (kOk,
     mkLoad (mk src (soff + 8 * Z.of_nat m)
               (buf ++ take m (drop (Z.to_nat (soff / 8)) src)) cap boff
               (bsize + 8 * Z.of_nat m))
       (loaded + 8 * Z.of_nat m) 0).
Proof.
  induction fuel as [|fuel IH];
    intros N src soff buf cap boff bsize loaded Hoff Hal Hle Hsz HN HNal Hcap Hfuel m.
  - assert (N - loaded = 0) as H0 by lia.
    subst m. rewrite H0. change (0 / 8) with 0.
    assert (0 <= soff / 8) by (apply Z.div_pos; lia).
    assert (soff / 8 <= vsize src) by (apply Z.div_le_upper_bound; lia).
    replace (Z.to_nat (Z.min 0 (Z.min (vsize src - soff / 8) (cap - vsize buf))))
      with 0%nat by lia.
    rewrite take_0, app_nil_r. simpl. rewrite !Z.add_0_r. reflexivity.
  - assert (Hd : soff = 8 * (soff / 8)).
    { pose proof (Z.div_mod soff 8). lia. }
    assert (Hd0 : 0 <= soff / 8) by (apply Z.div_pos; lia).
    assert (HNd : N - loaded = 8 * ((N - loaded) / 8)).
    { pose proof (Z.div_mod (N - loaded) 8). lia. }
    assert (HNd0 : 0 <= (N - loaded) / 8) by (apply Z.div_pos; lia).
    cbn [LoadBits_loop ld_rb ld_bits_loaded ld_write_offset source_
         source_bit_offset_ bit_buffer_ capacity buffer_bit_offset_ buffer_size_].
    destruct (Z.eq_dec (Z.min ((N - loaded) / 8)
                          (Z.min (vsize src - soff / 8) (cap - vsize buf))) 0)
      as [Hz|Hnz].
    + subst m. rewrite Hz. change (Z.to_nat 0) with 0%nat.
      rewrite take_0, app_nil_r, !Z.add_0_r.
      replace (ShouldRead soff src (N - loaded) && negb (vsize buf =? cap))
        with false; [reflexivity|].
      symmetry. apply andb_false_iff.
      destruct (Z.eq_dec (cap - vsize buf) 0).
      * right. apply negb_false_iff, Z.eqb_eq. lia.
      * left. apply not_true_is_false. intros Ht.
        apply ShouldRead_true in Ht; lia.
    + assert (Hread : ShouldRead soff src (N - loaded) = true)
        by (apply ShouldRead_true; lia).
      rewrite Hread.
      replace (negb (vsize buf =? cap)) with true
        by (symmetry; apply negb_true_iff, Z.eqb_neq; lia).
      cbn [andb].
      rewrite !rem8_nonneg by lia. rewrite HNal, Hal.
      change (0 mod 8) with 0. cbn [Z.eqb negb orb].
      assert (Hdiv : (soff + 8) / 8 = soff / 8 + 1).
      { replace (soff + 8) with (soff + 1 * 8) by lia. apply Z.div_add. lia. }
      assert (HNdiv : (N - (loaded + 8)) / 8 = (N - loaded) / 8 - 1).
      { replace (N - (loaded + 8)) with (N - loaded + (-1) * 8) by lia.
        rewrite Z.div_add by lia. lia. }
      assert (Hvs : vsize (buf ++ [vbyte src (Z.quot soff 8)]) = vsize buf + 1).
      { unfold vsize. rewrite length_app. simpl. lia. }
      rewrite IH; try lia.
      2:{ rewrite <- Z.add_mod_idemp_l by lia. rewrite Hal. reflexivity. }
      2:{ replace (N - (loaded + 8)) with (N - loaded + (-1) * 8) by lia.
          rewrite Z.mod_add by lia. assumption. }
      rewrite Hdiv, HNdiv, Hvs. subst m.
      set (m' := Z.to_nat (Z.min ((N - loaded) / 8 - 1)
                   (Z.min (vsize src - (soff / 8 + 1)) (cap - (vsize buf + 1))))).
      replace (Z.to_nat (Z.min ((N - loaded) / 8)
                 (Z.min (vsize src - soff / 8) (cap - vsize buf))))
        with (S m') by (subst m'; lia).
      assert (Hi : (Z.to_nat (soff / 8) < length src)%nat)
        by (unfold vsize in *; lia).
      destruct (lookup_lt_is_Some_2 _ _ Hi) as [b Hb].
      rewrite (drop_S _ _ _ Hb). cbn [take].
      replace (Z.to_nat (soff / 8 + 1)) with (S (Z.to_nat (soff / 8))) by lia.
      rewrite quot8_nonneg by lia.
      unfold vbyte. rewrite nth_lookup, Hb. cbn [default from_option]. unfold id.
      rewrite <- app_assoc. cbn [app].
      f_equal. f_equal; [f_equal; lia | lia].
Qed.

(** [LoadBits] with [fill_to_capacity] on a reader loaded by whole bytes. *)
Lemma LoadBits_fill_whole_bytes rb r :
  whole_bytes_in_range rb -> r <= 8 * capacity rb ->
  let L := vsize (source_ rb) - source_bit_offset_ rb / 8 in
  let m := Z.to_nat (Z.min (capacity rb) L) in
  LoadBits r true rb
  = if 8 * Z.of_nat m <? r then (kResourceExhausted, DiscardAllBits rb)
    else (kOk,
          mk (source_ rb) (source_bit_offset_ rb + 8 * Z.of_nat m)
            (take m (drop (Z.to_nat (source_bit_offset_ rb / 8)) (source_ rb)))
            (capacity rb) 0 (8 * Z.of_nat m)).
Proof.
  intros ((Hoff & Hal & Hboff & Hbsz & Hbcap) & Hcap & Hsz) Hr L m.
  unfold LoadBits. cbn [DiscardAllBits capacity source_bit_offset_].
  fold (bit_capacity rb). rewrite (bit_capacity_small rb Hcap).
  replace (8 * capacity rb <? r) with false by (symmetry; apply Z.ltb_ge; lia).
  cbn [andb].
  unfold DiscardAllBits.
  destruct rb as [src soff buf cap boff bsize]. cbn in *.
  rewrite LoadBits_loop_bytes_exact; try lia.
  2:{ rewrite Z.sub_0_r, Z.mul_comm. apply Z.mod_mul. lia. }
  2:{ unfold vsize. simpl. lia. }
  cbn [is_ok negb ld_bits_loaded ld_rb].
  rewrite Z.sub_0_r.
  replace (8 * cap / 8) with cap by (rewrite Z.mul_comm, Z.div_mul; lia).
  change (vsize []) with 0. rewrite Z.sub_0_r.
  assert (0 <= soff / 8) by (apply Z.div_pos; lia).
  assert (soff / 8 <= vsize src) by (apply Z.div_le_upper_bound; lia).
  replace (Z.min cap (Z.min (vsize src - soff / 8) cap))
    with (Z.min cap (vsize src - soff / 8)) by lia.
  subst m L. cbn [app]. rewrite !Z.add_0_l.
  destruct (_ <? r); [|reflexivity].
  cbn [source_ bit_buffer_ capacity buffer_bit_offset_ buffer_size_].
  rewrite to_int32_small by lia. reflexivity.
Qed.

(** [LoadBits] with [fill_to_capacity] refuses a request beyond the capacity
    before it looks at the source. *)
Lemma LoadBits_beyond_capacity r rb :
  1 <= capacity rb < 2 ^ 28 -> 8 * capacity rb < r ->
  LoadBits r true rb = (kInvalidArgument, DiscardAllBits rb).
Proof.
  intros Hcap Hr. unfold LoadBits. cbn [DiscardAllBits capacity].
  fold (bit_capacity rb). rewrite (bit_capacity_small rb Hcap).
  replace (8 * capacity rb <? r) with true by (symmetry; apply Z.ltb_lt; lia).
  reflexivity.
Qed.

(** *** One read, at any bit offset *)

Lemma pending_bits_eq rb :
  whole_bytes rb ->
  pending_bits rb
  = drop (Z.to_nat (buffer_bit_offset_ rb)) (bits_of (bit_buffer_ rb))
    ++ drop (Z.to_nat (source_bit_offset_ rb)) (bits_of (source_ rb)).
Proof.
  intros (Hoff & Hal & Hboff & Hbsz & Hbcap). unfold pending_bits.
  rewrite take_ge; [reflexivity|].
  rewrite length_bits_of. unfold vsize in Hbsz. lia.
Qed.

Lemma length_pending_bits rb :
  whole_bytes rb ->
  Z.of_nat (length (pending_bits rb))
  = buffer_size_ rb - buffer_bit_offset_ rb
    + (8 * vsize (source_ rb) - source_bit_offset_ rb).
Proof.
  intros Hw. rewrite (pending_bits_eq rb Hw).
  destruct Hw as (Hoff & Hal & Hboff & Hbsz & Hbcap).
  rewrite length_app, !length_drop, !length_bits_of. unfold vsize in *. lia.
Qed.

Lemma read_step_bits n rb rem v :
  whole_bytes_in_range rb ->
  CanReadByteAligned (buffer_bit_offset_ rb) n = false ->
  0 <= rem <= 64 -> 0 <= v < 2 ^ (64 - rem) ->
  let k := Z.to_nat (Z.min rem (buffer_size_ rb - buffer_bit_offset_ rb)) in
  read_literal_step n rb rem (v * 2 ^ rem)
  = (mk (source_ rb) (source_bit_offset_ rb) (bit_buffer_ rb) (capacity rb)
       (buffer_bit_offset_ rb + Z.of_nat k) (buffer_size_ rb),
     rem - Z.of_nat k,
     foldl bit_step v
       (take k (drop (Z.to_nat (buffer_bit_offset_ rb)) (bits_of (bit_buffer_ rb))))
     * 2 ^ (rem - Z.of_nat k)).
Proof.
  intros ((Hoff & Hal & Hboff & Hbsz & Hbcap) & Hcap & Hsz) Hmode Hrem Hv k.
  unfold read_literal_step. rewrite Hmode. unfold ReadUnsignedLiteralBits.
  rewrite ReadUnsignedLiteralBits_loop_spec; try lia.
  reflexivity.
Qed.

Lemma read_step_bytes n rb rem out :
  whole_bytes_in_range rb ->
  CanReadByteAligned (buffer_bit_offset_ rb) n = true ->
  rem mod 8 = 0 -> 0 <= rem <= 64 -> 0 <= out < 2 ^ (64 - rem) ->
  let k := Z.to_nat (Z.min rem (buffer_size_ rb - buffer_bit_offset_ rb)) in
  read_literal_step n rb rem out
  = (mk (source_ rb) (source_bit_offset_ rb) (bit_buffer_ rb) (capacity rb)
       (buffer_bit_offset_ rb + Z.of_nat k) (buffer_size_ rb),
     rem - Z.of_nat k,
     out * 2 ^ Z.of_nat k
     + bits_value
         (take k (drop (Z.to_nat (buffer_bit_offset_ rb))
                    (bits_of (bit_buffer_ rb))))).
Proof.
  destruct rb as [src soff buf cap boff bsize].
  intros ((Hoff & Hal & Hboff & Hbsz & Hbcap) & Hcap & Hsz) Hmode Hral Hrem Hout k.
  cbn [source_ source_bit_offset_ bit_buffer_ capacity buffer_bit_offset_
       buffer_size_] in *.
  unfold read_literal_step.
  cbn [source_ source_bit_offset_ bit_buffer_ capacity buffer_bit_offset_
       buffer_size_].
  rewrite Hmode. unfold ReadUnsignedLiteralBytes.
  apply andb_true_iff in Hmode as [Hbal _]. apply Z.eqb_eq in Hbal.
  rewrite rem8_nonneg in Hbal by lia.
  assert (Hd : boff = 8 * (boff / 8)).
  { pose proof (Z.div_mod boff 8). lia. }
  assert (Hd0 : 0 <= boff / 8) by (apply Z.div_pos; lia).
  assert (Hrd : rem = 8 * (rem / 8)).
  { pose proof (Z.div_mod rem 8). lia. }
  assert (Hrd0 : 0 <= rem / 8) by (apply Z.div_pos; lia).
  assert (Hceil : (rem + 7) / 8 = rem / 8).
  { rewrite Hrd at 1. rewrite Z.mul_comm, Z.div_add_l by lia.
    change (7 / 8) with 0. lia. }
  rewrite ReadUnsignedLiteralBytes_loop_spec; try lia.
  rewrite Hceil.
  set (j := Z.to_nat (Z.min (rem / 8) (vsize buf - boff / 8))).
  assert (Hk : k = (8 * j)%nat) by (subst k j; clear Hout; unfold vsize in *; lia).
  assert (Hjlen : length (take j (drop (Z.to_nat (boff / 8)) buf)) = j).
  { rewrite length_take, length_drop. unfold vsize in *. subst j. lia. }
  rewrite foldl_byte_step; rewrite Hjlen.
  - rewrite bits_of_take, bits_of_drop.
    replace (8 * Z.to_nat (boff / 8))%nat with (Z.to_nat boff) by lia.
    rewrite Hk. replace (Z.of_nat (8 * j)) with (8 * Z.of_nat j) by lia.
    reflexivity.
  - split; [lia|]. eapply Z.lt_le_trans; [apply Hout|].
    apply Z.pow_le_mono_r; lia.
  - lia.
Qed.

Lemma bits_value_take_app (l1 l2 : list bool) (r : nat) :
  (r <= length l2)%nat ->
  bits_value l1 * 2 ^ Z.of_nat r + bits_value (take r l2)
  = bits_value (take (length l1 + r) (l1 ++ l2)).
Proof.
  intros Hr. rewrite take_app_add, bits_value_app, length_take.
  rewrite Nat.min_l by lia. reflexivity.
Qed.

(** Reading inside the bits the buffer still holds. *)
Lemma read_internal_buffered n mx out rb :
  whole_bytes_in_range rb -> 0 <= n <= mx -> mx <= 64 ->
  n <= buffer_size_ rb - buffer_bit_offset_ rb ->
  ReadUnsignedLiteralInternal true n mx out rb
  = (kOk, bits_value (take (Z.to_nat n) (pending_bits rb)),
     mk (source_ rb) (source_bit_offset_ rb) (bit_buffer_ rb) (capacity rb)
       (buffer_bit_offset_ rb + n) (buffer_size_ rb)).
Proof.
  intros Hin Hn Hmx Hfit. pose proof Hin as (Hw & Hcap & Hsz).
  pose proof Hw as (Hoff & Hal & Hboff & Hbsz & Hbcap).
  unfold ReadUnsignedLiteralInternal.
  replace (mx <? n) with false by (symmetry; apply Z.ltb_ge; lia).
  replace (buffer_bit_offset_ rb <? 0) with false by (symmetry; apply Z.ltb_ge; lia).
  rewrite (pending_bits_eq rb Hw).
  assert (Hlen : (Z.to_nat n
                  <= length (drop (Z.to_nat (buffer_bit_offset_ rb))
                               (bits_of (bit_buffer_ rb))))%nat).
  { rewrite length_drop, length_bits_of. unfold vsize in *. lia. }
  rewrite take_app_le by exact Hlen.
  assert (Hp64 : 0 < 2 ^ (64 - n)) by (apply Z.pow_pos_nonneg; lia).
  destruct (CanReadByteAligned (buffer_bit_offset_ rb) n) eqn:Hmode.
  - pose proof Hmode as Hm2. apply andb_true_iff in Hm2 as [_ Hnal].
    apply Z.eqb_eq in Hnal. rewrite rem8_nonneg in Hnal by lia.
    rewrite (read_step_bytes n rb n 0 Hin Hmode Hnal) by lia.
    replace (Z.to_nat (Z.min n (buffer_size_ rb - buffer_bit_offset_ rb)))
      with (Z.to_nat n) by lia.
    rewrite Z2Nat.id, Z.sub_diag by lia. cbn [Z.eqb negb]. cbv iota.
    rewrite Z.mul_0_l, Z.add_0_l. reflexivity.
  - replace 0 with (0 * 2 ^ n) at 1 by lia.
    rewrite (read_step_bits n rb n 0 Hin Hmode) by lia.
    replace (Z.to_nat (Z.min n (buffer_size_ rb - buffer_bit_offset_ rb)))
      with (Z.to_nat n) by lia.
    rewrite Z2Nat.id, Z.sub_diag by lia. cbn [Z.eqb negb]. cbv iota.
    change (2 ^ 0) with 1. rewrite Z.mul_1_r. reflexivity.
Qed.

Lemma CanReadByteAligned_spec boff n :
  0 <= boff -> 0 <= n ->
  CanReadByteAligned boff n = true <-> boff mod 8 = 0 /\ n mod 8 = 0.
Proof.
  intros. unfold CanReadByteAligned. rewrite !rem8_nonneg by lia.
  rewrite andb_true_iff, !Z.eqb_eq. tauto.
Qed.

Lemma drop_take_drop {A} (l : list A) (r a : nat) :
  (r <= a)%nat -> (r <= length l)%nat ->
  drop r (take a l) ++ drop a l = drop r l.
Proof.
  intros Hra Hrl.
  rewrite <- (take_drop a l) at 3.
  rewrite drop_app_le; [reflexivity|].
  rewrite length_take. lia.
Qed.

(** The first phase of a read that needs more bits than the buffer holds:
    the buffer is drained. *)
Lemma read_step_drain n rb :
  whole_bytes_in_range rb -> 0 <= n <= 64 ->
  buffer_size_ rb - buffer_bit_offset_ rb < n ->
  let p := buffer_size_ rb - buffer_bit_offset_ rb in
  let PB := drop (Z.to_nat (buffer_bit_offset_ rb)) (bits_of (bit_buffer_ rb)) in
  read_literal_step n rb n 0
  = (mk (source_ rb) (source_bit_offset_ rb) (bit_buffer_ rb) (capacity rb)
       (buffer_size_ rb) (buffer_size_ rb),
     n - p,
     if CanReadByteAligned (buffer_bit_offset_ rb) n then bits_value PB
     else bits_value PB * 2 ^ (n - p)).
Proof.
  intros Hin Hn Hlt p PB. pose proof Hin as (Hw & Hcap & Hsz).
  pose proof Hw as (Hoff & Hal & Hboff & Hbsz & Hbcap).
  assert (HPB : length PB = Z.to_nat p).
  { subst PB p. rewrite length_drop, length_bits_of. unfold vsize in *. lia. }
  assert (Hp64 : 0 < 2 ^ (64 - n)) by (apply Z.pow_pos_nonneg; lia).
  destruct (CanReadByteAligned (buffer_bit_offset_ rb) n) eqn:Hmode.
  - pose proof Hmode as Hm2.
    apply CanReadByteAligned_spec in Hm2 as [_ Hnal]; [|lia..].
    rewrite (read_step_bytes n rb n 0 Hin Hmode Hnal) by lia.
    replace (Z.to_nat (Z.min n (buffer_size_ rb - buffer_bit_offset_ rb)))
      with (Z.to_nat p) by (subst p; lia).
    fold PB. rewrite take_ge by lia.
    rewrite Z.mul_0_l, Z.add_0_l, Z2Nat.id by (subst p; lia).
    subst p. f_equal. f_equal. f_equal. lia.
  - replace 0 with (0 * 2 ^ n) at 1 by lia.
    rewrite (read_step_bits n rb n 0 Hin Hmode) by lia.
    replace (Z.to_nat (Z.min n (buffer_size_ rb - buffer_bit_offset_ rb)))
      with (Z.to_nat p) by (subst p; lia).
    fold PB. rewrite take_ge by lia.
    rewrite Z2Nat.id by (subst p; lia).
    fold (bits_value PB).
    subst p. f_equal. f_equal. f_equal. lia.
Qed.

(** A read that the pending bits cannot serve. *)
Lemma read_internal_exhausted n mx out rb :
  whole_bytes_in_range rb -> 0 <= n <= mx -> mx <= 64 ->
  n - (buffer_size_ rb - buffer_bit_offset_ rb) <= 8 * capacity rb ->
  Z.of_nat (length (pending_bits rb)) < n ->
  exists v,
    ReadUnsignedLiteralInternal true n mx out rb
    = (kResourceExhausted, v,
       mk (source_ rb) (source_bit_offset_ rb) [] (capacity rb) 0 0).
Proof.
  intros Hin Hn Hmx Hncap Hshort. pose proof Hin as (Hw & Hcap & Hsz).
  pose proof Hw as (Hoff & Hal & Hboff & Hbsz & Hbcap).
  rewrite (length_pending_bits rb Hw) in Hshort.
  unfold ReadUnsignedLiteralInternal.
  replace (mx <? n) with false by (symmetry; apply Z.ltb_ge; lia).
  replace (buffer_bit_offset_ rb <? 0) with false by (symmetry; apply Z.ltb_ge; lia).
  rewrite (read_step_drain n rb Hin) by lia.
  set (p := buffer_size_ rb - buffer_bit_offset_ rb) in *.
  replace (negb (n - p =? 0)) with true
    by (symmetry; apply negb_true_iff, Z.eqb_neq; lia).
  set (rb1 := mk (source_ rb) (source_bit_offset_ rb) (bit_buffer_ rb)
                (capacity rb) (buffer_size_ rb) (buffer_size_ rb)).
  assert (Hin1 : whole_bytes_in_range rb1).
  { unfold whole_bytes_in_range, whole_bytes, rb1; simpl. repeat split; lia. }
  rewrite (LoadBits_fill_whole_bytes rb1 (n - p) Hin1) by (simpl; lia).
  cbn [rb1 source_ source_bit_offset_ capacity].
  assert (Hd : source_bit_offset_ rb = 8 * (source_bit_offset_ rb / 8)).
  { pose proof (Z.div_mod (source_bit_offset_ rb) 8). lia. }
  destruct (Z.min_spec (capacity rb)
              (vsize (source_ rb) - source_bit_offset_ rb / 8)) as [[Hm ->]|[Hm ->]].
  - exfalso. lia.
  - replace (8 * Z.of_nat (Z.to_nat (vsize (source_ rb) - source_bit_offset_ rb / 8))
             <? n - p) with true by (symmetry; apply Z.ltb_lt; lia).
    cbn [is_ok negb]. cbv iota. eexists. reflexivity.
Qed.

(** A read that needs more bits beyond the buffer than the buffer can take. *)
Lemma read_internal_beyond_capacity n mx out rb :
  whole_bytes_in_range rb -> 0 <= n <= mx -> mx <= 64 ->
  8 * capacity rb < n - (buffer_size_ rb - buffer_bit_offset_ rb) ->
  exists v,
    ReadUnsignedLiteralInternal true n mx out rb
    = (kInvalidArgument, v, DiscardAllBits rb).
Proof.
  intros Hin Hn Hmx Hwide. pose proof Hin as (Hw & Hcap & Hsz).
  pose proof Hw as (Hoff & Hal & Hboff & Hbsz & Hbcap).
  unfold ReadUnsignedLiteralInternal.
  replace (mx <? n) with false by (symmetry; apply Z.ltb_ge; lia).
  replace (buffer_bit_offset_ rb <? 0) with false
    by (symmetry; apply Z.ltb_ge; lia).
  rewrite (read_step_drain n rb Hin) by lia.
  replace (negb (n - (buffer_size_ rb - buffer_bit_offset_ rb) =? 0))
    with true by (symmetry; apply negb_true_iff, Z.eqb_neq; lia).
  rewrite LoadBits_beyond_capacity by (simpl; lia).
  eexists. reflexivity.
Qed.

(** A read that drains the buffer and continues in a refilled one. *)
Lemma read_internal_refill n mx out rb :
  whole_bytes_in_range rb -> 0 <= n <= mx -> mx <= 64 ->
  n - (buffer_size_ rb - buffer_bit_offset_ rb) <= 8 * capacity rb ->
  buffer_size_ rb - buffer_bit_offset_ rb < n ->
  n mod 8 <> 0 \/ buffer_bit_offset_ rb mod 8 = 0 ->
  n <= Z.of_nat (length (pending_bits rb)) ->
  exists rb',
    ReadUnsignedLiteralInternal true n mx out rb
    = (kOk, bits_value (take (Z.to_nat n) (pending_bits rb)), rb')
    /\ whole_bytes_in_range rb'
    /\ pending_bits rb' = drop (Z.to_nat n) (pending_bits rb).
Proof.
  intros Hin Hn Hmx Hncap Hlt Hgood Hlen. pose proof Hin as (Hw & Hcap & Hsz).
  pose proof Hw as (Hoff & Hal & Hboff & Hbsz & Hbcap).
  rewrite (length_pending_bits rb Hw) in Hlen.
  rewrite (pending_bits_eq rb Hw).
  unfold ReadUnsignedLiteralInternal.
  replace (mx <? n) with false by (symmetry; apply Z.ltb_ge; lia).
  replace (buffer_bit_offset_ rb <? 0) with false by (symmetry; apply Z.ltb_ge; lia).
  rewrite (read_step_drain n rb Hin) by lia.
  set (p := buffer_size_ rb - buffer_bit_offset_ rb) in *.
  set (PB := drop (Z.to_nat (buffer_bit_offset_ rb)) (bits_of (bit_buffer_ rb))).
  set (PS := drop (Z.to_nat (source_bit_offset_ rb)) (bits_of (source_ rb))).
  assert (HPB : length PB = Z.to_nat p).
  { subst PB p. rewrite length_drop, length_bits_of. unfold vsize in *. lia. }
  assert (HPS : Z.of_nat (length PS)
                = 8 * vsize (source_ rb) - source_bit_offset_ rb).
  { subst PS. rewrite length_drop, length_bits_of. unfold vsize in *. lia. }
  replace (negb (n - p =? 0)) with true
    by (symmetry; apply negb_true_iff, Z.eqb_neq; lia).
  set (rb1 := mk (source_ rb) (source_bit_offset_ rb) (bit_buffer_ rb)
                (capacity rb) (buffer_size_ rb) (buffer_size_ rb)).
  assert (Hin1 : whole_bytes_in_range rb1).
  { unfold whole_bytes_in_range, whole_bytes, rb1; simpl. repeat split; lia. }
  rewrite (LoadBits_fill_whole_bytes rb1 (n - p) Hin1) by (simpl; lia).
  cbn [rb1 source_ source_bit_offset_ capacity].
  assert (Hd : source_bit_offset_ rb = 8 * (source_bit_offset_ rb / 8)).
  { pose proof (Z.div_mod (source_bit_offset_ rb) 8). lia. }
  assert (Hd0 : 0 <= source_bit_offset_ rb / 8) by (apply Z.div_pos; lia).
  set (m := Z.to_nat (Z.min (capacity rb)
                        (vsize (source_ rb) - source_bit_offset_ rb / 8))).
  assert (Hm : n - p <= 8 * Z.of_nat m) by (subst m; lia).
  assert (Hmcap : Z.of_nat m <= capacity rb) by (subst m; lia).
  assert (Hmsrc : 8 * Z.of_nat m <= Z.of_nat (length PS)) by (subst m; lia).
  replace (8 * Z.of_nat m <? n - p) with false by (symmetry; apply Z.ltb_ge; lia).
  cbn [is_ok negb]. cbv iota.
  set (buf2 := take m (drop (Z.to_nat (source_bit_offset_ rb / 8)) (source_ rb))).
  set (rb2 := mk (source_ rb) (source_bit_offset_ rb + 8 * Z.of_nat m) buf2
                (capacity rb) 0 (8 * Z.of_nat m)).
  assert (Hbuf2 : bits_of buf2 = take (8 * m) PS).
  { subst buf2 PS. rewrite bits_of_take, bits_of_drop. f_equal. f_equal. lia. }
  assert (Hlen2 : length buf2 = m).
  { subst buf2. rewrite length_take, length_drop. unfold vsize in *. lia. }
  assert (Hin2 : whole_bytes_in_range rb2).
  { unfold whole_bytes_in_range, whole_bytes, rb2; simpl.
    unfold vsize in *. rewrite Hlen2. repeat split; try lia.
    rewrite <- Z.add_mod_idemp_l by lia. rewrite Hal.
    rewrite Z.add_0_l, Z.mul_comm. apply Z.mod_mul. lia. }
  set (r := n - p) in *.
  assert (Hr : 0 < r <= 64) by lia.
  assert (Hvb : 0 <= bits_value PB < 2 ^ (64 - r)).
  { pose proof (bits_value_bounds PB) as Hb. rewrite HPB in Hb.
    split; [lia|]. eapply Z.lt_le_trans; [apply Hb|].
    apply Z.pow_le_mono_r; lia. }
  assert (Htake : take (Z.to_nat r) (drop (Z.to_nat 0) (bits_of buf2))
                  = take (Z.to_nat r) PS).
  { change (Z.to_nat 0) with 0%nat. rewrite drop_0, Hbuf2, take_take.
    f_equal. lia. }
  assert (Hval : bits_value PB * 2 ^ r + bits_value (take (Z.to_nat r) PS)
                 = bits_value (take (Z.to_nat n) (PB ++ PS))).
  { replace r with (Z.of_nat (Z.to_nat r)) at 1 by lia.
    rewrite bits_value_take_app by lia.
    f_equal. f_equal. lia. }
  exists (mk (source_ rb) (source_bit_offset_ rb + 8 * Z.of_nat m) buf2
             (capacity rb) r (8 * Z.of_nat m)).
  split; [|split].
  - destruct (CanReadByteAligned (buffer_bit_offset_ rb) n) eqn:Hmode.
    + pose proof Hmode as Hm2.
      apply CanReadByteAligned_spec in Hm2 as [Hbal Hnal]; [|lia..].
      assert (Hmode2 : CanReadByteAligned (buffer_bit_offset_ rb2) n = true).
      { apply CanReadByteAligned_spec; simpl; [lia|lia|auto]. }
      assert (Hral : r mod 8 = 0).
      { subst r p. rewrite Hbsz.
        rewrite Zminus_mod, Hnal.
        rewrite (Zminus_mod (8 * _)), Hbal.
        rewrite Z.mul_comm, Z.mod_mul by lia. reflexivity. }
      rewrite (read_step_bytes n rb2 r (bits_value PB) Hin2 Hmode2 Hral) by lia.
      cbn [rb2 source_ source_bit_offset_ bit_buffer_ capacity
           buffer_bit_offset_ buffer_size_].
      replace (Z.to_nat (Z.min r (8 * Z.of_nat m - 0))) with (Z.to_nat r) by lia.
      rewrite Htake, Z2Nat.id, Hval by lia. rewrite Z.add_0_l. reflexivity.
    + assert (Hnal : n mod 8 <> 0).
      { destruct Hgood as [?|Hb0]; [assumption|]. intros Hn0.
        assert (CanReadByteAligned (buffer_bit_offset_ rb) n = true)
          by (apply CanReadByteAligned_spec; [lia|lia|auto]).
        congruence. }
      assert (Hmode2 : CanReadByteAligned (buffer_bit_offset_ rb2) n = false).
      { apply not_true_is_false. intros Ht.
        apply CanReadByteAligned_spec in Ht; simpl; [|lia..]. tauto. }
      rewrite (read_step_bits n rb2 r (bits_value PB) Hin2 Hmode2) by lia.
      cbn [rb2 source_ source_bit_offset_ bit_buffer_ capacity
           buffer_bit_offset_ buffer_size_].
      replace (Z.to_nat (Z.min r (8 * Z.of_nat m - 0))) with (Z.to_nat r) by lia.
      rewrite Htake, Z2Nat.id, Z.sub_diag by lia.
      rewrite foldl_bit_step, length_take.
      rewrite Nat.min_l by lia. rewrite Z2Nat.id by lia.
      change (2 ^ 0) with 1. rewrite Z.mul_1_r, Hval, Z.add_0_l. reflexivity.
  - unfold whole_bytes_in_range, whole_bytes; simpl.
    destruct Hin2 as ((? & ? & ? & ? & ?) & ? & ?). simpl in *.
    repeat split; try lia; assumption.
  - unfold pending_bits; simpl.
    rewrite Hbuf2, take_take.
    replace (Z.to_nat (8 * Z.of_nat m) `min` (8 * m))%nat with (8 * m)%nat by lia.
    replace (Z.to_nat (source_bit_offset_ rb + 8 * Z.of_nat m))
      with (Z.to_nat (source_bit_offset_ rb) + 8 * m)%nat by lia.
    rewrite <- drop_drop. fold PS.
    rewrite drop_take_drop by lia.
    rewrite drop_app_ge by lia. f_equal. lia.
Qed.

Lemma bits_value_take_bounds (l : list bool) n :
  0 <= n -> 0 <= bits_value (take (Z.to_nat n) l) < 2 ^ n.
Proof.
  intros Hn. pose proof (bits_value_bounds (take (Z.to_nat n) l)) as Hb.
  split; [lia|]. eapply Z.lt_le_trans; [apply Hb|].
  apply Z.pow_le_mono_r; [lia|]. rewrite length_take. lia.
Qed.

Lemma read_internal_ok n mx out rb :
  whole_bytes_in_range rb -> 0 <= n <= mx -> mx <= 64 ->
  n - (buffer_size_ rb - buffer_bit_offset_ rb) <= 8 * capacity rb ->
  ~ straddles n rb ->
  n <= Z.of_nat (length (pending_bits rb)) ->
  exists rb',
    ReadUnsignedLiteralInternal true n mx out rb
    = (kOk, bits_value (take (Z.to_nat n) (pending_bits rb)), rb')
    /\ whole_bytes_in_range rb'
    /\ pending_bits rb' = drop (Z.to_nat n) (pending_bits rb).
Proof.
  intros Hin Hn Hmx Hncap Hns Hlen.
  destruct (Z_le_dec n (buffer_size_ rb - buffer_bit_offset_ rb)) as [Hfit|Hcross].
  - rewrite (read_internal_buffered n mx out rb Hin Hn Hmx Hfit).
    eexists. split; [reflexivity|].
    pose proof Hin as (Hw & Hcap & Hsz).
    pose proof Hw as (Hoff & Hal & Hboff & Hbsz & Hbcap).
    split.
    + unfold whole_bytes_in_range, whole_bytes; simpl. repeat split; lia.
    + rewrite (pending_bits_eq rb Hw). unfold pending_bits; simpl.
      rewrite take_ge by (rewrite length_bits_of; unfold vsize in *; lia).
      rewrite drop_app_le
        by (rewrite length_drop, length_bits_of; unfold vsize in *; lia).
      rewrite drop_drop. f_equal. f_equal. lia.
  - apply read_internal_refill; try assumption; try lia.
    destruct (Z.eq_dec (n mod 8) 0) as [Hn0|Hn0]; [|left; assumption].
    destruct (Z.eq_dec (buffer_bit_offset_ rb mod 8) 0) as [Hb0|Hb0];
      [right; assumption|].
    exfalso. apply Hns. unfold straddles. repeat split; [assumption..|lia].
Qed.

(** The overloads narrow a value that fits already. *)
Lemma ReadUnsignedLiteral_Internal ty n out rb v rb' :
  ReadUnsignedLiteralInternal true n (width ty) 0 rb = (kOk, v, rb') ->
  0 <= v < 2 ^ n -> 0 <= n <= width ty ->
  ReadUnsignedLiteralInternal true n (width ty) out rb = (kOk, v, rb') ->
  ReadUnsignedLiteral true ty n out rb = (kOk, v, rb').
Proof.
  intros Hrun Hv Hn Hrun'.
  assert (Hw : 2 ^ n <= 2 ^ width ty) by (apply Z.pow_le_mono_r; lia).
  destruct ty; cbn [ReadUnsignedLiteral width] in *.
  - unfold ReadUnsignedLiteral_uint8. rewrite Hrun. simpl.
    unfold to_uint8. rewrite Z.mod_small by lia. reflexivity.
  - unfold ReadUnsignedLiteral_uint16. rewrite Hrun. simpl.
    rewrite Z.mod_small by lia. reflexivity.
  - unfold ReadUnsignedLiteral_uint32. rewrite Hrun. simpl.
    unfold to_uint32. rewrite Z.mod_small by lia. reflexivity.
  - unfold ReadUnsignedLiteral_uint64. exact Hrun'.
Qed.

Lemma ReadUnsignedLiteral_Internal_failed ty n out rb st v rb' :
  ReadUnsignedLiteralInternal true n (width ty) 0 rb = (st, v, rb') ->
  st <> kOk ->
  (forall o, exists v',
     ReadUnsignedLiteralInternal true n (width ty) o rb = (st, v', rb')) ->
  (ReadUnsignedLiteral true ty n out rb).1.1 = st
  /\ (ReadUnsignedLiteral true ty n out rb).2 = rb'.
Proof.
  intros Hrun Hst Hall.
  destruct ty; cbn [ReadUnsignedLiteral width] in *.
  - unfold ReadUnsignedLiteral_uint8. rewrite Hrun.
    destruct st; try contradiction; simpl; auto.
  - unfold ReadUnsignedLiteral_uint16. rewrite Hrun.
    destruct st; try contradiction; simpl; auto.
  - unfold ReadUnsignedLiteral_uint32. rewrite Hrun.
    destruct st; try contradiction; simpl; auto.
  - unfold ReadUnsignedLiteral_uint64. destruct (Hall out) as [v' ->]. auto.
Qed.

(** X1.  On a reader whose buffer is loaded by whole bytes (as it is when
    [LoadBits] fills to capacity), [ReadUnsignedLiteral] of [num_bits] bits,
    a number within the width of the output, goes by the bits it needs
    beyond those the buffer still holds.  When these are more than the buffer
    can take, it fails with [kInvalidArgument].  Otherwise, when fewer bits
    are left in the stream than asked for, it fails with
    [kResourceExhausted].  Both failures empty the buffer: the bits it still
    held are lost.  Otherwise it returns the next [num_bits] bits of the
    stream as a number, most significant bit first, and leaves the reader
    behind them, at any bit offset, provided the read does not straddle a
    refill (see below). *)
Theorem ReadUnsignedLiteral_next_bits ty num_bits output rb :
  whole_bytes_in_range rb ->
  0 <= num_bits <= width ty ->
  let r := ReadUnsignedLiteral true ty num_bits output rb in
  let beyond_buffer :=
    num_bits - (buffer_size_ rb - buffer_bit_offset_ rb) in
  (beyond_buffer <= 8 * capacity rb ->
   ~ straddles num_bits rb ->
   num_bits <= Z.of_nat (length (pending_bits rb)) ->
   r.1 = (kOk, bits_value (take (Z.to_nat num_bits) (pending_bits rb)))
   /\ whole_bytes_in_range r.2
   /\ pending_bits r.2 = drop (Z.to_nat num_bits) (pending_bits rb))
  /\ (beyond_buffer <= 8 * capacity rb ->
      Z.of_nat (length (pending_bits rb)) < num_bits ->
      r.1.1 = kResourceExhausted /\ r.2 = DiscardAllBits rb)
  /\ (8 * capacity rb < beyond_buffer ->
      r.1.1 = kInvalidArgument /\ r.2 = DiscardAllBits rb).
Proof.
  intros Hin Hn r beyond_buffer. subst beyond_buffer.
  assert (Hw64 : width ty <= 64) by (destruct ty; simpl; lia).
  split; [|split].
  - intros Hcap Hns Hlen.
    destruct (read_internal_ok num_bits (width ty) 0 rb Hin Hn Hw64 Hcap Hns Hlen)
      as (rb' & Hrun & Hin' & Hpend').
    destruct (read_internal_ok num_bits (width ty) output rb Hin Hn Hw64 Hcap Hns Hlen)
      as (rb'' & Hrun' & _).
    assert (rb'' = rb').
    { pose proof (ReadUnsignedLiteralInternal_frame true num_bits (width ty) 0 rb).
      unfold ReadUnsignedLiteralInternal in Hrun, Hrun'.
      destruct (width ty <? num_bits); [congruence|].
      destruct (buffer_bit_offset_ rb <? 0); congruence. }
    subst rb''.
    subst r.
    rewrite (ReadUnsignedLiteral_Internal ty num_bits output rb _ rb' Hrun
               (bits_value_take_bounds (pending_bits rb) num_bits (proj1 Hn))
               Hn Hrun').
    auto.
  - intros Hcap Hshort.
    destruct (read_internal_exhausted num_bits (width ty) 0 rb Hin Hn Hw64 Hcap Hshort)
      as (v & Hrun).
    subst r.
    apply (ReadUnsignedLiteral_Internal_failed ty num_bits output rb _ v _ Hrun);
      [discriminate|].
    intros o.
    exact (read_internal_exhausted num_bits (width ty) o rb Hin Hn Hw64 Hcap Hshort).
  - intros Hwide.
    destruct (read_internal_beyond_capacity num_bits (width ty) 0 rb Hin Hn
                Hw64 Hwide) as (v & Hrun).
    subst r.
    apply (ReadUnsignedLiteral_Internal_failed ty num_bits output rb _ v _ Hrun);
      [discriminate|].
    intros o.
    exact (read_internal_beyond_capacity num_bits (width ty) o rb Hin Hn Hw64
             Hwide).
Qed.

(** Three bits from a stream that starts with the byte 0x61 = 011 00001. *)
Lemma ReadUnsignedLiteral_next_bits_witness :
  (ReadUnsignedLiteral true Uint8 3 0 (create 4 ["a"%byte; "b"%byte])).1
  = (kOk, 3).
Proof.
  pose proof (ReadUnsignedLiteral_next_bits Uint8 3 0
                (create 4 ["a"%byte; "b"%byte]) ltac:(reader_in_range)
                ltac:(simpl; lia)) as [Hok _].
  destruct Hok as (Hv & _).
  - simpl. lia.
  - intros (H & _). discriminate.
  - simpl. lia.
  - exact Hv.
Defined.

(** The status and the reader an overload returns are those of
    [ReadUnsignedLiteralInternal]. *)
Lemma Internal_output_irrelevant fill n mx out out' rb :
  (ReadUnsignedLiteralInternal fill n mx out rb).1.1
  = (ReadUnsignedLiteralInternal fill n mx out' rb).1.1
  /\ (ReadUnsignedLiteralInternal fill n mx out rb).2
     = (ReadUnsignedLiteralInternal fill n mx out' rb).2.
Proof.
  unfold ReadUnsignedLiteralInternal.
  destruct (mx <? n); [auto|]. destruct (_ <? 0); auto.
Qed.

Lemma ReadUnsignedLiteral_status_state fill ty n out rb :
  (ReadUnsignedLiteral fill ty n out rb).1.1
  = (ReadUnsignedLiteralInternal fill n (width ty) 0 rb).1.1
  /\ (ReadUnsignedLiteral fill ty n out rb).2
     = (ReadUnsignedLiteralInternal fill n (width ty) 0 rb).2.
Proof.
  destruct ty; cbn [ReadUnsignedLiteral width].
  - unfold ReadUnsignedLiteral_uint8.
    destruct (ReadUnsignedLiteralInternal fill n 8 0 rb) as [[st v] rb'].
    destruct st; simpl; auto.
  - unfold ReadUnsignedLiteral_uint16.
    destruct (ReadUnsignedLiteralInternal fill n 16 0 rb) as [[st v] rb'].
    destruct st; simpl; auto.
  - unfold ReadUnsignedLiteral_uint32.
    destruct (ReadUnsignedLiteralInternal fill n 32 0 rb) as [[st v] rb'].
    destruct st; simpl; auto.
  - unfold ReadUnsignedLiteral_uint64.
    apply Internal_output_irrelevant.
Qed.

Lemma read_internal_straddling n mx out rb :
  whole_bytes_in_range rb -> 0 <= n <= mx -> mx <= 64 ->
  n <= 8 * capacity rb -> straddles n rb ->
  n <= Z.of_nat (length (pending_bits rb)) ->
  exists v rb',
    ReadUnsignedLiteralInternal true n mx out rb = (kOk, v, rb')
    /\ whole_bytes_in_range rb'
    /\ pending_bits rb'
       = drop (Z.to_nat (n + (8 - buffer_bit_offset_ rb mod 8)))
           (pending_bits rb).
Proof.
  intros Hin Hn Hmx Hncap (Hnal & Hbal & Hlt) Hlen.
  pose proof Hin as (Hw & Hcap & Hsz).
  pose proof Hw as (Hoff & Hal & Hboff & Hbsz & Hbcap).
  rewrite (length_pending_bits rb Hw) in Hlen.
  rewrite (pending_bits_eq rb Hw).
  unfold ReadUnsignedLiteralInternal.
  replace (mx <? n) with false by (symmetry; apply Z.ltb_ge; lia).
  replace (buffer_bit_offset_ rb <? 0) with false by (symmetry; apply Z.ltb_ge; lia).
  rewrite (read_step_drain n rb Hin) by lia.
  set (p := buffer_size_ rb - buffer_bit_offset_ rb) in *.
  set (PB := drop (Z.to_nat (buffer_bit_offset_ rb)) (bits_of (bit_buffer_ rb))).
  set (PS := drop (Z.to_nat (source_bit_offset_ rb)) (bits_of (source_ rb))).
  assert (HPB : length PB = Z.to_nat p).
  { subst PB p. rewrite length_drop, length_bits_of. unfold vsize in *. lia. }
  assert (HPS : Z.of_nat (length PS)
                = 8 * vsize (source_ rb) - source_bit_offset_ rb).
  { subst PS. rewrite length_drop, length_bits_of. unfold vsize in *. lia. }
  replace (negb (n - p =? 0)) with true
    by (symmetry; apply negb_true_iff, Z.eqb_neq; lia).
  set (rb1 := mk (source_ rb) (source_bit_offset_ rb) (bit_buffer_ rb)
                (capacity rb) (buffer_size_ rb) (buffer_size_ rb)).
  assert (Hin1 : whole_bytes_in_range rb1).
  { unfold whole_bytes_in_range, whole_bytes, rb1; simpl. repeat split; lia. }
  rewrite (LoadBits_fill_whole_bytes rb1 (n - p) Hin1) by (simpl; lia).
  cbn [rb1 source_ source_bit_offset_ capacity].
  assert (Hd : source_bit_offset_ rb = 8 * (source_bit_offset_ rb / 8)).
  { pose proof (Z.div_mod (source_bit_offset_ rb) 8). lia. }
  assert (Hd0 : 0 <= source_bit_offset_ rb / 8) by (apply Z.div_pos; lia).
  set (m := Z.to_nat (Z.min (capacity rb)
                        (vsize (source_ rb) - source_bit_offset_ rb / 8))).
  assert (Hm : n - p <= 8 * Z.of_nat m) by (subst m; lia).
  assert (Hmcap : Z.of_nat m <= capacity rb) by (subst m; lia).
  assert (Hmsrc : 8 * Z.of_nat m <= Z.of_nat (length PS)) by (subst m; lia).
  replace (8 * Z.of_nat m <? n - p) with false by (symmetry; apply Z.ltb_ge; lia).
  cbn [is_ok negb]. cbv iota.
  set (buf2 := take m (drop (Z.to_nat (source_bit_offset_ rb / 8)) (source_ rb))).
  assert (Hbuf2 : bits_of buf2 = take (8 * m) PS).
  { subst buf2 PS. rewrite bits_of_take, bits_of_drop. f_equal. f_equal. lia. }
  assert (Hlen2 : length buf2 = m).
  { subst buf2. rewrite length_take, length_drop. unfold vsize in *. lia. }
  (* arithmetic of the offsets *)
  pose proof (Z.div_mod (buffer_bit_offset_ rb) 8 ltac:(lia)) as Hbd.
  pose proof (Z.mod_pos_bound (buffer_bit_offset_ rb) 8 ltac:(lia)) as Hbm.
  pose proof (Z.div_mod n 8 ltac:(lia)) as Hnd.
  set (c := buffer_bit_offset_ rb mod 8) in *.
  set (r := n - p) in *.
  assert (Hceil : (r + 7) / 8 * 8 = r + (8 - c) - 8 + 8 /\ 0 <= (r + 7) / 8).
  { assert (r + 7 = (n / 8 - vsize (bit_buffer_ rb)
                     + buffer_bit_offset_ rb / 8 + 1) * 8 + (c - 1))
      as -> by (subst r p; lia).
    rewrite Z.div_add_l by lia. rewrite (Z.div_small (c - 1)) by lia.
    subst r p. lia. }
  destruct Hceil as [Hceil Hceil0].
  unfold read_literal_step.
  cbn [source_ source_bit_offset_ bit_buffer_ capacity buffer_bit_offset_
       buffer_size_].
  replace (CanReadByteAligned (buffer_bit_offset_ rb) n) with false.
  2:{ symmetry. apply not_true_is_false. intros Ht.
      apply CanReadByteAligned_spec in Ht; [|lia..]. tauto. }
  replace (CanReadByteAligned 0 n) with true
    by (symmetry; apply CanReadByteAligned_spec; [lia|lia|auto]).
  unfold ReadUnsignedLiteralBytes.
  rewrite ReadUnsignedLiteralBytes_loop_spec;
    try lia; try reflexivity; try (unfold vsize; lia).
  change (0 / 8) with 0. rewrite Z.sub_0_r.
  set (j := Z.to_nat (Z.min ((r + 7) / 8) (vsize buf2))).
  assert (Hj : Z.of_nat j = (r + 7) / 8).
  { subst j. unfold vsize. rewrite Hlen2. lia. }
  eexists. eexists. split; [reflexivity|]. split.
  - unfold whole_bytes_in_range, whole_bytes; simpl.
    unfold vsize in *. rewrite Hlen2. repeat split; try lia.
    rewrite <- Z.add_mod_idemp_l by lia. rewrite Hal.
    rewrite Z.add_0_l, Z.mul_comm. apply Z.mod_mul. lia.
  - unfold pending_bits; simpl.
    rewrite Hbuf2, take_take.
    replace (Z.to_nat (8 * Z.of_nat m) `min` (8 * m))%nat with (8 * m)%nat by lia.
    replace (Z.to_nat (source_bit_offset_ rb + 8 * Z.of_nat m))
      with (Z.to_nat (source_bit_offset_ rb) + 8 * m)%nat by lia.
    rewrite <- drop_drop. fold PS.
    rewrite drop_take_drop by lia.
    rewrite drop_app_ge by lia. f_equal. lia.
Qed.



(** *** [ReadBoolean], [ReadSigned16], [IsDataAvailable] *)

Lemma not_straddles_1 rb : ~ straddles 1 rb.
Proof. intros (H & _). discriminate. Qed.

Lemma ReadBoolean_some output rb bit rest :
  whole_bytes_in_range rb ->
  pending_bits rb = bit :: rest ->
  exists rb',
    ReadBoolean true output rb = (kOk, bit, rb')
    /\ whole_bytes_in_range rb' /\ pending_bits rb' = rest.
Proof.
  intros Hin Hpend. pose proof Hin as (Hw & Hcap & Hsz).
  pose proof Hw as (Hoff & Hal & Hboff & Hbsz & Hbcap).
  destruct (read_internal_ok 1 64 0 rb Hin ltac:(lia) ltac:(lia) ltac:(lia)
              (not_straddles_1 rb)) as (rb' & Hrun & Hin' & Hpend').
  { rewrite Hpend. simpl. lia. }
  exists rb'. unfold ReadBoolean, ReadUnsignedLiteral_uint64. rewrite Hrun.
  rewrite Hpend in *. change (Z.to_nat 1) with 1%nat in *.
  cbn [take drop] in *. cbn [is_ok negb]. split; [|auto].
  f_equal. f_equal. destruct bit; reflexivity.
Qed.

Lemma ReadBoolean_none output rb :
  whole_bytes_in_range rb ->
  pending_bits rb = [] ->
  ReadBoolean true output rb
  = (kResourceExhausted, output, DiscardAllBits rb).
Proof.
  intros Hin Hpend. pose proof Hin as (Hw & Hcap & Hsz).
  pose proof Hw as (Hoff & Hal & Hboff & Hbsz & Hbcap).
  destruct (read_internal_exhausted 1 64 0 rb Hin ltac:(lia) ltac:(lia)
              ltac:(lia)) as (v & Hrun).
  { rewrite Hpend. simpl. lia. }
  unfold ReadBoolean, ReadUnsignedLiteral_uint64. rewrite Hrun. reflexivity.
Qed.

(** X4.  [ReadBoolean] on a reader loaded by whole bytes returns the next bit
    of the stream and advances by one bit; at the end of the stream it fails
    with [kResourceExhausted] and leaves the output as it was. *)
Theorem ReadBoolean_next_bit output rb :
  whole_bytes_in_range rb ->
  let r := ReadBoolean true output rb in
  (forall bit rest,
     pending_bits rb = bit :: rest ->
     r.1 = (kOk, bit) /\ whole_bytes_in_range r.2 /\ pending_bits r.2 = rest)
  /\ (pending_bits rb = [] ->
      r.1 = (kResourceExhausted, output) /\ r.2 = DiscardAllBits rb).
Proof.
  intros Hin r. split.
  - intros bit rest Hpend.
    destruct (ReadBoolean_some output rb bit rest Hin Hpend) as (rb' & Hr & ? & ?).
    subst r. rewrite Hr. auto.
  - intros Hpend. subst r. rewrite (ReadBoolean_none output rb Hin Hpend). auto.
Qed.

(** The first bit of 0x80. *)
Lemma ReadBoolean_next_bit_witness :
  (ReadBoolean true false (create 4 ["128"%byte])).1 = (kOk, true).
Proof.
  pose proof (ReadBoolean_next_bit false (create 4 ["128"%byte])
                ltac:(reader_in_range)) as [Hsome _].
  destruct (Hsome true
              [false; false; false; false; false; false; false] eq_refl)
    as (Hv & _).
  exact Hv.
Defined.

Lemma to_int16_land v :
  0 <= v < 2 ^ 16 ->
  to_int16 (Z.land (to_int16 v) 0xffff) = if v <? 2 ^ 15 then v else v - 2 ^ 16.
Proof.
  intros Hv. change 0xffff with (Z.ones 16). rewrite Z.land_ones by lia.
  unfold to_int16.
  destruct (v <? 2 ^ 15) eqn:E.
  - apply Z.ltb_lt in E.
    rewrite (Z.mod_small (v + 2 ^ 15)) by lia.
    replace (v + 2 ^ 15 - 2 ^ 15) with v by lia.
    rewrite (Z.mod_small v) by lia. rewrite Z.mod_small by lia. lia.
  - apply Z.ltb_ge in E.
    replace (v + 2 ^ 15) with ((v - 2 ^ 15) + 1 * 2 ^ 16) by lia.
    rewrite Z.mod_add by lia. rewrite (Z.mod_small (v - 2 ^ 15)) by lia.
    replace (v - 2 ^ 15 - 2 ^ 15) with (v + (-1) * 2 ^ 16) by lia.
    rewrite Z.mod_add by lia. rewrite (Z.mod_small v) by lia.
    replace (v + 2 ^ 15) with ((v - 2 ^ 15) + 1 * 2 ^ 16) by lia.
    rewrite Z.mod_add by lia. rewrite (Z.mod_small (v - 2 ^ 15)) by lia. lia.
Qed.

(** X5.  [ReadSigned16] on a reader loaded by whole bytes goes by the bits
    it needs beyond those the buffer still holds.  When the buffer can take
    them and the read does not straddle a refill (the reader stands on a
    byte of its buffer, or the buffer still holds the 16 bits), it reads the
    next 16 bits, most significant first, as a number in two's complement: a
    value of [2^15] or more stands for itself less [2^16].  With fewer than 16
    bits left it fails with [kResourceExhausted], and when the buffer cannot
    take the bits needed with [kInvalidArgument]; both leave the output as it
    was and empty the buffer.  A read that starts inside a byte and needs a
    refill succeeds, but ends [8 - buffer_bit_offset_ mod 8] bits behind the
    16 bits: what it returns is then not the next 16 bits (see the example
    below). *)
Theorem ReadSigned16_twos_complement output rb :
  whole_bytes_in_range rb ->
  let r := ReadSigned16 true output rb in
  let v := bits_value (take 16 (pending_bits rb)) in
  let beyond_buffer := 16 - (buffer_size_ rb - buffer_bit_offset_ rb) in
  (beyond_buffer <= 8 * capacity rb ->
   ~ straddles 16 rb ->
   (16 <= length (pending_bits rb))%nat ->
   r.1 = (kOk, if v <? 2 ^ 15 then v else v - 2 ^ 16)
   /\ whole_bytes_in_range r.2
   /\ pending_bits r.2 = drop 16 (pending_bits rb))
  /\ (beyond_buffer <= 8 * capacity rb ->
      (length (pending_bits rb) < 16)%nat ->
      r.1 = (kResourceExhausted, output) /\ r.2 = DiscardAllBits rb)
  /\ (8 * capacity rb < beyond_buffer ->
      r.1 = (kInvalidArgument, output) /\ r.2 = DiscardAllBits rb)
  /\ (beyond_buffer <= 8 * capacity rb ->
      straddles 16 rb ->
      (16 <= length (pending_bits rb))%nat ->
      r.1.1 = kOk
      /\ whole_bytes_in_range r.2
      /\ pending_bits r.2
         = drop (Z.to_nat (16 + (8 - buffer_bit_offset_ rb mod 8)))
             (pending_bits rb)).
Proof.
  intros Hin r v beyond_buffer. subst beyond_buffer.
  pose proof Hin as (Hw & Hcap & Hsz).
  pose proof Hw as (Hoff & Hal & Hboff & Hbsz & Hbcap).
  split; [|split; [|split]].
  - intros Hfit Hns Hlen.
    destruct (read_internal_ok 16 64 0 rb Hin ltac:(lia) ltac:(lia) Hfit
                Hns ltac:(lia)) as (rb' & Hrun & Hin' & Hpend').
    subst r. unfold ReadSigned16, ReadUnsignedLiteral_uint64. rewrite Hrun.
    change (Z.to_nat 16) with 16%nat in *. cbn [is_ok negb fst snd].
    fold v. rewrite to_int16_land; [auto|].
    exact (bits_value_take_bounds (pending_bits rb) 16 ltac:(lia)).
  - intros Hfit Hlen.
    destruct (read_internal_exhausted 16 64 0 rb Hin ltac:(lia) ltac:(lia)
                Hfit ltac:(lia)) as (v' & Hrun).
    subst r. unfold ReadSigned16, ReadUnsignedLiteral_uint64. rewrite Hrun.
    simpl. auto.
  - intros Hwide.
    destruct (read_internal_beyond_capacity 16 64 0 rb Hin ltac:(lia)
                ltac:(lia) Hwide) as (v' & Hrun).
    subst r. unfold ReadSigned16, ReadUnsignedLiteral_uint64. rewrite Hrun.
    simpl. auto.
  - intros Hfit Hs Hlen. pose proof Hs as (_ & Hbal & Hlt).
    assert (Hb0 : buffer_bit_offset_ rb <> 0)
      by (intros E; apply Hbal; rewrite E; reflexivity).
    assert (Hb8 : buffer_bit_offset_ rb <> 8)
      by (intros E; apply Hbal; rewrite E; reflexivity).
    assert (Hcap2 : 16 <= 8 * capacity rb) by (unfold vsize in *; lia).
    destruct (read_internal_straddling 16 64 0 rb Hin ltac:(lia) ltac:(lia)
                Hcap2 Hs ltac:(lia)) as (v' & rb' & Hrun & Hin' & Hpend').
    subst r. unfold ReadSigned16, ReadUnsignedLiteral_uint64. rewrite Hrun.
    cbn [is_ok negb fst snd]. auto.
Qed.

(** The bytes 0xff 0xfe are -2. *)
Lemma ReadSigned16_twos_complement_witness :
  (ReadSigned16 true 0 (create 4 ["255"%byte; "254"%byte])).1 = (kOk, -2).
Proof.
  pose proof (ReadSigned16_twos_complement 0
                (create 4 ["255"%byte; "254"%byte]) ltac:(reader_in_range))
    as [Hok _].
  destruct Hok as (Hv & _).
  - simpl. lia.
  - intros (_ & H & _). apply H. reflexivity.
  - simpl. lia.
  - exact Hv.
Defined.

(** A read that straddles a refill: a reader of two bytes over the stream
    ab cd ef 12 34 has delivered three bits; the next 16 bits spell 24175,
    [ReadSigned16] returns 26863 and leaves the reader 21 bits further. *)
Example ReadSigned16_straddling_value :
  let rb :=
    (ReadUnsignedLiteral true Uint8 3 0
       (create 2
          ["171"%byte; "205"%byte; "239"%byte; "018"%byte; "052"%byte])).2 in
  straddles 16 rb
  /\ bits_value (take 16 (pending_bits rb)) = 24175
  /\ (ReadSigned16 true 0 rb).1 = (kOk, 26863)
  /\ pending_bits (ReadSigned16 true 0 rb).2 = drop 21 (pending_bits rb).
Proof.
  vm_compute. repeat split; discriminate.
Qed.

(** X6.  On a reader loaded by whole bytes, [IsDataAvailable] holds exactly
    when some bit is left to deliver, that is exactly when a [ReadBoolean]
    would succeed. *)
Theorem IsDataAvailable_iff_next_bit output rb :
  whole_bytes_in_range rb ->
  (IsDataAvailable rb = true <-> pending_bits rb <> [])
  /\ (IsDataAvailable rb = true <-> (ReadBoolean true output rb).1.1 = kOk).
Proof.
  intros Hin. pose proof Hin as (Hw & Hcap & Hsz).
  pose proof Hw as (Hoff & Hal & Hboff & Hbsz & Hbcap).
  assert (Havail : IsDataAvailable rb = true <-> pending_bits rb <> []).
  { pose proof (length_pending_bits rb Hw) as Hlen.
    unfold IsDataAvailable.
    rewrite quot8_nonneg by lia.
    rewrite to_uint64_small
      by (split; [apply Z.div_pos; lia | apply Z.div_lt_upper_bound; lia]).
    rewrite orb_true_iff, !andb_true_iff, !Z.leb_le, !Z.ltb_lt.
    assert (source_bit_offset_ rb / 8 < vsize (source_ rb)
            <-> source_bit_offset_ rb < 8 * vsize (source_ rb)) as Hdiv.
    { pose proof (Z.div_mod (source_bit_offset_ rb) 8 ltac:(lia)). lia. }
    rewrite Hdiv.
    split.
    - intros Hd Hnil. rewrite Hnil in Hlen. simpl in Hlen. lia.
    - intros Hne. destruct (pending_bits rb) eqn:E; [congruence|].
      simpl in Hlen. lia. }
  split; [exact Havail|].
  rewrite Havail.
  destruct (pending_bits rb) as [|bit rest] eqn:Hpend.
  - rewrite (ReadBoolean_none output rb Hin Hpend). simpl.
    split; [congruence | discriminate].
  - destruct (ReadBoolean_some output rb bit rest Hin Hpend) as (rb' & -> & _).
    simpl. split; [reflexivity | discriminate].
Qed.

(** A reader that has delivered its only byte. *)
Lemma IsDataAvailable_iff_next_bit_witness :
  IsDataAvailable (mk ["a"%byte] 8 ["a"%byte] 1 8 8) = true
  <-> pending_bits (mk ["a"%byte] 8 ["a"%byte] 1 8 8) <> [].
Proof.
  apply (IsDataAvailable_iff_next_bit false
           (mk ["a"%byte] 8 ["a"%byte] 1 8 8)).
  reader_in_range.
Defined.

(** X3.  [LoadBits] with [fill_to_capacity], on a reader whose source offset
    is on a byte boundary, empties the buffer, unread bits included.  A
    request for more bits than the capacity holds is refused with
    [kInvalidArgument] before the source is read.  Otherwise whole bytes are
    loaded from the source, as many as the capacity allows and the source
    still has, and the call succeeds exactly when these cover the bits
    required: the reader then delivers the bits of the source from where it
    stood, and the bits that were unread in the old buffer are skipped.  When
    they do not cover them it returns [kResourceExhausted].  Both failures
    leave an empty buffer and the source offset as it was. *)
Theorem LoadBits_fill_to_capacity required_num_bits rb :
  whole_bytes_in_range rb ->
  let unread := Z.to_nat (buffer_size_ rb - buffer_bit_offset_ rb) in
  let r := LoadBits required_num_bits true rb in
  (8 * capacity rb < required_num_bits ->
   r = (kInvalidArgument, DiscardAllBits rb))
  /\ (required_num_bits <= 8 * capacity rb ->
      required_num_bits
      <= Z.of_nat (length (drop unread (pending_bits rb))) ->
      r.1 = kOk
      /\ whole_bytes_in_range r.2
      /\ buffer_bit_offset_ r.2 = 0
      /\ buffer_size_ r.2
         = 8 * Z.min (capacity rb)
                 (vsize (source_ rb) - source_bit_offset_ rb / 8)
      /\ pending_bits r.2 = drop unread (pending_bits rb))
  /\ (required_num_bits <= 8 * capacity rb ->
      Z.of_nat (length (drop unread (pending_bits rb))) < required_num_bits ->
      r = (kResourceExhausted, DiscardAllBits rb)).
Proof.
  intros Hin unread r.
  split.
  { intros Hwide. subst r. apply LoadBits_beyond_capacity; [|assumption].
    apply Hin. }
  cut (required_num_bits <= 8 * capacity rb ->
       (required_num_bits
        <= Z.of_nat (length (drop unread (pending_bits rb))) ->
        r.1 = kOk
        /\ whole_bytes_in_range r.2
        /\ buffer_bit_offset_ r.2 = 0
        /\ buffer_size_ r.2
           = 8 * Z.min (capacity rb)
                   (vsize (source_ rb) - source_bit_offset_ rb / 8)
        /\ pending_bits r.2 = drop unread (pending_bits rb))
       /\ (Z.of_nat (length (drop unread (pending_bits rb)))
           < required_num_bits ->
           r = (kResourceExhausted, DiscardAllBits rb))).
  { intros Hboth. split; intros Hr; apply (Hboth Hr). }
  intros Hr. pose proof Hin as (Hw & Hcap & Hsz).
  pose proof Hw as (Hoff & Hal & Hboff & Hbsz & Hbcap).
  assert (Hdrop : drop unread (pending_bits rb)
                  = drop (Z.to_nat (source_bit_offset_ rb)) (bits_of (source_ rb))).
  { rewrite (pending_bits_eq rb Hw). rewrite drop_app_length'; [reflexivity|].
    rewrite length_drop, length_bits_of. unfold vsize in *. subst unread. lia. }
  rewrite Hdrop. rewrite length_drop, length_bits_of.
  subst r. rewrite (LoadBits_fill_whole_bytes rb required_num_bits Hin Hr).
  assert (Hd : source_bit_offset_ rb = 8 * (source_bit_offset_ rb / 8)).
  { pose proof (Z.div_mod (source_bit_offset_ rb) 8). lia. }
  assert (Hd0 : 0 <= source_bit_offset_ rb / 8) by (apply Z.div_pos; lia).
  set (m := Z.to_nat (Z.min (capacity rb)
                        (vsize (source_ rb) - source_bit_offset_ rb / 8))).
  split.
  - intros Hlen.
    replace (8 * Z.of_nat m <? required_num_bits) with false
      by (symmetry; apply Z.ltb_ge; unfold vsize in *; subst m; lia).
    cbn [fst snd buffer_bit_offset_ buffer_size_].
    assert (Hlen2 : length (take m (drop (Z.to_nat (source_bit_offset_ rb / 8))
                                      (source_ rb))) = m).
    { rewrite length_take, length_drop. unfold vsize in *. subst m. lia. }
    split; [reflexivity|]. split; [|split; [reflexivity|split]].
    + unfold whole_bytes_in_range, whole_bytes; simpl.
      unfold vsize in *. rewrite Hlen2. repeat split; try (subst m; lia).
      rewrite <- Z.add_mod_idemp_l by lia. rewrite Hal.
      rewrite Z.add_0_l, Z.mul_comm. apply Z.mod_mul. lia.
    + subst m. lia.
    + unfold pending_bits; simpl. rewrite drop_0.
      rewrite bits_of_take, bits_of_drop, take_take.
      replace (Z.to_nat (8 * Z.of_nat m) `min` (8 * m))%nat with (8 * m)%nat by lia.
      replace (8 * Z.to_nat (source_bit_offset_ rb / 8))%nat
        with (Z.to_nat (source_bit_offset_ rb)) by lia.
      replace (Z.to_nat (source_bit_offset_ rb + 8 * Z.of_nat m))
        with (Z.to_nat (source_bit_offset_ rb) + 8 * m)%nat by lia.
      rewrite <- drop_drop. apply take_drop.
  - intros Hlen.
    replace (8 * Z.of_nat m <? required_num_bits) with true; [reflexivity|].
    symmetry. apply Z.ltb_lt. unfold vsize in *. subst m. lia.
Qed.

(** A two-byte buffer with five unread bits, refilled from a source with
    three bytes left. *)
Lemma LoadBits_fill_to_capacity_witness :
  (LoadBits 8 true
     (mk ["a"%byte; "b"%byte; "c"%byte; "d"%byte] 8 ["a"%byte] 2 3 8)).1 = kOk
  /\ buffer_size_
       (LoadBits 8 true
          (mk ["a"%byte; "b"%byte; "c"%byte; "d"%byte] 8 ["a"%byte] 2 3 8)).2
     = 16.
Proof.
  pose proof (LoadBits_fill_to_capacity 8
                (mk ["a"%byte; "b"%byte; "c"%byte; "d"%byte] 8 ["a"%byte] 2 3 8)
                ltac:(reader_in_range)) as (_ & Hok & _).
  destruct Hok as (Hst & _ & _ & Hsz & _); [simpl; lia | simpl; lia |].
  split; [exact Hst | exact Hsz].
Defined.

(** *** Reads wider than the buffer *)

(** X18.  A read that needs more bits beyond those the buffer still holds
    than the buffer can take fails with [kInvalidArgument], whatever the
    source holds: the refill is refused.  The buffer is emptied on the way,
    so the bits it still held are lost.  A reader must have a capacity of the
    widest read it is to serve. *)
Theorem ReadUnsignedLiteral_beyond_capacity ty num_bits output rb :
  whole_bytes_in_range rb ->
  0 <= num_bits <= width ty ->
  8 * capacity rb < num_bits - (buffer_size_ rb - buffer_bit_offset_ rb) ->
  let r := ReadUnsignedLiteral true ty num_bits output rb in
  r.1.1 = kInvalidArgument /\ r.2 = DiscardAllBits rb.
Proof.
  intros Hin Hn Hwide r. pose proof Hin as (Hw & Hcap & Hsz).
  pose proof Hw as (Hoff & Hal & Hboff & Hbsz & Hbcap).
  assert (Hw64 : width ty <= 64) by (destruct ty; simpl; lia).
  destruct (ReadUnsignedLiteral_status_state true ty num_bits output rb)
    as [Hst Hrb].
  subst r. rewrite Hst, Hrb. clear Hst Hrb.
  unfold ReadUnsignedLiteralInternal.
  replace (width ty <? num_bits) with false
    by (symmetry; apply Z.ltb_ge; lia).
  replace (buffer_bit_offset_ rb <? 0) with false
    by (symmetry; apply Z.ltb_ge; lia).
  rewrite (read_step_drain num_bits rb Hin) by lia.
  replace (negb (num_bits - (buffer_size_ rb - buffer_bit_offset_ rb) =? 0))
    with true by (symmetry; apply negb_true_iff, Z.eqb_neq; lia).
  rewrite LoadBits_beyond_capacity by (simpl; lia).
  split; reflexivity.
Qed.

(** A reader with a buffer of one byte asked for sixteen bits of a source
    that holds them. *)
Lemma ReadUnsignedLiteral_beyond_capacity_witness :
  (ReadUnsignedLiteral true Uint16 16 0
     (create 1 ["a"%byte; "b"%byte; "c"%byte])).1.1 = kInvalidArgument.
Proof.
  pose proof (ReadUnsignedLiteral_beyond_capacity Uint16 16 0
                (create 1 ["a"%byte; "b"%byte; "c"%byte])
                ltac:(reader_in_range) ltac:(simpl; lia) ltac:(simpl; lia))
    as [Hst _].
  exact Hst.
Defined.

End ReadBitBufferFacts.

(** ** Trim validation and parameter definitions *)

Module CliUtilFacts.
Import CliUtil.

(** *** [ValidateAndGetCommonTrim] *)

Lemma frames_of_substream_cons id f rest :
  frames_of_substream id (f :: rest)
  = if decide (GetSubstreamId (af_obu f) = id)
    then f :: frames_of_substream id rest
    else frames_of_substream id rest.
Proof.
  unfold frames_of_substream. rewrite filter_cons. reflexivity.
Qed.

(** The first loop succeeds when every substream passes its checks, and
    fails with [kInvalidArgument] when one does not. *)
Lemma trim_loop_spec common frames : forall m,
  (exists m',
      trim_loop common frames m = (kOk, m')
      /\ (forall id,
            check_substream common (state_of m id)
              (frames_of_substream id frames)
            = Some (state_of m' id))
      /\ (forall id,
            m' !! id = None
            <-> m !! id = None /\ frames_of_substream id frames = []))
  \/ ((trim_loop common frames m).1 = kInvalidArgument
      /\ exists id,
           check_substream common (state_of m id)
             (frames_of_substream id frames) = None).
Proof.
  induction frames as [|f rest IH]; intros m.
  - left. exists m. split; [reflexivity|]. split; [reflexivity|].
    intros id. split; [auto | tauto].
  - cbn [trim_loop].
    set (id0 := GetSubstreamId (af_obu f)).
    fold (state_of m id0).
    destruct (trim_frame common (state_of m id0) f) as [st1|] eqn:Hf.
    + destruct (IH (<[id0 := st1]> m))
        as [(m' & Hrun & Hchk & Hnone) | (Hfail & id & Hid)].
      * left. exists m'. split; [assumption|]. split.
        -- intros id. rewrite frames_of_substream_cons. fold id0.
           specialize (Hchk id). destruct (decide (id0 = id)) as [<-|Hne].
           ++ cbn [check_substream]. rewrite Hf.
              unfold state_of in Hchk at 1. rewrite lookup_insert_eq in Hchk.
              exact Hchk.
           ++ unfold state_of in Hchk at 1.
              rewrite lookup_insert_ne in Hchk by assumption. exact Hchk.
        -- intros id. rewrite frames_of_substream_cons. fold id0.
           rewrite (Hnone id). destruct (decide (id0 = id)) as [<-|Hne].
           ++ rewrite lookup_insert_eq. split; intros [? ?]; congruence.
           ++ rewrite lookup_insert_ne by assumption. reflexivity.
      * right. split; [assumption|]. exists id.
        rewrite frames_of_substream_cons. fold id0.
        destruct (decide (id0 = id)) as [<-|Hne].
        -- cbn [check_substream]. rewrite Hf.
           unfold state_of in Hid at 1. rewrite lookup_insert_eq in Hid.
           exact Hid.
        -- unfold state_of in Hid at 1.
           rewrite lookup_insert_ne in Hid by assumption. exact Hid.
    + right. split; [reflexivity|]. exists id0.
      rewrite frames_of_substream_cons. fold id0.
      rewrite decide_True by reflexivity.
      cbn [check_substream]. rewrite Hf. reflexivity.
Qed.

Lemma end_trim_followed_cons f r :
  end_trim_followed (f :: r)
  <-> (r <> [] /\ 0 < trim_at_end f) \/ end_trim_followed r.
Proof.
  unfold end_trim_followed. split.
  - intros (pre & x & post & Heq & Hpost & Hx).
    destruct pre as [|y pre]; simpl in Heq; injection Heq as -> ->.
    + left. split; assumption.
    + right. exists pre, x, post. split; [reflexivity|]. split; assumption.
  - intros [[Hr Hf] | (pre & x & post & -> & Hpost & Hx)].
    + exists [], f, r. split; [reflexivity|]. split; assumption.
    + exists (f :: pre), x, post. split; [reflexivity|]. split; assumption.
Qed.

Lemma start_trim_after_prefix_cons common f r :
  start_trim_after_prefix common (f :: r)
  <-> (trim_at_start f < common /\ Exists (fun g => 0 < trim_at_start g) r)
      \/ start_trim_after_prefix common r.
Proof.
  unfold start_trim_after_prefix. split.
  - intros (pre & g & post & Heq & Hg & Hex).
    destruct pre as [|y pre]; simpl in Heq; injection Heq as -> ->.
    + apply Exists_nil in Hex. contradiction.
    + apply Exists_cons in Hex as [Hy | Hex].
      * left. split; [assumption|]. apply Exists_app. right.
        apply Exists_cons. left. assumption.
      * right. exists pre, g, post. split; [reflexivity|]. split; assumption.
  - intros [[Hf Hex] | (pre & g & post & -> & Hg & Hex)].
    + apply Exists_exists in Hex as (g & Hin & Hg).
      apply list_elem_of_split in Hin as (pre & post & ->).
      exists (f :: pre), g, post. split; [reflexivity|]. split; [assumption|].
      apply Exists_cons. left. assumption.
    + exists (f :: pre), g, post. split; [reflexivity|]. split; [assumption|].
      apply Exists_cons. right. assumption.
Qed.

Lemma to_uint32_small z : 0 <= z < 2 ^ 32 -> to_uint32 z = z.
Proof. intros. unfold to_uint32. apply Z.mod_small. lia. Qed.

Lemma to_uint32_nonneg z : 0 <= to_uint32 z.
Proof. unfold to_uint32. apply Z.mod_pos_bound. lia. Qed.

(** The frames of one substream fail the checks exactly when the state they
    start from forbids them or they violate one of the four rules. *)
Lemma check_substream_spec common fs : forall st,
  0 <= common < 2 ^ 32 ->
  trims_in_range fs ->
  0 <= cumulative_num_samples_to_trim_at_end st ->
  check_substream common st fs = None
  <-> (fs <> [] /\ 0 < cumulative_num_samples_to_trim_at_end st)
      \/ (done_trimming_from_start st = true
          /\ Exists (fun g => 0 < trim_at_start g) fs)
      \/ substream_trim_violation common fs.
Proof.
  unfold substream_trim_violation, over_trimmed, fully_trimmed_from_end.
  induction fs as [|f r IH]; intros st Hc Hrange Hce.
  - cbn [check_substream]. split; [discriminate|].
    intros [[Hne _] | [[_ Hex] | [Ha | [Hb | [Hex | Hex]]]]].
    + congruence.
    + apply Exists_nil in Hex. contradiction.
    + destruct Ha as (pre & x & post & Heq & _). destruct pre; discriminate.
    + destruct Hb as (pre & x & post & Heq & _). destruct pre; discriminate.
    + apply Exists_nil in Hex. contradiction.
    + apply Exists_nil in Hex. contradiction.
  - apply Forall_cons in Hrange as [(Hs & He & Hsum) Hrange].
    rewrite end_trim_followed_cons, start_trim_after_prefix_cons, !Exists_cons.
    cbn [check_substream]. unfold trim_frame.
    fold (trim_at_end f) (trim_at_start f).
    destruct (0 <? cumulative_num_samples_to_trim_at_end st) eqn:Hend.
    { apply Z.ltb_lt in Hend. split; [|reflexivity].
      intros _. left. split; [discriminate | assumption]. }
    apply Z.ltb_ge in Hend.
    destruct (done_trimming_from_start st && (0 <? trim_at_start f)) eqn:Hdone.
    { apply andb_true_iff in Hdone as [Hd Hpos]. apply Z.ltb_lt in Hpos.
      split; [|reflexivity]. intros _. right. left. auto. }
    rewrite (to_uint32_small (trim_at_end f + trim_at_start f)) by lia.
    destruct (common <? trim_at_end f + trim_at_start f) eqn:Hover.
    { apply Z.ltb_lt in Hover. split; [|reflexivity].
      intros _. right. right. right. right. left. left. lia. }
    apply Z.ltb_ge in Hover.
    unfold to_uint64.
    rewrite (Z.mod_small (common - (trim_at_end f + trim_at_start f))) by lia.
    destruct ((common - (trim_at_end f + trim_at_start f) =? 0)
              && (0 <? trim_at_end f)) eqn:Hfull.
    { apply andb_true_iff in Hfull as [Hz Hpos].
      apply Z.eqb_eq in Hz. apply Z.ltb_lt in Hpos.
      split; [|reflexivity].
      intros _. right. right. right. right. right. left. lia. }
    rewrite IH; [|assumption|assumption|apply to_uint32_nonneg].
    cbn [cumulative_num_samples_to_trim_at_end done_trimming_from_start].
    replace (cumulative_num_samples_to_trim_at_end st) with 0 by lia.
    rewrite Z.add_0_l, (to_uint32_small (trim_at_end f)) by lia.
    assert (Hhead_done :
      ~ (done_trimming_from_start st = true /\ 0 < trim_at_start f)).
    { intros [Hd Hpos]. rewrite Hd in Hdone. simpl in Hdone.
      apply Z.ltb_ge in Hdone. lia. }
    assert (Hhead_full :
      ~ (0 < trim_at_end f /\ trim_at_start f + trim_at_end f = common)).
    { intros [Hpos Heq]. apply andb_false_iff in Hfull as [Hz|Hz].
      - apply Z.eqb_neq in Hz. lia.
      - apply Z.ltb_ge in Hz. lia. }
    assert (Hdone' :
      (if trim_at_start f <? common then true else done_trimming_from_start st)
      = true
      <-> trim_at_start f < common \/ done_trimming_from_start st = true).
    { destruct (trim_at_start f <? common) eqn:E.
      - apply Z.ltb_lt in E. tauto.
      - apply Z.ltb_ge in E. split; [auto|]. intros [?|?]; [lia|assumption]. }
    rewrite Hdone'.
    split.
    + intros [[Hne Hpos] | [[[Hlt | Hd] Hex] | [Ha | [Hb | [Hex | Hex]]]]].
      * right. right. left. left. auto.
      * right. right. right. left. left. auto.
      * right. left. auto.
      * right. right. left. right. assumption.
      * right. right. right. left. right. assumption.
      * right. right. right. right. left. right. assumption.
      * right. right. right. right. right. right. assumption.
    + intros [[_ Hpos] | [[Hd [Hhead | Hex]]
                         | [[[Hne Hpos] | Ha]
                           | [[[Hlt Hex] | Hb]
                             | [[Hhead | Hex] | [Hhead | Hex]]]]]].
      * lia.
      * exfalso. apply Hhead_done. auto.
      * right. left. auto.
      * left. auto.
      * right. right. left. assumption.
      * right. left. auto.
      * right. right. right. left. assumption.
      * lia.
      * right. right. right. right. left. assumption.
      * exfalso. apply Hhead_full. assumption.
      * right. right. right. right. right. assumption.
Qed.

Lemma to_uint32_add_idemp a b : to_uint32 (to_uint32 a + b) = to_uint32 (a + b).
Proof. unfold to_uint32. apply Zplus_mod_idemp_l. Qed.

Lemma to_uint32_range z : 0 <= to_uint32 z < 2 ^ 32.
Proof. unfold to_uint32. apply Z.mod_pos_bound. lia. Qed.

(** The counters of a substream that passed are the 32-bit sums of its
    trims. *)
Lemma check_substream_cumulative common fs : forall st st',
  check_substream common st fs = Some st' ->
  cumulative_num_samples_to_trim_at_end st'
  = (if fs is [] then cumulative_num_samples_to_trim_at_end st
     else to_uint32 (cumulative_num_samples_to_trim_at_end st
                     + total_trim_at_end fs))
  /\ cumulative_num_samples_to_trim_at_start st'
     = (if fs is [] then cumulative_num_samples_to_trim_at_start st
        else to_uint32 (cumulative_num_samples_to_trim_at_start st
                        + total_trim_at_start fs)).
Proof.
  induction fs as [|f r IH]; intros st st' Hchk; cbn [check_substream] in Hchk.
  - injection Hchk as <-. auto.
  - destruct (trim_frame common st f) as [st1|] eqn:Hf; [|discriminate].
    apply IH in Hchk as [He Hs]. rewrite He, Hs. clear He Hs.
    unfold trim_frame in Hf.
    repeat match type of Hf with
           | (if ?c then None else _) = Some _ =>
               destruct c; [discriminate|]
           end.
    injection Hf as <-.
    cbn [cumulative_num_samples_to_trim_at_end
           cumulative_num_samples_to_trim_at_start
           total_trim_at_end total_trim_at_start].
    fold (trim_at_end f) (trim_at_start f).
    destruct r as [|g r].
    + cbn [total_trim_at_end total_trim_at_start]. rewrite !Z.add_0_r. auto.
    + rewrite !to_uint32_add_idemp, !Z.add_assoc. auto.
Qed.

Lemma trim_compare_cases e s entries :
  (trim_compare e s entries = kOk
   /\ Forall (fun x => cumulative_num_samples_to_trim_at_end x.2 = e
                       /\ cumulative_num_samples_to_trim_at_start x.2 = s)
        entries)
  \/ (trim_compare e s entries = kInvalidArgument
      /\ Exists (fun x => (cumulative_num_samples_to_trim_at_end x.2,
                           cumulative_num_samples_to_trim_at_start x.2)
                          <> (e, s))
           entries).
Proof.
  induction entries as [|[id ts] r IH]; cbn [trim_compare].
  - left. split; [reflexivity | constructor].
  - unfold ValidateEqual.
    destruct (e =? cumulative_num_samples_to_trim_at_end ts) eqn:He.
    + apply Z.eqb_eq in He. cbn [is_ok negb].
      destruct (s =? cumulative_num_samples_to_trim_at_start ts) eqn:Hs.
      * apply Z.eqb_eq in Hs. cbn [is_ok negb].
        destruct IH as [[Hok Hall] | [Hbad Hex]].
        -- left. split; [assumption|]. constructor; [simpl; auto | assumption].
        -- right. split; [assumption|]. apply Exists_cons. right. assumption.
      * apply Z.eqb_neq in Hs. cbn [is_ok negb]. right. split; [reflexivity|].
        apply Exists_cons. left. simpl. congruence.
    + apply Z.eqb_neq in He. cbn [is_ok negb]. right. split; [reflexivity|].
      apply Exists_cons. left. simpl. congruence.
Qed.

Lemma trims_in_range_substream id frames :
  trims_in_range frames -> trims_in_range (frames_of_substream id frames).
Proof.
  unfold trims_in_range, frames_of_substream. rewrite !Forall_forall.
  intros Hall f Hin. apply list_elem_of_filter in Hin as [_ Hin]. auto.
Qed.

Lemma check_init_none_iff common fs :
  0 <= common < 2 ^ 32 -> trims_in_range fs ->
  check_substream common TrimState_init fs = None
  <-> substream_trim_violation common fs.
Proof.
  intros Hc Hr. rewrite check_substream_spec by (simpl; auto; lia).
  simpl. split; [|auto].
  intros [[_ H] | [[H _] | H]]; [lia | discriminate | assumption].
Qed.

(** C5 (as amended).  On frames whose trims fit 32 bits together,
    [ValidateAndGetCommonTrim] fails with [kInvalidArgument] exactly when, on
    some substream, a frame that trims samples at the end is followed by
    another frame, or a frame trims samples at the start after a frame that
    was not trimmed in full from the start, or the total trim of a frame
    exceeds the common frame size, or a frame that trims at the end has no
    sample left; or when two substreams differ in their cumulative trims.
    Otherwise it succeeds. *)
Theorem ValidateAndGetCommonTrim_status common frames :
  0 <= common < 2 ^ 32 ->
  trims_in_range frames ->
  let st := (ValidateAndGetCommonTrim common frames).1 in
  (st = kInvalidArgument
   <-> (exists id,
          substream_trim_violation common (frames_of_substream id frames))
       \/ substreams_disagree frames)
  /\ (st = kOk \/ st = kInvalidArgument).
Proof.
  intros Hc Hrange. unfold ValidateAndGetCommonTrim.
  destruct (trim_loop_spec common frames ∅)
    as [(m' & Hrun & Hchk & Hnone) | (Hfail & id & Hid)].
  - rewrite Hrun. cbn [is_ok negb]. cbv iota.
    assert (Hstate : forall id,
              check_substream common TrimState_init
                (frames_of_substream id frames) = Some (state_of m' id)).
    { intros id. specialize (Hchk id). unfold state_of in Hchk at 1.
      rewrite lookup_empty in Hchk. exact Hchk. }
    assert (Hno : ~ exists id,
              substream_trim_violation common (frames_of_substream id frames)).
    { intros [id Hv].
      apply check_init_none_iff in Hv;
        [|assumption|apply trims_in_range_substream; assumption].
      rewrite Hstate in Hv. discriminate. }
    assert (Hpresent : forall id ts,
              m' !! id = Some ts ->
              frames_of_substream id frames <> []
              /\ (cumulative_num_samples_to_trim_at_end ts,
                  cumulative_num_samples_to_trim_at_start ts)
                 = cumulative_trim (frames_of_substream id frames)).
    { intros id ts Hts.
      assert (Hne : frames_of_substream id frames <> []).
      { intros Hnil. destruct (Hnone id) as [_ Hn].
        rewrite Hn in Hts; [discriminate|]. split; [apply lookup_empty|assumption]. }
      split; [assumption|].
      pose proof (check_substream_cumulative _ _ _ _ (Hstate id)) as [He Hs].
      unfold state_of in He, Hs. rewrite Hts in He, Hs. simpl in He, Hs.
      unfold cumulative_trim.
      destruct (frames_of_substream id frames); [congruence|].
      rewrite He, Hs. reflexivity. }
    assert (Habsent : forall id,
              frames_of_substream id frames <> [] -> is_Some (m' !! id)).
    { intros id Hne. destruct (m' !! id) eqn:E; [eauto|].
      apply Hnone in E as [_ E]. contradiction. }
    destruct (map_to_list m') as [|[id1 first] entries] eqn:Hlist.
    + simpl. apply map_to_list_empty_iff in Hlist. subst m'.
      split; [|auto]. split; [discriminate|].
      intros [Hv | (ida & idb & Ha & _)]; [contradiction|].
      apply Habsent in Ha as [? Ha]. rewrite lookup_empty in Ha. discriminate.
    + cbn [fst].
      destruct (trim_compare_cases
                  (cumulative_num_samples_to_trim_at_end first)
                  (cumulative_num_samples_to_trim_at_start first)
                  ((id1, first) :: entries)) as [[Hok Hall] | [Hbad Hex]].
      * rewrite Hok. split; [|auto]. split; [discriminate|].
        intros [Hv | (ida & idb & Ha & Hb & Hdiff)]; [contradiction|].
        exfalso. apply Hdiff.
        apply Habsent in Ha as [tsa Ha]. apply Habsent in Hb as [tsb Hb].
        rewrite Forall_forall in Hall.
        assert (Hina : (ida, tsa) ∈ (id1, first) :: entries).
        { rewrite <- Hlist. apply elem_of_map_to_list. assumption. }
        assert (Hinb : (idb, tsb) ∈ (id1, first) :: entries).
        { rewrite <- Hlist. apply elem_of_map_to_list. assumption. }
        destruct (Hall _ Hina) as [Hea Hsa]. destruct (Hall _ Hinb) as [Heb Hsb].
        simpl in *.
        destruct (Hpresent _ _ Ha) as [_ <-].
        destruct (Hpresent _ _ Hb) as [_ <-]. congruence.
      * rewrite Hbad. split; [|auto]. split; [|reflexivity].
        intros _. right.
        apply Exists_exists in Hex as ([ida tsa] & Hin & Hdiff). simpl in Hdiff.
        assert (Hfirst : m' !! id1 = Some first).
        { apply elem_of_map_to_list. rewrite Hlist. left. }
        assert (Ha : m' !! ida = Some tsa).
        { apply elem_of_map_to_list. rewrite Hlist. assumption. }
        destruct (Hpresent _ _ Hfirst) as [Hne1 Hc1].
        destruct (Hpresent _ _ Ha) as [Hnea Hca].
        exists ida, id1. split; [assumption|]. split; [assumption|].
        rewrite <- Hc1, <- Hca. assumption.
  - destruct (trim_loop common frames ∅) as [st m]. simpl in Hfail. subst st.
    cbn [is_ok negb fst]. cbv iota. split; [|auto].
    split; [|reflexivity]. intros _. left. exists id.
    unfold state_of in Hid. rewrite lookup_empty in Hid.
    apply check_init_none_iff in Hid;
      [assumption|assumption|apply trims_in_range_substream; assumption].
Qed.

Ltac trims_in_range_tac :=
  unfold trims_in_range;
  repeat (apply Forall_cons; split;
          [unfold trim_at_start, trim_at_end; simpl; lia|]);
  constructor.

Lemma ValidateAndGetCommonTrim_status_witness :
  ((ValidateAndGetCommonTrim 8 disagreeing_frames).1 = kInvalidArgument
   <-> (exists id,
          substream_trim_violation 8
            (frames_of_substream id disagreeing_frames))
       \/ substreams_disagree disagreeing_frames)
  /\ ((ValidateAndGetCommonTrim 8 disagreeing_frames).1 = kOk
      \/ (ValidateAndGetCommonTrim 8 disagreeing_frames).1 = kInvalidArgument).
Proof.
  apply (ValidateAndGetCommonTrim_status 8 disagreeing_frames).
  - lia.
  - trims_in_range_tac.
Defined.

(** C5 (as stated) fails: no substream of [disagreeing_frames] breaks one of
    the four rules, and the function does not succeed: the cumulative trims
    of the two substreams differ. *)
Lemma ValidateAndGetCommonTrim_disagreement_counterexample :
  (forall id,
     ~ substream_trim_violation 8 (frames_of_substream id disagreeing_frames))
  /\ (ValidateAndGetCommonTrim 8 disagreeing_frames).1 = kInvalidArgument.
Proof.
  split; [|vm_compute; reflexivity].
  intros id Hv.
  apply check_init_none_iff in Hv;
    [|lia|apply trims_in_range_substream; trims_in_range_tac].
  unfold disagreeing_frames in Hv.
  rewrite !frames_of_substream_cons in Hv.
  unfold frames_of_substream in Hv. rewrite filter_nil in Hv.
  destruct (decide _); destruct (decide _); vm_compute in Hv; discriminate.
Qed.

(** *** [CollectAndValidateParamDefinitions] *)

Section ParamDefinitionFacts.

Variable neq : ParamDefinition -> ParamDefinition -> bool.

Lemma insert_and_check_status m p :
  (insert_and_check_equivalence neq m p).1 = kOk
  \/ (insert_and_check_equivalence neq m p).1 = kInvalidArgument.
Proof.
  unfold insert_and_check_equivalence.
  destruct (m !! parameter_id_ p); [destruct (neq _ _)|]; simpl; auto.
Qed.

Lemma insert_all_status l : forall m,
  (insert_all neq l m).1 = kOk \/ (insert_all neq l m).1 = kInvalidArgument.
Proof.
  induction l as [|p l IH]; intros m; cbn [insert_all]; [auto|].
  pose proof (insert_and_check_status m p) as Hs.
  destruct (insert_and_check_equivalence neq m p) as [st m1]. simpl in Hs.
  destruct Hs as [-> | ->]; simpl; auto.
Qed.

Lemma insert_all_app l1 l2 m :
  insert_all neq (l1 ++ l2) m
  = (let '(st, m1) := insert_all neq l1 m in
     if negb (is_ok st) then (st, m1) else insert_all neq l2 m1).
Proof.
  revert m. induction l1 as [|p l1 IH]; intros m; cbn [insert_all app].
  - reflexivity.
  - destruct (insert_and_check_equivalence neq m p) as [st m1]. simpl.
    destruct (is_ok st) eqn:Hok; simpl.
    + apply IH.
    + rewrite Hok. reflexivity.
Qed.

Lemma collect_audio_element_params_cons p r m :
  collect_audio_element_params neq (p :: r) m
  = if is_mix_gain p then (kInvalidArgument, m)
    else if is_collected p then
      let '(st, m1) :=
        insert_and_check_equivalence neq m (param_definition p) in
      if negb (is_ok st) then (st, m1)
      else collect_audio_element_params neq r m1
    else collect_audio_element_params neq r m.
Proof.
  cbn [collect_audio_element_params]. unfold is_mix_gain, is_collected.
  destruct (param_definition_type p); reflexivity.
Qed.

(** The loops are [insert_all] on the definitions they collect, unless a mix
    gain parameter stops them. *)
Lemma collect_params_no_mix_gain params : forall m,
  ~ Exists (fun p => is_mix_gain p = true) params ->
  collect_audio_element_params neq params m
  = insert_all neq (collected_from_params params) m.
Proof.
  unfold collected_from_params.
  induction params as [|p r IH]; intros m Hno; [reflexivity|].
  assert (Hp : is_mix_gain p = false).
  { destruct (is_mix_gain p) eqn:E; [|reflexivity].
    exfalso. apply Hno, Exists_cons. auto. }
  assert (Hr : ~ Exists (fun p => is_mix_gain p = true) r)
    by (intros H; apply Hno, Exists_cons; auto).
  rewrite collect_audio_element_params_cons, Hp, filter_cons.
  destruct (is_collected p) eqn:Hcol.
  - rewrite decide_True by reflexivity. cbn [fmap list_fmap insert_all].
    destruct (insert_and_check_equivalence neq m (param_definition p)) as [st m1].
    destruct (is_ok st); simpl; [apply IH; assumption | reflexivity].
  - rewrite decide_False by discriminate. apply IH. assumption.
Qed.

Lemma collect_params_mix_gain params : forall m,
  Exists (fun p => is_mix_gain p = true) params ->
  (collect_audio_element_params neq params m).1 = kInvalidArgument.
Proof.
  induction params as [|p r IH]; intros m Hex.
  - apply Exists_nil in Hex. contradiction.
  - rewrite collect_audio_element_params_cons.
    apply Exists_cons in Hex.
    destruct (is_mix_gain p) eqn:Hmix; [reflexivity|].
    destruct Hex as [Hex|Hex]; [discriminate|].
    destruct (is_collected p).
    + pose proof (insert_and_check_status m (param_definition p)) as Hs.
      destruct (insert_and_check_equivalence neq m (param_definition p))
        as [st m1]. simpl in Hs.
      destruct Hs as [-> | ->]; simpl; [apply IH; assumption | reflexivity].
    + apply IH. assumption.
Qed.

Lemma collect_audio_elements_no_mix_gain aes : forall m,
  ~ has_mix_gain_param aes ->
  collect_audio_elements neq aes m
  = insert_all neq (collected_from_audio_elements aes) m.
Proof.
  unfold has_mix_gain_param, collected_from_audio_elements.
  induction aes as [|[id ae] r IH]; intros m Hno; [reflexivity|].
  assert (Hp : ~ Exists (fun p => is_mix_gain p = true)
                   (audio_element_params_ (ae_obu ae)))
    by (intros H; apply Hno, Exists_cons; auto).
  assert (Hr : ~ Exists (fun e => Exists (fun p => is_mix_gain p = true)
                                    (audio_element_params_ (ae_obu e.2))) r)
    by (intros H; apply Hno, Exists_cons; auto).
  cbn [collect_audio_elements flat_map]. rewrite insert_all_app.
  rewrite collect_params_no_mix_gain by assumption. simpl.
  destruct (insert_all neq _ m) as [st m1].
  destruct (is_ok st); simpl; [apply IH; assumption | reflexivity].
Qed.

Lemma collect_audio_elements_mix_gain aes : forall m,
  has_mix_gain_param aes ->
  (collect_audio_elements neq aes m).1 = kInvalidArgument.
Proof.
  unfold has_mix_gain_param.
  induction aes as [|[id ae] r IH]; intros m Hex.
  - apply Exists_nil in Hex. contradiction.
  - cbn [collect_audio_elements].
    destruct (Exists_dec (fun p => is_mix_gain p = true)
                (audio_element_params_ (ae_obu ae))) as [Hin|Hnot].
    + pose proof (collect_params_mix_gain _ m Hin) as Hs.
      destruct (collect_audio_element_params neq _ m) as [st m1].
      simpl in Hs. subst st. reflexivity.
    + apply Exists_cons in Hex as [Hex|Hex]; [contradiction|].
      rewrite collect_params_no_mix_gain by assumption.
      pose proof (insert_all_status
                    (collected_from_params (audio_element_params_ (ae_obu ae)))
                    m) as Hs.
      destruct (insert_all neq _ m) as [st m1]. simpl in Hs.
      destruct Hs as [-> | ->]; simpl; [apply IH; assumption | reflexivity].
Qed.

Lemma collect_element_mix_gains_insert_all els : forall m,
  collect_element_mix_gains neq els m
  = insert_all neq (element_mix_gain <$> els) m.
Proof.
  induction els as [|e r IH]; intros m; [reflexivity|].
  cbn [collect_element_mix_gains fmap list_fmap insert_all].
  destruct (insert_and_check_equivalence neq m (element_mix_gain e)) as [st m1].
  destruct (is_ok st); simpl; [apply IH | reflexivity].
Qed.

Lemma collect_sub_mixes_insert_all sms : forall m,
  collect_sub_mixes neq sms m
  = insert_all neq (flat_map collected_from_sub_mix sms) m.
Proof.
  induction sms as [|sm r IH]; intros m; [reflexivity|].
  cbn [collect_sub_mixes flat_map]. unfold collected_from_sub_mix at 1.
  rewrite <- app_assoc, insert_all_app, collect_element_mix_gains_insert_all.
  destruct (insert_all neq (element_mix_gain <$> audio_elements sm) m)
    as [st m1].
  destruct (is_ok st); simpl; [|reflexivity].
  destruct (insert_and_check_equivalence neq m1 (output_mix_gain sm))
    as [st2 m2].
  destruct (is_ok st2); simpl; [apply IH | reflexivity].
Qed.

Lemma collect_mix_presentations_insert_all mps : forall m,
  collect_mix_presentations neq mps m
  = insert_all neq (collected_from_mix_presentations mps) m.
Proof.
  unfold collected_from_mix_presentations.
  induction mps as [|mp r IH]; intros m; [reflexivity|].
  cbn [collect_mix_presentations flat_map].
  rewrite insert_all_app, collect_sub_mixes_insert_all.
  destruct (insert_all neq _ m) as [st m1].
  destruct (is_ok st); simpl; [apply IH | reflexivity].
Qed.

Hypothesis neq_refl : forall p, neq p p = false.
Hypothesis neq_sym : forall p q, neq p q = false -> neq q p = false.
Hypothesis neq_trans :
  forall p q r, neq p q = false -> neq q r = false -> neq p r = false.

Lemma pairwise_equivalent_cons p l :
  pairwise_equivalent neq (p :: l)
  <-> (forall q, q ∈ l -> parameter_id_ p = parameter_id_ q -> neq p q = false)
      /\ pairwise_equivalent neq l.
Proof.
  unfold pairwise_equivalent. split.
  - intros Hall. split.
    + intros q Hq. apply Hall; [left | right; assumption].
    + intros a b Ha Hb. apply Hall; right; assumption.
  - intros [Hp Hl] a b Ha Hb Hid.
    apply elem_of_cons in Ha as [-> | Ha]; apply elem_of_cons in Hb as [-> | Hb].
    + apply neq_refl.
    + apply Hp; assumption.
    + apply neq_sym, Hp; [assumption | congruence].
    + apply Hl; assumption.
Qed.

(** Inserting a list succeeds when its definitions agree with what the map
    holds and with one another. *)
Lemma insert_all_ok_iff l : forall m,
  (insert_all neq l m).1 = kOk
  <-> (forall p s, p ∈ l -> m !! parameter_id_ p = Some s -> neq s p = false)
      /\ pairwise_equivalent neq l.
Proof.
  induction l as [|p l IH]; intros m.
  - cbn [insert_all fst]. split; [|reflexivity]. intros _. split.
    + intros p s Hp. apply elem_of_nil in Hp. contradiction.
    + intros a b Ha. apply elem_of_nil in Ha. contradiction.
  - cbn [insert_all]. unfold insert_and_check_equivalence.
    rewrite pairwise_equivalent_cons.
    destruct (m !! parameter_id_ p) as [s0|] eqn:Hlook.
    + destruct (neq s0 p) eqn:Hneq; cbn [is_ok negb fst].
      * split; [discriminate|]. intros [Hm _].
        rewrite (Hm p s0) in Hneq; [discriminate | left | assumption].
      * cbv iota. rewrite IH. split.
        -- intros [Hm Hl]. split; [|split; [|assumption]].
           ++ intros q s Hq Hs. apply elem_of_cons in Hq as [-> | Hq].
              ** congruence.
              ** eapply Hm; eassumption.
           ++ intros q Hq Hid. apply (neq_trans p s0 q).
              ** apply neq_sym. assumption.
              ** apply (Hm q s0 Hq). congruence.
        -- intros [Hm [_ Hl]]. split; [|assumption].
           intros q s Hq Hs. apply (Hm q s); [right; assumption | assumption].
    + cbn [is_ok negb]. cbv iota. rewrite IH. split.
      * intros [Hm Hl]. split; [|split; [|assumption]].
        -- intros q s Hq Hs. apply elem_of_cons in Hq as [-> | Hq].
           ++ congruence.
           ++ apply (Hm q s Hq).
              rewrite lookup_insert_ne; [assumption | congruence].
        -- intros q Hq Hid. apply (Hm q p Hq).
           rewrite <- Hid. apply lookup_insert_eq.
      * intros [Hm [Hp Hl]]. split; [|assumption].
        intros q s Hq Hs.
        destruct (decide (parameter_id_ p = parameter_id_ q)) as [Hid|Hne].
        -- rewrite <- Hid, lookup_insert_eq in Hs. injection Hs as <-.
           apply Hp; assumption.
        -- rewrite lookup_insert_ne in Hs by assumption.
           apply (Hm q s); [right; assumption | assumption].
Qed.

(** C8 (as amended).  For an [operator==] that is an equivalence,
    [CollectAndValidateParamDefinitions] succeeds if and only if no audio
    element carries a mix gain parameter and all collected definitions that
    share a [parameter_id] are pairwise equal; every failure is
    [kInvalidArgument]. *)
Theorem CollectAndValidateParamDefinitions_status aes mps :
  let st := (CollectAndValidateParamDefinitions neq aes mps ∅).1 in
  (st = kOk
   <-> ~ has_mix_gain_param aes
       /\ pairwise_equivalent neq (collected_definitions aes mps))
  /\ (st = kOk \/ st = kInvalidArgument).
Proof.
  unfold CollectAndValidateParamDefinitions.
  destruct (Exists_dec
              (fun e => Exists (fun p => is_mix_gain p = true)
                          (audio_element_params_ (ae_obu e.2))) aes)
    as [Hmix|Hno].
  - pose proof (collect_audio_elements_mix_gain aes ∅ Hmix) as Hs.
    destruct (collect_audio_elements neq aes ∅) as [st m]. simpl in Hs.
    subst st. cbn [is_ok negb fst]. cbv iota. split; [|auto].
    split; [discriminate|]. intros [Hn _]. contradiction.
  - rewrite collect_audio_elements_no_mix_gain by assumption.
    pose proof (insert_all_app (collected_from_audio_elements aes)
                  (collected_from_mix_presentations mps) ∅) as Happ.
    fold (collected_definitions aes mps) in Happ.
    pose proof (insert_all_ok_iff (collected_definitions aes mps) ∅) as Hiff.
    pose proof (insert_all_status (collected_definitions aes mps) ∅) as Hst.
    rewrite Happ in Hiff, Hst.
    destruct (insert_all neq (collected_from_audio_elements aes) ∅) as [st m].
    rewrite collect_mix_presentations_insert_all.
    destruct (is_ok st) eqn:Hok; cbn [negb] in *; cbv iota in *.
    + split; [|assumption]. rewrite Hiff. split.
      * intros [_ Hp]. auto.
      * intros [_ Hp]. split; [|assumption].
        intros p s _ Hs. rewrite lookup_empty in Hs. discriminate.
    + split; [|assumption]. rewrite Hiff. split.
      * intros [_ Hp]. auto.
      * intros [_ Hp]. split; [|assumption].
        intros p s _ Hs. rewrite lookup_empty in Hs. discriminate.
Qed.

End ParamDefinitionFacts.

Lemma CollectAndValidateParamDefinitions_status_witness :
  ((CollectAndValidateParamDefinitions structural_neq mix_gain_audio_elements
      [] ∅).1 = kOk
   <-> ~ has_mix_gain_param mix_gain_audio_elements
       /\ pairwise_equivalent structural_neq
            (collected_definitions mix_gain_audio_elements []))
  /\ ((CollectAndValidateParamDefinitions structural_neq
         mix_gain_audio_elements [] ∅).1 = kOk
      \/ (CollectAndValidateParamDefinitions structural_neq
            mix_gain_audio_elements [] ∅).1 = kInvalidArgument).
Proof.
  apply (CollectAndValidateParamDefinitions_status structural_neq).
  - intros p. unfold structural_neq. rewrite bool_decide_eq_true_2; reflexivity.
  - intros p q. unfold structural_neq.
    rewrite !negb_false_iff, !bool_decide_eq_true. congruence.
  - intros p q r. unfold structural_neq.
    rewrite !negb_false_iff, !bool_decide_eq_true. congruence.
Defined.

(** C8 (as stated) fails: the function collects nothing from an audio element
    whose only parameter is a mix gain, so all collected definitions are
    pairwise equal, and yet it fails. *)
Lemma CollectAndValidateParamDefinitions_mix_gain_counterexample :
  pairwise_equivalent structural_neq
    (collected_definitions mix_gain_audio_elements [])
  /\ (CollectAndValidateParamDefinitions structural_neq
        mix_gain_audio_elements [] ∅).1 = kInvalidArgument.
Proof.
  split; [|vm_compute; reflexivity].
  intros p q Hp. vm_compute in Hp. apply elem_of_nil in Hp. contradiction.
Qed.

(** *** [GetCommonSamplesPerFrame] *)

(** The loop after the first entry: it succeeds when every entry has the
    common number of samples, and leaves that number alone. *)
Lemma GetCommonSamplesPerFrame_loop_spec entries : forall common,
  let r := GetCommonSamplesPerFrame_loop false common entries in
  (r.1 = kOk
   <-> Forall (fun e => GetNumSamplesPerFrame e.2 = common) entries)
  /\ (r.1 = kOk \/ r.1 = kUnknown)
  /\ r.2 = common.
Proof.
  induction entries as [|[id c] rest IH]; intros common; cbn [GetCommonSamplesPerFrame_loop].
  - simpl. split; [split; [constructor | reflexivity]|auto].
  - destruct (common =? GetNumSamplesPerFrame c) eqn:E; cbn [negb].
    + apply Z.eqb_eq in E. destruct (IH common) as (Hiff & Hst & Hv).
      split; [|auto]. rewrite Hiff. split.
      * intros H. constructor; [simpl; congruence | assumption].
      * intros H. inversion H; assumption.
    + apply Z.eqb_neq in E. simpl. split; [|auto]. split; [discriminate|].
      intros H. inversion H; subst. simpl in *. congruence.
Qed.

(** X11.  [GetCommonSamplesPerFrame] succeeds exactly when all Codec Config
    OBUs have the same number of samples per frame, and then returns that
    number; otherwise it fails, with [kUnknown] and no other code.  On an
    empty map it succeeds and leaves [common_samples_per_frame] as the caller
    passed it. *)
Theorem GetCommonSamplesPerFrame_agreement entries common_samples_per_frame :
  let r := GetCommonSamplesPerFrame entries common_samples_per_frame in
  (r.1 = kOk
   <-> forall e1 e2, e1 ∈ entries -> e2 ∈ entries ->
         GetNumSamplesPerFrame e1.2 = GetNumSamplesPerFrame e2.2)
  /\ (r.1 = kOk \/ r.1 = kUnknown)
  /\ (r.1 = kOk -> forall e, e ∈ entries -> r.2 = GetNumSamplesPerFrame e.2)
  /\ (entries = [] -> r = (kOk, common_samples_per_frame)).
Proof.
  intros r. subst r. unfold GetCommonSamplesPerFrame.
  destruct entries as [|[id c] rest]; cbn [GetCommonSamplesPerFrame_loop].
  - split; [|split; [auto|split; [|reflexivity]]].
    + split; [|reflexivity]. intros _ e1 e2 H. apply elem_of_nil in H. contradiction.
    + intros _ e H. apply elem_of_nil in H. contradiction.
  - destruct (GetCommonSamplesPerFrame_loop_spec rest (GetNumSamplesPerFrame c))
      as (Hiff & Hst & Hv).
    cbv zeta in Hiff, Hst, Hv.
    split; [|split; [assumption|split; [|discriminate]]].
    + rewrite Hiff, Forall_forall. split.
      * intros Hall e1 e2 H1 H2.
        assert (forall e, e ∈ (id, c) :: rest ->
                  GetNumSamplesPerFrame e.2 = GetNumSamplesPerFrame c) as Hc.
        { intros e He. apply elem_of_cons in He as [-> | He]; [reflexivity|].
          apply Hall. assumption. }
        rewrite (Hc e1 H1), (Hc e2 H2). reflexivity.
      * intros Hall e He. apply (Hall e (id, c)); [right; assumption | left].
    + intros Hok e He. rewrite Hv. apply Hiff in Hok.
      rewrite Forall_forall in Hok.
      apply elem_of_cons in He as [-> | He]; [reflexivity|].
      symmetry. apply Hok. assumption.
Qed.

(** *** The common trims [ValidateAndGetCommonTrim] returns *)

Lemma total_trim_at_end_nonneg fs :
  trims_in_range fs -> 0 <= total_trim_at_end fs.
Proof.
  induction 1 as [|f r Hf Hr IH]; cbn [total_trim_at_end]; lia.
Qed.

(** On a substream without violation the trim at the end is that of the
    last frame, and it leaves at least one sample. *)
Lemma total_trim_at_end_bound common fs :
  0 <= common ->
  trims_in_range fs ->
  ~ substream_trim_violation common fs ->
  0 <= total_trim_at_end fs <= Z.max 0 (common - 1).
Proof.
  intros Hc Hr Hno. induction Hr as [|f r Hf Hr IH]; cbn [total_trim_at_end].
  - lia.
  - assert (Hno' : ~ substream_trim_violation common r).
    { intros [H|[H|[H|H]]]; apply Hno.
      - left. apply end_trim_followed_cons. auto.
      - right. left. apply start_trim_after_prefix_cons. auto.
      - right. right. left. unfold over_trimmed. apply Exists_cons. auto.
      - right. right. right. unfold fully_trimmed_from_end.
        apply Exists_cons. auto. }
    specialize (IH Hno').
    assert (Hover : trim_at_start f + trim_at_end f <= common).
    { destruct (Z_le_dec (trim_at_start f + trim_at_end f) common); [assumption|].
      exfalso. apply Hno. right. right. left. unfold over_trimmed.
      apply Exists_cons. left. lia. }
    assert (Hfull : 0 < trim_at_end f ->
                    trim_at_start f + trim_at_end f <> common).
    { intros Hpos Heq. apply Hno. right. right. right.
      unfold fully_trimmed_from_end. apply Exists_cons. left. auto. }
    destruct (Z.eq_dec (trim_at_end f) 0) as [Hz|Hnz].
    + lia.
    + assert (r = []) as ->.
      { destruct r as [|g r']; [reflexivity|]. exfalso. apply Hno. left.
        apply end_trim_followed_cons. left. split; [discriminate|lia]. }
      cbn [total_trim_at_end]. specialize (Hfull ltac:(lia)). lia.
Qed.

(** X12.  When no substream breaks a trimming rule and the substreams agree,
    [ValidateAndGetCommonTrim] succeeds and returns the cumulative trims at
    the end and at the start that every substream with frames has; without
    frames both are zero.  The common trim at the end leaves at least one
    sample of a frame: it is at most the frame size less one. *)
Theorem ValidateAndGetCommonTrim_common_trims common frames :
  0 <= common < 2 ^ 32 ->
  trims_in_range frames ->
  (forall id,
     ~ substream_trim_violation common (frames_of_substream id frames)) ->
  ~ substreams_disagree frames ->
  exists e s,
    ValidateAndGetCommonTrim common frames = (kOk, Some (e, s))
    /\ (forall id,
          frames_of_substream id frames <> [] ->
          cumulative_trim (frames_of_substream id frames) = (e, s))
    /\ (frames = [] -> e = 0 /\ s = 0)
    /\ 0 <= e <= Z.max 0 (common - 1).
Proof.
  intros Hc Hrange Hno Hagree. unfold ValidateAndGetCommonTrim.
  destruct (trim_loop_spec common frames ∅)
    as [(m' & Hrun & Hchk & Hnone) | (Hfail & id & Hid)].
  2:{ exfalso. unfold state_of in Hid. rewrite lookup_empty in Hid.
      apply check_init_none_iff in Hid;
        [|assumption|apply trims_in_range_substream; assumption].
      exact (Hno id Hid). }
  rewrite Hrun. cbn [is_ok negb]. cbv iota.
  assert (Hstate : forall id,
            check_substream common TrimState_init
              (frames_of_substream id frames) = Some (state_of m' id)).
  { intros id. specialize (Hchk id). unfold state_of in Hchk at 1.
    rewrite lookup_empty in Hchk. exact Hchk. }
  assert (Hpresent : forall id ts,
            m' !! id = Some ts ->
            frames_of_substream id frames <> []
            /\ (cumulative_num_samples_to_trim_at_end ts,
                cumulative_num_samples_to_trim_at_start ts)
               = cumulative_trim (frames_of_substream id frames)).
  { intros id ts Hts.
    assert (Hne : frames_of_substream id frames <> []).
    { intros Hnil. destruct (Hnone id) as [_ Hn].
      rewrite Hn in Hts; [discriminate|]. split; [apply lookup_empty|assumption]. }
    split; [assumption|].
    pose proof (check_substream_cumulative _ _ _ _ (Hstate id)) as [He Hs].
    unfold state_of in He, Hs. rewrite Hts in He, Hs. simpl in He, Hs.
    unfold cumulative_trim.
    destruct (frames_of_substream id frames); [congruence|].
    rewrite He, Hs. reflexivity. }
  assert (Habsent : forall id,
            frames_of_substream id frames <> [] -> is_Some (m' !! id)).
  { intros id Hne. destruct (m' !! id) eqn:E; [eauto|].
    apply Hnone in E as [_ E]. contradiction. }
  destruct (map_to_list m') as [|[id1 first] entries] eqn:Hlist.
  - apply map_to_list_empty_iff in Hlist. subst m'.
    exists 0, 0. split; [reflexivity|]. split; [|split; [auto|lia]].
    intros id Hne. apply Habsent in Hne as [? Hne].
    rewrite lookup_empty in Hne. discriminate.
  - exists (cumulative_num_samples_to_trim_at_end first),
           (cumulative_num_samples_to_trim_at_start first).
    assert (Hfirst : m' !! id1 = Some first).
    { apply elem_of_map_to_list. rewrite Hlist. left. }
    destruct (Hpresent _ _ Hfirst) as [Hne1 Hc1].
    assert (Hall : forall id,
              frames_of_substream id frames <> [] ->
              cumulative_trim (frames_of_substream id frames)
              = (cumulative_num_samples_to_trim_at_end first,
                 cumulative_num_samples_to_trim_at_start first)).
    { intros id Hne. rewrite Hc1.
      destruct (decide (cumulative_trim (frames_of_substream id frames)
                        = cumulative_trim (frames_of_substream id1 frames)))
        as [Heq|Hdiff]; [assumption|].
      exfalso. apply Hagree. exists id, id1. auto. }
    split; [|split; [assumption|split]].
    + f_equal.
      destruct (trim_compare_cases
                  (cumulative_num_samples_to_trim_at_end first)
                  (cumulative_num_samples_to_trim_at_start first)
                  ((id1, first) :: entries)) as [[Hok _] | [_ Hex]];
        [assumption|].
      exfalso.
      apply Exists_exists in Hex as ([ida tsa] & Hin & Hdiff). simpl in Hdiff.
      assert (Ha : m' !! ida = Some tsa).
      { apply elem_of_map_to_list. rewrite Hlist. assumption. }
      destruct (Hpresent _ _ Ha) as [Hnea Hca].
      apply Hdiff. rewrite Hca. apply Hall. assumption.
    + intros ->. exfalso. apply Hne1. reflexivity.
    + pose proof (total_trim_at_end_bound common
                    (frames_of_substream id1 frames) ltac:(lia)
                    (trims_in_range_substream id1 frames Hrange) (Hno id1))
        as Hb.
      unfold cumulative_trim in Hc1. injection Hc1 as He _.
      rewrite He. rewrite to_uint32_small by lia. assumption.
Qed.

(** One substream of three frames, eight samples each: the first trimmed in
    full from the start, the last by three samples at the end. *)
Lemma ValidateAndGetCommonTrim_common_trims_witness :
  ValidateAndGetCommonTrim 8 one_substream_frames = (kOk, Some (3, 8)).
Proof.
  destruct (ValidateAndGetCommonTrim_common_trims 8 one_substream_frames)
    as (e & s & Hrun & Hall & _).
  - lia.
  - trims_in_range_tac.
  - intros id Hv.
    apply check_init_none_iff in Hv;
      [|lia|apply trims_in_range_substream; trims_in_range_tac].
    unfold one_substream_frames in Hv.
    rewrite !frames_of_substream_cons in Hv.
    unfold frames_of_substream in Hv. rewrite filter_nil in Hv.
    destruct (decide _); vm_compute in Hv; discriminate.
  - intros (id1 & id2 & H1 & H2 & Hd). apply Hd.
    unfold one_substream_frames in *.
    rewrite !frames_of_substream_cons in *.
    unfold frames_of_substream in *. rewrite filter_nil in *.
    destruct (decide (_ = id1)); [|contradiction].
    destruct (decide (_ = id2)); [|contradiction].
    reflexivity.
  - rewrite Hrun. specialize (Hall 7 ltac:(discriminate)).
    vm_compute in Hall. congruence.
Defined.

(** *** The map [CollectAndValidateParamDefinitions] builds *)

Section CollectedMap.
Variable neq : ParamDefinition -> ParamDefinition -> bool.

(** A successful run keeps what the map held and adds, under every other
    id, the first definition of the list with that id. *)
Lemma insert_all_lookup l : forall m m',
  insert_all neq l m = (kOk, m') ->
  forall id,
    m' !! id = match m !! id with
               | Some q => Some q
               | None => first_definition id l
               end.
Proof.
  induction l as [|p l IH]; intros m m' Hrun id; cbn [insert_all] in Hrun.
  - injection Hrun as <-. destruct (m !! id); reflexivity.
  - unfold insert_and_check_equivalence in Hrun.
    unfold first_definition. rewrite filter_cons.
    destruct (m !! parameter_id_ p) as [s|] eqn:Hlook.
    + destruct (neq s p); cbn [is_ok negb] in Hrun; [discriminate|].
      rewrite (IH _ _ Hrun id).
      destruct (m !! id) as [q|] eqn:Hid; [reflexivity|].
      destruct (decide (parameter_id_ p = id)) as [Heq|Hne]; [congruence|].
      reflexivity.
    + cbn [is_ok negb] in Hrun. rewrite (IH _ _ Hrun id).
      destruct (decide (parameter_id_ p = id)) as [Heq|Hne].
      * subst id. rewrite lookup_insert_eq, Hlook. reflexivity.
      * rewrite lookup_insert_ne by assumption.
        destruct (m !! id); reflexivity.
Qed.

(** Without a mix gain in the audio elements the function inserts the
    collected definitions in turn. *)
Lemma collect_is_insert_all aes mps m :
  ~ has_mix_gain_param aes ->
  CollectAndValidateParamDefinitions neq aes mps m
  = insert_all neq (collected_definitions aes mps) m.
Proof.
  intros Hno. unfold CollectAndValidateParamDefinitions, collected_definitions.
  rewrite collect_audio_elements_no_mix_gain by assumption.
  rewrite insert_all_app.
  destruct (insert_all neq (collected_from_audio_elements aes) m) as [st m1].
  rewrite collect_mix_presentations_insert_all. reflexivity.
Qed.

Hypothesis neq_refl : forall p, neq p p = false.
Hypothesis neq_sym : forall p q, neq p q = false -> neq q p = false.
Hypothesis neq_trans :
  forall p q r, neq p q = false -> neq q r = false -> neq p r = false.

(** X13.  When no audio element carries a mix gain and the collected
    definitions agree with each other and with the map passed in,
    [CollectAndValidateParamDefinitions] succeeds, and the map it returns is
    known: an id the map held keeps its definition (the function never
    overwrites), any other id gets the first collected definition with that
    id, and an id that is not collected stays absent. *)
Theorem CollectAndValidateParamDefinitions_collects aes mps param_definitions :
  ~ has_mix_gain_param aes ->
  pairwise_equivalent neq (collected_definitions aes mps) ->
  (forall p s, p ∈ collected_definitions aes mps ->
     param_definitions !! parameter_id_ p = Some s -> neq s p = false) ->
  exists m',
    CollectAndValidateParamDefinitions neq aes mps param_definitions = (kOk, m')
    /\ forall id,
         m' !! id = match param_definitions !! id with
                    | Some stored => Some stored
                    | None => first_definition id (collected_definitions aes mps)
                    end.
Proof.
  intros Hno Hpw Hm.
  rewrite collect_is_insert_all by assumption.
  pose proof (proj2 (insert_all_ok_iff neq neq_refl neq_sym neq_trans
                       (collected_definitions aes mps) param_definitions)
                (conj Hm Hpw)) as Hok.
  destruct (insert_all neq (collected_definitions aes mps) param_definitions)
    as [st m'] eqn:Hrun.
  simpl in Hok. subst st. exists m'. split; [reflexivity|].
  apply (insert_all_lookup _ _ _ Hrun).
Qed.

End CollectedMap.

(** An audio element with a demixing parameter and a mix presentation that
    names one mix gain definition twice and another once. *)
Lemma CollectAndValidateParamDefinitions_collects_witness :
  exists m',
    CollectAndValidateParamDefinitions structural_neq demixing_audio_elements
      shared_mix_gain_presentations ∅ = (kOk, m')
    /\ forall id,
         m' !! id
         = match (∅ : gmap Z ParamDefinition) !! id with
           | Some stored => Some stored
           | None =>
               first_definition id
                 (collected_definitions demixing_audio_elements
                    shared_mix_gain_presentations)
           end.
Proof.
  apply (CollectAndValidateParamDefinitions_collects structural_neq).
  - intros p. unfold structural_neq. rewrite bool_decide_eq_true_2; reflexivity.
  - intros p q. unfold structural_neq.
    rewrite !negb_false_iff, !bool_decide_eq_true. congruence.
  - intros p q r. unfold structural_neq.
    rewrite !negb_false_iff, !bool_decide_eq_true. congruence.
  - intros H. apply Exists_cons in H as [H|H].
    + apply Exists_cons in H as [H|H]; [discriminate|].
      apply Exists_nil in H. contradiction.
    + apply Exists_nil in H. contradiction.
  - intros p q Hp Hq Hid.
    change (collected_definitions demixing_audio_elements
              shared_mix_gain_presentations)
      with [demixing_definition; mix_gain_definition;
            other_mix_gain_definition; mix_gain_definition] in Hp, Hq.
    repeat (apply elem_of_cons in Hp as [-> | Hp]);
      try (apply elem_of_nil in Hp; contradiction);
      repeat (apply elem_of_cons in Hq as [-> | Hq]);
      try (apply elem_of_nil in Hq; contradiction);
      try discriminate Hid;
      unfold structural_neq; rewrite bool_decide_eq_true_2; reflexivity.
  - intros p s _ Hs. rewrite lookup_empty in Hs. discriminate.
Defined.

(** *** [GetCommonSampleRateAndBitDepth] *)

Lemma elements_one (s : gset Z) x : elements s = [x] <-> s = {[x]}.
Proof.
  split.
  - intros He. apply set_eq. intros y.
    rewrite <- elem_of_elements, He, list_elem_of_singleton, elem_of_singleton.
    reflexivity.
  - intros ->. apply elements_singleton.
Qed.

(** X14.  [GetCommonSampleRateAndBitDepth] fails with [kInvalidArgument]
    exactly when one of the two sets is empty.  Otherwise the common sample
    rate is the one rate given, or 48000 when several are given; the common
    bit depth is the one depth given, or 16; and resampling is required
    unless both sets have one element.  [requires_resampling] is cleared on
    failure too, the other two outputs are then as they were. *)
Theorem GetCommonSampleRateAndBitDepth_outcome sample_rates bit_depths out :
  let r := GetCommonSampleRateAndBitDepth sample_rates bit_depths out in
  (sample_rates = ∅ \/ bit_depths = ∅ ->
   r = (kInvalidArgument,
        mkCommonFormat (common_sample_rate out) (common_bit_depth out) false))
  /\ (sample_rates <> ∅ -> bit_depths <> ∅ ->
      r.1 = kOk
      /\ (forall rate, sample_rates = {[rate]} -> common_sample_rate r.2 = rate)
      /\ ((forall rate, sample_rates <> {[rate]}) ->
          common_sample_rate r.2 = 48000)
      /\ (forall depth, bit_depths = {[depth]} -> common_bit_depth r.2 = depth)
      /\ ((forall depth, bit_depths <> {[depth]}) -> common_bit_depth r.2 = 16)
      /\ (requires_resampling r.2 = false
          <-> exists rate depth,
                sample_rates = {[rate]} /\ bit_depths = {[depth]})).
Proof.
  intros r. subst r. unfold GetCommonSampleRateAndBitDepth. split.
  - intros [-> | ->].
    + rewrite bool_decide_eq_true_2 by reflexivity. reflexivity.
    + rewrite (bool_decide_eq_true_2 (∅ = ∅)) by reflexivity.
      rewrite orb_true_r. reflexivity.
  - intros Hr Hd.
    rewrite !bool_decide_eq_false_2 by assumption. cbn [orb].
    destruct (elements sample_rates) as [|rate [|rate' rs]] eqn:Er;
      destruct (elements bit_depths) as [|depth [|depth' ds]] eqn:Ed;
      cbn [fst snd common_sample_rate common_bit_depth requires_resampling];
      try (apply elements_empty_inv, leibniz_equiv in Er; contradiction);
      try (apply elements_empty_inv, leibniz_equiv in Ed; contradiction).
    all: try apply elements_one in Er; try apply elements_one in Ed.
    all: split; [reflexivity|].
    all: assert (Hr2 : forall x, sample_rates = {[x]} -> elements sample_rates = [x])
           by (intros x Hx; apply elements_one; exact Hx).
    all: assert (Hd2 : forall x, bit_depths = {[x]} -> elements bit_depths = [x])
           by (intros x Hx; apply elements_one; exact Hx).
    + subst. repeat split.
      * intros x Hx. apply Hr2 in Hx. rewrite elements_singleton in Hx. congruence.
      * intros Hx. exfalso. exact (Hx rate eq_refl).
      * intros x Hx. apply Hd2 in Hx. rewrite elements_singleton in Hx. congruence.
      * intros Hx. exfalso. exact (Hx depth eq_refl).
      * eauto.
    + subst. repeat split.
      * intros x Hx. apply Hr2 in Hx. rewrite elements_singleton in Hx. congruence.
      * intros Hx. exfalso. exact (Hx rate eq_refl).
      * intros x Hx. apply Hd2 in Hx. rewrite Ed in Hx. discriminate.
      * discriminate.
      * intros (x & y & _ & Hy). apply Hd2 in Hy. rewrite Ed in Hy. discriminate.
    + subst. repeat split.
      * intros x Hx. apply Hr2 in Hx. rewrite Er in Hx. discriminate.
      * intros x Hx. apply Hd2 in Hx. rewrite elements_singleton in Hx. congruence.
      * intros Hx. exfalso. exact (Hx depth eq_refl).
      * discriminate.
      * intros (x & y & Hx & _). apply Hr2 in Hx. rewrite Er in Hx. discriminate.
    + repeat split.
      * intros x Hx. apply Hr2 in Hx. rewrite Er in Hx. discriminate.
      * intros x Hx. apply Hd2 in Hx. rewrite Ed in Hx. discriminate.
      * discriminate.
      * intros (x & y & Hx & _). apply Hr2 in Hx. rewrite Er in Hx. discriminate.
Qed.

End CliUtilFacts.

(** ** Arranging the samples of a frame for rendering *)

Module AudioElementRendererFacts.
Import AudioElementRenderer.

(** Once the number of ticks is known, the loop compares every channel with
    it. *)
Lemma num_raw_time_ticks_loop_known lf labels raw :
  0 <= raw < 2 ^ 31 ->
  let has_raw label :=
    label <> ""%string ->
    exists samples,
      label_to_samples lf !! label = Some samples
      /\ Z.of_nat (length samples) = raw in
  (Forall has_raw labels -> num_raw_time_ticks_loop lf labels raw = (kOk, raw))
  /\ (~ Forall has_raw labels ->
      (num_raw_time_ticks_loop lf labels raw).1 = kInvalidArgument).
Proof.
  intros Hraw has_raw. induction labels as [|label rest IH];
    cbn [num_raw_time_ticks_loop].
  - split; [reflexivity|]. intros H. exfalso. apply H. constructor.
  - destruct IH as [IHok IHbad].
    destruct (decide (label = ""%string)) as [Hempty|Hne].
    + split.
      * intros H. apply IHok. inversion H; assumption.
      * intros H. apply IHbad. intros Hr. apply H. constructor; [|assumption].
        intros Hc. contradiction.
    + destruct (label_to_samples lf !! label) as [samples|] eqn:Hlook.
      * replace (raw =? kUnknownNumTimeTicks) with false
          by (symmetry; apply Z.eqb_neq; unfold kUnknownNumTimeTicks; lia).
        rewrite ReadBitBufferFacts.to_uint64_small by lia.
        destruct (raw =? Z.of_nat (length samples)) eqn:E; cbn [negb].
        -- apply Z.eqb_eq in E. split.
           ++ intros H. apply IHok. inversion H; assumption.
           ++ intros H. apply IHbad. intros Hr. apply H.
              constructor; [|assumption]. intros _. eauto.
        -- apply Z.eqb_neq in E. split; [|reflexivity].
           intros H. inversion H as [|? ? Hl _]; subst.
           destruct (Hl Hne) as (s & Hs & Hlen). congruence.
      * split; [|reflexivity].
        intros H. inversion H as [|? ? Hl _]; subst.
        destruct (Hl Hne) as (s & Hs & _). congruence.
Qed.

(** From the start the loop finds no channel at all, the common number of
    ticks, or a reason to fail. *)
Lemma num_raw_time_ticks_loop_unknown lf labels :
  frame_in_range lf ->
  (Forall (fun label => label = ""%string) labels
   /\ num_raw_time_ticks_loop lf labels kUnknownNumTimeTicks
      = (kOk, kUnknownNumTimeTicks))
  \/ (exists raw,
        common_num_ticks lf labels raw
        /\ num_raw_time_ticks_loop lf labels kUnknownNumTimeTicks = (kOk, raw))
  \/ ((num_raw_time_ticks_loop lf labels kUnknownNumTimeTicks).1
      = kInvalidArgument
      /\ forall raw, ~ common_num_ticks lf labels raw).
Proof.
  intros (Hs & He & Hlen). induction labels as [|label rest IH];
    cbn [num_raw_time_ticks_loop].
  - left. split; [constructor | reflexivity].
  - destruct (decide (label = ""%string)) as [Hempty|Hne].
    + destruct IH as [[Hall Hrun] | [(raw & Hc & Hrun) | [Hbad Hno]]].
      * left. split; [constructor; assumption | assumption].
      * right. left. exists raw. split; [|assumption].
        destruct Hc as [Hex Hall]. split.
        -- apply Exists_cons. auto.
        -- constructor; [intros; contradiction | assumption].
      * right. right. split; [assumption|].
        intros raw [Hex Hall]. apply (Hno raw). split.
        -- apply Exists_cons in Hex as [Hex|Hex]; [contradiction | assumption].
        -- inversion Hall; assumption.
    + clear IH.
      destruct (label_to_samples lf !! label) as [samples|] eqn:Hlook.
      * change (kUnknownNumTimeTicks =? kUnknownNumTimeTicks) with true.
        cbv iota.
        pose proof (Hlen label samples Hlook) as Hl. simpl in Hl.
        rewrite ReadBitBufferFacts.to_int32_small by lia.
        destruct (num_raw_time_ticks_loop_known lf rest
                    (Z.of_nat (length samples)) ltac:(lia)) as [Hok Hbad].
        match type of Hok with Forall ?P _ -> _ =>
          destruct (Forall_Exists_dec P (fun l => not (P l))) with (l := rest)
            as [Hall|Hex] end.
        { intros l. destruct (decide (l = ""%string)) as [->|Hl0].
          - left. intros Hc. contradiction.
          - destruct (label_to_samples lf !! l) as [s|] eqn:Hls.
            + destruct (decide (Z.of_nat (length s) = Z.of_nat (length samples)))
                as [Heq|Hneq].
              * left. intros _. eauto.
              * right. intros Hc. destruct (Hc Hl0) as (s' & Hs' & Hl').
                congruence.
            + right. intros Hc. destruct (Hc Hl0) as (s' & Hs' & _). congruence. }
        -- right. left. exists (Z.of_nat (length samples)).
           split; [|apply Hok; assumption]. split.
           ++ apply Exists_cons. auto.
           ++ constructor; [intros _; eauto | assumption].
        -- right. right. split.
           ++ apply Hbad. intros Hall.
              rewrite Forall_forall in Hall. apply Exists_exists in Hex.
              destruct Hex as (l & Hin & Hnot). exact (Hnot (Hall l Hin)).
           ++ intros raw [_ Hall]. inversion Hall as [|? ? Hl1 Hrest]; subst.
              destruct (Hl1 Hne) as (s & Hs' & Hraw).
              assert (s = samples) by congruence. subst s.
              rewrite Forall_forall in Hrest. apply Exists_exists in Hex.
              destruct Hex as (l & Hin & Hnot). apply Hnot.
              rewrite Hraw. exact (Hrest l Hin).
      * right. right. split; [reflexivity|].
        intros raw [_ Hall]. inversion Hall as [|? ? Hl1 _]; subst.
        destruct (Hl1 Hne) as (s & Hs' & _). congruence.
Qed.

Lemma common_num_ticks_unique lf labels raw raw' :
  common_num_ticks lf labels raw -> common_num_ticks lf labels raw' ->
  raw = raw'.
Proof.
  intros [Hex Hall] [_ Hall'].
  apply Exists_exists in Hex as (l & Hin & Hne).
  rewrite Forall_forall in Hall, Hall'.
  destruct (Hall l Hin Hne) as (s & Hs & <-).
  destruct (Hall' l Hin Hne) as (s' & Hs' & <-). congruence.
Qed.

Lemma replicate_as_fmap_seq {A} n (x : A) :
  replicate n x = (fun _ => x) <$> seq 0 n.
Proof.
  apply list_eq. intros i. rewrite list_lookup_fmap.
  destruct (decide (i < n)%nat).
  - rewrite lookup_replicate_2, lookup_seq_lt by lia. reflexivity.
  - rewrite !lookup_ge_None_2; [reflexivity | rewrite length_seq; lia
                               | rewrite length_replicate; lia].
Qed.

(** The loop over the ticks writes one channel of every row. *)
Lemma foldl_set_sample (R : nat -> list Z) (f : nat -> Z) c n : forall m,
  (m <= n)%nat ->
  foldl (fun samples time => set_sample samples time c (f time))
    (R <$> seq 0 n) (seq 0 m)
  = (fun t => if decide (t < m)%nat then <[c := f t]> (R t) else R t)
    <$> seq 0 n.
Proof.
  induction m as [|m IH]; intros Hm.
  - simpl. apply list_fmap_ext. intros i t _.
    destruct (decide (t < 0)%nat); [lia | reflexivity].
  - rewrite seq_S, foldl_app. cbn [foldl]. change (0 + m)%nat with m.
    rewrite IH by lia.
    unfold set_sample. apply list_eq. intros i.
    destruct (decide (i = m)) as [->|Hne].
    + rewrite list_lookup_alter_eq, !list_lookup_fmap, !lookup_seq_lt by lia.
      simpl. destruct (decide (m < m)%nat); [lia|].
      destruct (decide (m < S m)%nat); [reflexivity | lia].
    + rewrite list_lookup_alter_ne by auto. rewrite !list_lookup_fmap.
      destruct (seq 0 n !! i) as [t|] eqn:Hlook; [|reflexivity].
      apply lookup_seq in Hlook as [-> _]. simpl.
      destruct (decide (i < m)%nat), (decide (i < S m)%nat);
        try reflexivity; lia.
Qed.

(** The channels from [c] on are filled in turn; [D] gives the columns
    before them. *)
Lemma arrange_channels_spec lf n : forall labels c (D : nat -> list Z),
  0 <= samples_to_trim_at_start lf ->
  (forall t, length (D t) = c) ->
  arrange_channels lf labels c n
    ((fun t => D t ++ replicate (length labels) 0) <$> seq 0 n)
  = (fun t => D t ++ (arranged_sample lf t <$> labels)) <$> seq 0 n.
Proof.
  induction labels as [|label rest IH]; intros c D Hs HD;
    cbn [arrange_channels].
  - reflexivity.
  - destruct (decide (label = ""%string)) as [Hempty|Hne].
    + specialize (IH (S c) (fun t => D t ++ [0]) Hs).
      rewrite <- (list_fmap_ext (fun t => (D t ++ [0]) ++ replicate (length rest) 0)
                    (fun t => D t ++ replicate (length (label :: rest)) 0)).
      2:{ intros i t _. rewrite <- app_assoc. reflexivity. }
      rewrite IH by (intros t; rewrite length_app, HD; simpl; lia).
      apply list_fmap_ext. intros i t _. rewrite <- app_assoc. cbn [app fmap list_fmap].
      unfold arranged_sample at 2. rewrite decide_True by assumption. reflexivity.
    + rewrite (foldl_set_sample _ _ c n n) by lia.
      specialize (IH (S c)
                    (fun t => D t ++ [arranged_sample lf t label]) Hs).
      rewrite <- (list_fmap_ext
                    (fun t => (D t ++ [arranged_sample lf t label])
                              ++ replicate (length rest) 0)).
      * rewrite IH by (intros t; rewrite length_app, HD; simpl; lia).
        apply list_fmap_ext. intros i t _. rewrite <- app_assoc. reflexivity.
      * intros i t Hlook. apply lookup_seq in Hlook as [-> Hlt].
        rewrite decide_True by lia. cbn [length replicate].
        rewrite insert_app_r_alt by (rewrite HD; lia).
        rewrite HD, Nat.sub_diag. cbn [insert list_insert].
        rewrite <- app_assoc. cbn [app]. f_equal. f_equal.
        unfold arranged_sample. rewrite decide_False by assumption.
        unfold sample_at. rewrite nth_lookup. f_equal. f_equal. lia.
Qed.

Lemma common_num_ticks_range lf labels raw :
  frame_in_range lf -> common_num_ticks lf labels raw -> 0 <= raw < 2 ^ 31.
Proof.
  intros (_ & _ & Hlen) [Hex Hall].
  apply Exists_exists in Hex as (l & Hin & Hne).
  rewrite Forall_forall in Hall.
  destruct (Hall l Hin Hne) as (s & Hs & <-).
  pose proof (Hlen l s Hs) as Hl. simpl in Hl. lia.
Qed.

(** [GetCommonNumTrimmedTimeTicks] returns the common number of ticks less
    the trims, or fails. *)
Lemma GetCommonNumTrimmedTimeTicks_cases lf labels :
  frame_in_range lf ->
  (exists raw,
     common_num_ticks lf labels raw
     /\ samples_to_trim_at_start lf + samples_to_trim_at_end lf <= raw
     /\ GetCommonNumTrimmedTimeTicks lf labels
        = (kOk, raw - samples_to_trim_at_start lf - samples_to_trim_at_end lf))
  \/ (GetCommonNumTrimmedTimeTicks lf labels = (kInvalidArgument, 0)
      /\ forall raw,
           common_num_ticks lf labels raw ->
           raw < samples_to_trim_at_start lf + samples_to_trim_at_end lf).
Proof.
  intros Hin. pose proof Hin as (Hs & He & Hlen).
  unfold GetCommonNumTrimmedTimeTicks.
  destruct (num_raw_time_ticks_loop_unknown lf labels Hin)
    as [[Hall Hrun] | [(raw & Hc & Hrun) | [Hbad Hno]]].
  - rewrite Hrun. cbn [is_ok negb]. cbv iota. unfold kUnknownNumTimeTicks.
    rewrite ReadBitBufferFacts.to_int32_small by lia.
    replace (-1 - samples_to_trim_at_start lf - samples_to_trim_at_end lf <? 0)
      with true by (symmetry; apply Z.ltb_lt; lia).
    right. split; [reflexivity|]. intros raw [Hex _]. exfalso.
    apply Exists_exists in Hex as (l & Hl & Hne).
    rewrite Forall_forall in Hall. exact (Hne (Hall l Hl)).
  - rewrite Hrun. cbn [is_ok negb]. cbv iota.
    pose proof (common_num_ticks_range lf labels raw Hin Hc) as Hraw.
    rewrite ReadBitBufferFacts.to_int32_small by lia.
    destruct (_ <? 0) eqn:E.
    + apply Z.ltb_lt in E. right. split; [reflexivity|].
      intros raw' Hc'. rewrite (common_num_ticks_unique _ _ _ _ Hc' Hc). lia.
    + apply Z.ltb_ge in E. left. exists raw.
      split; [assumption|]. split; [lia | reflexivity].
  - destruct (num_raw_time_ticks_loop lf labels kUnknownNumTimeTicks) as [st raw].
    simpl in Hbad. subst st. right. split; [reflexivity|].
    intros raw' Hc. exfalso. exact (Hno raw' Hc).
Qed.

(** X15.  [ArrangeSamplesToRender] clears the output and, for an empty list
    of labels, succeeds with no ticks.  Otherwise it succeeds exactly when
    every label that is not empty names a channel of the frame, these
    channels have one common number of ticks, and the two trims together do
    not exceed it (so a list of empty labels alone fails).  The output then
    has one row per tick that is left after trimming, one column per label,
    in the order of the labels: the sample of the channel at that tick past
    the trim at the start, and zero under an empty label.  Every failure is
    [kInvalidArgument] and leaves the output empty. *)
Theorem ArrangeSamplesToRender_outcome labeled_frame ordered_labels
    samples_to_render :
  frame_in_range labeled_frame ->
  let trim :=
    samples_to_trim_at_start labeled_frame
    + samples_to_trim_at_end labeled_frame in
  let r :=
    ArrangeSamplesToRender labeled_frame ordered_labels samples_to_render in
  (ordered_labels = [] -> r = (kOk, []))
  /\ (forall num_ticks,
        common_num_ticks labeled_frame ordered_labels num_ticks ->
        trim <= num_ticks ->
        r = (kOk,
             arranged labeled_frame ordered_labels
               (Z.to_nat (num_ticks - trim))))
  /\ (r.1 = kOk ->
      ordered_labels = []
      \/ exists num_ticks,
           common_num_ticks labeled_frame ordered_labels num_ticks
           /\ trim <= num_ticks)
  /\ (r.1 <> kOk -> r = (kInvalidArgument, [])).
Proof.
  intros Hin trim r. subst r trim. pose proof Hin as (Hs & He & Hlen).
  unfold ArrangeSamplesToRender.
  destruct ordered_labels as [|label rest].
  { split; [reflexivity|]. split; [|split; [auto | intros H; contradiction]].
    intros raw [Hex _]. apply Exists_nil in Hex. contradiction. }
  set (labels := label :: rest).
  destruct (GetCommonNumTrimmedTimeTicks_cases labeled_frame labels Hin)
    as [(raw & Hc & Hle & ->) | [-> Hno]]; cbn [is_ok negb]; cbv iota.
  - assert (Harr :
      arrange_channels labeled_frame labels 0
        (Z.to_nat (raw - samples_to_trim_at_start labeled_frame
                   - samples_to_trim_at_end labeled_frame))
        (replicate
           (Z.to_nat (raw - samples_to_trim_at_start labeled_frame
                      - samples_to_trim_at_end labeled_frame))
           (replicate (length labels) 0))
      = arranged labeled_frame labels
          (Z.to_nat (raw - (samples_to_trim_at_start labeled_frame
                            + samples_to_trim_at_end labeled_frame)))).
    { rewrite replicate_as_fmap_seq.
      rewrite (arrange_channels_spec labeled_frame _ labels 0 (fun _ => []))
        by (lia || reflexivity).
      unfold arranged. f_equal. f_equal. lia. }
    rewrite Harr.
    split; [discriminate|]. split; [|split].
    + intros raw' Hc' _. rewrite (common_num_ticks_unique _ _ _ _ Hc' Hc).
      reflexivity.
    + intros _. right. eauto.
    + intros H. exfalso. apply H. reflexivity.
  - split; [discriminate|]. split; [|split].
    + intros raw Hc Hle. specialize (Hno raw Hc). lia.
    + discriminate.
    + reflexivity.
Qed.

(** A stereo frame of four ticks rendered to three channels, the middle one
    missing. *)
Lemma ArrangeSamplesToRender_outcome_witness :
  ArrangeSamplesToRender stereo_frame ["L2"; ""; "R2"]%string [[9]]
  = (kOk, [[2; 0; 6]; [3; 0; 7]]).
Proof.
  pose proof (ArrangeSamplesToRender_outcome stereo_frame
                ["L2"; ""; "R2"]%string [[9]]) as Hout.
  destruct Hout as (_ & Hok & _).
  - unfold frame_in_range, stereo_frame. cbn [samples_to_trim_at_start
      samples_to_trim_at_end label_to_samples].
    split; [lia|]. split; [lia|].
    repeat (apply map_Forall_insert_2; [simpl; lia|]).
    apply map_Forall_empty.
  - rewrite (Hok 4); [reflexivity| |simpl; lia].
    split.
    + apply Exists_cons. left. discriminate.
    + repeat (apply Forall_cons; split;
              [intros Hl;
               first [exfalso; apply Hl; reflexivity
                     | eexists; split; reflexivity]|]).
      constructor.
Defined.

End AudioElementRendererFacts.

(** ** Writing PCM samples to a wav file *)

Module WavWriterFacts.
Import WavWriter.

(** *** One sample *)

Lemma to_int32_high_byte b :
  0 <= b < 256 ->
  to_int32 (Z.shiftl b 24) = (if b <? 128 then b else b - 256) * 2 ^ 24.
Proof.
  intros Hb. rewrite Z.shiftl_mul_pow2 by lia. unfold to_int32.
  destruct (b <? 128) eqn:E.
  - apply Z.ltb_lt in E. rewrite Z.mod_small by lia. lia.
  - apply Z.ltb_ge in E.
    replace (b * 2 ^ 24 + 2 ^ 31)
      with ((b * 2 ^ 24 - 2 ^ 31) + 1 * 2 ^ 32) by lia.
    rewrite Z.mod_add by lia. rewrite Z.mod_small by lia. lia.
Qed.

Lemma to_int32_low_byte b k :
  0 <= b < 256 -> 0 <= k <= 16 -> to_int32 (Z.shiftl b k) = b * 2 ^ k.
Proof.
  intros Hb Hk. rewrite Z.shiftl_mul_pow2 by lia.
  assert (0 < 2 ^ k <= 2 ^ 16).
  { split; [apply Z.pow_pos_nonneg; lia|].
    apply Z.pow_le_mono_r; lia. }
  unfold to_int32. rewrite Z.mod_small by nia. lia.
Qed.

(** Bits that do not overlap add up, whatever the sign of the upper part. *)
Lemma lor_above hi lo k :
  0 <= k -> 0 <= lo < 2 ^ k -> Z.lor (hi * 2 ^ k) lo = hi * 2 ^ k + lo.
Proof.
  intros Hk Hlo. rewrite Z.lor_comm, <- Z.shiftl_mul_pow2 by lia.
  rewrite ReadBitBufferFacts.lor_shiftl_add by lia.
  rewrite Z.shiftl_mul_pow2 by lia. lia.
Qed.

Lemma vat_bounds buffer i : 0 <= vat buffer i < 256.
Proof. apply ReadBitBufferFacts.byte_to_Z_bounds. Qed.

Lemma to_int16_signed u :
  0 <= u < 2 ^ 16 -> to_int16 u = if u <? 2 ^ 15 then u else u - 2 ^ 16.
Proof.
  intros Hu. unfold to_int16. destruct (u <? 2 ^ 15) eqn:E.
  - apply Z.ltb_lt in E. rewrite Z.mod_small by lia. lia.
  - apply Z.ltb_ge in E.
    replace (u + 2 ^ 15) with ((u - 2 ^ 15) + 1 * 2 ^ 16) by lia.
    rewrite Z.mod_add by lia. rewrite Z.mod_small by lia. lia.
Qed.

(** The bytes of a group are the elements the source indexes. *)
Lemma group_bytes (buffer : list byte) (i m : nat) :
  (i + m <= length buffer)%nat ->
  take m (drop i buffer)
  = (fun j => vbyte buffer (Z.of_nat (i + j))) <$> seq 0 m.
Proof.
  intros Hlen. apply list_eq. intros j. rewrite list_lookup_fmap.
  destruct (decide (j < m)%nat) as [Hj|Hj].
  - rewrite lookup_take_lt, lookup_drop, lookup_seq_lt by lia. simpl.
    unfold vbyte. rewrite Nat2Z.id.
    destruct (buffer !! (i + j)%nat) as [b|] eqn:Hb.
    + rewrite (nth_lookup_Some _ _ _ _ Hb). reflexivity.
    + apply lookup_ge_None in Hb. lia.
  - rewrite lookup_take_ge by lia.
    rewrite (lookup_ge_None_2 (seq 0 m)) by (rewrite length_seq; lia).
    reflexivity.
Qed.

Lemma sample_16_signed buffer (k : nat) :
  (2 * k + 2 <= length buffer)%nat ->
  sample_16 buffer (Z.of_nat k * 2)
  = little_endian_signed (take 2 (drop (k * 2) buffer)).
Proof.
  intros Hlen. rewrite group_bytes by lia.
  unfold sample_16, little_endian_signed, little_endian_unsigned.
  cbn [fmap list_fmap seq foldr length].
  replace (Z.of_nat (k * 2 + 0)) with (Z.of_nat k * 2) by lia.
  replace (Z.of_nat (k * 2 + 1)) with (Z.of_nat k * 2 + 1) by lia.
  fold (vat buffer (Z.of_nat k * 2)). fold (vat buffer (Z.of_nat k * 2 + 1)).
  pose proof (vat_bounds buffer (Z.of_nat k * 2)) as H0.
  pose proof (vat_bounds buffer (Z.of_nat k * 2 + 1)) as H1.
  revert H0 H1.
  generalize (vat buffer (Z.of_nat k * 2)), (vat buffer (Z.of_nat k * 2 + 1)).
  intros b0 b1 H0 H1.
  rewrite to_int32_low_byte by lia. rewrite lor_above by lia.
  rewrite to_int16_signed by lia.
  change (8 * Z.of_nat 2 - 1) with 15. change (8 * Z.of_nat 2) with 16.
  replace (b0 + 256 * (b1 + 256 * 0)) with (b1 * 2 ^ 8 + b0) by lia.
  reflexivity.
Qed.

Lemma sample_24_signed buffer (k : nat) :
  (3 * k + 3 <= length buffer)%nat ->
  sample_24 buffer (Z.of_nat k * 3)
  = 256 * little_endian_signed (take 3 (drop (k * 3) buffer)).
Proof.
  intros Hlen. rewrite group_bytes by lia.
  unfold sample_24, little_endian_signed, little_endian_unsigned.
  cbn [fmap list_fmap seq foldr length].
  replace (Z.of_nat (k * 3 + 0)) with (Z.of_nat k * 3) by lia.
  replace (Z.of_nat (k * 3 + 1)) with (Z.of_nat k * 3 + 1) by lia.
  replace (Z.of_nat (k * 3 + 2)) with (Z.of_nat k * 3 + 2) by lia.
  fold (vat buffer (Z.of_nat k * 3)). fold (vat buffer (Z.of_nat k * 3 + 1)).
  fold (vat buffer (Z.of_nat k * 3 + 2)).
  pose proof (vat_bounds buffer (Z.of_nat k * 3)) as H0.
  pose proof (vat_bounds buffer (Z.of_nat k * 3 + 1)) as H1.
  pose proof (vat_bounds buffer (Z.of_nat k * 3 + 2)) as H2.
  revert H0 H1 H2.
  generalize (vat buffer (Z.of_nat k * 3)), (vat buffer (Z.of_nat k * 3 + 1)),
    (vat buffer (Z.of_nat k * 3 + 2)).
  intros b0 b1 b2 H0 H1 H2.
  rewrite to_int32_high_byte by lia. rewrite !to_int32_low_byte by lia.
  change (8 * Z.of_nat 3 - 1) with 23. change (8 * Z.of_nat 3) with 24.
  set (s2 := if b2 <? 128 then b2 else b2 - 256).
  assert (Hs2 : s2 = if b2 <? 128 then b2 else b2 - 256) by reflexivity.
  clearbody s2.
  rewrite (lor_above s2 (b1 * 2 ^ 16) 24) by lia.
  replace (s2 * 2 ^ 24 + b1 * 2 ^ 16) with ((s2 * 2 ^ 8 + b1) * 2 ^ 16) by lia.
  rewrite lor_above by lia.
  destruct (b2 <? 128) eqn:E2; [apply Z.ltb_lt in E2 | apply Z.ltb_ge in E2];
    subst s2.
  - rewrite (proj2 (Z.ltb_lt _ _)) by lia. lia.
  - rewrite (proj2 (Z.ltb_ge _ _)) by lia. lia.
Qed.

Lemma sample_32_signed buffer (k : nat) :
  (4 * k + 4 <= length buffer)%nat ->
  sample_32 buffer (Z.of_nat k * 4)
  = little_endian_signed (take 4 (drop (k * 4) buffer)).
Proof.
  intros Hlen. rewrite group_bytes by lia.
  unfold sample_32, little_endian_signed, little_endian_unsigned.
  cbn [fmap list_fmap seq foldr length].
  replace (Z.of_nat (k * 4 + 0)) with (Z.of_nat k * 4) by lia.
  replace (Z.of_nat (k * 4 + 1)) with (Z.of_nat k * 4 + 1) by lia.
  replace (Z.of_nat (k * 4 + 2)) with (Z.of_nat k * 4 + 2) by lia.
  replace (Z.of_nat (k * 4 + 3)) with (Z.of_nat k * 4 + 3) by lia.
  fold (vat buffer (Z.of_nat k * 4)). fold (vat buffer (Z.of_nat k * 4 + 1)).
  fold (vat buffer (Z.of_nat k * 4 + 2)). fold (vat buffer (Z.of_nat k * 4 + 3)).
  pose proof (vat_bounds buffer (Z.of_nat k * 4)) as H0.
  pose proof (vat_bounds buffer (Z.of_nat k * 4 + 1)) as H1.
  pose proof (vat_bounds buffer (Z.of_nat k * 4 + 2)) as H2.
  pose proof (vat_bounds buffer (Z.of_nat k * 4 + 3)) as H3.
  revert H0 H1 H2 H3.
  generalize (vat buffer (Z.of_nat k * 4)), (vat buffer (Z.of_nat k * 4 + 1)),
    (vat buffer (Z.of_nat k * 4 + 2)), (vat buffer (Z.of_nat k * 4 + 3)).
  intros b0 b1 b2 b3 H0 H1 H2 H3.
  rewrite to_int32_high_byte by lia. rewrite !to_int32_low_byte by lia.
  change (8 * Z.of_nat 4 - 1) with 31. change (8 * Z.of_nat 4) with 32.
  set (s3 := if b3 <? 128 then b3 else b3 - 256).
  assert (Hs3 : s3 = if b3 <? 128 then b3 else b3 - 256) by reflexivity.
  clearbody s3.
  rewrite (lor_above s3 (b2 * 2 ^ 16) 24) by lia.
  replace (s3 * 2 ^ 24 + b2 * 2 ^ 16) with ((s3 * 2 ^ 8 + b2) * 2 ^ 16) by lia.
  rewrite (lor_above _ (b1 * 2 ^ 8) 16) by lia.
  replace ((s3 * 2 ^ 8 + b2) * 2 ^ 16 + b1 * 2 ^ 8)
    with (((s3 * 2 ^ 8 + b2) * 2 ^ 8 + b1) * 2 ^ 8) by lia.
  rewrite lor_above by lia.
  destruct (b3 <? 128) eqn:E3; [apply Z.ltb_lt in E3 | apply Z.ltb_ge in E3];
    subst s3.
  - rewrite (proj2 (Z.ltb_lt _ _)) by lia. lia.
  - rewrite (proj2 (Z.ltb_ge _ _)) by lia. lia.
Qed.

(** *** The loop over the samples *)

Lemma arrange_samples_spec sample bps (n : nat) :
  0 < bps -> Z.of_nat n * bps < 2 ^ 31 ->
  forall fuel (j : nat),
    (j <= n)%nat -> (n - j <= fuel)%nat ->
    arrange_samples fuel sample bps (Z.of_nat n * bps) (Z.of_nat j * bps)
      ((fun k => if decide (k < j)%nat then sample (Z.of_nat k * bps) else 0)
       <$> seq 0 n)
    = (fun k => sample (Z.of_nat k * bps)) <$> seq 0 n.
Proof.
  intros Hb Hn.
  assert (Hdone :
    (fun k => if decide (k < n)%nat then sample (Z.of_nat k * bps) else 0)
    <$> seq 0 n
    = (fun k => sample (Z.of_nat k * bps)) <$> seq 0 n).
  { apply list_fmap_ext. intros i k Hk. apply lookup_seq in Hk as [-> Hlt].
    rewrite decide_True by lia. reflexivity. }
  induction fuel as [|fuel IH]; intros j Hj Hf.
  - assert (j = n) by lia. subst j. exact Hdone.
  - cbn [arrange_samples].
    rewrite ReadBitBufferFacts.to_uint64_small by nia.
    destruct (Z.ltb_spec (Z.of_nat j * bps) (Z.of_nat n * bps)) as [Hlt|Hge].
    + assert (Hjn : (j < n)%nat) by nia.
      rewrite ReadBitBufferFacts.to_int32_small by nia.
      rewrite Z.quot_mul by lia. rewrite Nat2Z.id.
      replace (Z.of_nat j * bps + bps) with (Z.of_nat (S j) * bps) by lia.
      rewrite <- (IH (S j)) by lia. f_equal.
      apply list_eq. intros i.
      destruct (decide (i = j)) as [->|Hne].
      * rewrite list_lookup_insert_eq by (rewrite length_fmap, length_seq; lia).
        rewrite list_lookup_fmap, lookup_seq_lt by lia. simpl.
        rewrite decide_True by lia. reflexivity.
      * rewrite list_lookup_insert_ne by auto. rewrite !list_lookup_fmap.
        destruct (seq 0 n !! i) as [k|] eqn:Hk; [|reflexivity].
        apply lookup_seq in Hk as [-> _]. simpl.
        destruct (decide (i < j)%nat), (decide (i < S j)%nat);
          try reflexivity; lia.
    + assert (j = n) by nia. subst j. exact Hdone.
Qed.

(** The whole loop, on a buffer of [n] groups of [bps] bytes. *)
Lemma arrange_samples_all sample (bps n : nat) buffer :
  (0 < bps)%nat -> length buffer = (n * bps)%nat -> vsize buffer < 2 ^ 31 ->
  arrange_samples (length buffer) sample (Z.of_nat bps)
    (to_uint64 (vsize buffer / Z.of_nat bps * Z.of_nat bps)) 0
    (replicate (Z.to_nat (vsize buffer / Z.of_nat bps)) 0)
  = (fun k => sample (Z.of_nat k * Z.of_nat bps)) <$> seq 0 n.
Proof.
  intros Hb Hlen Hsize. unfold vsize in *. rewrite Hlen in *.
  rewrite Nat2Z.inj_mul in *. rewrite Z.div_mul by lia.
  rewrite ReadBitBufferFacts.to_uint64_small by lia. rewrite Nat2Z.id.
  rewrite <- (arrange_samples_spec sample (Z.of_nat bps) n ltac:(lia)
                ltac:(lia) (n * bps) 0 ltac:(lia) ltac:(nia)).
  f_equal. apply list_eq. intros i. rewrite list_lookup_fmap.
  destruct (decide (i < n)%nat).
  - rewrite lookup_replicate_2, lookup_seq_lt by lia. reflexivity.
  - rewrite !lookup_ge_None_2; [reflexivity | rewrite length_seq; lia
                               | rewrite length_replicate; lia].
Qed.

(** A buffer of whole frames is a buffer of whole samples. *)
Lemma whole_samples (buffer : list byte) (bps : nat) num_channels :
  (0 < bps)%nat -> 0 < num_channels ->
  vsize buffer mod (Z.of_nat bps * num_channels) = 0 ->
  exists n : nat,
    length buffer = (n * bps)%nat
    /\ vsize buffer / Z.of_nat bps = Z.of_nat n
    /\ (length buffer / bps)%nat = n.
Proof.
  intros Hb Hc Hmod. unfold vsize in *.
  apply Z.mod_divide in Hmod; [|lia]. destruct Hmod as [q Hq].
  assert (Hq0 : 0 <= q) by nia.
  exists (Z.to_nat (q * num_channels)).
  assert (Hlen : length buffer = (Z.to_nat (q * num_channels) * bps)%nat) by nia.
  split; [exact Hlen|]. split.
  - rewrite Hq. replace (q * (Z.of_nat bps * num_channels))
      with (q * num_channels * Z.of_nat bps) by lia.
    rewrite Z.div_mul by lia. lia.
  - rewrite Hlen. apply Nat.div_mul. lia.
Qed.

Section LibraryFacts.

Variable File : Type.
Variable WriteWavSamples : File -> list Z -> Z * File.
Variable WriteWavSamples24Bit : File -> list Z -> Z * File.
Variable WriteWavSamples32Bit : File -> list Z -> Z * File.

(** X16.  For a writer of 16, 24 or 32 bits with an open file,
    [WriteSamplesInternal] on a buffer of whole frames hands the library, in
    one call, the samples the buffer holds in little-endian order, as signed
    numbers (a 24-bit sample in the upper three bytes of an [int32_t]), one
    for every [bit_depth / 8] bytes.  When the library reports success the
    call returns OK and the count of samples grows by their number; otherwise
    it returns [kUnknown] and the count stays. *)
Theorem WriteSamplesInternal_writes_pcm stream num_channels bit_depth buffer
    total :
  supported_bit_depth bit_depth ->
  0 < num_channels < 2 ^ 31 ->
  buffer <> [] -> vsize buffer < 2 ^ 31 ->
  vsize buffer mod (bit_depth / 8 * num_channels) = 0 ->
  let written :=
    library_write File WriteWavSamples WriteWavSamples24Bit
      WriteWavSamples32Bit bit_depth stream (pcm_samples bit_depth buffer) in
  let num_samples := vsize buffer / (bit_depth / 8) in
  Z.of_nat (length (pcm_samples bit_depth buffer)) = num_samples
  /\ WriteSamplesInternal File WriteWavSamples WriteWavSamples24Bit
       WriteWavSamples32Bit (Some stream) num_channels bit_depth buffer total
     = if written.1 =? kAudioToTactileResultSuccess
       then (Returns kOk, Some written.2, to_uint64 (total + num_samples))
       else (Returns kUnknown, Some written.2, total).
Proof.
  intros Hd Hc Hne Hsize Hmod written num_samples.
  assert (Hsz : (vsize buffer =? 0) = false).
  { apply Z.eqb_neq. unfold vsize. destruct buffer; [contradiction|].
    simpl. lia. }
  unfold WriteSamplesInternal. rewrite Hsz.
  destruct Hd as [-> | [-> | ->]].
  - change (16 / 8) with (Z.of_nat 2) in *.
    destruct (whole_samples buffer 2 num_channels ltac:(lia) ltac:(lia) Hmod)
      as (n & Hlen & Hdiv & Hndiv).
    change (to_uint64 16) with 16.
    rewrite ReadBitBufferFacts.to_uint64_small by lia.
    replace (16 * num_channels / 8) with (Z.of_nat 2 * num_channels)
      by (replace (16 * num_channels) with (Z.of_nat 2 * num_channels * 8) by lia;
          rewrite Z.div_mul by lia; reflexivity).
    replace (Z.of_nat 2 * num_channels =? 0) with false
      by (symmetry; apply Z.eqb_neq; lia).
    rewrite Hmod. cbn [Z.eqb negb].
    change (Z.quot 16 8) with (Z.of_nat 2).
    change (to_uint64 (Z.of_nat 2)) with (Z.of_nat 2).
    change (Z.of_nat 2 =? 0) with false. cbv iota.
    change (16 =? 16) with true. cbv iota.
    rewrite (arrange_samples_all (sample_16 buffer) 2 n buffer ltac:(lia)
               Hlen Hsize).
    assert (Hpcm :
      (fun k => sample_16 buffer (Z.of_nat k * Z.of_nat 2)) <$> seq 0 n
      = pcm_samples 16 buffer).
    { unfold pcm_samples. change (Z.to_nat (16 / 8)) with 2%nat.
      rewrite Hndiv. apply list_fmap_ext. intros i k Hk.
      apply lookup_seq in Hk as [-> Hlt]. simpl in Hlt.
      change (Z.of_nat 2) with 2. rewrite sample_16_signed by lia.
      change (16 =? 24) with false. cbv iota. lia. }
    rewrite Hpcm. subst written num_samples.
    unfold library_write. change (16 =? 16) with true. cbv iota.
    split.
    + unfold pcm_samples. rewrite length_fmap, length_seq.
      change (Z.to_nat (16 / 8)) with 2%nat. rewrite Hndiv. lia.
    + destruct (WriteWavSamples stream (pcm_samples 16 buffer)) as [res stream'].
      cbn [fst snd]. rewrite Hdiv. reflexivity.
  - change (24 / 8) with (Z.of_nat 3) in *.
    destruct (whole_samples buffer 3 num_channels ltac:(lia) ltac:(lia) Hmod)
      as (n & Hlen & Hdiv & Hndiv).
    change (to_uint64 24) with 24.
    rewrite ReadBitBufferFacts.to_uint64_small by lia.
    replace (24 * num_channels / 8) with (Z.of_nat 3 * num_channels)
      by (replace (24 * num_channels) with (Z.of_nat 3 * num_channels * 8) by lia;
          rewrite Z.div_mul by lia; reflexivity).
    replace (Z.of_nat 3 * num_channels =? 0) with false
      by (symmetry; apply Z.eqb_neq; lia).
    rewrite Hmod. cbn [Z.eqb negb].
    change (Z.quot 24 8) with (Z.of_nat 3).
    change (to_uint64 (Z.of_nat 3)) with (Z.of_nat 3).
    change (Z.of_nat 3 =? 0) with false. cbv iota.
    change (24 =? 16) with false. change (24 =? 24) with true. cbv iota.
    rewrite (arrange_samples_all (sample_24 buffer) 3 n buffer ltac:(lia)
               Hlen Hsize).
    assert (Hpcm :
      (fun k => sample_24 buffer (Z.of_nat k * Z.of_nat 3)) <$> seq 0 n
      = pcm_samples 24 buffer).
    { unfold pcm_samples. change (Z.to_nat (24 / 8)) with 3%nat.
      rewrite Hndiv. apply list_fmap_ext. intros i k Hk.
      apply lookup_seq in Hk as [-> Hlt]. simpl in Hlt.
      change (Z.of_nat 3) with 3. rewrite sample_24_signed by lia.
      change (24 =? 24) with true. cbv iota. reflexivity. }
    rewrite Hpcm. subst written num_samples.
    unfold library_write. change (24 =? 16) with false.
    change (24 =? 24) with true. cbv iota.
    split.
    + unfold pcm_samples. rewrite length_fmap, length_seq.
      change (Z.to_nat (24 / 8)) with 3%nat. rewrite Hndiv. lia.
    + destruct (WriteWavSamples24Bit stream (pcm_samples 24 buffer))
        as [res stream'].
      cbn [fst snd]. rewrite Hdiv. reflexivity.
  - change (32 / 8) with (Z.of_nat 4) in *.
    destruct (whole_samples buffer 4 num_channels ltac:(lia) ltac:(lia) Hmod)
      as (n & Hlen & Hdiv & Hndiv).
    change (to_uint64 32) with 32.
    rewrite ReadBitBufferFacts.to_uint64_small by lia.
    replace (32 * num_channels / 8) with (Z.of_nat 4 * num_channels)
      by (replace (32 * num_channels) with (Z.of_nat 4 * num_channels * 8) by lia;
          rewrite Z.div_mul by lia; reflexivity).
    replace (Z.of_nat 4 * num_channels =? 0) with false
      by (symmetry; apply Z.eqb_neq; lia).
    rewrite Hmod. cbn [Z.eqb negb].
    change (Z.quot 32 8) with (Z.of_nat 4).
    change (to_uint64 (Z.of_nat 4)) with (Z.of_nat 4).
    change (Z.of_nat 4 =? 0) with false. cbv iota.
    change (32 =? 16) with false. change (32 =? 24) with false.
    change (32 =? 32) with true. cbv iota.
    rewrite (arrange_samples_all (sample_32 buffer) 4 n buffer ltac:(lia)
               Hlen Hsize).
    assert (Hpcm :
      (fun k => sample_32 buffer (Z.of_nat k * Z.of_nat 4)) <$> seq 0 n
      = pcm_samples 32 buffer).
    { unfold pcm_samples. change (Z.to_nat (32 / 8)) with 4%nat.
      rewrite Hndiv. apply list_fmap_ext. intros i k Hk.
      apply lookup_seq in Hk as [-> Hlt]. simpl in Hlt.
      change (Z.of_nat 4) with 4. rewrite sample_32_signed by lia.
      change (32 =? 24) with false. cbv iota. lia. }
    rewrite Hpcm. subst written num_samples.
    unfold library_write. change (32 =? 16) with false.
    change (32 =? 24) with false. cbv iota.
    split.
    + unfold pcm_samples. rewrite length_fmap, length_seq.
      change (Z.to_nat (32 / 8)) with 4%nat. rewrite Hndiv. lia.
    + destruct (WriteWavSamples32Bit stream (pcm_samples 32 buffer))
        as [res stream'].
      cbn [fst snd]. rewrite Hdiv. reflexivity.
Qed.

(** X17.  [WriteSamplesInternal] writes nothing and counts nothing in three
    cases: without a file (an aborted writer) it fails with
    [kFailedPrecondition]; an empty buffer is accepted as it is; and a buffer
    that is not a whole number of frames is rejected with [kInvalidArgument]
    before a sample is arranged.  A writer of zero channels divides by zero on
    a buffer that is not empty. *)
Theorem WriteSamplesInternal_writes_nothing file num_channels bit_depth buffer
    total :
  let r :=
    WriteSamplesInternal File WriteWavSamples WriteWavSamples24Bit
      WriteWavSamples32Bit file num_channels bit_depth buffer total in
  (file = None -> r = (Returns kFailedPrecondition, None, total))
  /\ (file <> None -> buffer = [] -> r = (Returns kOk, file, total))
  /\ (file <> None -> buffer <> [] -> num_channels = 0 ->
      r = (DivisionByZero, file, total))
  /\ (file <> None ->
      supported_bit_depth bit_depth -> 0 < num_channels < 2 ^ 31 ->
      vsize buffer mod (bit_depth / 8 * num_channels) <> 0 ->
      r = (Returns kInvalidArgument, file, total)).
Proof.
  intros r. subst r. unfold WriteSamplesInternal.
  split; [|split; [|split]].
  - intros ->. reflexivity.
  - intros Hf ->. destruct file; [reflexivity | contradiction].
  - intros Hf Hne ->. destruct file as [stream|]; [|contradiction].
    replace (vsize buffer =? 0) with false.
    + rewrite Z.mul_0_r. reflexivity.
    + symmetry. apply Z.eqb_neq. unfold vsize.
      destruct buffer; [contradiction | simpl; lia].
  - intros Hf Hd Hc Hmod. destruct file as [stream|]; [|contradiction].
    destruct (vsize buffer =? 0) eqn:Hsz.
    { apply Z.eqb_eq in Hsz. rewrite Hsz, Z.mod_0_l in Hmod; [contradiction|].
      destruct Hd as [-> | [-> | ->]];
        [change (16 / 8) with 2 | change (24 / 8) with 3
        | change (32 / 8) with 4]; lia. }
    assert (Hframe :
      to_uint64 (to_uint64 bit_depth * num_channels) / 8
      = bit_depth / 8 * num_channels).
    { destruct Hd as [-> | [-> | ->]].
      - change (to_uint64 16) with 16. change (16 / 8) with 2.
        rewrite ReadBitBufferFacts.to_uint64_small by lia.
        replace (16 * num_channels) with (2 * num_channels * 8) by lia.
        apply Z.div_mul. lia.
      - change (to_uint64 24) with 24. change (24 / 8) with 3.
        rewrite ReadBitBufferFacts.to_uint64_small by lia.
        replace (24 * num_channels) with (3 * num_channels * 8) by lia.
        apply Z.div_mul. lia.
      - change (to_uint64 32) with 32. change (32 / 8) with 4.
        rewrite ReadBitBufferFacts.to_uint64_small by lia.
        replace (32 * num_channels) with (4 * num_channels * 8) by lia.
        apply Z.div_mul. lia. }
    rewrite Hframe.
    replace (bit_depth / 8 * num_channels =? 0) with false
      by (symmetry; apply Z.eqb_neq; destruct Hd as [-> | [-> | ->]];
          [change (16 / 8) with 2 | change (24 / 8) with 3
          | change (32 / 8) with 4]; lia).
    replace (vsize buffer mod (bit_depth / 8 * num_channels) =? 0) with false
      by (symmetry; apply Z.eqb_neq; assumption).
    reflexivity.
Qed.

End LibraryFacts.

(** Two 16-bit samples, the first with its sign bit set, written to a stream
    that records what it is given. *)
Lemma WriteSamplesInternal_writes_pcm_witness :
  WriteSamplesInternal (list Z) recording_write recording_write
    recording_write (Some []) 1 16
    ["001"%byte; "128"%byte; "255"%byte; "127"%byte] 0
  = (Returns kOk, Some [-32767; 32767], 2).
Proof.
  destruct (WriteSamplesInternal_writes_pcm (list Z) recording_write
              recording_write recording_write [] 1 16
              ["001"%byte; "128"%byte; "255"%byte; "127"%byte] 0)
    as [_ Hrun].
  - left. reflexivity.
  - lia.
  - discriminate.
  - unfold vsize. simpl. lia.
  - reflexivity.
  - rewrite Hrun. reflexivity.
Defined.

End WavWriterFacts.

(** ** The OBU sequencer *)

Module ObuSequencerFacts.
Import ObuSequencer.

#[local] Set Warnings "-clear-no-such-hyp".

(** *** Writers *)

Lemma is_ok_true st : is_ok st = true <-> st = kOk.
Proof. destruct st; simpl; split; congruence. Qed.

Lemma and_then_ok (a b : Writer) wb wb' :
  (a ;;; b) wb = (kOk, wb') ->
  exists wb1, a wb = (kOk, wb1) /\ b wb1 = (kOk, wb').
Proof.
  unfold and_then. destruct (a wb) as [st wb1].
  destruct (is_ok st) eqn:Hok.
  - apply is_ok_true in Hok as ->. eauto.
  - intros H. injection H as -> _. discriminate.
Qed.

Lemma ValidateAndWriteObu_ok {A} `{ObuBase A} (obu : A) wb wb' :
  ValidateAndWriteObu obu wb = (kOk, wb') -> wb' = wb ++ obu_bytes obu.
Proof.
  unfold ValidateAndWriteObu, obu_bytes.
  destruct (ValidateAndWritePayload obu) as [st bytes].
  destruct (is_ok st) eqn:Hok; intros Heq.
  - injection Heq as <-. reflexivity.
  - injection Heq as -> _. discriminate.
Qed.

Lemma write_each_ok {A} (w : A -> Writer) (f : A -> list byte) l :
  (forall x wb wb', w x wb = (kOk, wb') -> wb' = wb ++ f x) ->
  forall wb wb',
    write_each w l wb = (kOk, wb') -> wb' = wb ++ concat (f <$> l).
Proof.
  intros Hw. induction l as [|x l IH]; intros wb wb' Hrun.
  - injection Hrun as <-. simpl. rewrite app_nil_r. reflexivity.
  - cbn [write_each] in Hrun.
    apply and_then_ok in Hrun as (wb1 & Hx & Hrest).
    apply Hw in Hx as ->. apply IH in Hrest as ->.
    cbn [fmap list_fmap concat]. rewrite app_assoc. reflexivity.
Qed.

Lemma WriteObusWithHook_ok `{ObuBase ArbitraryObu} hook arbs wb wb' :
  WriteObusWithHook hook arbs wb = (kOk, wb') ->
  wb' = wb ++ hook_bytes hook arbs.
Proof.
  unfold WriteObusWithHook, hook_bytes. revert wb wb'.
  induction arbs as [|o arbs IH]; intros wb wb' Hrun.
  - injection Hrun as <-. simpl. rewrite app_nil_r. reflexivity.
  - cbn [write_each] in Hrun.
    apply and_then_ok in Hrun as (wb1 & Ho & Hrest).
    apply IH in Hrest as ->. rewrite filter_cons.
    destruct (decide (insertion_hook_ o = hook)).
    + apply ValidateAndWriteObu_ok in Ho as ->.
      cbn [fmap list_fmap concat]. rewrite app_assoc. reflexivity.
    + injection Ho as <-. reflexivity.
Qed.

(** Arbitrary OBUs with another hook do not matter to [WriteObusWithHook]. *)
Lemma WriteObusWithHook_filter `{ObuBase ArbitraryObu} hook other arbs wb :
  hook <> other ->
  WriteObusWithHook hook (filter (fun o => insertion_hook_ o <> other) arbs) wb
  = WriteObusWithHook hook arbs wb.
Proof.
  intros Hne. unfold WriteObusWithHook. revert wb.
  induction arbs as [|o arbs IH]; intros wb; [reflexivity|].
  rewrite filter_cons. destruct (decide (insertion_hook_ o <> other)) as [Hk|Hk].
  - cbn [write_each]. unfold and_then.
    destruct (decide (insertion_hook_ o = hook)).
    + destruct (ValidateAndWriteObu o wb) as [st wb1].
      destruct (is_ok st); [apply IH | reflexivity].
    + simpl. apply IH.
  - cbn [write_each]. unfold and_then.
    destruct (decide (insertion_hook_ o = hook)) as [Heq|Hneq].
    + exfalso. apply Hk. congruence.
    + simpl. apply IH.
Qed.

Section SequencerFacts.

Context `{ObuBase IASequenceHeaderObu} `{ObuBase CodecConfigObu}
  `{ObuBase AudioElementObu} `{ObuBase MixPresentationObu}
  `{ObuBase ArbitraryObu} `{ObuBase ParameterBlockObu}
  `{ObuBase AudioFrameObu} `{ObuBase TemporalDelimiterObu}.

(** C2.  A temporal unit that [WriteTemporalUnit] writes is emitted in this
    order: the temporal delimiter when delimiters are enabled, the arbitrary
    OBUs hooked before the parameter blocks at the tick, the parameter blocks
    of the unit, the arbitrary OBUs hooked after the parameter blocks at the
    tick, the audio frames of the unit, the arbitrary OBUs hooked after the
    audio frames at the tick; nothing else is written. *)
Theorem WriteTemporalUnit_order include temporal_unit wb num_samples
    wb' num_samples' :
  WriteTemporalUnit include temporal_unit wb num_samples
  = (kOk, wb', num_samples') ->
  wb' = wb
        ++ (if include then obu_bytes mkTemporalDelimiterObu else [])
        ++ hook_bytes kInsertionHookBeforeParameterBlocksAtTick
             (arbitrary_obus temporal_unit)
        ++ concat ((fun p => obu_bytes (pb_obu p))
                     <$> parameter_blocks temporal_unit)
        ++ hook_bytes kInsertionHookAfterParameterBlocksAtTick
             (arbitrary_obus temporal_unit)
        ++ concat ((fun f => obu_bytes (af_obu f))
                     <$> audio_frames temporal_unit)
        ++ hook_bytes kInsertionHookAfterAudioFramesAtTick
             (arbitrary_obus temporal_unit).
Proof.
  unfold WriteTemporalUnit.
  destruct (count_samples _ _) as [st0 n0].
  destruct (is_ok st0) eqn:Hok0; cbn [negb];
    [|intros Hf; injection Hf as -> _ _; discriminate].
  match goal with
  | |- (let '(st, wb') := ?w wb in _) = _ -> _ =>
      destruct (w wb) as [st wb1] eqn:Hrun
  end.
  destruct (is_ok st) eqn:Hok; cbn [negb];
    [|intros Hf; injection Hf as -> _ _; discriminate].
  apply is_ok_true in Hok as ->. intros Heq. injection Heq as <- _.
  apply and_then_ok in Hrun as (w1 & Hd & Hrun).
  apply and_then_ok in Hrun as (w2 & Hb & Hrun).
  apply and_then_ok in Hrun as (w3 & Hp & Hrun).
  apply and_then_ok in Hrun as (w4 & Ha & Hrun).
  apply and_then_ok in Hrun as (w5 & Hf & Hrun).
  apply WriteObusWithHook_ok in Hrun as ->.
  apply (write_each_ok _ (fun f => obu_bytes (af_obu f))) in Hf as ->;
    [|intros x a b; apply ValidateAndWriteObu_ok].
  apply WriteObusWithHook_ok in Ha as ->.
  apply (write_each_ok _ (fun p => obu_bytes (pb_obu p))) in Hp as ->;
    [|intros x a b; apply ValidateAndWriteObu_ok].
  apply WriteObusWithHook_ok in Hb as ->.
  assert (w1 = wb ++ (if include then obu_bytes mkTemporalDelimiterObu else []))
    as ->.
  { destruct include.
    - apply ValidateAndWriteObu_ok in Hd. assumption.
    - injection Hd as <-. rewrite app_nil_r. reflexivity. }
  rewrite <- !app_assoc. reflexivity.
Qed.

#[local] Instance id_le_total {A} : Total (@id_le A).
Proof. intros a b. unfold id_le. lia. Qed.

#[local] Instance id_le_trans {A} : Transitive (@id_le A).
Proof. intros a b c. unfold id_le. lia. Qed.

#[local] Instance mix_presentation_le_total : Total mix_presentation_le.
Proof. intros a b. unfold mix_presentation_le. lia. Qed.

#[local] Instance mix_presentation_le_trans : Transitive mix_presentation_le.
Proof. intros a b c. unfold mix_presentation_le. lia. Qed.

(** The entries of a map in ascending order of their id: a permutation of
    the entries, strictly ascending because ids are the keys of the map. *)
Lemma ascending_by_id_spec {A} (m : gmap Z A) :
  ascending_by_id m ≡ₚ map_to_list m
  /\ StronglySorted (fun a b => a.1 < b.1) (ascending_by_id m).
Proof.
  unfold ascending_by_id. split; [apply merge_sort_Permutation|].
  pose proof (StronglySorted_merge_sort (@id_le A) (map_to_list m)) as Hs.
  assert (Hnd : NoDup ((merge_sort id_le (map_to_list m)).*1)).
  { rewrite merge_sort_Permutation. apply NoDup_fst_map_to_list. }
  induction Hs as [|x l Hl IH Hall]; [constructor|].
  cbn [fmap list_fmap] in Hnd. apply NoDup_cons in Hnd as [Hx Hnd].
  constructor; [apply IH; assumption|].
  rewrite Forall_forall in Hall |- *. intros y Hy.
  specialize (Hall y Hy). unfold id_le in Hall.
  assert (x.1 <> y.1).
  { intros Heq. apply Hx. rewrite Heq. apply list_elem_of_fmap. eauto. }
  lia.
Qed.

Lemma and_then_ext (a b b' : Writer) :
  (forall wb, b wb = b' wb) -> forall wb, (a ;;; b) wb = (a ;;; b') wb.
Proof.
  intros Hb wb. unfold and_then. destruct (a wb) as [st wb1].
  destruct (is_ok st); [apply Hb | reflexivity].
Qed.

Lemma and_then_ext_l (a a' b : Writer) :
  (forall wb, a wb = a' wb) -> forall wb, (a ;;; b) wb = (a' ;;; b) wb.
Proof. intros Ha wb. unfold and_then. rewrite Ha. reflexivity. Qed.

Variable ValidateProfiles :
  IASequenceHeaderObu -> gmap Z AudioElementWithData ->
  list MixPresentationObu -> StatusCode.
Variable param_definition_neq : ParamDefinition -> ParamDefinition -> bool.

(** Arbitrary OBUs hooked after the descriptors play no part in the
    prologue. *)
Lemma WriteDescriptorObus_after_descriptors ia ccs aes mps arbs wb :
  WriteDescriptorObus ValidateProfiles param_definition_neq ia ccs aes mps
    (filter (fun o => insertion_hook_ o <> kInsertionHookAfterDescriptors) arbs)
    wb
  = WriteDescriptorObus ValidateProfiles param_definition_neq ia ccs aes mps
      arbs wb.
Proof.
  unfold WriteDescriptorObus.
  destruct (negb (is_ok (ValidateDescriptors _ _ _ _ _ _))); [reflexivity|].
  apply and_then_ext. intros w1.
  etransitivity;
    [apply and_then_ext_l; intros w;
     apply WriteObusWithHook_filter; discriminate|].
  apply and_then_ext. intros w2.
  apply and_then_ext. intros w3.
  etransitivity;
    [apply and_then_ext_l; intros w;
     apply WriteObusWithHook_filter; discriminate|].
  apply and_then_ext. intros w4.
  apply and_then_ext. intros w5.
  etransitivity;
    [apply and_then_ext_l; intros w;
     apply WriteObusWithHook_filter; discriminate|].
  apply and_then_ext. intros w6.
  apply and_then_ext. intros w7.
  apply WriteObusWithHook_filter. discriminate.
Qed.

(** C1.  For a descriptor set that [WriteDescriptorObus] accepts, the bytes
    written are the concatenation, in this order, of the IA sequence header,
    the arbitrary OBUs hooked after it, the codec configs in ascending order
    of their id, the arbitrary OBUs hooked after them, the audio elements in
    ascending order of their id, the arbitrary OBUs hooked after them, the
    mix presentations in ascending order of their id, and the arbitrary OBUs
    hooked after them; the arbitrary OBUs hooked after the descriptors are
    not written: removing them changes nothing. *)
Theorem WriteDescriptorObus_order ia ccs aes mps arbs wb wb' :
  WriteDescriptorObus ValidateProfiles param_definition_neq ia ccs aes mps arbs
    wb = (kOk, wb') ->
  exists (sorted_codec_configs : list (Z * CodecConfigObu))
         (sorted_audio_elements : list (Z * AudioElementWithData))
         (sorted_mix_presentations : list MixPresentationObu),
    sorted_codec_configs ≡ₚ map_to_list ccs
    /\ StronglySorted (fun a b => a.1 < b.1) sorted_codec_configs
    /\ sorted_audio_elements ≡ₚ map_to_list aes
    /\ StronglySorted (fun a b => a.1 < b.1) sorted_audio_elements
    /\ sorted_mix_presentations ≡ₚ mps
    /\ StronglySorted mix_presentation_le sorted_mix_presentations
    /\ wb' = wb
             ++ obu_bytes ia
             ++ hook_bytes kInsertionHookAfterIaSequenceHeader arbs
             ++ concat ((fun c => obu_bytes c.2) <$> sorted_codec_configs)
             ++ hook_bytes kInsertionHookAfterCodecConfigs arbs
             ++ concat ((fun e => obu_bytes (ae_obu e.2))
                          <$> sorted_audio_elements)
             ++ hook_bytes kInsertionHookAfterAudioElements arbs
             ++ concat (obu_bytes <$> sorted_mix_presentations)
             ++ hook_bytes kInsertionHookAfterMixPresentations arbs
    /\ WriteDescriptorObus ValidateProfiles param_definition_neq ia ccs aes
         mps
         (filter
            (fun o => insertion_hook_ o <> kInsertionHookAfterDescriptors)
            arbs)
         wb = (kOk, wb').
Proof.
  intros Hrun.
  exists (ascending_by_id ccs), (ascending_by_id aes),
    (merge_sort mix_presentation_le mps).
  destruct (ascending_by_id_spec ccs) as [Hp1 Hs1].
  destruct (ascending_by_id_spec aes) as [Hp2 Hs2].
  split; [assumption|]. split; [assumption|].
  split; [assumption|]. split; [assumption|].
  split; [apply merge_sort_Permutation|].
  split; [apply StronglySorted_merge_sort; apply _|].
  split; [|rewrite WriteDescriptorObus_after_descriptors; assumption].
  unfold WriteDescriptorObus in Hrun.
  destruct (negb (is_ok (ValidateDescriptors _ _ _ _ _ _))) eqn:Hval;
    [injection Hrun as Hst _;
     rewrite Hst in Hval; discriminate|].
  apply and_then_ok in Hrun as (w1 & Hia & Hrun).
  apply and_then_ok in Hrun as (w2 & Ha1 & Hrun).
  apply and_then_ok in Hrun as (w3 & Hcc & Hrun).
  apply and_then_ok in Hrun as (w4 & Ha2 & Hrun).
  apply and_then_ok in Hrun as (w5 & Hae & Hrun).
  apply and_then_ok in Hrun as (w6 & Ha3 & Hrun).
  apply and_then_ok in Hrun as (w7 & Hmp & Hrun).
  apply WriteObusWithHook_ok in Hrun as ->.
  apply (write_each_ok _ obu_bytes) in Hmp as ->;
    [|intros x a b; apply ValidateAndWriteObu_ok].
  apply WriteObusWithHook_ok in Ha3 as ->.
  apply (write_each_ok _ (fun e => obu_bytes (ae_obu e.2))) in Hae as ->;
    [|intros x a b; apply ValidateAndWriteObu_ok].
  apply WriteObusWithHook_ok in Ha2 as ->.
  apply (write_each_ok _ (fun c => obu_bytes c.2)) in Hcc as ->;
    [|intros x a b; apply ValidateAndWriteObu_ok].
  apply WriteObusWithHook_ok in Ha1 as ->.
  apply ValidateAndWriteObu_ok in Hia as ->.
  rewrite <- !app_assoc. reflexivity.
Qed.

End SequencerFacts.

(** *** The temporal unit map *)

Lemma unit_at_insert m t u t' :
  unit_at (<[t := u]> m) t' = if decide (t = t') then u else unit_at m t'.
Proof.
  unfold unit_at. destruct (decide (t = t')) as [<-|Hne].
  - rewrite lookup_insert_eq. reflexivity.
  - rewrite lookup_insert_ne by assumption. reflexivity.
Qed.

Lemma is_Some_insert_iff (m : gmap Z TemporalUnit) t u t' :
  is_Some (<[t := u]> m !! t') <-> t = t' \/ is_Some (m !! t').
Proof.
  destruct (decide (t = t')) as [<-|Hne].
  - rewrite lookup_insert_eq. split; [auto | eauto].
  - rewrite lookup_insert_ne by assumption. split; [auto | intros [?|?]; [contradiction|assumption]].
Qed.

(** What the three loops of [GenerateTemporalUnitMap] leave in the unit of a
    timestamp. *)
Ltac split3 := split; [|split; [|split]].

Lemma foldl_push_audio_frame frames : forall m t,
  audio_frames (unit_at (foldl push_audio_frame m frames) t)
  = audio_frames (unit_at m t)
    ++ filter (fun f => af_start_timestamp f = t) frames
  /\ parameter_blocks (unit_at (foldl push_audio_frame m frames) t)
     = parameter_blocks (unit_at m t)
  /\ arbitrary_obus (unit_at (foldl push_audio_frame m frames) t)
     = arbitrary_obus (unit_at m t)
  /\ (is_Some (foldl push_audio_frame m frames !! t)
      <-> is_Some (m !! t)
          \/ exists f, f ∈ frames /\ af_start_timestamp f = t).
Proof.
  induction frames as [|f frames IH]; intros m t.
  - simpl. rewrite app_nil_r. split3; try reflexivity.
    setoid_rewrite elem_of_nil. naive_solver.
  - cbn [foldl]. destruct (IH (push_audio_frame m f) t) as (Ha & Hp & Ho & Hd).
    rewrite Ha, Hp, Ho, Hd. unfold push_audio_frame.
    rewrite unit_at_insert, filter_cons, is_Some_insert_iff.
    setoid_rewrite elem_of_cons.
    destruct (decide (af_start_timestamp f = t)) as [<-|Hne]; cbn.
    + rewrite <- app_assoc. split3; try reflexivity. naive_solver.
    + split3; try reflexivity. naive_solver.
Qed.

Lemma foldl_push_parameter_block pbs : forall m t,
  audio_frames (unit_at (foldl push_parameter_block m pbs) t)
  = audio_frames (unit_at m t)
  /\ parameter_blocks (unit_at (foldl push_parameter_block m pbs) t)
     = parameter_blocks (unit_at m t)
       ++ filter (fun p => pb_start_timestamp p = t) pbs
  /\ arbitrary_obus (unit_at (foldl push_parameter_block m pbs) t)
     = arbitrary_obus (unit_at m t)
  /\ (is_Some (foldl push_parameter_block m pbs !! t)
      <-> is_Some (m !! t)
          \/ exists p, p ∈ pbs /\ pb_start_timestamp p = t).
Proof.
  induction pbs as [|f pbs IH]; intros m t.
  - simpl. rewrite app_nil_r. split3; try reflexivity.
    setoid_rewrite elem_of_nil. naive_solver.
  - cbn [foldl].
    destruct (IH (push_parameter_block m f) t) as (Ha & Hp & Ho & Hd).
    rewrite Ha, Hp, Ho, Hd. unfold push_parameter_block.
    rewrite unit_at_insert, filter_cons, is_Some_insert_iff.
    setoid_rewrite elem_of_cons.
    destruct (decide (pb_start_timestamp f = t)) as [<-|Hne]; cbn.
    + rewrite <- app_assoc. split3; try reflexivity. naive_solver.
    + split3; try reflexivity. naive_solver.
Qed.

Lemma foldl_push_arbitrary_obu arbs : forall m t,
  audio_frames (unit_at (foldl push_arbitrary_obu m arbs) t)
  = audio_frames (unit_at m t)
  /\ parameter_blocks (unit_at (foldl push_arbitrary_obu m arbs) t)
     = parameter_blocks (unit_at m t)
  /\ arbitrary_obus (unit_at (foldl push_arbitrary_obu m arbs) t)
     = arbitrary_obus (unit_at m t)
       ++ filter (fun o => insertion_tick_ o = Some t) arbs
  /\ (is_Some (foldl push_arbitrary_obu m arbs !! t)
      <-> is_Some (m !! t)
          \/ exists o, o ∈ arbs /\ insertion_tick_ o = Some t).
Proof.
  induction arbs as [|f arbs IH]; intros m t.
  - simpl. rewrite app_nil_r. split3; try reflexivity.
    setoid_rewrite elem_of_nil. naive_solver.
  - cbn [foldl].
    destruct (IH (push_arbitrary_obu m f) t) as (Ha & Hp & Ho & Hd).
    rewrite Ha, Hp, Ho, Hd. unfold push_arbitrary_obu. rewrite filter_cons.
    setoid_rewrite elem_of_cons.
    destruct (insertion_tick_ f) as [tick|] eqn:Htick.
    + rewrite unit_at_insert, is_Some_insert_iff.
      destruct (decide (Some tick = Some t)) as [Heq|Hne].
      * injection Heq as ->. rewrite decide_True by reflexivity. cbn.
        rewrite <- app_assoc. split3; try reflexivity. naive_solver.
      * rewrite decide_False by congruence.
        split3; try reflexivity. naive_solver.
    + rewrite decide_False by discriminate.
      split3; try reflexivity. naive_solver.
Qed.

#[local] Instance audio_frame_le_total : Total audio_frame_le.
Proof. intros a b. unfold audio_frame_le. lia. Qed.

#[local] Instance audio_frame_le_trans : Transitive audio_frame_le.
Proof. intros a b c. unfold audio_frame_le. lia. Qed.

#[local] Instance parameter_block_le_total : Total parameter_block_le.
Proof. intros a b. unfold parameter_block_le. lia. Qed.

#[local] Instance parameter_block_le_trans : Transitive parameter_block_le.
Proof. intros a b c. unfold parameter_block_le. lia. Qed.

(** The unit of a timestamp before the final sort. *)
Lemma unsorted_unit frames pbs arbs t :
  let m :=
    foldl push_arbitrary_obu
      (foldl push_parameter_block (foldl push_audio_frame ∅ frames) pbs) arbs in
  audio_frames (unit_at m t) = filter (fun f => af_start_timestamp f = t) frames
  /\ parameter_blocks (unit_at m t)
     = filter (fun p => pb_start_timestamp p = t) pbs
  /\ arbitrary_obus (unit_at m t)
     = filter (fun o => insertion_tick_ o = Some t) arbs
  /\ (is_Some (m !! t)
      <-> (exists f, f ∈ frames /\ af_start_timestamp f = t)
          \/ (exists p, p ∈ pbs /\ pb_start_timestamp p = t)
          \/ (exists o, o ∈ arbs /\ insertion_tick_ o = Some t)).
Proof.
  intros m. subst m.
  destruct (foldl_push_arbitrary_obu arbs
              (foldl push_parameter_block (foldl push_audio_frame ∅ frames) pbs)
              t) as (Ha3 & Hp3 & Ho3 & Hd3).
  destruct (foldl_push_parameter_block pbs (foldl push_audio_frame ∅ frames) t)
    as (Ha2 & Hp2 & Ho2 & Hd2).
  destruct (foldl_push_audio_frame frames ∅ t) as (Ha1 & Hp1 & Ho1 & Hd1).
  rewrite Ha3, Ha2, Ha1, Hp3, Hp2, Hp1, Ho3, Ho2, Ho1, Hd3, Hd2, Hd1.
  unfold unit_at. rewrite lookup_empty. cbn.
  split3; try reflexivity.
  pose proof (@is_Some_None TemporalUnit). naive_solver.
Qed.

Lemma lookup_sorted_map (m : gmap Z TemporalUnit) t u :
  (sort_temporal_unit <$> m) !! t = Some u ->
  u = sort_temporal_unit (unit_at m t) /\ is_Some (m !! t).
Proof.
  rewrite lookup_fmap. unfold unit_at.
  destruct (m !! t) as [u0|]; simpl; [|discriminate].
  intros Heq. injection Heq as <-. eauto.
Qed.

(** C3.  [GenerateTemporalUnitMap] succeeds; it has a unit for exactly the
    timestamps that occur as the start of a frame or a parameter block or as
    an insertion tick; and in the unit of a timestamp the audio frames are
    the frames that start there, sorted by audio element id and then by
    substream id, and the parameter blocks are the blocks that start there,
    sorted by parameter id, whatever the order of the input. *)
Theorem GenerateTemporalUnitMap_buckets_sorted frames pbs arbs :
  (GenerateTemporalUnitMap frames pbs arbs).1 = kOk
  /\ (forall t,
        is_Some ((GenerateTemporalUnitMap frames pbs arbs).2 !! t)
        <-> (exists f, f ∈ frames /\ af_start_timestamp f = t)
            \/ (exists p, p ∈ pbs /\ pb_start_timestamp p = t)
            \/ (exists o, o ∈ arbs /\ insertion_tick_ o = Some t))
  /\ (forall t u,
        (GenerateTemporalUnitMap frames pbs arbs).2 !! t = Some u ->
        audio_frames u ≡ₚ filter (fun f => af_start_timestamp f = t) frames
        /\ StronglySorted audio_frame_le (audio_frames u)
        /\ parameter_blocks u
           ≡ₚ filter (fun p => pb_start_timestamp p = t) pbs
        /\ StronglySorted parameter_block_le (parameter_blocks u)).
Proof.
  unfold GenerateTemporalUnitMap. cbn [fst snd].
  split; [reflexivity|]. split.
  - intros t. rewrite lookup_fmap, fmap_is_Some.
    apply (unsorted_unit frames pbs arbs t).
  - intros t u Hu. apply lookup_sorted_map in Hu as [-> _].
    destruct (unsorted_unit frames pbs arbs t) as (Ha & Hp & _ & _).
    cbn [sort_temporal_unit audio_frames parameter_blocks].
    rewrite Ha, Hp.
    split; [apply merge_sort_Permutation|].
    split; [apply StronglySorted_merge_sort; apply _|].
    split; [apply merge_sort_Permutation|].
    apply StronglySorted_merge_sort; apply _.
Qed.

(** C6 (as amended).  [GenerateTemporalUnitMap] never fails.  An arbitrary
    OBU with an insertion tick is placed in the unit of that tick, which then
    exists, whatever its hook; an arbitrary OBU without insertion tick is in
    no unit, and is left out without an error.  So an arbitrary OBU of the
    input is in a unit if and only if it has an insertion tick.  The
    arbitrary OBUs of a unit are, in input order, those whose insertion tick
    is the timestamp of the unit, and a unit exists only for a timestamp at
    which a frame or a parameter block starts or an arbitrary OBU is to be
    inserted. *)
Theorem GenerateTemporalUnitMap_arbitrary_obus frames pbs arbs :
  let r := GenerateTemporalUnitMap frames pbs arbs in
  r.1 = kOk
  /\ (forall o t,
        o ∈ arbs -> insertion_tick_ o = Some t ->
        exists u, r.2 !! t = Some u /\ o ∈ arbitrary_obus u)
  /\ (forall o t u,
        r.2 !! t = Some u -> o ∈ arbitrary_obus u ->
        o ∈ arbs /\ insertion_tick_ o = Some t)
  /\ (forall o,
        o ∈ arbs ->
        (exists t u, r.2 !! t = Some u /\ o ∈ arbitrary_obus u)
        <-> is_Some (insertion_tick_ o))
  /\ (forall t u,
        r.2 !! t = Some u ->
        arbitrary_obus u = filter (fun o => insertion_tick_ o = Some t) arbs)
  /\ (forall t,
        is_Some (r.2 !! t)
        <-> (exists f, f ∈ frames /\ af_start_timestamp f = t)
            \/ (exists p, p ∈ pbs /\ pb_start_timestamp p = t)
            \/ (exists o, o ∈ arbs /\ insertion_tick_ o = Some t)).
Proof.
  intros r.
  assert (Hunit : forall t u,
            r.2 !! t = Some u ->
            arbitrary_obus u
            = filter (fun o => insertion_tick_ o = Some t) arbs).
  { intros t u Hu. subst r. unfold GenerateTemporalUnitMap in Hu.
    cbn [snd] in Hu. apply lookup_sorted_map in Hu as [-> _].
    destruct (unsorted_unit frames pbs arbs t) as (_ & _ & Ho & _).
    cbn [sort_temporal_unit arbitrary_obus]. exact Ho. }
  assert (Hexists : forall t,
            is_Some (r.2 !! t)
            <-> (exists f, f ∈ frames /\ af_start_timestamp f = t)
                \/ (exists p, p ∈ pbs /\ pb_start_timestamp p = t)
                \/ (exists o, o ∈ arbs /\ insertion_tick_ o = Some t)).
  { intros t. subst r. unfold GenerateTemporalUnitMap. cbn [snd].
    rewrite lookup_fmap, fmap_is_Some.
    apply (unsorted_unit frames pbs arbs t). }
  assert (Hplaced : forall o t,
            o ∈ arbs -> insertion_tick_ o = Some t ->
            exists u, r.2 !! t = Some u /\ o ∈ arbitrary_obus u).
  { intros o t Ho Ht.
    destruct (proj2 (Hexists t)) as [u Hu]; [right; right; eauto|].
    exists u. split; [exact Hu|].
    rewrite (Hunit t u Hu). apply list_elem_of_filter. auto. }
  assert (Hin : forall o t u,
            r.2 !! t = Some u -> o ∈ arbitrary_obus u ->
            o ∈ arbs /\ insertion_tick_ o = Some t).
  { intros o t u Hu Ho. rewrite (Hunit t u Hu) in Ho.
    apply list_elem_of_filter in Ho as [Ht Ho]. auto. }
  split; [reflexivity|]. split; [exact Hplaced|]. split; [exact Hin|].
  split; [|split; [exact Hunit | exact Hexists]].
  intros o Ho. split.
  - intros (t & u & Hu & Hou). destruct (Hin o t u Hu Hou) as [_ Ht].
    rewrite Ht. eauto.
  - intros [t Ht]. destruct (Hplaced o t Ho Ht) as (u & Hu & Hou). eauto.
Qed.

(** *** The output file *)

Section PickAndPlaceFacts.

Context `{ObuBase IASequenceHeaderObu} `{ObuBase CodecConfigObu}
  `{ObuBase AudioElementObu} `{ObuBase MixPresentationObu}
  `{ObuBase ArbitraryObu} `{ObuBase ParameterBlockObu}
  `{ObuBase AudioFrameObu} `{ObuBase TemporalDelimiterObu}.

Variable ValidateProfiles :
  IASequenceHeaderObu -> gmap Z AudioElementWithData ->
  list MixPresentationObu -> StatusCode.
Variable param_definition_neq : ParamDefinition -> ParamDefinition -> bool.

(** The status of a temporal unit does not depend on the samples counted
    before it. *)
Lemma count_samples_status frames : forall n m,
  (count_samples frames n).1 = (count_samples frames m).1.
Proof.
  induction frames as [|f rest IH]; intros n m; cbn [count_samples];
    [reflexivity|].
  destruct (audio_element_with_data f) as [e|]; [|reflexivity].
  destruct (codec_config e) as [c|]; [|reflexivity].
  apply IH.
Qed.

Lemma WriteTemporalUnit_status delimiters u wb n m :
  (WriteTemporalUnit delimiters u wb n).1.1
  = (WriteTemporalUnit delimiters u wb m).1.1.
Proof.
  unfold WriteTemporalUnit.
  pose proof (count_samples_status (audio_frames u) n m) as Hc.
  destruct (count_samples (audio_frames u) n) as [s1 n1].
  destruct (count_samples (audio_frames u) m) as [s2 n2].
  cbn [fst] in Hc. subst s2.
  destruct (is_ok s1); cbn [negb]; [|reflexivity].
  destruct (and_then _ _ wb) as [st wb'].
  destruct (is_ok st) eqn:Hok; cbn [negb fst]; [|reflexivity].
  apply is_ok_true in Hok. auto.
Qed.

(** The loop over the temporal units succeeds when every unit does, and the
    file is then still there; the first unit that fails fails the loop and
    removes the file. *)
Lemma write_temporal_units_outcome sequencer units :
  forall num_samples fs,
    iamf_filename_ sequencer <> ""%string ->
    (Forall
       (fun u =>
          (WriteTemporalUnit (include_temporal_delimiters_ sequencer) u []
             0).1.1 = kOk) units ->
     (write_temporal_units sequencer units num_samples fs).1 = kOk
     /\ (is_Some (fs !! iamf_filename_ sequencer) ->
         is_Some
           ((write_temporal_units sequencer units num_samples fs).2
            !! iamf_filename_ sequencer)))
    /\ (Exists
          (fun u =>
             (WriteTemporalUnit (include_temporal_delimiters_ sequencer) u []
                0).1.1 <> kOk) units ->
        (write_temporal_units sequencer units num_samples fs).1 <> kOk
        /\ (write_temporal_units sequencer units num_samples fs).2
           !! iamf_filename_ sequencer = None).
Proof.
  induction units as [|u units IH]; intros n fs Hname;
    cbn [write_temporal_units].
  - split; [auto|]. intros Hex. apply Exists_nil in Hex. contradiction.
  - pose proof (WriteTemporalUnit_status
                  (include_temporal_delimiters_ sequencer) u [] n 0) as Hst.
    destruct (WriteTemporalUnit _ u [] n) as [[st1 wb1] n1].
    cbn [fst] in Hst. rewrite !decide_False by assumption.
    destruct (is_ok st1) eqn:Hok; cbn [negb].
    + apply is_ok_true in Hok. subst st1.
      destruct (IH n1
                  (<[iamf_filename_ sequencer :=
                       default [] (fs !! iamf_filename_ sequencer) ++ wb1]> fs)
                  Hname) as [IHok IHbad].
      split.
      * intros Hall. apply Forall_cons in Hall as [_ Hall].
        destruct (IHok Hall) as [Hs Hfile]. split; [exact Hs|].
        intros _. apply Hfile. eexists. apply lookup_insert_eq.
      * intros Hex. apply Exists_cons in Hex as [Hu|Hex];
          [congruence | auto].
    + assert (Hbad : st1 <> kOk) by (intros ->; discriminate).
      split.
      * intros Hall. apply Forall_cons in Hall as [Hu _]. congruence.
      * intros _. cbn [fst snd]. split; [exact Hbad|].
        apply lookup_delete_eq.
Qed.

(** C9.  For [PickAndPlace] with a non-empty output path: when the
    descriptors are not valid the call fails and the files are as they were
    before it (no file is created); when the descriptors are written and a
    temporal unit fails, the call fails and the output file is removed; when
    every temporal unit succeeds the call succeeds and the output file
    exists.  So every failing call either leaves the files untouched or ends
    with no file at the output path, and an output path that held no file
    before a failing call holds none after it. *)
Theorem PickAndPlace_leaves_no_partial_file sequencer ia ccs aes mps frames
    pbs arbs fs :
  iamf_filename_ sequencer <> ""%string ->
  let r :=
    PickAndPlace ValidateProfiles param_definition_neq sequencer ia ccs aes
      mps frames pbs arbs fs in
  let descriptors :=
    (WriteDescriptorObus ValidateProfiles param_definition_neq ia ccs aes mps
       arbs []).1 in
  let unit_status u :=
    (WriteTemporalUnit (include_temporal_delimiters_ sequencer) u [] 0).1.1 in
  let units := units_in_order (GenerateTemporalUnitMap frames pbs arbs).2 in
  (descriptors <> kOk -> r = (descriptors, fs))
  /\ (descriptors = kOk ->
      Exists (fun u => unit_status u <> kOk) units ->
      r.1 <> kOk /\ r.2 !! iamf_filename_ sequencer = None)
  /\ (descriptors = kOk ->
      Forall (fun u => unit_status u = kOk) units ->
      r.1 = kOk /\ is_Some (r.2 !! iamf_filename_ sequencer))
  /\ (r.1 <> kOk ->
      (descriptors <> kOk /\ r.2 = fs)
      \/ (descriptors = kOk
          /\ Exists (fun u => unit_status u <> kOk) units
          /\ r.2 !! iamf_filename_ sequencer = None))
  /\ (r.1 <> kOk ->
      fs !! iamf_filename_ sequencer = None ->
      r.2 !! iamf_filename_ sequencer = None).
Proof.
  intros Hname r descriptors unit_status units.
  assert (Hcases :
    (descriptors <> kOk /\ r = (descriptors, fs))
    \/ (descriptors = kOk
        /\ r = write_temporal_units sequencer units 0
                 (<[iamf_filename_ sequencer :=
                      (WriteDescriptorObus ValidateProfiles
                         param_definition_neq ia ccs aes mps arbs []).2]> fs))).
  { subst r descriptors units. unfold PickAndPlace.
    destruct (WriteDescriptorObus _ _ ia ccs aes mps arbs []) as [st0 wb0].
    cbn [fst snd].
    destruct (is_ok st0) eqn:Hok; cbn [negb].
    - apply is_ok_true in Hok as ->. right. split; [reflexivity|].
      destruct (decide (iamf_filename_ sequencer = ""%string));
        [contradiction|].
      unfold GenerateTemporalUnitMap. cbn [is_ok negb snd]. reflexivity.
    - left. split; [intros ->; discriminate | reflexivity]. }
  pose proof (write_temporal_units_outcome sequencer units 0
                (<[iamf_filename_ sequencer :=
                     (WriteDescriptorObus ValidateProfiles
                        param_definition_neq ia ccs aes mps arbs []).2]> fs)
                Hname) as [Hgood Hbad].
  fold unit_status in Hgood, Hbad.
  destruct Hcases as [[Hd Hr] | [Hd Hr]].
  - split; [auto|]. split; [contradiction|]. split; [contradiction|].
    rewrite Hr. cbn [fst snd]. split; [auto|]. auto.
  - rewrite <- Hr in Hgood, Hbad.
    split; [contradiction|]. split; [auto|]. split.
    + intros _ Hall. destruct (Hgood Hall) as [Hs Hfile].
      split; [exact Hs|]. apply Hfile. eexists. apply lookup_insert_eq.
    + assert (Hfail : r.1 <> kOk ->
                Exists (fun u => unit_status u <> kOk) units
                /\ r.2 !! iamf_filename_ sequencer = None).
      { intros Hst.
        destruct (Forall_Exists_dec (fun u => unit_status u = kOk)
                    (fun u => unit_status u <> kOk)
                    (fun u => decide (unit_status u = kOk)) units)
          as [Hall|Hex].
        - destruct (Hgood Hall) as [Hs _]. contradiction.
        - split; [exact Hex|]. apply (Hbad Hex). }
      split.
      * intros Hst. right. destruct (Hfail Hst). auto.
      * intros Hst _. apply (Hfail Hst).
Qed.

End PickAndPlaceFacts.

Import Fixture.

(** The expectations of the tests, replayed on the model. *)
Example OmitsArbitraryObusWithNoInsertionTick :
  GenerateTemporalUnitMap [] []
    [test_arbitrary kInsertionHookAfterIaSequenceHeader None false]
  = (kOk, ∅).
Proof. vm_compute. reflexivity. Qed.

Example CreatesTemporalUnitsForEachInsertionTick :
  size (GenerateTemporalUnitMap [] [] tick_arbitrary_obus).2 = 2%nat
  /\ length (arbitrary_obus
               (unit_at (GenerateTemporalUnitMap [] [] tick_arbitrary_obus).2 99))
     = 2%nat
  /\ length (arbitrary_obus
               (unit_at (GenerateTemporalUnitMap [] [] tick_arbitrary_obus).2
                  1999))
     = 1%nat.
Proof. vm_compute. repeat split. Qed.

Example SubstreamsOrderedByAudioElementIdSubstreamId :
  audio_frames
    (unit_at
       (GenerateTemporalUnitMap
          [test_frame 200 5000 0; test_frame 100 2000 0;
           test_frame 200 3000 0; test_frame 100 4000 0] [] []).2 0)
  = [test_frame 100 2000 0; test_frame 100 4000 0;
     test_frame 200 3000 0; test_frame 200 5000 0].
Proof. vm_compute. reflexivity. Qed.

Example ParameterBlocksAreOrderedByAscendingParameterId :
  parameter_blocks
    (unit_at
       (GenerateTemporalUnitMap [test_frame 1 1 0]
          [test_block 9000 0; test_block 9 0] []).2 0)
  = [test_block 9 0; test_block 9000 0].
Proof. vm_compute. reflexivity. Qed.

Example DoesNotWriteArbitraryObuAfterDescriptors :
  WriteDescriptorObus no_profile_check CliUtil.structural_neq
    test_ia_sequence_header test_codec_configs test_audio_elements
    test_mix_presentations
    [test_arbitrary kInsertionHookAfterDescriptors None false] []
  = WriteDescriptorObus no_profile_check CliUtil.structural_neq
      test_ia_sequence_header test_codec_configs test_audio_elements
      test_mix_presentations [] [].
Proof. vm_compute. reflexivity. Qed.

Example AddsNumberOfUntrimmedSamplesToNumSamples :
  (WriteTemporalUnit false
     (mkTemporalUnit
        [mkAudioFrameWithData (mkAudioFrameObu (mkObuHeader 2 1) 1) 0 16
           (Some (test_audio_element 1))]
        [test_block 998 0] []) [] 5).2 = 10.
Proof. vm_compute. reflexivity. Qed.

Lemma WriteDescriptorObus_order_witness :
  exists (sorted_codec_configs : list (Z * CodecConfigObu))
         (sorted_audio_elements : list (Z * AudioElementWithData))
         (sorted_mix_presentations : list MixPresentationObu),
    sorted_codec_configs ≡ₚ map_to_list test_codec_configs
    /\ StronglySorted (fun a b => a.1 < b.1) sorted_codec_configs
    /\ sorted_audio_elements ≡ₚ map_to_list test_audio_elements
    /\ StronglySorted (fun a b => a.1 < b.1) sorted_audio_elements
    /\ sorted_mix_presentations ≡ₚ test_mix_presentations
    /\ StronglySorted mix_presentation_le sorted_mix_presentations
    /\ (WriteDescriptorObus no_profile_check CliUtil.structural_neq
          test_ia_sequence_header test_codec_configs test_audio_elements
          test_mix_presentations test_descriptor_arbitrary_obus []).2
       = []
         ++ obu_bytes test_ia_sequence_header
         ++ hook_bytes kInsertionHookAfterIaSequenceHeader
              test_descriptor_arbitrary_obus
         ++ concat ((fun c => obu_bytes c.2) <$> sorted_codec_configs)
         ++ hook_bytes kInsertionHookAfterCodecConfigs
              test_descriptor_arbitrary_obus
         ++ concat ((fun e => obu_bytes (ae_obu e.2))
                      <$> sorted_audio_elements)
         ++ hook_bytes kInsertionHookAfterAudioElements
              test_descriptor_arbitrary_obus
         ++ concat (obu_bytes <$> sorted_mix_presentations)
         ++ hook_bytes kInsertionHookAfterMixPresentations
              test_descriptor_arbitrary_obus
    /\ WriteDescriptorObus no_profile_check CliUtil.structural_neq
         test_ia_sequence_header test_codec_configs test_audio_elements
         test_mix_presentations
         (filter
            (fun o => insertion_hook_ o <> kInsertionHookAfterDescriptors)
            test_descriptor_arbitrary_obus)
         []
       = (kOk,
          (WriteDescriptorObus no_profile_check CliUtil.structural_neq
             test_ia_sequence_header test_codec_configs test_audio_elements
             test_mix_presentations test_descriptor_arbitrary_obus []).2).
Proof.
  apply (WriteDescriptorObus_order no_profile_check CliUtil.structural_neq
           test_ia_sequence_header test_codec_configs test_audio_elements
           test_mix_presentations test_descriptor_arbitrary_obus []).
  vm_compute. reflexivity.
Defined.

Lemma WriteTemporalUnit_order_witness :
  (WriteTemporalUnit true test_temporal_unit [] 0).1.2
  = []
    ++ (if true then obu_bytes mkTemporalDelimiterObu else [])
    ++ hook_bytes kInsertionHookBeforeParameterBlocksAtTick
         (arbitrary_obus test_temporal_unit)
    ++ concat ((fun p => obu_bytes (pb_obu p))
                 <$> parameter_blocks test_temporal_unit)
    ++ hook_bytes kInsertionHookAfterParameterBlocksAtTick
         (arbitrary_obus test_temporal_unit)
    ++ concat ((fun f => obu_bytes (af_obu f))
                 <$> audio_frames test_temporal_unit)
    ++ hook_bytes kInsertionHookAfterAudioFramesAtTick
         (arbitrary_obus test_temporal_unit).
Proof.
  apply (WriteTemporalUnit_order true test_temporal_unit [] 0 _ 8).
  vm_compute. reflexivity.
Defined.

(** The arbitrary OBU hooked after the IA sequence header with insertion
    tick 99 is placed in the unit of tick 99. *)
Lemma GenerateTemporalUnitMap_arbitrary_obus_witness :
  (GenerateTemporalUnitMap [] [] tick_arbitrary_obus).1 = kOk
  /\ exists u,
       (GenerateTemporalUnitMap [] [] tick_arbitrary_obus).2 !! 99 = Some u
       /\ test_arbitrary kInsertionHookAfterIaSequenceHeader (Some 99) false
          ∈ arbitrary_obus u.
Proof.
  destruct (GenerateTemporalUnitMap_arbitrary_obus [] [] tick_arbitrary_obus)
    as (Hok & Hplaced & _).
  split; [exact Hok|].
  apply Hplaced; [|reflexivity].
  unfold tick_arbitrary_obus. right. left.
Defined.

(** C6 (as stated) fails: the arbitrary OBU hooked after the IA sequence
    header, a descriptor hook, is in the unit of its insertion tick 99. *)
Lemma GenerateTemporalUnitMap_descriptor_hook_counterexample :
  exists u,
    (GenerateTemporalUnitMap [] [] tick_arbitrary_obus).2 !! 99 = Some u
    /\ test_arbitrary kInsertionHookAfterIaSequenceHeader (Some 99) false
       ∈ arbitrary_obus u
    /\ is_tick_bound kInsertionHookAfterIaSequenceHeader = false.
Proof.
  eexists. split; [vm_compute; reflexivity|].
  split; [|reflexivity]. right. left.
Qed.

(** A session whose temporal unit is invalidated by an arbitrary OBU
    ([ObuSequencerTest.PickAndPlaceLeavesNoFileWhenTemporalUnitsAreInvalid]):
    the descriptors are written, the call fails and no file is left. *)
Lemma PickAndPlace_leaves_no_partial_file_witness :
  (PickAndPlace no_profile_check CliUtil.structural_neq test_sequencer
     test_ia_sequence_header test_codec_configs test_audio_elements
     test_mix_presentations [test_frame 1 1 0] [test_block 998 0]
     [test_arbitrary kInsertionHookAfterAudioFramesAtTick (Some 0) true]
     ∅).1 <> kOk
  /\ (PickAndPlace no_profile_check CliUtil.structural_neq test_sequencer
        test_ia_sequence_header test_codec_configs test_audio_elements
        test_mix_presentations [test_frame 1 1 0] [test_block 998 0]
        [test_arbitrary kInsertionHookAfterAudioFramesAtTick (Some 0) true]
        ∅).2 !! iamf_filename_ test_sequencer = None.
Proof.
  destruct (PickAndPlace_leaves_no_partial_file no_profile_check
              CliUtil.structural_neq test_sequencer test_ia_sequence_header
              test_codec_configs test_audio_elements test_mix_presentations
              [test_frame 1 1 0] [test_block 998 0]
              [test_arbitrary kInsertionHookAfterAudioFramesAtTick (Some 0)
                 true]
              ∅) as (_ & Hremoved & _).
  - discriminate.
  - apply Hremoved.
    + vm_compute. reflexivity.
    + assert (Hunits :
        units_in_order
          (GenerateTemporalUnitMap [test_frame 1 1 0] [test_block 998 0]
             [test_arbitrary kInsertionHookAfterAudioFramesAtTick (Some 0)
                true]).2
        = [mkTemporalUnit [test_frame 1 1 0] [test_block 998 0]
             [test_arbitrary kInsertionHookAfterAudioFramesAtTick (Some 0)
                true]])
        by (vm_compute; reflexivity).
      rewrite Hunits. apply Exists_cons. left. vm_compute. discriminate.
Defined.

End ObuSequencerFacts.
